(** * Barrier control: Modbus codec, board transport and barrier actuation

    A shallow embedding of the relay-board controller:
    - [Buf]: the Node.js [Buffer] operations the codec uses;
    - [Codec]: CRC-16, the Modbus/TCP and RTU-over-TCP framing of
      [server.js] (multi-board revision), and the coil bit unpacking of
      [readCoils];
    - [Async]: async functions as trees of synchronous steps between
      suspension points, run alone or interleaved on the event loop;
    - [Server]: the asynchronous programs of [server.js]
      ([modbusRequest], [autoDetectBoard], [heartbeatBoard],
      [latchBarrierAction], [emergencyOff]) and its timers;
    - [Api]: the barrier routes of [src/index.ts] with [config.ts];
    - [Routes]: the routes, the status report and the shutdown of
      [server.js];
    - [ApiRoutes]: the timers, the emergency-off route and the queries of
      [src/index.ts];
    - [ModbusClient]: the connection handling of [src/modbus-client.ts].

    16-bit quantities are [Z] with their range proved; bytes are
    [Byte.byte], so that a buffer is a [list byte] by type. *)

From Stdlib Require Import ZArith Lia List Bool Ascii.
From Stdlib.Strings Require Import Byte.
From stdpp Require Import gmap strings list sorting.
Import ListNotations.

(** ** Node.js Buffer operations *)

Module Buf.

Local Open Scope Z_scope.

Definition b2z (b : byte) : Z := Z.of_N (Byte.to_N b).

(** [Buffer.from([n])] stores [n & 255]. *)
Definition z2b (z : Z) : byte :=
  default x00 (Byte.of_N (Z.to_N (z mod 256))).

(** [buf.readUInt8(off)]; [None] is the RangeError of an offset outside
    the buffer. *)
Definition readUInt8 (buf : list byte) (off : nat) : option Z :=
  b2z <$> buf !! off.

Definition readUInt16LE (buf : list byte) (off : nat) : option Z :=
  match readUInt8 buf off, readUInt8 buf (S off) with
  | Some lo, Some hi => Some (lo + 256 * hi)
  | _, _ => None
  end.

(** The two bytes [buf.writeUInt16BE(v, off)] stores; [None] is the
    RangeError Node raises for a value outside 0..65535. *)
Definition writeUInt16BE (v : Z) : option (list byte) :=
  if (0 <=? v) && (v <=? 65535)
  then Some [z2b (Z.shiftr v 8); z2b (Z.land v 255)]
  else None.

(** The byte [buf.writeUInt8(v, off)] stores; [None] is the RangeError for
    a value outside 0..255. *)
Definition writeUInt8 (v : Z) : option (list byte) :=
  if (0 <=? v) && (v <=? 255) then Some [z2b v] else None.

(** The two bytes [buf.writeUInt16LE(v, off)] stores, for [v] in range. *)
Definition uint16LE (v : Z) : list byte :=
  [z2b (Z.land v 255); z2b (Z.shiftr v 8)].

(** [buf.slice(s, e)] for [0 <= s] and [0 <= e]; both ends are clamped to
    the buffer. *)
Definition slice (buf : list byte) (s e : nat) : list byte :=
  take (e - s)%nat (drop s buf).

(** Equality of buffers, decided on the byte values. *)
Definition sameBytes (a b : list byte) : bool :=
  bool_decide (b2z <$> a = b2z <$> b).

End Buf.

(** ** CRC-16 and framing ([server.js]) *)

Module Codec.

Import Buf.
Local Open Scope Z_scope.

(** The range of the CRC register. *)
Definition u16 (c : Z) : Prop := 0 <= c < 65536.

(** One turn of the inner loop of [crc16]:
    [crc = (crc & 1) ? (crc >> 1) ^ 0xA001 : crc >> 1]. *)
Definition crc_shift (crc : Z) : Z :=
  if Z.land crc 1 =? 0 then Z.shiftr crc 1
  else Z.lxor (Z.shiftr crc 1) 0xA001.

(** One turn of the outer loop: [crc ^= buffer[i]], then eight shifts. *)
Definition crc_byte (crc : Z) (b : byte) : Z :=
  Nat.iter 8 crc_shift (Z.lxor crc (b2z b)).

Definition crc16 (buffer : list byte) : Z :=
  fold_left crc_byte buffer 0xFFFF.

Definition appendCRC (buffer : list byte) : list byte :=
  buffer ++ uint16LE (crc16 buffer).

Definition verifyCRC (buffer : list byte) : bool :=
  if (length buffer <? 4)%nat then false
  else match readUInt16LE buffer (length buffer - 2) with
       | Some received =>
           crc16 (slice buffer 0 (length buffer - 2)) =? received
       | None => false
       end.

(** Flipping bit [k] of byte [i] of a buffer (the single-bit corruption
    the CRC is meant to catch). *)
Definition flipBit (buffer : list byte) (i : nat) (k : Z) : list byte :=
  alter (fun b => z2b (Z.lxor (b2z b) (2 ^ k))) i buffer.

(** What a failed exchange rejects with. *)
Inductive Err : Type :=
| ModbusException (fc code : Z)
| CrcMismatch
| ModbusTimeout
| SocketError
| SocketClosed
| RangeError
| TypeError
| NotConnected (boardName : string)
| UnknownBarrier (barrierId : Z).

(** What a response parser hands back: [null] (keep buffering), the PDU,
    or a thrown error. *)
Inductive Parsed : Type :=
| Incomplete
| Pdu (pdu : list byte)
| Raise (e : Err).

Definition readAt (response : list byte) (off : nat) (k : Z -> Parsed)
  : Parsed :=
  match readUInt8 response off with
  | Some v => k v
  | None => Raise RangeError
  end.

(** [buildTCPFrame]: the board's transaction counter is pre-incremented and
    returned; the frame is [None] when a header write raises RangeError.
    The counter is an integer here and a double in the code, the same
    below 2^53. *)
Definition buildTCPFrame (transactionId unitId : Z) (fc : byte)
    (data : list byte) : Z * option (list byte) :=
  let transactionId' := transactionId + 1 in
  let tid := Z.land transactionId' 0xFFFF in
  let pdu := fc :: data in
  (transactionId',
   match writeUInt16BE tid, writeUInt16BE 0,
         writeUInt16BE (Z.of_nat (length pdu) + 1), writeUInt8 unitId with
   | Some t, Some p, Some l, Some u => Some (t ++ p ++ l ++ u ++ pdu)
   | _, _, _, _ => None
   end).

Definition buildRTUFrame (unitId : Z) (fc : byte) (data : list byte)
  : list byte :=
  appendCRC (z2b unitId :: fc :: data).

Definition parseTCPResponse (response : list byte) : Parsed :=
  if (length response <? 9)%nat then Incomplete
  else
    readAt response 7 (fun fc =>
      if negb (Z.land fc 0x80 =? 0)
      then readAt response 8 (fun code =>
             Raise (ModbusException (Z.land fc 0x7F) code))
      else Pdu (drop 7 response)).

Definition parseRTUResponse (response : list byte) : Parsed :=
  if (length response <? 5)%nat then Incomplete
  else
    readAt response 1 (fun fc =>
      if negb (Z.land fc 0x80 =? 0)
      then
        if (5 <=? length response)%nat && verifyCRC (slice response 0 5)
        then readAt response 2 (fun code =>
               Raise (ModbusException (Z.land fc 0x7F) code))
        else Incomplete
      else
        let continue (expectedLen : nat) : Parsed :=
          if (length response <? expectedLen)%nat then Incomplete
          else
            let frame := slice response 0 expectedLen in
            if negb (verifyCRC frame) then Raise CrcMismatch
            else Pdu (slice frame 1 (expectedLen - 2))
        in
        if (fc =? 0x01) || (fc =? 0x02)
        then
          if (length response <? 4)%nat then Incomplete
          else readAt response 2 (fun byteCount =>
                 continue (3 + Z.to_nat byteCount + 2)%nat)
        else if (fc =? 0x05) || (fc =? 0x06) then continue 8%nat
        else continue (length response)).

(** The loop body of [readCoils]:
    [!!(pdu[2 + Math.floor(i / 8)] & (1 << (i % 8)))]; indexing past the
    end of the PDU gives [undefined], and [undefined & m] is 0. *)
Definition coilAt (pdu : list byte) (i : Z) : bool :=
  match pdu !! Z.to_nat (2 + i / 8) with
  | Some b => negb (Z.land (b2z b) (Z.shiftl 1 (i mod 8)) =? 0)
  | None => false
  end.

(** The [for (let i = 0; i < qty; i++) coils.push(...)] loop. *)
Definition unpackCoils (pdu : list byte) (qty : Z) : list bool :=
  map (fun i => coilAt pdu (Z.of_nat i)) (seq 0 (Z.to_nat qty)).

(** The response shapes of the two supported function codes: Read Coils
    answers with a byte count followed by that many data bytes, Write
    Single Coil echoes the four request bytes. *)
Definition responseShape (fc : byte) (payload : list byte) : bool :=
  match fc, payload with
  | x01, n :: data => Z.of_nat (length data) =? b2z n
  | x05, _ => (length payload =? 4)%nat
  | _, _ => false
  end.

End Codec.

(** ** Asynchronous programs

    An [async] function is a tree of synchronous steps on the shared
    program state ([Get], [Put]) separated by suspension points ([Await]):
    the event loop runs a task from one [await] to the next without
    interruption, and other tasks run while it is suspended. *)

Module Async.

Section Programs.

Context {St Req Ans E : Type}.

Inductive Async (A : Type) : Type :=
| Ret (a : A)
| Throw (e : E)
| Get (k : St -> Async A)
| Put (s : St) (k : Async A)
| Await (r : Req) (k : Ans -> Async A).

Arguments Ret {A} a.
Arguments Throw {A} e.
Arguments Get {A} k.
Arguments Put {A} s k.
Arguments Await {A} r k.

(** Continue with [ok] after a normal return and with [err] after a throw:
    the common shape of sequencing, [try/catch] and [try/finally]. *)
Fixpoint handle {A B : Type} (m : Async A) (ok : A -> Async B)
    (err : E -> Async B) : Async B :=
  match m with
  | Ret a => ok a
  | Throw e => err e
  | Get k => Get (fun s => handle (k s) ok err)
  | Put s k => Put s (handle k ok err)
  | Await r k => Await r (fun a => handle (k a) ok err)
  end.

Definition bind {A B : Type} (m : Async A) (f : A -> Async B) : Async B :=
  handle m f Throw.

Definition tryCatch {A : Type} (m : Async A) (h : E -> Async A) : Async A :=
  handle m Ret h.

Definition tryFinally {A : Type} (m : Async A) (fin : Async unit)
  : Async A :=
  handle m (fun a => bind fin (fun _ => Ret a))
           (fun e => bind fin (fun _ => Throw e)).

Definition modify (f : St -> St) : Async unit :=
  Get (fun s => Put (f s) (Ret tt)).

(** How a promise settles. *)
Inductive Result (A : Type) : Type :=
| Ok (a : A)
| Error (e : E).

Arguments Ok {A} a.
Arguments Error {A} e.

(** A task after running up to its next suspension point. *)
Inductive Susp (A : Type) : Type :=
| Done (r : Result A)
| Blocked (r : Req) (k : Ans -> Async A).

Arguments Done {A} r.
Arguments Blocked {A} r k.

Fixpoint advance {A : Type} (m : Async A) (s : St) : St * Susp A :=
  match m with
  | Ret a => (s, Done (Ok a))
  | Throw e => (s, Done (Error e))
  | Get k => advance (k s) s
  | Put s' k => advance k s'
  | Await r k => (s, Blocked r k)
  end.

(** The exchanges of a run, oldest first: the request, its answer, and
    the program state at the moment the issuing task suspended on it. *)
Definition Trace : Type := list (Req * Ans * St).

(** A task run alone to completion: the [n]-th request recorded in the
    trace is answered by [net n]. *)
Fixpoint run {A : Type} (net : nat -> Ans) (m : Async A) (tr : Trace)
    (s : St) : Trace * St * Result A :=
  match m with
  | Ret a => (tr, s, Ok a)
  | Throw e => (tr, s, Error e)
  | Get k => run net (k s) tr s
  | Put s' k => run net k tr s'
  | Await r k =>
      let a := net (length tr) in run net (k a) (tr ++ [(r, a, s)]) s
  end.

(** [m] keeps the final state of every run related by [R] to its initial
    state. *)
Definition preserves (R : St -> St -> Prop) {A : Type} (m : Async A)
  : Prop :=
  forall (net : nat -> Ans) (tr : Trace) (s : St), R s (run net m tr s).1.2.

(** [P] holds at every suspension point of every run of [m] started in a
    state with [P], and in the final state. *)
Definition throughout (P : St -> Prop) {A : Type} (m : Async A) : Prop :=
  forall (net : nat -> Ans) (tr : Trace) (s : St),
    P s ->
    P (run net m tr s).1.2 /\
    exists tr1, (run net m tr s).1.1 = tr ++ tr1 /\
                Forall (fun x => P x.2) tr1.

(** *** Turn by turn

    What can be said of a task whatever runs between its turns. *)

(** [m] changes the state along [R] only: every state it puts is related
    by [R] to the state it replaces, in whatever state [m] is resumed. *)
Fixpoint steps (R : St -> St -> Prop) {A : Type} (m : Async A)
    (s : St) : Prop :=
  match m with
  | Ret _ | Throw _ => True
  | Get k => steps R (k s) s
  | Put s' k => R s s' /\ steps R k s'
  | Await _ k => forall a s', steps R (k a) s'
  end.

Definition stepwise (R : St -> St -> Prop) {A : Type}
    (m : Async A) : Prop :=
  forall s, steps R m s.

(** Started in [s], [m] suspends only in states with [I] and ends in a
    state with [Q], as long as it is resumed in states with [I]. *)
Fixpoint holds (I : St -> Prop) {A : Type} (Q : Result A -> St -> Prop)
    (m : Async A) (s : St) : Prop :=
  match m with
  | Ret a => Q (Ok a) s
  | Throw e => Q (Error e) s
  | Get k => holds I Q (k s) s
  | Put s' k => holds I Q k s'
  | Await _ k => I s /\ forall a s', I s' -> holds I Q (k a) s'
  end.

(** [m] keeps [I]: started and resumed in states with [I], it suspends
    and ends in states with [I]. *)
Definition keeps (I : St -> Prop) {A : Type} (m : Async A)
  : Prop :=
  forall s, I s -> holds I (fun _ s' => I s') m s.

(** *** Tasks sharing the event loop

    Suspended tasks wait in a pool, each on its request; the schedule
    says which task starts next and which pending request completes next,
    with what answer. A task runs from its start or resumption to its
    next suspension point; every issued request is logged with the label
    of its task and the state at that moment. *)

Context {L : Type} `{EqDecision L}.

Inductive Sched : Type :=
| Spawn (l : L) (m : Async unit)
| Deliver (l : L) (a : Ans).

Record Loop : Type := {
  pool : list (L * (Ans -> Async unit));
  issued : list (L * Req * St);
  now : St
}.

(** Run task [l] from [m] to its next suspension point. *)
Definition resume (l : L) (m : Async unit) (lp : Loop) : Loop :=
  match advance m (now lp) with
  | (s', Blocked r k) =>
      {| pool := pool lp ++ [(l, k)];
         issued := issued lp ++ [(l, r, s')];
         now := s' |}
  | (s', Done _) =>
      {| pool := pool lp; issued := issued lp; now := s' |}
  end.

Fixpoint takeTask (l : L) (p : list (L * (Ans -> Async unit)))
  : option ((Ans -> Async unit) * list (L * (Ans -> Async unit))) :=
  match p with
  | [] => None
  | (l', k) :: p' =>
      if decide (l' = l) then Some (k, p')
      else match takeTask l p' with
           | Some (k', rest) => Some (k', (l', k) :: rest)
           | None => None
           end
  end.

Definition schedStep (lp : Loop) (ev : Sched) : Loop :=
  match ev with
  | Spawn l m => resume l m lp
  | Deliver l a =>
      match takeTask l (pool lp) with
      | Some (k, rest) =>
          resume l (k a)
                 {| pool := rest; issued := issued lp; now := now lp |}
      | None => lp
      end
  end.

Definition interleave (evs : list Sched) (s : St) : Loop :=
  foldl schedStep {| pool := []; issued := []; now := s |} evs.

(** The suspended tasks with label [l]. *)
Definition waiting (l : L) (lp : Loop)
  : list (L * (Ans -> Async unit)) :=
  filter (fun lk => lk.1 = l) (pool lp).

(** A step of the schedule that is not the start of a task labelled [l]
    and starts nothing but tasks that change the state along [R]. *)
Definition aside (R : St -> St -> Prop) (l : L) (ev : Sched)
  : Prop :=
  match ev with
  | Spawn l' m => l' <> l /\ stepwise R m
  | Deliver _ _ => True
  end.

(** The loop as the task labelled [l] sees it: each of its requests went
    out in a state with [I]; the other suspended tasks change the state
    along [R]; at most one task labelled [l] is suspended, and when one
    is, [I] holds and the task, resumed in a state with [I], suspends in
    such states and ends in one with [Q]; when none is, [Q] holds. *)
Definition watching (R : St -> St -> Prop) (I Q : St -> Prop) (l : L)
    (lp : Loop) : Prop :=
  Forall (fun x => x.1.1 = l -> I x.2) (issued lp) /\
  Forall (fun lk => lk.1 <> l -> forall a, stepwise R (lk.2 a)) (pool lp) /\
  match waiting l lp with
  | [] => Q (now lp)
  | [(_, k)] =>
      (forall a s, I s -> holds I (fun _ s' => Q s') (k a) s) /\ I (now lp)
  | _ => False
  end.

End Programs.

Arguments Async : clear implicits.
Arguments Result : clear implicits.
Arguments Susp : clear implicits.
Arguments Trace : clear implicits.
Arguments Ret {St Req Ans E A} a.
Arguments Throw {St Req Ans E A} e.
Arguments Get {St Req Ans E A} k.
Arguments Put {St Req Ans E A} s k.
Arguments Await {St Req Ans E A} r k.
Arguments Ok {E A} a.
Arguments Error {E A} e.
Arguments Done {St Req Ans E A} r.
Arguments Blocked {St Req Ans E A} r k.
Arguments Sched : clear implicits.
Arguments Loop : clear implicits.

End Async.

(** ** The multi-board server ([server.js]) *)

Module BoardCfg.
Record t : Type := { host : string; port : Z; unitId : Z; channels : Z;
                     name : string }.
End BoardCfg.

Module Barrier.
Record t : Type := { board : string; lift : Z; close : Z; stop : Z;
                     name : string }.
End Barrier.

Module Server.

Import Buf Codec Async.
Local Open Scope Z_scope.

Notation "'let*' x ':=' m 'in' k" := (bind m (fun x => k))
  (at level 10, x pattern, m at level 100, k at level 200).

(** The static registries. [BOARDS] keeps the order of
    [Object.entries(BOARDS)]. *)
Record Config : Type := {
  BOARDS : list (string * BoardCfg.t);
  BARRIERS : gmap Z Barrier.t
}.

(** [boardState[key]]: the per-board runtime record. *)
Record BoardState : Type := {
  reachable : bool;
  modeDetected : bool;
  useRTU : bool;
  commandLock : bool;
  coils : list bool;
  transactionId : Z
}.

Inductive Details : Type :=
| ActionDetails (barrier : string) (barrierId : Z) (channel : option Z)
| ReleaseDetails (barrier : string)
| SweepDetails (boards : list string).

(** An audit entry, without its wall-clock timestamp. *)
Record AuditEntry : Type := {
  action : string;
  source : string;
  details : Details
}.

Inductive ConsoleLine : Type :=
| LogInfo (boardName mode : string)
| LogOnline (boardName : string) (snapshot : list bool)
| LogOffline (boardName : string) (e : Err)
| LogReleaseFailed (barrierName : string) (e : Err)
| LogAudit (entry : AuditEntry).

(** What a pending [setTimeout] will run: the closure armed by a close
    action, identified by the barrier it captured. *)
Inductive TimerTask : Type :=
| CloseRelease (barrierId : Z).

(** The mutable globals of the process, with the event loop's pending
    timeouts. A barrier without entry in [closeTimers] has [undefined] or
    [null] there. *)
Record State : Type := {
  boardState : gmap string BoardState;
  closeTimers : gmap Z nat;
  timers : list (nat * TimerTask);
  nextTimer : nat;
  auditEntries : list AuditEntry;
  console : list ConsoleLine
}.

(** One socket conversation: the frame written after connecting, labelled
    with the call [modbusRequest(boardKey, fc, data)] that issued it. *)
Record Request : Type := {
  to_board : string;
  to_host : string;
  to_port : Z;
  fc : byte;
  data : list byte;
  frame : list byte
}.

(** What the socket of one request delivers, in order. *)
Inductive NetEvent : Type :=
| Data (chunk : list byte)
| SocketFailed
| SocketEnded
| Deadline.

Definition Prog (A : Type) : Type := Async State Request (list NetEvent) Err A.

Definition MAX_AUDIT_ENTRIES : nat := 500.

Definition with_board (key : string) (f : BoardState -> BoardState)
    (s : State) : State :=
  {| boardState := alter f key (boardState s);
     closeTimers := closeTimers s; timers := timers s;
     nextTimer := nextTimer s; auditEntries := auditEntries s;
     console := console s |}.

Definition set_reachable (v : bool) (b : BoardState) : BoardState :=
  {| reachable := v; modeDetected := modeDetected b; useRTU := useRTU b;
     commandLock := commandLock b; coils := coils b;
     transactionId := transactionId b |}.

Definition set_modeDetected (v : bool) (b : BoardState) : BoardState :=
  {| reachable := reachable b; modeDetected := v; useRTU := useRTU b;
     commandLock := commandLock b; coils := coils b;
     transactionId := transactionId b |}.

Definition set_useRTU (v : bool) (b : BoardState) : BoardState :=
  {| reachable := reachable b; modeDetected := modeDetected b; useRTU := v;
     commandLock := commandLock b; coils := coils b;
     transactionId := transactionId b |}.

Definition set_commandLock (v : bool) (b : BoardState) : BoardState :=
  {| reachable := reachable b; modeDetected := modeDetected b;
     useRTU := useRTU b; commandLock := v; coils := coils b;
     transactionId := transactionId b |}.

Definition set_coils (v : list bool) (b : BoardState) : BoardState :=
  {| reachable := reachable b; modeDetected := modeDetected b;
     useRTU := useRTU b; commandLock := commandLock b; coils := v;
     transactionId := transactionId b |}.

Definition set_transactionId (v : Z) (b : BoardState) : BoardState :=
  {| reachable := reachable b; modeDetected := modeDetected b;
     useRTU := useRTU b; commandLock := commandLock b; coils := coils b;
     transactionId := v |}.

Definition with_timers (ct : gmap Z nat) (ts : list (nat * TimerTask))
    (next : nat) (s : State) : State :=
  {| boardState := boardState s; closeTimers := ct; timers := ts;
     nextTimer := next; auditEntries := auditEntries s;
     console := console s |}.

Definition with_console (line : ConsoleLine) (s : State) : State :=
  {| boardState := boardState s; closeTimers := closeTimers s;
     timers := timers s; nextTimer := nextTimer s;
     auditEntries := auditEntries s; console := console s ++ [line] |}.

Definition with_auditEntries (es : list AuditEntry) (s : State) : State :=
  {| boardState := boardState s; closeTimers := closeTimers s;
     timers := timers s; nextTimer := nextTimer s;
     auditEntries := es; console := console s |}.

(** [clearTimeout(h)]: a pending timeout is dropped, anything else is
    ignored. *)
Definition clearTimeout (h : nat) (s : State) : State :=
  with_timers (closeTimers s)
              (filter (fun t => bool_decide (t.1 <> h)) (timers s))
              (nextTimer s) s.

(** [clearTimeout(closeTimers[id]); closeTimers[id] = null] for the
    handle [h] found there. *)
Definition dropCloseTimer (barrierId : Z) (h : nat) (s : State) : State :=
  let s' := clearTimeout h s in
  with_timers (delete barrierId (closeTimers s')) (timers s')
              (nextTimer s') s'.

Fixpoint assoc {V : Type} (key : string) (l : list (string * V))
  : option V :=
  match l with
  | [] => None
  | (k, v) :: l' => if bool_decide (k = key) then Some v else assoc key l'
  end.

Section WithConfig.

Variable conf : Config.

(** The state built at start-up by the loop over [Object.entries(BOARDS)]. *)
Definition initBoard (cfg : BoardCfg.t) : BoardState :=
  {| reachable := false; modeDetected := false; useRTU := false;
     commandLock := false;
     coils := replicate (Z.to_nat (BoardCfg.channels cfg)) false;
     transactionId := 0 |}.

Definition initState : State :=
  {| boardState :=
       foldl (fun m kv => <[kv.1 := initBoard kv.2]> m) ∅ (BOARDS conf);
     closeTimers := ∅; timers := []; nextTimer := 0;
     auditEntries := []; console := [] |}.

(** [BOARDS[boardKey]] and [boardState[boardKey]]; reading a field of a
    missing entry is a TypeError. *)
Definition boardCfg (boardKey : string) : Prog BoardCfg.t :=
  match assoc boardKey (BOARDS conf) with
  | Some cfg => Ret cfg
  | None => Throw TypeError
  end.

Definition getBoard (boardKey : string) : Prog BoardState :=
  Get (fun s =>
    match boardState s !! boardKey with
    | Some b => Ret b
    | None => Throw TypeError
    end).

Definition setBoard (boardKey : string) (f : BoardState -> BoardState)
  : Prog unit :=
  modify (with_board boardKey f).

Definition log (line : ConsoleLine) : Prog unit :=
  modify (with_console line).

Definition fromOption {A : Type} (o : option A) (e : Err) : Prog A :=
  match o with
  | Some a => Ret a
  | None => Throw e
  end.

(** The socket handlers of [modbusRequest]: chunks are accumulated and the
    whole buffer re-parsed on each; the first of parse result, parse
    error, socket error, close or deadline settles the promise. A socket
    on which nothing more happens runs into the deadline. *)
Fixpoint settle (rtu : bool) (buf : list byte) (events : list NetEvent)
  : Result Err (list byte) :=
  match events with
  | [] => Error ModbusTimeout
  | Data chunk :: rest =>
      let buf' := buf ++ chunk in
      match (if rtu then parseRTUResponse buf' else parseTCPResponse buf')
      with
      | Pdu pdu => Ok pdu
      | Raise e => Error e
      | Incomplete => settle rtu buf' rest
      end
  | SocketFailed :: _ => Error SocketError
  | SocketEnded :: _ => Error SocketClosed
  | Deadline :: _ => Error ModbusTimeout
  end.

Definition ofResult {A : Type} (r : Result Err A) : Prog A :=
  match r with
  | Ok a => Ret a
  | Error e => Throw e
  end.

Definition modbusRequest (boardKey : string) (fc : byte) (data : list byte)
  : Prog (list byte) :=
  let* cfg := boardCfg boardKey in
  let* state := getBoard boardKey in
  let* frame :=
    if useRTU state
    then Ret (buildRTUFrame (BoardCfg.unitId cfg) fc data)
    else
      let built :=
        buildTCPFrame (transactionId state) (BoardCfg.unitId cfg) fc data in
      let* _ := setBoard boardKey (set_transactionId built.1) in
      fromOption built.2 RangeError
  in
  Await {| to_board := boardKey; to_host := BoardCfg.host cfg;
           to_port := BoardCfg.port cfg; fc := fc; data := data;
           frame := frame |}
    (fun events =>
       let* state := getBoard boardKey in
       ofResult (settle (useRTU state) [] events)).

Definition readCoils (boardKey : string) (startAddr qty : Z)
  : Prog (list bool) :=
  let* a := fromOption (writeUInt16BE startAddr) RangeError in
  let* q := fromOption (writeUInt16BE qty) RangeError in
  let* pdu := modbusRequest boardKey x01 (a ++ q) in
  Ret (unpackCoils pdu qty).

Definition writeCoil (boardKey : string) (addr : Z) (value : bool)
  : Prog unit :=
  let* a := fromOption (writeUInt16BE addr) RangeError in
  let* v := fromOption (writeUInt16BE (if value then 0xFF00 else 0x0000))
                       RangeError in
  let* _ := modbusRequest boardKey x05 (a ++ v) in
  Ret tt.

Definition autoDetectBoard (boardKey : string) : Prog bool :=
  let* cfg := boardCfg boardKey in
  let* _ := getBoard boardKey in
  let* a := fromOption (writeUInt16BE 0) RangeError in
  let* q := fromOption (writeUInt16BE (BoardCfg.channels cfg)) RangeError in
  let testData := a ++ q in
  let* _ := setBoard boardKey (set_useRTU false) in
  handle (modbusRequest boardKey x01 testData)
    (fun _ =>
       let* _ := log (LogInfo (BoardCfg.name cfg) "TCP mode") in Ret true)
    (fun _ =>
       let* _ := setBoard boardKey (set_useRTU true) in
       handle (modbusRequest boardKey x01 testData)
         (fun _ =>
            let* _ := log (LogInfo (BoardCfg.name cfg) "RTU mode") in
            Ret true)
         (fun _ => Ret false)).

Definition heartbeatBoard (boardKey : string) : Prog unit :=
  let* cfg := boardCfg boardKey in
  let* state := getBoard boardKey in
  if commandLock state then Ret tt
  else
    let* detected :=
      if modeDetected state then Ret true
      else
        let* d := autoDetectBoard boardKey in
        let* _ := setBoard boardKey (set_modeDetected d) in
        Ret d
    in
    if negb detected then Ret tt
    else
      handle (readCoils boardKey 0 (BoardCfg.channels cfg))
        (fun coils =>
           let* _ := setBoard boardKey (set_coils coils) in
           let* state := getBoard boardKey in
           if negb (reachable state)
           then
             let* _ := setBoard boardKey (set_reachable true) in
             log (LogOnline (BoardCfg.name cfg) coils)
           else Ret tt)
        (fun err =>
           let* state := getBoard boardKey in
           let* _ :=
             if reachable state
             then
               let* _ := setBoard boardKey (set_reachable false) in
               log (LogOffline (BoardCfg.name cfg) err)
             else Ret tt
           in
           setBoard boardKey (set_modeDetected false)).

(** [audit]: the entry goes into the 500-entry ring and to the sinks
    (file, event stream, console), of which the console line stands here. *)
Definition audit (action : string) (details : Details) (source : string)
  : Prog unit :=
  let entry := {| action := action; source := source; details := details |} in
  let* _ :=
    modify (fun s =>
      let pushed := auditEntries s ++ [entry] in
      with_auditEntries
        (if (MAX_AUDIT_ENTRIES <? length pushed)%nat then drop 1 pushed
         else pushed) s)
  in
  log (LogAudit entry).

(** [if (closeTimers[id]) { clearTimeout(closeTimers[id]);
    closeTimers[id] = null; }] *)
Definition cancelTimer (barrierId : Z) (s : State) : State :=
  match closeTimers s !! barrierId with
  | Some h => dropCloseTimer barrierId h s
  | None => s
  end.

Definition cancelCloseTimer (barrierId : Z) : Prog unit :=
  modify (cancelTimer barrierId).

(** [closeTimers[id] = setTimeout(..., CLOSE_RELEASE_MS)] *)
Definition armTimer (barrierId : Z) (s : State) : State :=
  let h := nextTimer s in
  with_timers (<[barrierId := h]> (closeTimers s))
              (timers s ++ [(h, CloseRelease barrierId)])
              (S h) s.

Definition armCloseTimer (barrierId : Z) : Prog unit :=
  modify (armTimer barrierId).

(** [barrier[action]] for the three action names, the only ones the
    route lets through: a coil index. Any other name stands as [None]. *)
Definition actionCoil (barrier : Barrier.t) (action : string) : option Z :=
  if bool_decide (action = "lift") then Some (Barrier.lift barrier)
  else if bool_decide (action = "close") then Some (Barrier.close barrier)
  else if bool_decide (action = "stop") then Some (Barrier.stop barrier)
  else None.

(** The [try] block of [latchBarrierAction]. *)
Definition actionWrites (barrierId : Z) (barrier : Barrier.t)
    (action : string) : Prog unit :=
  let boardKey := Barrier.board barrier in
  if bool_decide (action = "lift") then
    let* _ := cancelCloseTimer barrierId in
    let* _ := writeCoil boardKey (Barrier.close barrier) false in
    writeCoil boardKey (Barrier.lift barrier) true
  else if bool_decide (action = "close") then
    let* _ := cancelCloseTimer barrierId in
    let* _ := writeCoil boardKey (Barrier.lift barrier) false in
    let* _ := writeCoil boardKey (Barrier.close barrier) true in
    armCloseTimer barrierId
  else if bool_decide (action = "stop") then
    let* _ := cancelCloseTimer barrierId in
    let* _ := writeCoil boardKey (Barrier.lift barrier) false in
    let* _ := writeCoil boardKey (Barrier.close barrier) false in
    writeCoil boardKey (Barrier.stop barrier) true
  else Ret tt.

Definition latchBarrierAction (barrierId : Z) (action source : string)
  : Prog unit :=
  let* barrier := fromOption (BARRIERS conf !! barrierId)
                             (UnknownBarrier barrierId) in
  let boardKey := Barrier.board barrier in
  let* state := getBoard boardKey in
  let* _ := if reachable state then Ret tt
            else let* cfg := boardCfg boardKey in
                 Throw (NotConnected (BoardCfg.name cfg)) in
  let* _ := setBoard boardKey (set_commandLock true) in
  let* _ :=
    tryFinally (actionWrites barrierId barrier action)
               (setBoard boardKey (set_commandLock false))
  in
  audit ("barrier_" +:+ action)
        (ActionDetails (Barrier.name barrier) barrierId
           ((fun c => c + 1) <$> actionCoil barrier action))
        source.

(** The callback a close action hands to [setTimeout]. *)
Definition forgetTimer (barrierId : Z) (s : State) : State :=
  with_timers (delete barrierId (closeTimers s)) (timers s) (nextTimer s) s.

Definition closeAutoRelease (barrierId : Z) : Prog unit :=
  let* barrier := fromOption (BARRIERS conf !! barrierId) TypeError in
  let boardKey := Barrier.board barrier in
  let* _ :=
    tryCatch
      (let* _ := writeCoil boardKey (Barrier.close barrier) false in
       audit "close_auto_release" (ReleaseDetails (Barrier.name barrier))
             "system")
      (fun e => log (LogReleaseFailed (Barrier.name barrier) e))
  in
  modify (forgetTimer barrierId).

(** [for (let i = from; i < channels; i++) await writeCoil(boardKey, i,
    false)], by the number of turns left. *)
Fixpoint sweepChannels (boardKey : string) (from : Z) (turns : nat)
  : Prog unit :=
  match turns with
  | O => Ret tt
  | S turns' =>
      let* _ := writeCoil boardKey from false in
      sweepChannels boardKey (from + 1) turns'
  end.

Fixpoint sweepBoards (boards : list (string * BoardCfg.t)) : Prog unit :=
  match boards with
  | [] => Ret tt
  | (boardKey, cfg) :: rest =>
      let* state := getBoard boardKey in
      let* _ :=
        if negb (reachable state) then Ret tt
        else
          let* _ := setBoard boardKey (set_commandLock true) in
          tryFinally
            (sweepChannels boardKey 0 (Z.to_nat (BoardCfg.channels cfg)))
            (setBoard boardKey (set_commandLock false))
      in
      sweepBoards rest
  end.

(** [for (const key of Object.keys(closeTimers)) if (closeTimers[key])
    { clearTimeout(closeTimers[key]); closeTimers[key] = null; }] *)
Definition cancelAll (s : State) : State :=
  foldr (fun kh s' => dropCloseTimer kh.1 kh.2 s') s
        (map_to_list (closeTimers s)).

Definition cancelAllCloseTimers : Prog unit :=
  modify cancelAll.

Definition emergencyOff (source : string) : Prog unit :=
  let* _ := sweepBoards (BOARDS conf) in
  let* _ := cancelAllCloseTimers in
  audit "emergency_off" (SweepDetails ((BOARDS conf).*1)) source.

(** *** The event loop, one handler at a time

    What the process reacts to: a barrier action, an emergency-off, a
    heartbeat tick of one board, a timeout that has come due. *)
Inductive Event : Type :=
| Action (barrierId : Z) (action source : string)
| Sweep (source : string)
| Beat (boardKey : string)
| TimerDue (h : nat).

Definition pendingTask (h : nat) (ts : list (nat * TimerTask))
  : option TimerTask :=
  snd <$> find (fun t => bool_decide (t.1 = h)) ts.

(** A due timeout leaves the pending list and its callback runs; a handle
    that is not pending (cleared, or already fired) does nothing. *)
Definition fireTimer (h : nat) : Prog unit :=
  Get (fun s =>
    match pendingTask h (timers s) with
    | Some (CloseRelease barrierId) =>
        Put (clearTimeout h s) (closeAutoRelease barrierId)
    | None => Ret tt
    end).

Definition handler (ev : Event) : Prog unit :=
  match ev with
  | Action barrierId action source =>
      latchBarrierAction barrierId action source
  | Sweep source => emergencyOff source
  | Beat boardKey => heartbeatBoard boardKey
  | TimerDue h => fireTimer h
  end.

(** The handlers of [evs], each run to completion before the next. *)
Fixpoint runEvents (net : nat -> list NetEvent) (evs : list Event)
    (w : Trace State Request (list NetEvent)) (s : State)
  : Trace State Request (list NetEvent) * State :=
  match evs with
  | [] => (w, s)
  | ev :: evs' =>
      let r := run net (handler ev) w s in
      runEvents net evs' r.1.1 r.1.2
  end.

End WithConfig.

(** *** Vocabulary of the statements about [server.js] *)

(** The request [modbusRequest(key, fc, data)] puts on the wire from a
    board in state [b]. *)
Definition requestOf (key : string) (cfg : BoardCfg.t) (b : BoardState)
    (fc : byte) (data : list byte) : Request :=
  {| to_board := key; to_host := BoardCfg.host cfg;
     to_port := BoardCfg.port cfg; fc := fc; data := data;
     frame :=
       if useRTU b then buildRTUFrame (BoardCfg.unitId cfg) fc data
       else default []
              (buildTCPFrame (transactionId b) (BoardCfg.unitId cfg)
                 fc data).2 |}.

(** The state once the frame is built: only a TCP-dialect board's
    transaction counter has moved. *)
Definition afterSend (key : string) (s : State) : State :=
  match boardState s !! key with
  | Some b =>
      if useRTU b then s
      else with_board key (set_transactionId (transactionId b + 1)) s
  | None => s
  end.

(** The call behind a trace entry: board, function code, request data. *)
Definition logical (x : Request * list NetEvent * State)
  : string * byte * list byte :=
  (to_board x.1.1, fc x.1.1, data x.1.1).

(** The request data of [writeCoil(_, addr, value)] and of
    [readCoils(_, startAddr, qty)]. *)
Definition coilData (addr : Z) (value : bool) : list byte :=
  [z2b (Z.shiftr addr 8); z2b (Z.land addr 255);
   if value then xff else x00; x00].

Definition readData (startAddr qty : Z) : list byte :=
  [z2b (Z.shiftr startAddr 8); z2b (Z.land startAddr 255);
   z2b (Z.shiftr qty 8); z2b (Z.land qty 255)].

Definition wfBoard (cfg : BoardCfg.t) : Prop :=
  0 <= BoardCfg.unitId cfg <= 255 /\ 0 <= BoardCfg.channels cfg <= 65535.

(** Every configured board has a sane unit id and channel count, no key is
    listed twice, and every barrier sits on a configured board. *)
Definition wfConfig (conf : Config) : Prop :=
  Forall (fun kc => wfBoard kc.2) (BOARDS conf) /\
  NoDup (BOARDS conf).*1 /\
  forall id barrier, BARRIERS conf !! id = Some barrier ->
    is_Some (assoc (Barrier.board barrier) (BOARDS conf)).

(** Every configured board has its runtime record. *)
Definition registered (conf : Config) (s : State) : Prop :=
  forall key cfg, assoc key (BOARDS conf) = Some cfg ->
    is_Some (boardState s !! key).

(** The two detection probes: the same Read Coils call for all channels
    from address 0, framed as Modbus/TCP with the board's next transaction
    id, and as RTU-over-TCP. *)
Definition tcpProbe (key : string) (cfg : BoardCfg.t) (b : BoardState)
  : Request :=
  requestOf key cfg (set_useRTU false b) x01
            (readData 0 (BoardCfg.channels cfg)).

Definition rtuProbe (key : string) (cfg : BoardCfg.t) (b : BoardState)
  : Request :=
  requestOf key cfg (set_useRTU true b) x01
            (readData 0 (BoardCfg.channels cfg)).

Definition settled (rtu : bool) (events : list NetEvent) : bool :=
  match settle rtu [] events with
  | Ok _ => true
  | Error _ => false
  end.

(** The requests of the entries a run added to the trace [w]. *)
Definition issuedSince (w w' : Trace State Request (list NetEvent))
  : list Request :=
  (drop (length w) w').*1.*1.

(** The state in which the TCP probe is in flight, and the state in which
    the RTU probe is. *)
Definition tcpProbing (key : string) (s : State) : State :=
  afterSend key (with_board key (set_useRTU false) s).

Definition rtuProbing (key : string) (s : State) : State :=
  with_board key (set_useRTU true) (tcpProbing key s).

(** What a board's record says about its link and dialect. *)
Definition dialectOf (b : BoardState) : bool * bool * bool * list bool :=
  (reachable b, modeDetected b, useRTU b, coils b).

(** [s'] has the same boards as [s], with the same reachability, dialect
    and coil snapshot. *)
Definition sameDialect (s s' : State) : Prop :=
  forall k, dialectOf <$> boardState s' !! k = dialectOf <$> boardState s !! k.

(** [s'] differs from [s] in board records only. *)
Definition sameRest (s s' : State) : Prop :=
  closeTimers s' = closeTimers s /\ timers s' = timers s /\
  nextTimer s' = nextTimer s /\ auditEntries s' = auditEntries s /\
  console s' = console s.

(** The calls of a sweep of one board, and of all boards marked
    reachable in [s], in registry order. *)
Definition sweepCalls (key : string) (from : Z) (turns : nat)
  : list (string * byte * list byte) :=
  map (fun i => (key, x05, coilData (from + Z.of_nat i) false))
      (seq 0 turns).

Definition fullSweep (boards : list (string * BoardCfg.t)) (s : State)
  : list (string * byte * list byte) :=
  flat_map
    (fun kc =>
       match boardState s !! kc.1 with
       | Some b =>
           if reachable b
           then sweepCalls kc.1 0 (Z.to_nat (BoardCfg.channels kc.2))
           else []
       | None => []
       end)
    boards.

(** Every pending timeout is the one its barrier's [closeTimers] entry
    holds. *)
Definition tracked (s : State) : Prop :=
  forall h id, (h, CloseRelease id) ∈ timers s ->
    closeTimers s !! id = Some h.

(** The ring buffer after [audit] pushed [entry]. *)
Definition pushed (entry : AuditEntry) (entries : list AuditEntry)
  : list AuditEntry :=
  if (MAX_AUDIT_ENTRIES <? length (entries ++ [entry]))%nat
  then drop 1 (entries ++ [entry])
  else entries ++ [entry].

(** The entries whose board had its gate flag up when the request was
    issued. *)
Definition gateHeld (key : string)
    (x : Request * list NetEvent * State) : Prop :=
  commandLock <$> boardState x.2 !! key = Some true.

(** The gate flag of a board, if the board has a record. *)
Definition gateFlag (key : string) (s : State) : option bool :=
  commandLock <$> boardState s !! key.

(** [s'] has the gate flag of board [key] as [s] has it. *)
Definition sameFlag (key : string) (s s' : State) : Prop :=
  gateFlag key s' = gateFlag key s.

(** What runs beside an actuation of board [key] without being one: a
    heartbeat of any board, the callback of an auto-release timeout, an
    action on a barrier that is not on the board. *)
Inductive beside (conf : Config) (key : string) : Prog unit -> Prop :=
| beside_beat boardKey : beside conf key (heartbeatBoard conf boardKey)
| beside_timer h : beside conf key (fireTimer conf h)
| beside_action id action source :
    Barrier.board <$> BARRIERS conf !! id <> Some key ->
    beside conf key (latchBarrierAction conf id action source).

(** A step of the schedule that starts no task labelled [l] and no
    actuation of board [key]. *)
Definition besides (conf : Config) (key l : string)
    (ev : Async.Sched State Request (list NetEvent) Err string) : Prop :=
  match ev with
  | Async.Spawn l' m => l' <> l /\ beside conf key m
  | Async.Deliver _ _ => True
  end.

(** No actuation of board [key] is under way: every suspended task, with
    whatever it is resumed and whenever, leaves the gate flag of the
    board as it finds it. *)
Definition gateQuiet (key : string)
    (lp : Async.Loop State Request (list NetEvent) Err string) : Prop :=
  Forall (fun lk => forall a, Async.stepwise (sameFlag key) (lk.2 a))
         (Async.pool lp).

(** The label [l] is not in use: no task is suspended and no request was
    issued under it. *)
Definition unused (l : string)
    (lp : Async.Loop State Request (list NetEvent) Err string) : Prop :=
  Forall (fun x => x.1.1 <> l) (Async.issued lp) /\
  Forall (fun lk => lk.1 <> l) (Async.pool lp).

(** The timer bookkeeping of a state. *)
Definition timerPart (s : State)
  : gmap Z nat * list (nat * TimerTask) * nat :=
  (closeTimers s, timers s, nextTimer s).

#[global] Instance TimerTask_eq_dec : EqDecision TimerTask.
Proof. solve_decision. Defined.

(** The handles of the pending auto-release timeouts of one barrier. *)
Definition pendingFor (barrierId : Z) (s : State) : list nat :=
  (filter (fun t => t.2 = CloseRelease barrierId) (timers s)).*1.

(** Pending timeouts are tracked by [closeTimers], their handles are
    distinct and below the next handle to be handed out. *)
Definition timersOk (s : State) : Prop :=
  tracked s /\ NoDup (timers s).*1 /\
  forall t, t ∈ timers s -> (t.1 < nextTimer s)%nat.

(** The coil writes of an action, in order. *)
Definition actionCalls (barrier : Barrier.t) (action : string)
  : list (Z * bool) :=
  if bool_decide (action = "lift") then
    [(Barrier.close barrier, false); (Barrier.lift barrier, true)]
  else if bool_decide (action = "close") then
    [(Barrier.lift barrier, false); (Barrier.close barrier, true)]
  else if bool_decide (action = "stop") then
    [(Barrier.lift barrier, false); (Barrier.close barrier, false);
     (Barrier.stop barrier, true)]
  else [].

(** An exchange the board answered with a well-formed response, in the
    dialect the board record had when the request was issued. *)
Definition acked (x : Request * list NetEvent * State) : bool :=
  match boardState x.2 !! to_board x.1.1 with
  | Some b => settled (useRTU b) x.1.2
  | None => false
  end.

(** The value an exchange leaves in coil [addr] of board [key], if it is
    an acknowledged write of that coil. *)
Definition writes (key : string) (addr : Z)
    (x : Request * list NetEvent * State) : option bool :=
  if bool_decide (to_board x.1.1 = key) && sameBytes [fc x.1.1] [x05]
     && acked x
  then
    if sameBytes (data x.1.1) (coilData addr true) then Some true
    else if sameBytes (data x.1.1) (coilData addr false) then Some false
    else None
  else None.

(** The state of a coil after the exchanges of a trace: the value of the
    last acknowledged write, if any. *)
Definition coilImage (key : string) (addr : Z)
    (w : Trace State Request (list NetEvent)) : option bool :=
  foldl (fun acc x =>
           match writes key addr x with
           | Some v => Some v
           | None => acc
           end)
        None w.

(** [s'] has the timer bookkeeping of [s]. *)
Definition sameTimers (s s' : State) : Prop := timerPart s' = timerPart s.

(** A property of states that survives a change of a transaction
    counter. *)
Definition tidBlind (P : State -> Prop) : Prop :=
  forall key v s, P s -> P (with_board key (set_transactionId v) s).

(** Handle [h] has been handed out and is not pending. *)
Definition retired (h : nat) (s : State) : Prop :=
  (h < nextTimer s)%nat /\ h ∉ (timers s).*1.

(** The coils of a barrier are addressable and distinct. *)
Definition wfBarrier (barrier : Barrier.t) : Prop :=
  0 <= Barrier.lift barrier <= 65535 /\
  0 <= Barrier.close barrier <= 65535 /\
  0 <= Barrier.stop barrier <= 65535 /\
  Barrier.lift barrier <> Barrier.close barrier /\
  Barrier.lift barrier <> Barrier.stop barrier /\
  Barrier.close barrier <> Barrier.stop barrier.

(** The timers an action leaves when its writes all succeed. *)
Definition timersAfter (id : Z) (action : string) (s : State) : State :=
  if bool_decide (action = "close") then armTimer id (cancelTimer id s)
  else if bool_decide (action = "lift") || bool_decide (action = "stop")
  then cancelTimer id s
  else s.

(** Exchange [x] is the acknowledged write [c] on board [key]. *)
Definition answered (key : string) (x : Request * list NetEvent * State)
    (c : Z * bool) : Prop :=
  logical x = (key, x05, coilData c.1 c.2) /\ acked x = true.

(** The registry of the source, with the default addresses. *)
Definition defaultConfig : Config :=
  {| BOARDS :=
       [("board1",
         {| BoardCfg.host := "10.10.10.64"; BoardCfg.port := 4196;
            BoardCfg.unitId := 1; BoardCfg.channels := 6;
            BoardCfg.name := "Board 1 (Main)" |});
        ("board2",
         {| BoardCfg.host := "10.10.10.65"; BoardCfg.port := 4196;
            BoardCfg.unitId := 1; BoardCfg.channels := 3;
            BoardCfg.name := "Board 2 (Barrier 3)" |})];
     BARRIERS :=
       <[1 := {| Barrier.board := "board1"; Barrier.lift := 0;
                 Barrier.close := 1; Barrier.stop := 2;
                 Barrier.name := "Barrier 1" |}]>
       (<[2 := {| Barrier.board := "board1"; Barrier.lift := 3;
                  Barrier.close := 4; Barrier.stop := 5;
                  Barrier.name := "Barrier 2" |}]>
        (<[3 := {| Barrier.board := "board2"; Barrier.lift := 0;
                   Barrier.close := 1; Barrier.stop := 2;
                   Barrier.name := "Barrier 3" |}]> ∅)) |}.

(** A Modbus/TCP Read Coils response carrying the single data byte 5. *)
Definition oneByteReply : list NetEvent :=
  [Data [x00; x01; x00; x00; x00; x04; x01; x01; x01; x05]].

(** *** Scenarios *)

(** A network on which nothing ever answers: every exchange runs into the
    deadline. *)
Definition silentNet : nat -> list NetEvent := fun _ => [].

(** A board that drops Modbus/TCP frames and answers RTU ones: the first
    exchange times out, later ones get an RTU Read Coils response with the
    data byte 5. *)
Definition rtuOnlyNet : nat -> list NetEvent :=
  fun n =>
    match n with
    | O => []
    | S _ => [Data (buildRTUFrame 1 x01 [x01; x05])]
    end.

(** A Modbus/TCP Write Single Coil echo, and the network on which every
    exchange is answered by it. *)
Definition ackTcp : list NetEvent :=
  [Data [x00; x01; x00; x00; x00; x06; x01; x05; x00; x00; x00; x00]].

Definition ackNet : nat -> list NetEvent := fun _ => ackTcp.

(** The second exchange is never answered, all others are. *)
Definition secondLostNet : nat -> list NetEvent :=
  fun n => if (n =? 1)%nat then [] else ackTcp.

(** Both boards of the default registry online, Modbus/TCP detected. *)
Definition onlineState : State :=
  let up b := set_modeDetected true (set_reachable true b) in
  with_board "board2" up (with_board "board1" up (initState defaultConfig)).

(** Board 1 online, board 2 never reached. *)
Definition board2Down : State :=
  with_board "board1"
    (fun b => set_modeDetected true (set_reachable true b))
    (initState defaultConfig).

(** Both boards online, barrier 1 closing with its release timer armed. *)
Definition closingState : State :=
  (run ackNet (latchBarrierAction defaultConfig 1 "close" "api") []
       onlineState).1.2.

(** Two close requests for barrier 1 arrive back to back: the second
    handler starts while the first waits for its first write, then each
    gets its two acknowledgements. *)
Definition overlappingCloses
  : list (Async.Sched State Request (list NetEvent) Err string) :=
  [Async.Spawn "A" (latchBarrierAction defaultConfig 1 "close" "api");
   Async.Spawn "B" (latchBarrierAction defaultConfig 1 "close" "api");
   Async.Deliver "A" ackTcp; Async.Deliver "A" ackTcp;
   Async.Deliver "B" ackTcp; Async.Deliver "B" ackTcp].

(** A close of barrier 1 and a lift of barrier 2, both on board 1, arrive
    back to back; the heartbeat of board 1 ticks once the close is done
    and the lift still waits for its first acknowledgement. *)
Definition crossedActions
  : list (Async.Sched State Request (list NetEvent) Err string) :=
  [Async.Spawn "A" (latchBarrierAction defaultConfig 1 "close" "api");
   Async.Spawn "B" (latchBarrierAction defaultConfig 2 "lift" "api");
   Async.Deliver "A" ackTcp; Async.Deliver "A" ackTcp;
   Async.Spawn "H" (heartbeatBoard defaultConfig "board1");
   Async.Deliver "B" ackTcp].

(** A close of barrier 1 on board 1 among other tasks: a heartbeat of
    board 2 is under way when it starts; a lift of barrier 3, on board 2,
    starts before its first acknowledgement; the heartbeat of board 1
    ticks between its two writes. *)
Definition besideClose
  : list (Async.Sched State Request (list NetEvent) Err string) :=
  [Async.Spawn "B" (latchBarrierAction defaultConfig 3 "lift" "api");
   Async.Deliver "A" ackTcp;
   Async.Spawn "H" (heartbeatBoard defaultConfig "board1");
   Async.Deliver "B" ackTcp;
   Async.Deliver "A" ackTcp;
   Async.Deliver "B" ackTcp].

Definition sharedLoop
  : list (Async.Sched State Request (list NetEvent) Err string) :=
  [Async.Spawn "G" (heartbeatBoard defaultConfig "board2")]
  ++ Async.Spawn "A" (latchBarrierAction defaultConfig 1 "close" "api")
  :: besideClose.

(** A close of barrier 1 returns and its timeout comes due; while the
    callback waits for its write a second close of the barrier returns;
    then the callback's write is acknowledged. A lift follows, and the
    timeout of the second close comes due after it. No two of the three
    actions overlap. *)
Definition staleRelease
  : list (Async.Sched State Request (list NetEvent) Err string) :=
  [Async.Spawn "A" (latchBarrierAction defaultConfig 1 "close" "api");
   Async.Deliver "A" ackTcp; Async.Deliver "A" ackTcp;
   Async.Spawn "T" (fireTimer defaultConfig 0);
   Async.Spawn "B" (latchBarrierAction defaultConfig 1 "close" "api");
   Async.Deliver "B" ackTcp; Async.Deliver "B" ackTcp;
   Async.Deliver "T" ackTcp;
   Async.Spawn "C" (latchBarrierAction defaultConfig 1 "lift" "api");
   Async.Deliver "C" ackTcp; Async.Deliver "C" ackTcp;
   Async.Spawn "U" (fireTimer defaultConfig 1);
   Async.Deliver "U" ackTcp].

(** The RTU Read Coils response of [rtuOnlyNet], as one chunk. *)
Definition rtuAnswer : list NetEvent :=
  [Data (buildRTUFrame 1 x01 [x01; x05])].

(** Board 1 drops Modbus/TCP frames and answers RTU ones, and the
    heartbeat ticks as often as an exchange may last: the TCP probe of
    the first heartbeat runs into the deadline and its RTU probe goes
    out; the second heartbeat starts; the answer to the RTU probe
    arrives. *)
Definition crossedDetections
  : list (Async.Sched State Request (list NetEvent) Err string) :=
  [Async.Spawn "H1" (heartbeatBoard defaultConfig "board1");
   Async.Deliver "H1" [];
   Async.Spawn "H2" (heartbeatBoard defaultConfig "board1");
   Async.Deliver "H1" rtuAnswer].

(** What the log of issued requests shows of a probe: the task, the
    call, and the dialect flag of the board at that moment. *)
Definition probeView (x : string * Request * State)
  : string * (string * byte * list byte) * option bool :=
  (x.1.1, (to_board x.1.2, fc x.1.2, data x.1.2),
   useRTU <$> boardState x.2 !! to_board x.1.2).

(** What the log of issued requests shows of an entry: the task, the
    call, and the gate flag of the board at that moment. *)
Definition issuedView (x : string * Request * State)
  : string * (string * byte * list byte) * option bool :=
  (x.1.1, (to_board x.1.2, fc x.1.2, data x.1.2),
   commandLock <$> boardState x.2 !! to_board x.1.2).

End Server.

(** * The HTTP front end of [index.ts]

    The handlers of the barrier routes, over the same task language. What
    a handler awaits is a call into [modbus-client.ts] ([writeCoil],
    [readCoils], [writeMultipleCoils]) or the 50 ms settling delay; the
    promise comes back resolved or rejected. Wall-clock fields (the time
    of a log entry, its latency, [lastActionTime]) are left out. *)
Module Api.

Local Open Scope Z_scope.

(** [config.ts] *)
Record BarrierConfig : Type := {
  id : string;
  numericId : Z;
  name : string;
  site : string;
  direction : string;
  relay_host : string;
  relay_port : Z;
  coils_lift : Z;
  coils_stop : Z;
  coils_close : Z
}.

Definition BARRIERS : list BarrierConfig :=
  [ {| id := "krs-entry"; numericId := 1; name := "Entry Barrier";
       site := "KRS01"; direction := "entry";
       relay_host := "10.10.10.64"; relay_port := 4196;
       coils_lift := 0; coils_stop := 1; coils_close := 2 |};
    {| id := "krs-exit"; numericId := 2; name := "Exit Barrier";
       site := "KRS01"; direction := "exit";
       relay_host := "10.10.10.64"; relay_port := 4196;
       coils_lift := 3; coils_stop := 4; coils_close := 5 |};
    {| id := "krs-combo"; numericId := 3; name := "Entry/Exit Barrier";
       site := "KRS01"; direction := "both";
       relay_host := "10.10.10.65"; relay_port := 4196;
       coils_lift := 4; coils_stop := 5; coils_close := 3 |} ].

(** The three actions of the route loop, ['lift' | 'close' | 'stop']. *)
Inductive Action : Type := lift | close | stop.

Definition actionName (action : Action) : string :=
  match action with lift => "lift" | close => "close" | stop => "stop" end.

(** [action.toUpperCase()] *)
Definition actionUpper (action : Action) : string :=
  match action with lift => "LIFT" | close => "CLOSE" | stop => "STOP" end.

(** [coils[action]] *)
Definition targetCoil (barrier : BarrierConfig) (action : Action) : Z :=
  match action with
  | lift => coils_lift barrier
  | close => coils_close barrier
  | stop => coils_stop barrier
  end.

Record LogEntry : Type := {
  type : string;
  barrier : string;
  details : string
}.

Record BarrierState : Type := {
  locked : bool;
  lastAction : option string
}.

(** What [setTimeout] was given: the state broadcast [log] schedules, or
    the auto-release of a pulsed coil. *)
Inductive TimerTask : Type :=
| BroadcastState
| PulseOff (barrier : BarrierConfig) (action : Action).

Record State : Type := {
  barrierStates : gmap string BarrierState;
  (** [latchedCoils]: the pulse timeout of a barrier, or [null] for a
      coil held on. *)
  latchedCoils : gmap string (option nat);
  (** newest first *)
  eventLog : list LogEntry;
  timers : list (nat * TimerTask);
  nextTimer : nat
}.

(** The awaited operations and how their promise settles. *)
Inductive Call : Type :=
| WriteCoil (host : string) (port : Z) (coil : Z) (value : bool)
| ReadCoils (host : string) (port : Z) (start count : Z)
| WriteMultipleCoils (host : string) (port : Z) (writes : list (Z * bool))
| Sleep (ms : Z).

Inductive Outcome : Type :=
| Resolved (data : list bool)
| Rejected (message : string).

(** What a handler can throw: the error of a rejected call, or the
    [TypeError] of a property read on [undefined]. *)
Inductive Failure : Type :=
| Failed (message : string)
| NullDeref.

Definition message (err : Failure) : string :=
  match err with
  | Failed m => m
  | NullDeref => "Cannot read properties of undefined"
  end.

Definition Prog : Type -> Type := Async.Async State Call Outcome Failure.

Notation "'let*' x ':=' m 'in' k" := (Async.bind m (fun x => k))
  (at level 10, x name, m at level 200, k at level 200, only parsing).

Import Async.

(** What [res.status(..).json(..)] sends. *)
Inductive Body : Type :=
| ErrorBody (error : string)
| LockedBody (error : string) (barrierId : string)
| ActionBody (barrierId : string) (action : string)
| LockBody (barrierId : string) (locked : bool).

Record Response : Type := {
  status : Z;
  body : Body
}.

Definition with_barrierStates (m : gmap string BarrierState) (s : State)
  : State :=
  {| barrierStates := m; latchedCoils := latchedCoils s;
     eventLog := eventLog s; timers := timers s;
     nextTimer := nextTimer s |}.

Definition with_latchedCoils (m : gmap string (option nat)) (s : State)
  : State :=
  {| barrierStates := barrierStates s; latchedCoils := m;
     eventLog := eventLog s; timers := timers s;
     nextTimer := nextTimer s |}.

Definition with_eventLog (l : list LogEntry) (s : State) : State :=
  {| barrierStates := barrierStates s; latchedCoils := latchedCoils s;
     eventLog := l; timers := timers s; nextTimer := nextTimer s |}.

(** [setTimeout(task, _)], returning the handle. *)
Definition setTimeout (task : TimerTask) : Prog nat :=
  Get (fun s =>
    Put {| barrierStates := barrierStates s; latchedCoils := latchedCoils s;
           eventLog := eventLog s;
           timers := timers s ++ [(nextTimer s, task)];
           nextTimer := S (nextTimer s) |}
        (Ret (nextTimer s))).

Definition clearTimeout (h : nat) : Prog unit :=
  modify (fun s =>
    {| barrierStates := barrierStates s; latchedCoils := latchedCoils s;
       eventLog := eventLog s;
       timers := filter (fun t => bool_decide (t.1 <> h)) (timers s);
       nextTimer := nextTimer s |}).

Definition MAX_LOG : nat := 2000.

(** [log]: the entry goes to the front of the ring (and to the file, the
    console and the socket clients, which are not modelled); unless the
    type is ['startup'] or ['pulse-off'] a state broadcast is scheduled. *)
Definition log (type barrier details : string) : Prog unit :=
  let* _ :=
    modify (fun s =>
      let entries :=
        {| type := type; barrier := barrier; details := details |}
        :: eventLog s in
      with_eventLog
        (if (MAX_LOG <? length entries)%nat then removelast entries
         else entries) s)
  in
  if negb (bool_decide (type = "startup"))
     && negb (bool_decide (type = "pulse-off"))
  then let* _ := setTimeout BroadcastState in Ret tt
  else Ret tt.

(** [parseInt(s)]: leading white space, a sign, then the longest run of
    decimal digits, or of hexadecimal digits after [0x]; [None] is
    [NaN].

    A [string] holds the UTF-8 encoding of the JavaScript string, which
    is how a parameter arrives in the URL. The white space [parseInt]
    skips is every white space character and line terminator of the
    language: TAB, LF, VT, FF, CR and SP in one byte; U+00A0 in two
    (C2 A0); and in three U+1680 (E1 9A 80), U+2000 to U+200A
    (E2 80 80 to E2 80 8A), U+2028 and U+2029 (E2 80 A8, E2 80 A9),
    U+202F (E2 80 AF), U+205F (E2 81 9F), U+3000 (E3 80 80) and
    U+FEFF (EF BB BF). The number read is an integer here and a double
    in the code: the same up to 2^53 either side of 0, the nearest
    double beyond. *)
Definition isSpace (a : ascii) : bool :=
  let n := N_of_ascii a in
  ((n =? 32) || ((9 <=? n) && (n <=? 13)))%N.

Definition isSpace2 (a b : ascii) : bool :=
  ((N_of_ascii a =? 194) && (N_of_ascii b =? 160))%N.

Definition isSpace3 (a b c : ascii) : bool :=
  let n := N_of_ascii a in
  let m := N_of_ascii b in
  let k := N_of_ascii c in
  ((n =? 225) && (m =? 154) && (k =? 128)
   || (n =? 226) && (m =? 128)
      && ((128 <=? k) && (k <=? 138) || (k =? 168) || (k =? 169)
          || (k =? 175))
   || (n =? 226) && (m =? 129) && (k =? 159)
   || (n =? 227) && (m =? 128) && (k =? 128)
   || (n =? 239) && (m =? 187) && (k =? 191))%N.

Fixpoint skipSpaces (s : string) : string :=
  match s with
  | String a s1 =>
      if isSpace a then skipSpaces s1
      else
        match s1 with
        | String b s2 =>
            if isSpace2 a b then skipSpaces s2
            else
              match s2 with
              | String c s3 =>
                  if isSpace3 a b c then skipSpaces s3 else s
              | EmptyString => s
              end
        | EmptyString => s
        end
  | EmptyString => s
  end.

Definition digitOf (radix : Z) (a : ascii) : option Z :=
  let n := Z.of_nat (nat_of_ascii a) in
  let d :=
    if (48 <=? n) && (n <=? 57) then Some (n - 48)
    else if (97 <=? n) && (n <=? 122) then Some (n - 87)
    else if (65 <=? n) && (n <=? 90) then Some (n - 55)
    else None in
  match d with
  | Some v => if v <? radix then Some v else None
  | None => None
  end.

Fixpoint digitsOf (radix : Z) (s : string) (acc : option Z) : option Z :=
  match s with
  | String a s' =>
      match digitOf radix a with
      | Some d => digitsOf radix s' (Some (radix * default 0 acc + d))
      | None => acc
      end
  | EmptyString => acc
  end.

Definition unsignedInt (s : string) : option Z :=
  match s with
  | String "0" (String "x" s') => digitsOf 16 s' None
  | String "0" (String "X" s') => digitsOf 16 s' None
  | _ => digitsOf 10 s None
  end.

Definition parseInt (s : string) : option Z :=
  match skipSpaces s with
  | String "-" s' => Z.opp <$> unsignedInt s'
  | String "+" s' => unsignedInt s'
  | s' => unsignedInt s'
  end.

Definition findBarrier (barrierId : string) : option BarrierConfig :=
  match parseInt barrierId with
  | Some num => find (fun b => bool_decide (numericId b = num)) BARRIERS
  | None => find (fun b => bool_decide (id b = barrierId)) BARRIERS
  end.

(** [await] of a call into the Modbus client. *)
Definition call (c : Call) : Prog (list bool) :=
  Await c (fun o =>
    match o with
    | Resolved data => Ret data
    | Rejected m => Throw (Failed m)
    end).

Definition clearedCoils (barrier : BarrierConfig) : list (Z * bool) :=
  [(coils_lift barrier, false); (coils_stop barrier, false);
   (coils_close barrier, false)].

(** [const existingTimeout = latchedCoils.get(barrier.id);
    if (existingTimeout) clearTimeout(existingTimeout);
    latchedCoils.delete(barrier.id);] *)
Definition dropLatch (barrier : BarrierConfig) : Prog unit :=
  Get (fun s =>
    let* _ :=
      match latchedCoils s !! id barrier with
      | Some (Some h) => clearTimeout h
      | _ => Ret tt
      end
    in
    modify (fun s' =>
      with_latchedCoils (delete (id barrier) (latchedCoils s')) s')).

Definition PULSE_MS : Z := 1500.

Definition activateCoil (barrier : BarrierConfig) (action : Action)
    (hold : bool) : Prog unit :=
  let host := relay_host barrier in
  let port := relay_port barrier in
  let* _ := dropLatch barrier in
  let* _ := call (WriteMultipleCoils host port (clearedCoils barrier)) in
  let* _ := call (Sleep 50) in
  let* _ := call (WriteCoil host port (targetCoil barrier action) true) in
  if hold then
    let* _ :=
      modify (fun s =>
        with_latchedCoils (<[id barrier := None]> (latchedCoils s)) s)
    in
    log "latch" (id barrier) (actionName action +:+ " coil HELD ON (latched)")
  else
    let* timeout := setTimeout (PulseOff barrier action) in
    modify (fun s =>
      with_latchedCoils (<[id barrier := Some timeout]> (latchedCoils s)) s).

Definition releaseLatch (barrier : BarrierConfig) : Prog unit :=
  let* _ := dropLatch barrier in
  let* _ :=
    call (WriteMultipleCoils (relay_host barrier) (relay_port barrier)
                             (clearedCoils barrier))
  in
  log "unlatch" (id barrier) "All coils released".

(** [barrierStates.get(barrier.id)!] followed by a property access. *)
Definition stateOf (barrier : BarrierConfig) : Prog BarrierState :=
  Get (fun s =>
    match barrierStates s !! id barrier with
    | Some state => Ret state
    | None => Throw NullDeref
    end).

(** An assignment to fields of the state object held by the map. *)
Definition assign (barrier : BarrierConfig)
    (f : BarrierState -> BarrierState) : Prog unit :=
  modify (fun s =>
    with_barrierStates (alter f (id barrier) (barrierStates s)) s).

Definition notFound : Response :=
  {| status := 404; body := ErrorBody "Barrier not found" |}.

(** [app.post('/api/barrier/:barrierId/${action}')] *)
Definition postAction (action : Action) (barrierId : string)
  : Prog Response :=
  match findBarrier barrierId with
  | None => Ret notFound
  | Some barrier =>
      let* state := stateOf barrier in
      if locked state && negb (bool_decide (actionName action = "stop"))
      then
        let* _ :=
          log "error" (id barrier)
              ("Action " +:+ actionName action
               +:+ " denied — barrier locked")
        in
        Ret {| status := 423;
               body := LockedBody "Barrier is locked" (id barrier) |}
      else
        tryCatch
          (let* _ := activateCoil barrier action false in
           let* _ :=
             assign barrier (fun st =>
               {| locked := locked st;
                  lastAction := Some (actionName action) |})
           in
           let* _ :=
             log (actionName action) (id barrier)
                 (actionUpper action +:+ " activated")
           in
           Ret {| status := 200;
                  body := ActionBody (id barrier) (actionName action) |})
          (fun err =>
             let* _ :=
               log "error" (id barrier)
                   (actionName action +:+ " failed: " +:+ message err)
             in
             Ret {| status := 500; body := ErrorBody (message err) |})
  end.

(** [app.post('/api/barrier/:barrierId/latch-open')] *)
Definition postLatchOpen (barrierId : string) : Prog Response :=
  match findBarrier barrierId with
  | None => Ret notFound
  | Some barrier =>
      tryCatch
        (let* _ := activateCoil barrier lift true in
         let* _ := stateOf barrier in
         let* _ :=
           assign barrier (fun _ =>
             {| locked := true; lastAction := Some "latch-open" |})
         in
         let* _ :=
           log "latch-open" (id barrier)
               "Barrier LATCHED OPEN — coil held, commands locked"
         in
         Ret {| status := 200;
                body := ActionBody (id barrier) "latch-open" |})
        (fun err =>
           let* _ :=
             log "error" (id barrier)
                 ("Latch open failed: " +:+ message err)
           in
           Ret {| status := 500; body := ErrorBody (message err) |})
  end.

(** [app.post('/api/barrier/:barrierId/latch-close')] *)
Definition postLatchClose (barrierId : string) : Prog Response :=
  match findBarrier barrierId with
  | None => Ret notFound
  | Some barrier =>
      tryCatch
        (let* _ := activateCoil barrier close true in
         let* _ := stateOf barrier in
         let* _ :=
           assign barrier (fun _ =>
             {| locked := true; lastAction := Some "latch-close" |})
         in
         let* _ :=
           log "latch-close" (id barrier)
               "Barrier LATCHED CLOSED — coil held, commands locked"
         in
         Ret {| status := 200;
                body := ActionBody (id barrier) "latch-close" |})
        (fun err =>
           let* _ :=
             log "error" (id barrier)
                 ("Latch close failed: " +:+ message err)
           in
           Ret {| status := 500; body := ErrorBody (message err) |})
  end.

(** [app.post('/api/barrier/:barrierId/unlatch')] *)
Definition postUnlatch (barrierId : string) : Prog Response :=
  match findBarrier barrierId with
  | None => Ret notFound
  | Some barrier =>
      tryCatch
        (let* _ := releaseLatch barrier in
         let* _ := stateOf barrier in
         let* _ :=
           assign barrier (fun _ =>
             {| locked := false; lastAction := Some "unlatch" |})
         in
         let* _ :=
           log "unlatch" (id barrier)
               "Barrier UNLATCHED — coils released, commands unlocked"
         in
         Ret {| status := 200; body := ActionBody (id barrier) "unlatch" |})
        (fun err =>
           let* _ :=
             log "error" (id barrier) ("Unlatch failed: " +:+ message err)
           in
           Ret {| status := 500; body := ErrorBody (message err) |})
  end.

(** [app.post('/api/barrier/:barrierId/lock')] and [.../unlock] *)
Definition postLock (barrierId : string) : Prog Response :=
  match findBarrier barrierId with
  | None => Ret notFound
  | Some barrier =>
      let* _ := stateOf barrier in
      let* _ :=
        assign barrier (fun st =>
          {| locked := true; lastAction := lastAction st |})
      in
      let* _ := log "lock" (id barrier) "Barrier LOCKED" in
      Ret {| status := 200; body := LockBody (id barrier) true |}
  end.

Definition postUnlock (barrierId : string) : Prog Response :=
  match findBarrier barrierId with
  | None => Ret notFound
  | Some barrier =>
      let* _ := stateOf barrier in
      let* _ :=
        assign barrier (fun st =>
          {| locked := false; lastAction := lastAction st |})
      in
      let* _ := log "unlock" (id barrier) "Barrier UNLOCKED" in
      Ret {| status := 200; body := LockBody (id barrier) false |}
  end.

(** [BARRIERS.forEach(b => barrierStates.set(b.id, { locked: false,
    lastAction: null, lastActionTime: null }))] *)
Definition initState : State :=
  {| barrierStates :=
       foldl (fun m b => <[id b := {| locked := false; lastAction := None |}]> m)
             ∅ BARRIERS;
     latchedCoils := ∅; eventLog := []; timers := []; nextTimer := 0 |}.

(** *** Vocabulary *)

(** The calls of a trace, oldest first. *)
Definition calls (w : Trace State Call Outcome) : list Call := w.*1.*1.

(** Every awaited call resolves. *)
Definition resolving (net : nat -> Outcome) : Prop :=
  forall n, exists data, net n = Resolved data.

(** The coil writes a call makes. *)
Definition isCoilWrite (c : Call) : bool :=
  match c with
  | WriteCoil _ _ _ _ | WriteMultipleCoils _ _ _ => true
  | _ => false
  end.

(** The calls of [activateCoil]. *)
Definition activation (barrier : BarrierConfig) (action : Action)
  : list Call :=
  [WriteMultipleCoils (relay_host barrier) (relay_port barrier)
                      (clearedCoils barrier);
   Sleep 50;
   WriteCoil (relay_host barrier) (relay_port barrier)
             (targetCoil barrier action) true].

(** The state after [log] of a type that schedules a broadcast. *)
Definition logged (type barrier details : string) (s : State) : State :=
  (run (fun _ => Resolved []) (log type barrier details) [] s).1.2.

(** The pending timeouts once the pulse timeout on record for the barrier
    is cleared. *)
Definition unpulsed (barrier : BarrierConfig) (s : State)
  : list (nat * TimerTask) :=
  match latchedCoils s !! id barrier with
  | Some (Some h) => filter (fun t => bool_decide (t.1 <> h)) (timers s)
  | _ => timers s
  end.

(** The UTF-8 encoding of a code point of the basic plane. *)
Definition utf8 (cp : N) : string :=
  (if cp <? 128 then String (ascii_of_N cp) EmptyString
   else if cp <? 2048 then
     String (ascii_of_N (192 + cp / 64))
       (String (ascii_of_N (128 + cp mod 64)) EmptyString)
   else
     String (ascii_of_N (224 + cp / 4096))
       (String (ascii_of_N (128 + (cp / 64) mod 64))
          (String (ascii_of_N (128 + cp mod 64)) EmptyString)))%N.

(** The white space and the line terminators of the language, by code
    point. *)
Definition whiteSpace : list N :=
  [0x9; 0xA; 0xB; 0xC; 0xD; 0x20; 0xA0; 0x1680; 0x2000; 0x2001; 0x2002;
   0x2003; 0x2004; 0x2005; 0x2006; 0x2007; 0x2008; 0x2009; 0x200A; 0x2028;
   0x2029; 0x202F; 0x205F; 0x3000; 0xFEFF]%N.

(** [check] holds of the [count] numbers from [n] on. *)
Fixpoint allFrom (check : N -> bool) (n : N) (count : nat) : bool :=
  match count with
  | O => true
  | S count' => check n && allFrom check (N.succ n) count'
  end.

(** [check] holds of every code point of the basic plane. *)
Definition everyCodePoint (check : N -> bool) : bool :=
  allFrom (fun hi => allFrom (fun lo => check (256 * hi + lo)%N) 0 256)
          0 256.

(** A character [parseInt] does not read past: the digit after it is not
    found. White space, the signs and the digits are let through. *)
Definition stopsParseInt (cp : N) : bool :=
  existsb (N.eqb cp) whiteSpace
  || (cp =? 0x2B)%N || (cp =? 0x2D)%N
  || ((0x30 <=? cp) && (cp <=? 0x39))%N
  || match parseInt (utf8 cp +:+ "7") with
     | None => true
     | Some _ => false
     end.

(** *** Scenarios *)

(** U+00A0, the no-break space, as a parameter carries it (%C2%A0). *)
Definition nbsp : string :=
  String (ascii_of_nat 194) (String (ascii_of_nat 160) EmptyString).

Definition okNet : nat -> Outcome := fun _ => Resolved [].

(** The state after [POST /api/barrier/1/lock]. *)
Definition lockedEntry : State :=
  (run okNet (postLock "1") [] initState).1.2.

End Api.

(** * The routes and the shutdown of [server.js] *)

Module BarrierStatus.
Record t : Type := { id : Z; name : string; board : string;
                     lift : bool; close : bool; stop : bool }.
End BarrierStatus.

Module BoardStatus.
Record t : Type := { key : string; name : string; host : string; port : Z;
                     connected : bool; mode : string;
                     (** [{ channel, active }], in channel order *)
                     channels : list (Z * bool) }.
End BoardStatus.

Module Routes.

Import Buf Codec Async Server.
Local Open Scope Z_scope.

(** [getFullStatus()] *)
Record FullStatus : Type := {
  boards : list BoardStatus.t;
  barriers : list BarrierStatus.t
}.

(** [Object.entries(BARRIERS)]: integer keys come in ascending order. *)
Definition keyLe (a b : Z * Barrier.t) : Prop := a.1 <= b.1.

#[global] Instance keyLe_dec : RelDecision keyLe.
Proof. intros a b. unfold keyLe. apply _. Defined.

Definition entries (m : gmap Z Barrier.t) : list (Z * Barrier.t) :=
  merge_sort keyLe (map_to_list m).

(** [coils[i] || false]: an index outside the snapshot gives [undefined],
    hence [false]. *)
Definition coilOr (coils : list bool) (i : Z) : bool :=
  if 0 <=? i then default false (coils !! Z.to_nat i) else false.

(** [xs.map(f)] for an [f] that may throw. *)
Fixpoint mapM {A B : Type} (f : A -> Result Err B) (l : list A)
  : Result Err (list B) :=
  match l with
  | [] => Ok []
  | a :: l' =>
      match f a with
      | Error e => Error e
      | Ok b =>
          match mapM f l' with
          | Error e => Error e
          | Ok bs => Ok (b :: bs)
          end
      end
  end.

Section WithConfig.

Variable conf : Config.

Definition barrierStatus (s : State) (e : Z * Barrier.t)
  : Result Err BarrierStatus.t :=
  match boardState s !! Barrier.board e.2 with
  | None => Error TypeError
  | Some st =>
      Ok {| BarrierStatus.id := e.1;
            BarrierStatus.name := Barrier.name e.2;
            BarrierStatus.board := Barrier.board e.2;
            BarrierStatus.lift := coilOr (coils st) (Barrier.lift e.2);
            BarrierStatus.close := coilOr (coils st) (Barrier.close e.2);
            BarrierStatus.stop := coilOr (coils st) (Barrier.stop e.2) |}
  end.

Definition boardStatus (s : State) (e : string * BoardCfg.t)
  : Result Err BoardStatus.t :=
  match boardState s !! e.1 with
  | None => Error TypeError
  | Some st =>
      Ok {| BoardStatus.key := e.1;
            BoardStatus.name := BoardCfg.name e.2;
            BoardStatus.host := BoardCfg.host e.2;
            BoardStatus.port := BoardCfg.port e.2;
            BoardStatus.connected := reachable st;
            BoardStatus.mode :=
              if useRTU st then "RTU-over-TCP" else "Modbus TCP";
            BoardStatus.channels :=
              imap (fun i active => (Z.of_nat i + 1, active)) (coils st) |}
  end.

Definition getFullStatus (s : State) : Result Err FullStatus :=
  match mapM (barrierStatus s) (entries (BARRIERS conf)) with
  | Error e => Error e
  | Ok bs =>
      match mapM (boardStatus s) (BOARDS conf) with
      | Error e => Error e
      | Ok bds => Ok {| boards := bds; barriers := bs |}
      end
  end.

(** What a route answers: [res.json(..)], or [res.status(code).json({
    error })]. *)
Inductive ErrorText : Type :=
| UnknownBarrierText (barrierId : option Z)
| UnknownActionText (action : string)
| Thrown (e : Err)
| InvalidApiKey.

Inductive Reply : Type :=
| StatusReply (st : FullStatus)
| ActionReply (barrier action : string) (channel : option Z)
| EmergencyReply
| AuditReply (entries : list AuditEntry)
| Failed (code : Z) (error : ErrorText).

(** The loop of [GET /api/status] that refreshes the coil snapshots. *)
Fixpoint refreshCoils (boards : list (string * BoardCfg.t)) : Prog unit :=
  match boards with
  | [] => Ret tt
  | (boardKey, cfg) :: rest =>
      let* state := getBoard boardKey in
      let* _ :=
        if reachable state && negb (commandLock state)
        then
          tryCatch
            (let* coils := readCoils conf boardKey 0 (BoardCfg.channels cfg) in
             setBoard boardKey (set_coils coils))
            (fun _ => setBoard boardKey (set_reachable false))
        else Ret tt
      in
      refreshCoils rest
  end.

(** [app.get('/api/status')] *)
Definition getStatus : Prog Reply :=
  tryCatch
    (let* _ := refreshCoils (BOARDS conf) in
     let* st := Get (fun s => ofResult (getFullStatus s)) in
     Ret (StatusReply st))
    (fun err => Ret (Failed 500 (Thrown err))).

(** [s.toLowerCase()] of a string of ASCII characters: the letters A to Z
    are mapped, every other byte is left as it is. On a string with other
    characters the language maps their capitals as well, which this does
    not: what is stated of it is stated of [isAscii] strings. *)
Definition lowerAscii (a : ascii) : ascii :=
  let n := nat_of_ascii a in
  if ((65 <=? n) && (n <=? 90))%nat then ascii_of_nat (n + 32) else a.

Fixpoint toLowerCase (s : string) : string :=
  match s with
  | EmptyString => EmptyString
  | String a s' => String (lowerAscii a) (toLowerCase s')
  end.

Fixpoint isAscii (s : string) : bool :=
  match s with
  | EmptyString => true
  | String a s' => (nat_of_ascii a <? 128)%nat && isAscii s'
  end.

(** [req.headers['x-source'] || 'api']: an absent or empty header gives
    the default. *)
Definition orDefault (v : option string) (d : string) : string :=
  match v with
  | Some (String a s') => String a s'
  | _ => d
  end.

(** [app.post('/api/barrier/:id/:action')]. The id goes through
    [parseInt]; [NaN] finds no barrier. The id is an integer here and a
    double in the code, the same between -2^53 and 2^53. *)
Definition postBarrier (idParam actionParam : string)
    (xSource : option string) : Prog Reply :=
  let barrierId := Api.parseInt idParam in
  let action := toLowerCase actionParam in
  let source := orDefault xSource "api" in
  match barrierId with
  | None => Ret (Failed 400 (UnknownBarrierText None))
  | Some id =>
      match BARRIERS conf !! id with
      | None => Ret (Failed 400 (UnknownBarrierText (Some id)))
      | Some barrier =>
          if negb (bool_decide (action ∈ ["lift"; "close"; "stop"]))
          then Ret (Failed 400 (UnknownActionText action))
          else
            tryCatch
              (let* _ := latchBarrierAction conf id action source in
               Ret (ActionReply (Barrier.name barrier) action
                      ((fun c => c + 1) <$> actionCoil barrier action)))
              (fun err => Ret (Failed 500 (Thrown err)))
      end
  end.

(** [app.post('/api/emergency-off')] *)
Definition postEmergencyOff (xSource : option string) : Prog Reply :=
  tryCatch
    (let* _ := emergencyOff conf (orDefault xSource "api") in
     Ret EmergencyReply)
    (fun err => Ret (Failed 500 (Thrown err))).

(** [arr.slice(start)] for a number [start]; [None] is [NaN], which counts
    as 0, like negative zero. *)
Definition sliceFrom {A : Type} (l : list A) (start : option Z) : list A :=
  match start with
  | None => l
  | Some k =>
      if k <? 0 then drop (Z.to_nat (Z.max (Z.of_nat (length l) + k) 0)) l
      else drop (Z.to_nat k) l
  end.

(** [app.get('/api/audit')]:
    [Math.min(parseInt(req.query.limit || '100'), MAX_AUDIT_ENTRIES)],
    then [auditEntries.slice(-limit)]. *)
Definition auditLimit (limitParam : option string) : option Z :=
  (fun n => Z.min n (Z.of_nat MAX_AUDIT_ENTRIES))
    <$> Api.parseInt (orDefault limitParam "100").

Definition getAudit (limitParam : option string) : Prog Reply :=
  Get (fun s =>
    Ret (AuditReply
           (sliceFrom (auditEntries s) (Z.opp <$> auditLimit limitParam)))).

End WithConfig.

(** [apiAuth]: whether the request goes on ([next()]) or is answered 401.
    [apiKey] is [process.env.API_KEY || null], [xApiKey] the header and
    [queryKey] the [api_key] query parameter. *)
Definition startsWith (s prefix : string) : bool :=
  bool_decide (String.substring 0 (String.length prefix) s = prefix).

Definition truthy (v : option string) : option string :=
  match v with
  | Some (String a s') => Some (String a s')
  | _ => None
  end.

Definition apiAuth (apiKey : option string) (path : string)
    (xApiKey queryKey : option string) : bool :=
  match truthy apiKey with
  | None => true
  | Some key =>
      if bool_decide (path = "/") || startsWith path "/api/events"
         || negb (startsWith path "/api/")
      then true
      else
        let provided :=
          match truthy xApiKey with
          | Some v => Some v
          | None => queryKey
          end
        in
        bool_decide (provided = Some key)
  end.

(** *** The process around the server state

    [shutdown] also touches the heartbeat intervals and ends the process;
    the programs of [Server] run on the server part of this state. The
    two lines [shutdown] logs are kept apart from the console of
    [Server], as [notices]. *)
Inductive Notice : Type :=
| ShuttingDown (signal : string)
| AllRelaysOff.

Record Process : Type := {
  server : State;
  (** [heartbeatTimers]: the interval handle of each board *)
  heartbeatTimers : gmap string nat;
  (** the intervals still running *)
  intervals : list nat;
  notices : list Notice;
  (** [process.exit(code)] *)
  exited : option Z
}.

Definition with_server (s : State) (p : Process) : Process :=
  {| server := s; heartbeatTimers := heartbeatTimers p;
     intervals := intervals p; notices := notices p; exited := exited p |}.

Definition Proc (A : Type) : Type :=
  Async Process Request (list NetEvent) Err A.

(** A program on a part of the state run on the whole. *)
Fixpoint zoom {S1 S2 Req Ans E A : Type} (get : S2 -> S1)
    (put : S1 -> S2 -> S2) (m : Async S1 Req Ans E A)
  : Async S2 Req Ans E A :=
  match m with
  | Ret a => Ret a
  | Throw e => Throw e
  | Get k => Get (fun s2 => zoom get put (k (get s2)))
  | Put s1 k => Get (fun s2 => Put (put s1 s2) (zoom get put k))
  | Await r k => Await r (fun a => zoom get put (k a))
  end.

Definition onServer {A : Type} (m : Prog A) : Proc A :=
  zoom server with_server m.

Definition notice (n : Notice) : Proc unit :=
  modify (fun p =>
    {| server := server p; heartbeatTimers := heartbeatTimers p;
       intervals := intervals p; notices := notices p ++ [n];
       exited := exited p |}).

(** [for (const timer of Object.values(heartbeatTimers))
    clearInterval(timer)] *)
Definition stopHeartbeats (p : Process) : Process :=
  {| server := server p; heartbeatTimers := heartbeatTimers p;
     intervals :=
       filter (fun h => h ∉ (map_to_list (heartbeatTimers p)).*2)
              (intervals p);
     notices := notices p; exited := exited p |}.

(** [for (const key of Object.keys(closeTimers)) if (closeTimers[key])
    clearTimeout(closeTimers[key])]: the entries stay. *)
Definition stopCloseTimers (s : State) : State :=
  foldr (fun kh s' => clearTimeout kh.2 s') s (map_to_list (closeTimers s)).

Section Shutdown.

Variable conf : Config.

(** [for (let i = from; i < channels; i++) { try { await
    writeCoil(boardKey, i, false); } catch (e) {} }] *)
Fixpoint offChannels (boardKey : string) (from : Z) (turns : nat)
  : Prog unit :=
  match turns with
  | O => Ret tt
  | S turns' =>
      let* _ :=
        tryCatch (writeCoil conf boardKey from false) (fun _ => Ret tt)
      in
      offChannels boardKey (from + 1) turns'
  end.

Fixpoint offBoards (boards : list (string * BoardCfg.t)) : Prog unit :=
  match boards with
  | [] => Ret tt
  | (boardKey, cfg) :: rest =>
      let* state := getBoard boardKey in
      let* _ :=
        if reachable state
        then offChannels boardKey 0 (Z.to_nat (BoardCfg.channels cfg))
        else Ret tt
      in
      offBoards rest
  end.

Definition shutdown (signal : string) : Proc unit :=
  let* _ := notice (ShuttingDown signal) in
  let* _ := modify stopHeartbeats in
  let* _ := onServer (modify stopCloseTimers) in
  let* _ :=
    tryCatch
      (let* _ := onServer (offBoards (BOARDS conf)) in
       notice AllRelaysOff)
      (fun _ => Ret tt)
  in
  modify (fun p =>
    {| server := server p; heartbeatTimers := heartbeatTimers p;
       intervals := intervals p; notices := notices p;
       exited := Some 0 |}).

End Shutdown.

(** *** Vocabulary *)

(** The reads [GET /api/status] makes: one of every board that is
    reachable and whose gate flag is down in [s], in registry order. *)
Definition statusReads (boards : list (string * BoardCfg.t)) (s : State)
  : list (string * byte * list byte) :=
  flat_map
    (fun kc =>
       match boardState s !! kc.1 with
       | Some b =>
           if reachable b && negb (commandLock b)
           then [(kc.1, x01, readData 0 (BoardCfg.channels kc.2))]
           else []
       | None => []
       end)
    boards.

(** [s'] has the audit ring and the console of [s]. *)
Definition sameLog (s s' : State) : Prop :=
  auditEntries s' = auditEntries s /\ console s' = console s.

(** The ring holds no more than its capacity; a step that keeps it so. *)
Definition auditBounded (s : State) : Prop :=
  (length (auditEntries s) <= MAX_AUDIT_ENTRIES)%nat.

Definition keepsBound (s s' : State) : Prop :=
  auditBounded s -> auditBounded s'.

(** The calls of a trace of the process. *)
Definition called (w : Trace Process Request (list NetEvent))
  : list (string * byte * list byte) :=
  (fun x => (to_board x.1.1, fc x.1.1, data x.1.1)) <$> w.

(** The process as it starts. *)
Definition initProcess (conf : Config) : Process :=
  {| server := initState conf; heartbeatTimers := ∅; intervals := [];
     notices := []; exited := None |}.

End Routes.

(** * More of [index.ts]: timers, sweep and queries *)
Module ApiRoutes.

Import Async Api.
Local Open Scope Z_scope.

Notation "'let*' x ':=' m 'in' k" := (Async.bind m (fun x => k))
  (at level 10, x name, m at level 200, k at level 200, only parsing).

(** The callback of the pulse timeout armed by [activateCoil]. *)
Definition pulseOff (barrier : BarrierConfig) (action : Action)
  : Prog unit :=
  tryCatch
    (let* _ :=
       call (WriteCoil (relay_host barrier) (relay_port barrier)
                       (targetCoil barrier action) false)
     in
     let* _ :=
       modify (fun s =>
         with_latchedCoils (delete (id barrier) (latchedCoils s)) s)
     in
     log "pulse-off" (id barrier)
         (actionName action +:+ " coil auto-released after 1500ms"))
    (fun err =>
       log "error" (id barrier)
           ("Failed to release " +:+ actionName action +:+ " coil: "
            +:+ message err)).

(** [[...new Set(xs)]]: the first of equal elements stays. *)
Fixpoint distinct {A : Type} `{EqDecision A} (l seen : list A) : list A :=
  match l with
  | [] => []
  | a :: l' =>
      if bool_decide (a ∈ seen) then distinct l' seen
      else a :: distinct l' (a :: seen)
  end.

(** [broadcastState]: every relay host is read on port 4196, a failed
    read being part of what is sent. The message goes to the socket
    clients, which are not modelled. *)
Fixpoint readHosts (hosts : list string) : Prog unit :=
  match hosts with
  | [] => Ret tt
  | host :: rest =>
      let* _ :=
        tryCatch (call (ReadCoils host 4196 0 8)) (fun _ => Ret [])
      in
      readHosts rest
  end.

Definition broadcastState : Prog unit :=
  tryCatch (readHosts (distinct (relay_host <$> BARRIERS) []))
           (fun _ => Ret tt).

Definition timerBody (task : TimerTask) : Prog unit :=
  match task with
  | BroadcastState => broadcastState
  | PulseOff barrier action => pulseOff barrier action
  end.

(** A timeout comes due: it leaves the pending list and its callback
    runs; a handle that is not pending does nothing. *)
Definition fireTimer (h : nat) : Prog unit :=
  Get (fun s =>
    match find (fun t => bool_decide (t.1 = h)) (timers s) with
    | Some t =>
        let* _ := clearTimeout h in
        timerBody t.2
    | None => Ret tt
    end).

(** [for (let coil = from; coil < 8; coil++) await writeCoil(host, port,
    coil, false)] *)
Fixpoint allOff (host : string) (port : Z) (from : Z) (turns : nat)
  : Prog unit :=
  match turns with
  | O => Ret tt
  | S turns' =>
      let* _ := call (WriteCoil host port from false) in
      allOff host port (from + 1) turns'
  end.

(** The loop of the emergency-off route over the barriers, one sweep for
    each relay ([host:port]) not seen before. *)
Fixpoint sweepRelays (bs : list BarrierConfig) (seen : list (string * Z))
  : Prog unit :=
  match bs with
  | [] => Ret tt
  | b :: rest =>
      let k := (relay_host b, relay_port b) in
      if bool_decide (k ∈ seen) then sweepRelays rest seen
      else
        let* _ := allOff (relay_host b) (relay_port b) 0 8 in
        sweepRelays rest (k :: seen)
  end.

(** What the routes of this part answer. *)
Inductive Reply : Type :=
| EmergencyOk
| Failure500 (error : string)
| NotFound404
| LogReply (entries : list LogEntry) (total : nat)
| RelayStatus (barrierId : string) (lift stop close : option bool).

(** [app.post('/api/emergency-off')] *)
Definition postEmergencyOff : Prog Reply :=
  let* _ := log "emergency-off" "ALL" "⚠️ EMERGENCY OFF — all coils OFF" in
  tryCatch
    (let* _ := sweepRelays BARRIERS [] in Ret EmergencyOk)
    (fun err =>
       let* _ :=
         log "error" "ALL" ("Emergency off failed: " +:+ message err)
       in
       Ret (Failure500 (message err))).

(** [Math.min(parseInt(req.query.limit) || 200, MAX_LOG)]: [NaN] and 0
    give 200. *)
Definition logLimit (limitParam : option string) : Z :=
  match limitParam ≫= parseInt with
  | Some n => if n =? 0 then 200 else Z.min n (Z.of_nat MAX_LOG)
  | None => 200
  end.

(** [arr.slice(0, end)] *)
Definition sliceTo {A : Type} (l : list A) (e : Z) : list A :=
  if e <? 0 then take (Z.to_nat (Z.max (Z.of_nat (length l) + e) 0)) l
  else take (Z.to_nat e) l.

(** [if (v) entries = entries.filter(e => field(e) === v)]: an absent or
    empty parameter does not filter. *)
Definition filterBy (field : LogEntry -> string) (v : option string)
    (entries : list LogEntry) : list LogEntry :=
  match v with
  | Some (String a s') =>
      filter (fun e => field e = String a s') entries
  | _ => entries
  end.

(** [app.get('/api/log')] *)
Definition getLog (limitParam typeParam barrierParam : option string)
  : Prog Reply :=
  Get (fun s =>
    let entries :=
      filterBy barrier barrierParam (filterBy type typeParam (eventLog s)) in
    Ret (LogReply (sliceTo entries (logLimit limitParam)) (length entries))).

(** The window of coils the status routes read for a barrier. *)
Definition minCoil (b : BarrierConfig) : Z :=
  Z.min (Z.min (coils_lift b) (coils_stop b)) (coils_close b).

Definition maxCoil (b : BarrierConfig) : Z :=
  Z.max (Z.max (coils_lift b) (coils_stop b)) (coils_close b).

(** [coilStates[i]] *)
Definition at_ (coilStates : list bool) (i : Z) : option bool :=
  if 0 <=? i then coilStates !! Z.to_nat i else None.

(** [app.get('/api/barrier/:barrierId/relay-status')] *)
Definition getRelayStatus (barrierId : string) : Prog Reply :=
  match findBarrier barrierId with
  | None => Ret NotFound404
  | Some b =>
      tryCatch
        (let count := maxCoil b - minCoil b + 1 in
         let* coilStates :=
           call (ReadCoils (relay_host b) (relay_port b) (minCoil b) count)
         in
         Ret (RelayStatus (id b)
                (at_ coilStates (coils_lift b - minCoil b))
                (at_ coilStates (coils_stop b - minCoil b))
                (at_ coilStates (coils_close b - minCoil b))))
        (fun err => Ret (Failure500 (message err)))
  end.

(** What the event loop starts: a request to one of the routes above or
    of [Api], or a timeout coming due. *)
Inductive Event : Type :=
| PostAction (action : Action) (barrierId : string)
| PostLatchOpen (barrierId : string)
| PostLatchClose (barrierId : string)
| PostUnlatch (barrierId : string)
| PostLock (barrierId : string)
| PostUnlock (barrierId : string)
| PostEmergencyOff
| GetLog (limitParam typeParam barrierParam : option string)
| GetRelayStatus (barrierId : string)
| TimerDue (h : nat).

Definition handler (ev : Event) : Prog unit :=
  match ev with
  | PostAction action barrierId =>
      let* _ := postAction action barrierId in Ret tt
  | PostLatchOpen barrierId => let* _ := postLatchOpen barrierId in Ret tt
  | PostLatchClose barrierId => let* _ := postLatchClose barrierId in Ret tt
  | PostUnlatch barrierId => let* _ := postUnlatch barrierId in Ret tt
  | PostLock barrierId => let* _ := postLock barrierId in Ret tt
  | PostUnlock barrierId => let* _ := postUnlock barrierId in Ret tt
  | PostEmergencyOff => let* _ := postEmergencyOff in Ret tt
  | GetLog limitParam typeParam barrierParam =>
      let* _ := getLog limitParam typeParam barrierParam in Ret tt
  | GetRelayStatus barrierId => let* _ := getRelayStatus barrierId in Ret tt
  | TimerDue h => fireTimer h
  end.

(** *** Vocabulary *)

(** The ring holds no more than [MAX_LOG] entries. *)
Definition logBounded (s : State) : Prop :=
  (length (eventLog s) <= MAX_LOG)%nat.

(** Every pending timeout was handed out by [setTimeout] before. *)
Definition handlesFresh (s : State) : Prop :=
  Forall (fun t => (t.1 < nextTimer s)%nat) (timers s).

(** The handles of the pending timeouts. *)
Definition pending (s : State) : list nat := (timers s).*1.

(** Started in a state with [P], every run of [m] ends in a state with
    [Q], however it ends. *)
Definition hoare {St Req Ans E A : Type} (P : St -> Prop)
    (m : Async St Req Ans E A) (Q : St -> Prop) : Prop :=
  forall (net : nat -> Ans) (tr : Trace St Req Ans) (s : St),
    P s -> Q (run net m tr s).1.2.

(** The state after [dropLatch]. *)
Definition dropped (b : BarrierConfig) (s : State) : State :=
  (run (fun _ => Resolved []) (dropLatch b) [] s).1.2.

(** Every pending pulse timer is the one recorded for its barrier. *)
Definition pulsesTracked (s : State) : Prop :=
  forall h b a, (h, PulseOff b a) ∈ timers s ->
                latchedCoils s !! id b = Some (Some h).

Definition pulsesOk (s : State) : Prop :=
  handlesFresh s /\ NoDup (pending s) /\ pulsesTracked s.

(** No pulse timer is pending for the barrier. *)
Definition noPulse (barrierId : string) (s : State) : Prop :=
  forall h b a, (h, PulseOff b a) ∈ timers s -> id b <> barrierId.

(** Events handled one after the other, each to its end. *)
Fixpoint runEvents (net : nat -> Outcome) (evs : list Event)
    (w : Trace State Call Outcome) (s : State)
  : Trace State Call Outcome * State :=
  match evs with
  | [] => (w, s)
  | ev :: evs' =>
      let r := run net (handler ev) w s in runEvents net evs' r.1.1 r.1.2
  end.

(** The exchanges of the calls [cs] made one after the other, the first
    being the [n]-th of the run, up to the first that is rejected, and
    the message of that one. *)
Fixpoint issue (net : nat -> Outcome) (n : nat) (s : State)
    (cs : list Call) : Trace State Call Outcome * option string :=
  match cs with
  | [] => ([], None)
  | c :: cs' =>
      match net n with
      | Resolved d =>
          let r := issue net (S n) s cs' in ((c, Resolved d, s) :: r.1, r.2)
      | Rejected m => ([(c, Rejected m, s)], Some m)
      end
  end.

Definition outcome (o : option string) : Result Failure unit :=
  match o with
  | None => Ok tt
  | Some m => Error (Failed m)
  end.

(** The writes of a sweep of one relay from a coil on. *)
Definition relaySweepFrom (host : string) (port : Z) (from : Z)
    (turns : nat) : list Call :=
  (fun i => WriteCoil host port (from + Z.of_nat i) false) <$> seq 0 turns.

(** The relays of the barriers, each once, in the order of the
    barriers. *)
Definition relays (bs : list BarrierConfig) : list (string * Z) :=
  distinct ((fun b => (relay_host b, relay_port b)) <$> bs) [].

(** The writes of a sweep of one relay. *)
Definition relaySweep (host : string) (port : Z) : list Call :=
  (fun i => WriteCoil host port (Z.of_nat i) false) <$> seq 0 8.

(** A network on which the [n]-th call is rejected and all others
    resolve. *)
Definition failAt (n : nat) (msg : string) : nat -> Outcome :=
  fun i => if (i =? n)%nat then Rejected msg else Resolved [].

(** *** Scenarios *)

Definition entryBarrier : BarrierConfig :=
  {| id := "krs-entry"; numericId := 1; name := "Entry Barrier";
     site := "KRS01"; direction := "entry";
     relay_host := "10.10.10.64"; relay_port := 4196;
     coils_lift := 0; coils_stop := 1; coils_close := 2 |}.

(** The state after [POST /api/barrier/1/lift]: the lift coil is on and
    its pulse timer pending. *)
Definition liftedEntry : State :=
  (run okNet (postAction lift "1") [] initState).1.2.

End ApiRoutes.

(** * The Modbus client of [index.ts]

    [modbus-client.ts] in its revision with [withRetry]. The library
    client is an identity with its [isOpen] flag; connecting and the coil
    operations are the awaited calls into the library. *)
Module ModbusClient.

Import Async.
Local Open Scope Z_scope.

Record Client : Type := {
  cid : nat;
  isOpen : bool
}.

Inductive Line : Type :=
| Connected (host : string) (port : Z)
| ConnectFailed (host : string) (port : Z) (message : string)
| Reconnecting (host : string) (port : Z) (message : string)
| CoilSet (host : string) (port : Z) (coil : Z) (value : bool).

Record State : Type := {
  (** keyed by [`${host}:${port}`] *)
  connections : gmap (string * Z) Client;
  (** [connectPromises]: the client each pending connect is for *)
  connectPromises : gmap (string * Z) nat;
  (** the identity of the next [new ModbusRTU()] *)
  nextClient : nat;
  (** the clients [close] was called on *)
  closed : list nat;
  console : list Line
}.

Inductive Request : Type :=
| ConnectTCP (client : nat) (host : string) (port : Z)
| WriteCoil (client : nat) (coil : Z) (value : bool)
| ReadCoils (client : nat) (start count : Z)
(** waiting for a connect another caller started *)
| Join (host : string) (port : Z).

Inductive Answer : Type :=
| Resolved (data : list bool)
| Rejected (message : string).

Definition Prog : Type -> Type := Async.Async State Request Answer string.

Notation "'let*' x ':=' m 'in' k" := (Async.bind m (fun x => k))
  (at level 10, x name, m at level 200, k at level 200, only parsing).

Definition with_connections (m : gmap (string * Z) Client) (s : State)
  : State :=
  {| connections := m; connectPromises := connectPromises s;
     nextClient := nextClient s; closed := closed s; console := console s |}.

Definition with_connectPromises (m : gmap (string * Z) nat) (s : State)
  : State :=
  {| connections := connections s; connectPromises := m;
     nextClient := nextClient s; closed := closed s; console := console s |}.

Definition log (line : Line) : Prog unit :=
  modify (fun s =>
    {| connections := connections s; connectPromises := connectPromises s;
       nextClient := nextClient s; closed := closed s;
       console := console s ++ [line] |}).

(** [await] of a call into the library. *)
Definition call (r : Request) : Prog (list bool) :=
  Await r (fun a =>
    match a with
    | Resolved data => Ret data
    | Rejected m => Throw m
    end).

(** [const existing = connections.get(k); if (existing) { try {
    existing.close(() => {}); } catch {} connections.delete(k); }] *)
Definition dropConnection (k : string * Z) : Prog unit :=
  modify (fun s =>
    match connections s !! k with
    | Some existing =>
        {| connections := delete k (connections s);
           connectPromises := connectPromises s;
           nextClient := nextClient s;
           closed := closed s ++ [cid existing];
           console := console s |}
    | None => s
    end).

(** [new ModbusRTU()] *)
Definition newClient : Prog nat :=
  Get (fun s =>
    Put {| connections := connections s;
           connectPromises := connectPromises s;
           nextClient := S (nextClient s); closed := closed s;
           console := console s |}
        (Ret (nextClient s))).

(** The rest of [getConnection] once no open connection was found: wait
    for the connect in flight, or start one. The promise is put into
    [connectPromises] when the connect has been called and taken out
    when it has settled. *)
Definition connect (host : string) (port : Z) : Prog nat :=
  let k := (host, port) in
  Get (fun s =>
    match connectPromises s !! k with
    | Some client => let* _ := call (Join host port) in Ret client
    | None =>
        let* client := newClient in
        let* _ :=
          modify (fun s1 =>
            with_connectPromises (<[k := client]> (connectPromises s1)) s1)
        in
        tryFinally
          (tryCatch
             (let* _ := call (ConnectTCP client host port) in
              let* _ :=
                modify (fun s1 =>
                  with_connections
                    (<[k := {| cid := client; isOpen := true |}]>
                       (connections s1)) s1)
              in
              let* _ := log (Connected host port) in
              Ret client)
             (fun err =>
                let* _ := log (ConnectFailed host port err) in
                Throw err))
          (modify (fun s1 =>
             with_connectPromises (delete k (connectPromises s1)) s1))
    end).

Definition getConnection (host : string) (port : Z) : Prog nat :=
  let k := (host, port) in
  Get (fun s =>
    match connections s !! k with
    | Some existing =>
        if isOpen existing then Ret (cid existing)
        else
          let* _ := dropConnection k in
          connect host port
    | None => connect host port
    end).

(** One turn of the loop of [withRetry]; [next] is the rest of the
    loop. *)
Definition attemptOp {A : Type} (host : string) (port : Z)
    (op : nat -> Prog A) (attempt : Z) (next : Prog A) : Prog A :=
  tryCatch
    (let* client := getConnection host port in op client)
    (fun err =>
       let* _ := dropConnection (host, port) in
       if attempt =? 0
       then
         let* _ := log (Reconnecting host port err) in
         next
       else Throw err).

(** [for (let attempt = 0; attempt < 2; attempt++) { ... } throw new
    Error(`Unreachable`)] *)
Definition withRetry {A : Type} (host : string) (port : Z)
    (op : nat -> Prog A) : Prog A :=
  attemptOp host port op 0
    (attemptOp host port op 1 (Throw "Unreachable")).

Definition writeCoil (host : string) (port : Z) (coil : Z) (value : bool)
  : Prog unit :=
  withRetry host port (fun client =>
    let* _ := call (WriteCoil client coil value) in
    log (CoilSet host port coil value)).

(** [arr.slice(0, end)] *)
Definition sliceTo {A : Type} (l : list A) (e : Z) : list A :=
  if e <? 0 then take (Z.to_nat (Z.max (Z.of_nat (length l) + e) 0)) l
  else take (Z.to_nat e) l.

Definition readCoils (host : string) (port : Z) (start count : Z)
  : Prog (list bool) :=
  withRetry host port (fun client =>
    let* data := call (ReadCoils client start count) in
    Ret (sliceTo data count)).

(** [for (const w of writes) { await client.writeCoil(w.coil, w.value);
    console.log(..) }] *)
Fixpoint writeAll (host : string) (port : Z) (client : nat)
    (writes : list (Z * bool)) : Prog unit :=
  match writes with
  | [] => Ret tt
  | (coil, value) :: rest =>
      let* _ := call (WriteCoil client coil value) in
      let* _ := log (CoilSet host port coil value) in
      writeAll host port client rest
  end.

Definition writeMultipleCoils (host : string) (port : Z)
    (writes : list (Z * bool)) : Prog unit :=
  withRetry host port (fun client => writeAll host port client writes).

(** *** Vocabulary *)

(** The requests of a trace, oldest first. *)
Definition requests (w : Trace State Request Answer) : list Request :=
  w.*1.*1.

Definition isConnect (r : Request) : bool :=
  match r with ConnectTCP _ _ _ => true | _ => false end.

(** The coil writes among the requests, with the client they went to. *)
Definition coilWrites (rs : list Request) : list (nat * Z * bool) :=
  omap (fun r => match r with
                 | WriteCoil client coil value => Some (client, coil, value)
                 | _ => None
                 end) rs.

(** The exchanges that were rejected. *)
Definition rejected (x : Request * Answer * State) : bool :=
  match x.1.2 with
  | Rejected _ => true
  | Resolved _ => false
  end.

(** The requests of one attempt of a coil write. *)
Definition writeAttempt (host : string) (port : Z) (coil : Z) (value : bool)
    (from : nat) (r : Request) : Prop :=
  (exists c, r = ConnectTCP c host port /\ (from <= c)%nat) \/
  (exists c, r = WriteCoil c coil value).

(** *** Scenarios *)

(** An open connection to the first relay, client 0. *)
Definition connectedState : State :=
  {| connections :=
       {[ ("10.10.10.64", 4196) := {| cid := 0; isOpen := true |} ]};
     connectPromises := ∅; nextClient := 1; closed := []; console := [] |}.

(** The [n]-th call is rejected, all others resolve. *)
Definition rejectAt (n : nat) (msg : string) : nat -> Answer :=
  fun i => if (i =? n)%nat then Rejected msg else Resolved [].

End ModbusClient.

(** * Facts *)

(** ** Bytes and buffers *)

Section BufFacts.

Import Buf.
Local Open Scope Z_scope.

Lemma b2z_range (b : byte) : 0 <= b2z b < 256.
Proof.
  unfold b2z. pose proof (Byte.to_N_bounded b). lia.
Qed.

Lemma z2b_b2z (b : byte) : z2b (b2z b) = b.
Proof.
  unfold z2b. pose proof (b2z_range b) as Hr.
  rewrite Z.mod_small by lia. unfold b2z.
  rewrite N2Z.id, Byte.of_to_N. reflexivity.
Qed.

Lemma b2z_z2b (z : Z) : b2z (z2b z) = z mod 256.
Proof.
  unfold z2b, b2z.
  pose proof (Z.mod_pos_bound z 256 ltac:(lia)) as Hr.
  destruct (Byte.of_N (Z.to_N (z mod 256))) as [b|] eqn:E.
  - apply Byte.to_of_N in E. simpl. rewrite E. lia.
  - apply Byte.of_N_None_iff in E. lia.
Qed.

Lemma b2z_z2b_small (z : Z) : 0 <= z < 256 -> b2z (z2b z) = z.
Proof. intros H. rewrite b2z_z2b. apply Z.mod_small. lia. Qed.

Lemma b2z_inj (a b : byte) : b2z a = b2z b -> a = b.
Proof.
  intros H. rewrite <- (z2b_b2z a), <- (z2b_b2z b). congruence.
Qed.

Lemma slice_0 (buf : list byte) (e : nat) : slice buf 0 e = take e buf.
Proof. unfold slice. rewrite Nat.sub_0_r. reflexivity. Qed.

End BufFacts.

(** ** CRC-16 *)

Section CrcFacts.

Import Buf Codec.
Local Open Scope Z_scope.

Lemma lxor_u16 (a b : Z) : u16 a -> u16 b -> u16 (Z.lxor a b).
Proof.
  unfold u16. intros Ha Hb.
  assert (0 <= Z.lxor a b) as Hn by (apply Z.lxor_nonneg; lia).
  split; [exact Hn|].
  destruct (Z.eq_dec (Z.lxor a b) 0) as [->|Hz]; [lia|].
  change 65536 with (2 ^ 16). apply Z.log2_lt_pow2; [lia|].
  pose proof (Z.log2_lxor a b ltac:(lia) ltac:(lia)) as Hl.
  assert (Z.log2 a < 16) as Hla.
  { destruct (Z.eq_dec a 0) as [->|]; [reflexivity|].
    apply Z.log2_lt_pow2; [lia|]. change (2 ^ 16) with 65536. lia. }
  assert (Z.log2 b < 16) as Hlb.
  { destruct (Z.eq_dec b 0) as [->|]; [reflexivity|].
    apply Z.log2_lt_pow2; [lia|]. change (2 ^ 16) with 65536. lia. }
  lia.
Qed.

Lemma lxor_cancel_r (a b k : Z) : Z.lxor a k = Z.lxor b k -> a = b.
Proof.
  intros E.
  rewrite <- (Z.lxor_0_r a), <- (Z.lxor_0_r b), <- (Z.lxor_nilpotent k).
  rewrite <- !Z.lxor_assoc, E. reflexivity.
Qed.

Lemma lxor_cancel_l (a b k : Z) : Z.lxor k a = Z.lxor k b -> a = b.
Proof. rewrite !(Z.lxor_comm k). apply lxor_cancel_r. Qed.

Lemma b2z_u16 (b : byte) : u16 (b2z b).
Proof. pose proof (b2z_range b). unfold u16. lia. Qed.

Lemma shiftr1_bound (c : Z) : u16 c -> 0 <= Z.shiftr c 1 < 32768.
Proof.
  unfold u16. intros H. rewrite Z.shiftr_div_pow2 by lia.
  change (2 ^ 1) with 2. split.
  - apply Z.div_pos; lia.
  - apply Z.div_lt_upper_bound; lia.
Qed.

Lemma crc_shift_u16 (c : Z) : u16 c -> u16 (crc_shift c).
Proof.
  intros H. pose proof (shiftr1_bound c H) as Hs. unfold crc_shift.
  destruct (Z.land c 1 =? 0).
  - unfold u16. lia.
  - apply lxor_u16; unfold u16; lia.
Qed.

Lemma iter_crc_shift_u16 (n : nat) (c : Z) :
  u16 c -> u16 (Nat.iter n crc_shift c).
Proof.
  intros H. induction n as [|n IH]; simpl; [exact H|].
  apply crc_shift_u16, IH.
Qed.

Lemma crc_byte_u16 (c : Z) (b : byte) : u16 c -> u16 (crc_byte c b).
Proof.
  intros H. unfold crc_byte.
  apply iter_crc_shift_u16, lxor_u16; [exact H|apply b2z_u16].
Qed.

Lemma fold_crc_u16 (buffer : list byte) (c : Z) :
  u16 c -> u16 (fold_left crc_byte buffer c).
Proof.
  revert c. induction buffer as [|b buffer IH]; intros c H; simpl.
  - exact H.
  - apply IH, crc_byte_u16, H.
Qed.

Lemma crc16_u16 (buffer : list byte) : u16 (crc16 buffer).
Proof. apply fold_crc_u16. unfold u16. lia. Qed.

(** The top bit of the shifted register tells whether the polynomial was
    folded in, i.e. the low bit of the register before the shift. *)
Lemma crc_shift_top (c : Z) :
  u16 c -> Z.testbit (crc_shift c) 15 = negb (Z.land c 1 =? 0).
Proof.
  intros H. unfold crc_shift.
  assert (Z.testbit (Z.shiftr c 1) 15 = false) as Hhi.
  { rewrite Z.shiftr_spec by lia. change (15 + 1) with 16.
    apply Z.bits_above_log2; [unfold u16 in H; lia|].
    destruct (Z.eq_dec c 0) as [->|]; [reflexivity|].
    apply Z.log2_lt_pow2; unfold u16 in H; [lia|].
    change (2 ^ 16) with 65536. lia. }
  destruct (Z.land c 1 =? 0); cbn [negb].
  - exact Hhi.
  - rewrite Z.lxor_spec, Hhi. reflexivity.
Qed.

Lemma crc_shift_inj (c d : Z) :
  u16 c -> u16 d -> crc_shift c = crc_shift d -> c = d.
Proof.
  intros Hc Hd E.
  pose proof (crc_shift_top c Hc) as Tc.
  pose proof (crc_shift_top d Hd) as Td.
  rewrite E in Tc. rewrite Tc in Td.
  assert (Z.land c 1 = Z.land d 1) as Hlow.
  { change 1 with (Z.ones 1). rewrite !Z.land_ones by lia.
    change 1 with (Z.ones 1) in Td. rewrite !Z.land_ones in Td by lia.
    change (2 ^ 1) with 2 in *.
    pose proof (Z.mod_pos_bound c 2 ltac:(lia)).
    pose proof (Z.mod_pos_bound d 2 ltac:(lia)).
    destruct (c mod 2 =? 0) eqn:E1, (d mod 2 =? 0) eqn:E2;
      simpl in Td; try discriminate; lia. }
  assert (Z.shiftr c 1 = Z.shiftr d 1) as Hhigh.
  { unfold crc_shift in E. rewrite <- Hlow in E.
    destruct (Z.land c 1 =? 0); [exact E|].
    exact (lxor_cancel_r _ _ _ E). }
  change 1 with (Z.ones 1) in Hlow. rewrite !Z.land_ones in Hlow by lia.
  rewrite !Z.shiftr_div_pow2 in Hhigh by lia.
  change (2 ^ 1) with 2 in *.
  rewrite (Z.div_mod c 2), (Z.div_mod d 2) by lia. lia.
Qed.

Lemma iter_crc_shift_inj (n : nat) (c d : Z) :
  u16 c -> u16 d ->
  Nat.iter n crc_shift c = Nat.iter n crc_shift d -> c = d.
Proof.
  intros Hc Hd. induction n as [|n IH]; simpl; [auto|].
  intros E. apply IH.
  apply crc_shift_inj; [apply iter_crc_shift_u16, Hc
                       |apply iter_crc_shift_u16, Hd|exact E].
Qed.

(** For a fixed input byte the register update is injective... *)
Lemma crc_byte_inj_l (b : byte) (c d : Z) :
  u16 c -> u16 d -> crc_byte c b = crc_byte d b -> c = d.
Proof.
  intros Hc Hd E. unfold crc_byte in E.
  apply iter_crc_shift_inj in E;
    [|apply lxor_u16; [assumption|apply b2z_u16]..].
  exact (lxor_cancel_r _ _ _ E).
Qed.

(** ... and for a fixed register it is injective in the byte. *)
Lemma crc_byte_inj_r (c : Z) (a b : byte) :
  u16 c -> crc_byte c a = crc_byte c b -> a = b.
Proof.
  intros Hc E. unfold crc_byte in E.
  apply iter_crc_shift_inj in E;
    [|apply lxor_u16; [assumption|apply b2z_u16]..].
  apply b2z_inj. exact (lxor_cancel_l _ _ _ E).
Qed.

Lemma fold_crc_inj (buffer : list byte) (c d : Z) :
  u16 c -> u16 d ->
  fold_left crc_byte buffer c = fold_left crc_byte buffer d -> c = d.
Proof.
  revert c d. induction buffer as [|b buffer IH]; intros c d Hc Hd; simpl.
  - auto.
  - intros E. apply IH in E; [|apply crc_byte_u16; assumption..].
    exact (crc_byte_inj_l b c d Hc Hd E).
Qed.

(** Changing one byte of a buffer changes its CRC. *)
Lemma crc16_one_byte (pre suf : list byte) (a b : byte) :
  crc16 (pre ++ a :: suf) = crc16 (pre ++ b :: suf) -> a = b.
Proof.
  unfold crc16. rewrite !fold_left_app. simpl. intros E.
  assert (u16 (fold_left crc_byte pre 0xFFFF)) as Hp
    by (apply fold_crc_u16; unfold u16; lia).
  apply fold_crc_inj in E; [|apply crc_byte_u16; exact Hp..].
  exact (crc_byte_inj_r _ a b Hp E).
Qed.

Lemma uint16LE_decode (v : Z) :
  u16 v ->
  b2z (z2b (Z.land v 255)) + 256 * b2z (z2b (Z.shiftr v 8)) = v.
Proof.
  unfold u16. intros H.
  change 255 with (Z.ones 8). rewrite Z.land_ones by lia.
  rewrite Z.shiftr_div_pow2 by lia. change (2 ^ 8) with 256.
  pose proof (Z.mod_pos_bound v 256 ltac:(lia)).
  assert (0 <= v / 256 < 256)
    by (split; [apply Z.div_pos; lia|apply Z.div_lt_upper_bound; lia]).
  rewrite !b2z_z2b_small by lia.
  rewrite (Z.div_mod v 256) at 3 by lia. lia.
Qed.

Lemma readUInt16LE_trailer (buffer : list byte) (lo hi : byte) :
  readUInt16LE (buffer ++ [lo; hi]) (length buffer)
  = Some (b2z lo + 256 * b2z hi).
Proof.
  unfold readUInt16LE, readUInt8.
  rewrite (lookup_app_r buffer) by lia.
  rewrite (lookup_app_r buffer) by lia.
  replace (length buffer - length buffer)%nat with 0%nat by lia.
  replace (S (length buffer) - length buffer)%nat with 1%nat by lia.
  reflexivity.
Qed.

(** [verifyCRC] on a buffer split into body and two trailer bytes. *)
Lemma verifyCRC_trailer (buffer : list byte) (lo hi : byte) :
  verifyCRC (buffer ++ [lo; hi])
  = if (length buffer <? 2)%nat then false
    else crc16 buffer =? b2z lo + 256 * b2z hi.
Proof.
  unfold verifyCRC. rewrite length_app. simpl length.
  destruct (Nat.ltb_spec (length buffer) 2) as [Hs|Hs].
  - destruct (Nat.ltb_spec (length buffer + 2) 4); [reflexivity|lia].
  - destruct (Nat.ltb_spec (length buffer + 2) 4); [lia|].
    replace (length buffer + 2 - 2)%nat with (length buffer) by lia.
    rewrite readUInt16LE_trailer, slice_0, take_app_length.
    reflexivity.
Qed.

Lemma verifyCRC_appendCRC (buffer : list byte) :
  verifyCRC (appendCRC buffer) = negb (length buffer <? 2)%nat.
Proof.
  unfold appendCRC, uint16LE. rewrite verifyCRC_trailer.
  destruct (length buffer <? 2)%nat; [reflexivity|].
  rewrite uint16LE_decode by apply crc16_u16.
  apply Z.eqb_refl.
Qed.

Lemma lxor_u8 (a b : Z) : 0 <= a < 256 -> 0 <= b < 256 -> 0 <= Z.lxor a b < 256.
Proof.
  intros Ha Hb.
  assert (0 <= Z.lxor a b) as Hn by (apply Z.lxor_nonneg; lia).
  split; [exact Hn|].
  destruct (Z.eq_dec (Z.lxor a b) 0) as [->|Hz]; [lia|].
  change 256 with (2 ^ 8). apply Z.log2_lt_pow2; [lia|].
  pose proof (Z.log2_lxor a b ltac:(lia) ltac:(lia)) as Hl.
  assert (Z.log2 a < 8) as Hla.
  { destruct (Z.eq_dec a 0) as [->|]; [reflexivity|].
    apply Z.log2_lt_pow2; [lia|]. change (2 ^ 8) with 256. lia. }
  assert (Z.log2 b < 8) as Hlb.
  { destruct (Z.eq_dec b 0) as [->|]; [reflexivity|].
    apply Z.log2_lt_pow2; [lia|]. change (2 ^ 8) with 256. lia. }
  lia.
Qed.

(** Flipping one of the eight bits of a byte yields a different byte. *)
Lemma flipped_byte_ne (b : byte) (k : Z) :
  0 <= k < 8 -> z2b (Z.lxor (b2z b) (2 ^ k)) <> b.
Proof.
  intros Hk E. apply (f_equal b2z) in E.
  assert (0 < 2 ^ k < 256) as Hp.
  { split; [apply Z.pow_pos_nonneg; lia|].
    change 256 with (2 ^ 8). apply Z.pow_lt_mono_r; lia. }
  rewrite b2z_z2b_small in E
    by (apply lxor_u8; [apply b2z_range|lia]).
  rewrite <- (Z.lxor_0_r (b2z b)) in E at 2.
  apply lxor_cancel_l in E. lia.
Qed.

Lemma flipBit_split (buffer : list byte) (i : nat) (k : Z) :
  (i < length buffer)%nat -> 0 <= k < 8 ->
  exists pre a b suf,
    buffer = pre ++ a :: suf /\ flipBit buffer i k = pre ++ b :: suf /\
    length pre = i /\ a <> b.
Proof.
  intros Hi Hk.
  destruct (lookup_lt_is_Some_2 buffer i Hi) as [a Ha].
  exists (take i buffer), a, (z2b (Z.lxor (b2z a) (2 ^ k))),
         (drop (S i) buffer).
  assert (length (take i buffer) = i) as Hl
    by (rewrite length_take; lia).
  split; [symmetry; apply take_drop_middle, Ha|].
  split; [|split; [exact Hl|]].
  - unfold flipBit.
    rewrite <- (take_drop_middle buffer i a Ha) at 1.
    replace i with (length (take i buffer) + 0)%nat at 1 by lia.
    rewrite alter_app_r. reflexivity.
  - intros E. symmetry in E. exact (flipped_byte_ne a k Hk E).
Qed.

Lemma verifyCRC_flip_body (bytes : list byte) (i : nat) (k : Z) :
  (i < length bytes)%nat -> 0 <= k < 8 ->
  verifyCRC (flipBit (appendCRC bytes) i k) = false.
Proof.
  intros Hi Hk. unfold appendCRC, flipBit.
  rewrite alter_app_l by exact Hi. fold (flipBit bytes i k).
  destruct (flipBit_split bytes i k Hi Hk)
    as (pre & a & b & suf & Hb & Hf & _ & Hne).
  unfold uint16LE. rewrite verifyCRC_trailer.
  destruct (length (flipBit bytes i k) <? 2)%nat; [reflexivity|].
  rewrite uint16LE_decode by apply crc16_u16.
  apply Z.eqb_neq. intros E. apply Hne. symmetry.
  apply (crc16_one_byte pre suf). rewrite <- Hb, <- Hf. exact E.
Qed.

Lemma verifyCRC_flip_trailer (bytes : list byte) (i : nat) (k : Z) :
  (length bytes <= i < length bytes + 2)%nat -> 0 <= k < 8 ->
  verifyCRC (flipBit (appendCRC bytes) i k) = false.
Proof.
  intros Hi Hk. unfold appendCRC, flipBit.
  rewrite alter_app_r_alt by lia.
  pose proof (uint16LE_decode (crc16 bytes) (crc16_u16 bytes)) as Hd.
  unfold uint16LE.
  set (lo := z2b (Z.land (crc16 bytes) 255)) in *.
  set (hi := z2b (Z.shiftr (crc16 bytes) 8)) in *.
  assert (i - length bytes = 0 \/ i - length bytes = 1)%nat as [->| ->]
    by lia; cbn [alter list_alter];
    rewrite verifyCRC_trailer;
    (destruct (length bytes <? 2)%nat; [reflexivity|]);
    apply Z.eqb_neq; intros E.
  - apply (flipped_byte_ne lo k Hk). apply b2z_inj. lia.
  - apply (flipped_byte_ne hi k Hk). apply b2z_inj. lia.
Qed.

(** C5 (as the code has it): the CRC round trip holds for every buffer of
    at least two bytes ([verifyCRC] refuses frames shorter than four), and
    flipping any single bit of [appendCRC bytes] makes [verifyCRC] fail,
    for the CRC with polynomial 0xA001, initial value 0xFFFF, processed
    LSB-first and appended little-endian. *)
Theorem crc_roundtrip_and_single_bit_flip (bytes : list byte) :
  ((2 <= length bytes)%nat -> verifyCRC (appendCRC bytes) = true) /\
  (forall (i : nat) (k : Z),
      (i < length (appendCRC bytes))%nat -> 0 <= k < 8 ->
      verifyCRC (flipBit (appendCRC bytes) i k) = false).
Proof.
  split.
  - intros Hl. rewrite verifyCRC_appendCRC.
    destruct (Nat.ltb_spec (length bytes) 2); [lia|reflexivity].
  - intros i k Hi Hk.
    unfold appendCRC, uint16LE in Hi. rewrite length_app in Hi.
    simpl length in Hi.
    destruct (Nat.lt_ge_cases i (length bytes)).
    + apply verifyCRC_flip_body; assumption.
    + apply verifyCRC_flip_trailer; [lia|assumption].
Qed.

Lemma crc_roundtrip_and_single_bit_flip_witness :
  verifyCRC (appendCRC [x01; x05]) = true /\
  verifyCRC (flipBit (appendCRC [x01; x05]) 1 2) = false /\
  verifyCRC (flipBit (appendCRC [x01; x05]) 3 7) = false.
Proof.
  pose proof (crc_roundtrip_and_single_bit_flip [x01; x05]) as [Hr Hf].
  split; [apply Hr; simpl; lia|].
  split; apply Hf; simpl; lia.
Defined.

(** C5, the claim as written fails on a one-byte buffer: the three-byte
    frame is shorter than the four bytes [verifyCRC] insists on. *)
Lemma crc_roundtrip_short_buffer :
  verifyCRC (appendCRC [x01]) = false /\ verifyCRC (appendCRC []) = false.
Proof. split; reflexivity. Qed.

(** The register of the standard Modbus example frame. *)
Example crc16_read_holding_example :
  map b2z (appendCRC [x01; x03; x00; x00; x00; x0a])
  = [1; 3; 0; 0; 0; 10; 197; 205].
Proof. reflexivity. Qed.

End CrcFacts.

(** ** Framing *)

Section FrameFacts.

Import Buf Codec.
Local Open Scope Z_scope.

Lemma parseRTUResponse_short (response : list byte) :
  (length response < 5)%nat -> parseRTUResponse response = Incomplete.
Proof.
  intros H. unfold parseRTUResponse.
  destruct (Nat.ltb_spec (length response) 5); [reflexivity|lia].
Qed.

(** The parser on a buffer that starts like a Read Coils response. *)
Lemma parseRTUResponse_read (u n : byte) (rest : list byte) :
  (2 <= length rest)%nat ->
  parseRTUResponse (u :: x01 :: n :: rest)
  = let response := u :: x01 :: n :: rest in
    let expectedLen := (3 + Z.to_nat (b2z n) + 2)%nat in
    if (length response <? expectedLen)%nat then Incomplete
    else if negb (verifyCRC (slice response 0 expectedLen))
         then Raise CrcMismatch
         else Pdu (slice (slice response 0 expectedLen) 1 (expectedLen - 2)).
Proof.
  intros H. unfold parseRTUResponse.
  destruct (Nat.ltb_spec (length (u :: x01 :: n :: rest)) 5) as [Hl|Hl];
    [simpl in Hl; lia|].
  unfold readAt, readUInt8. cbn [lookup list_lookup fmap option_fmap option_map].
  change (b2z x01) with 1. cbn [Z.land Z.eqb negb orb Pos.land Pos.eqb].
  destruct (Nat.ltb_spec (length (u :: x01 :: n :: rest)) 4) as [Hl4|Hl4];
    [simpl in Hl4; lia|].
  reflexivity.
Qed.

(** The parser on a buffer that starts like a Write Single Coil echo. *)
Lemma parseRTUResponse_write (u : byte) (rest : list byte) :
  (3 <= length rest)%nat ->
  parseRTUResponse (u :: x05 :: rest)
  = let response := u :: x05 :: rest in
    if (length response <? 8)%nat then Incomplete
    else if negb (verifyCRC (slice response 0 8))
         then Raise CrcMismatch
         else Pdu (slice (slice response 0 8) 1 6).
Proof.
  intros H. unfold parseRTUResponse.
  destruct (Nat.ltb_spec (length (u :: x05 :: rest)) 5) as [Hl|Hl];
    [simpl in Hl; lia|].
  unfold readAt, readUInt8. cbn [lookup list_lookup fmap option_fmap option_map].
  change (b2z x05) with 5. cbn [Z.land Z.eqb negb orb Pos.land Pos.eqb].
  reflexivity.
Qed.

Lemma responseShape_cases (fc : byte) (payload : list byte) :
  responseShape fc payload = true ->
  (fc = x01 /\ exists n data,
      payload = n :: data /\ Z.of_nat (length data) = b2z n)
  \/ (fc = x05 /\ length payload = 4%nat).
Proof.
  intros H. destruct fc; try discriminate H.
  - left. split; [reflexivity|].
    destruct payload as [|n data]; [discriminate H|].
    exists n, data. split; [reflexivity|].
    simpl in H. apply Z.eqb_eq in H. exact H.
  - right. split; [reflexivity|].
    simpl in H. apply Nat.eqb_eq in H. exact H.
Qed.

(** Every strict prefix of a well-shaped RTU response is reported as
    incomplete, whatever its trailer bytes are. *)
Lemma parseRTUResponse_strict_prefix (u fc lo hi : byte)
    (payload : list byte) (n : nat) :
  responseShape fc payload = true ->
  (n < length (u :: fc :: payload ++ [lo; hi]))%nat ->
  parseRTUResponse (take n (u :: fc :: payload ++ [lo; hi])) = Incomplete.
Proof.
  intros Hs Hn.
  destruct (Nat.lt_ge_cases n 5) as [Hn5|Hn5].
  { apply parseRTUResponse_short. rewrite length_take. lia. }
  apply responseShape_cases in Hs as [[-> (c & data & -> & Hc)]|[-> Hl]].
  - simpl length in Hn. rewrite length_app in Hn. simpl length in Hn.
    destruct n as [|[|[|m]]]; try lia.
    cbn [take firstn app].
    change (firstn m (data ++ [lo; hi])) with (take m (data ++ [lo; hi])).
    rewrite parseRTUResponse_read
      by (rewrite length_take, length_app; simpl; lia).
    cbv zeta. simpl length. rewrite length_take, length_app. simpl length.
    rewrite <- Hc, Nat2Z.id.
    destruct (Nat.ltb_spec (S (S (S (m `min` (length data + 2)))))
                (3 + length data + 2)); [reflexivity|lia].
  - simpl length in Hn. rewrite length_app in Hn. simpl length in Hn.
    destruct n as [|[|m]]; try lia.
    cbn [take firstn app].
    change (firstn m (payload ++ [lo; hi])) with (take m (payload ++ [lo; hi])).
    rewrite parseRTUResponse_write
      by (rewrite length_take, length_app; simpl; lia).
    cbv zeta. simpl length. rewrite length_take, length_app. simpl length.
    destruct (Nat.ltb_spec (S (S (m `min` (length payload + 2)))) 8);
      [reflexivity|lia].
Qed.

(** A complete well-shaped RTU response with a correct CRC parses to its
    function code and payload. *)
Lemma parseRTUResponse_complete (u fc lo hi : byte) (payload : list byte) :
  responseShape fc payload = true ->
  verifyCRC (u :: fc :: payload ++ [lo; hi]) = true ->
  parseRTUResponse (u :: fc :: payload ++ [lo; hi]) = Pdu (fc :: payload).
Proof.
  intros Hs Hv.
  apply responseShape_cases in Hs as [[-> (c & data & -> & Hc)]|[-> Hl]].
  - cbn [app] in *.
    rewrite parseRTUResponse_read by (rewrite length_app; simpl; lia).
    cbv zeta. simpl length. rewrite length_app. simpl length.
    rewrite <- Hc, Nat2Z.id.
    destruct (Nat.ltb_spec (S (S (S (length data + 2))))
                (3 + length data + 2)); [lia|].
    assert (slice (u :: x01 :: c :: data ++ [lo; hi]) 0
              (3 + length data + 2) = u :: x01 :: c :: data ++ [lo; hi])
      as ->.
    { rewrite slice_0. apply take_ge. simpl. rewrite length_app. simpl. lia. }
    rewrite Hv. cbn [negb]. f_equal.
    unfold slice. cbn [drop skipn].
    replace (3 + length data + 2 - 2 - 1)%nat with (S (S (length data)))
      by lia.
    cbn [take firstn]. do 2 f_equal. apply take_app_length.
  - rewrite parseRTUResponse_write by (rewrite length_app; simpl; lia).
    cbv zeta. simpl length. rewrite length_app. simpl length.
    destruct (Nat.ltb_spec (S (S (length payload + 2))) 8); [lia|].
    assert (slice (u :: x05 :: payload ++ [lo; hi]) 0 8
            = u :: x05 :: payload ++ [lo; hi]) as ->.
    { rewrite slice_0. apply take_ge. simpl. rewrite length_app. simpl. lia. }
    rewrite Hv. cbn [negb]. f_equal.
    unfold slice. cbn [drop skipn]. cbn [Nat.sub take firstn].
    f_equal. rewrite <- Hl. apply take_app_length.
Qed.

(** C6: for a valid RTU response (Read Coils or Write Single Coil shape,
    correct CRC trailer) every strict prefix of the frame is reported as
    incomplete -- neither a parse nor a CRC failure -- and the complete
    frame parses to the function code followed by the data. *)
Theorem parseRTUResponse_partial_frames (u fc lo hi : byte)
    (payload : list byte) :
  responseShape fc payload = true ->
  verifyCRC (u :: fc :: payload ++ [lo; hi]) = true ->
  let frame := u :: fc :: payload ++ [lo; hi] in
  (forall n : nat, (n < length frame)%nat ->
     parseRTUResponse (take n frame) = Incomplete) /\
  parseRTUResponse frame = Pdu (fc :: payload).
Proof.
  intros Hs Hv frame. split.
  - intros n Hn. apply parseRTUResponse_strict_prefix; assumption.
  - apply parseRTUResponse_complete; assumption.
Qed.

Lemma parseRTUResponse_partial_frames_witness :
  let frame := [x01; x01; x02; xff; x01; x39; xcc] in
  (forall n : nat, (n < length frame)%nat ->
     parseRTUResponse (take n frame) = Incomplete) /\
  parseRTUResponse frame = Pdu [x01; x02; xff; x01].
Proof.
  apply (parseRTUResponse_partial_frames x01 x01 x39 xcc [x02; xff; x01]);
    reflexivity.
Defined.

Lemma writeUInt16BE_in_range (v : Z) :
  0 <= v <= 65535 ->
  writeUInt16BE v = Some [z2b (Z.shiftr v 8); z2b (Z.land v 255)].
Proof.
  intros H. unfold writeUInt16BE.
  destruct (Z.leb_spec 0 v); [|lia].
  destruct (Z.leb_spec v 65535); [reflexivity|lia].
Qed.

Lemma writeUInt8_in_range (v : Z) :
  0 <= v <= 255 -> writeUInt8 v = Some [z2b v].
Proof.
  intros H. unfold writeUInt8.
  destruct (Z.leb_spec 0 v); [|lia].
  destruct (Z.leb_spec v 255); [reflexivity|lia].
Qed.

Lemma land_FFFF_range (v : Z) : 0 <= Z.land v 0xFFFF <= 65535.
Proof.
  change (Z.land v 0xFFFF) with (Z.land v (Z.ones 16)).
  rewrite Z.land_ones by lia.
  pose proof (Z.mod_pos_bound v (2 ^ 16) ltac:(lia)).
  change (2 ^ 16) with 65536 in *. lia.
Qed.

(** The MBAP-framed bytes [buildTCPFrame] produces when no header write
    is out of range. *)
Lemma buildTCPFrame_ok (transactionId unitId : Z) (fc : byte)
    (data : list byte) :
  0 <= unitId <= 255 -> Z.of_nat (length data) <= 65533 ->
  buildTCPFrame transactionId unitId fc data
  = (transactionId + 1,
     Some ([z2b (Z.shiftr (Z.land (transactionId + 1) 0xFFFF) 8);
            z2b (Z.land (Z.land (transactionId + 1) 0xFFFF) 255);
            x00; x00;
            z2b (Z.shiftr (Z.of_nat (length data) + 2) 8);
            z2b (Z.land (Z.of_nat (length data) + 2) 255);
            z2b unitId] ++ fc :: data)).
Proof.
  intros Hu Hl. unfold buildTCPFrame. cbv zeta.
  replace (Z.of_nat (length (fc :: data)) + 1)
    with (Z.of_nat (length data) + 2) by (simpl length; lia).
  rewrite (writeUInt16BE_in_range (Z.land _ _)) by apply land_FFFF_range.
  rewrite (writeUInt16BE_in_range 0) by lia.
  rewrite (writeUInt16BE_in_range (_ + 2)) by lia.
  rewrite writeUInt8_in_range by exact Hu.
  reflexivity.
Qed.

Lemma parseTCPResponse_mbap (h0 h1 h2 h3 h4 h5 h6 fc : byte)
    (payload : list byte) :
  responseShape fc payload = true ->
  parseTCPResponse ([h0; h1; h2; h3; h4; h5; h6] ++ fc :: payload)
  = Pdu (fc :: payload).
Proof.
  intros Hs. unfold parseTCPResponse.
  apply responseShape_cases in Hs as [[-> (c & data & -> & Hc)]|[-> Hl]].
  - reflexivity.
  - destruct payload as [|p0 payload]; [discriminate Hl|]. reflexivity.
Qed.

Lemma responseShape_length (fc : byte) (payload : list byte) :
  responseShape fc payload = true -> (length payload <= 256)%nat.
Proof.
  intros Hs.
  apply responseShape_cases in Hs as [[-> (c & data & -> & Hc)]|[-> Hl]].
  - pose proof (b2z_range c). simpl. lia.
  - lia.
Qed.

(** C7: building a frame around a Read Coils or Write Single Coil response
    and parsing it back returns the function code followed by the payload,
    in both dialects (the unit id is a byte, as [writeUInt8] demands). *)
Theorem frame_roundtrip (transactionId unitId : Z) (fc : byte)
    (payload : list byte) :
  responseShape fc payload = true ->
  0 <= unitId <= 255 ->
  (exists frame,
      buildTCPFrame transactionId unitId fc payload
      = (transactionId + 1, Some frame) /\
      parseTCPResponse frame = Pdu (fc :: payload)) /\
  parseRTUResponse (buildRTUFrame unitId fc payload) = Pdu (fc :: payload).
Proof.
  intros Hs Hu. split.
  - pose proof (responseShape_length fc payload Hs) as Hl.
    rewrite buildTCPFrame_ok by lia.
    eexists. split; [reflexivity|].
    apply parseTCPResponse_mbap, Hs.
  - unfold buildRTUFrame.
    pose proof (verifyCRC_appendCRC (z2b unitId :: fc :: payload)) as Hv.
    unfold appendCRC, uint16LE in *.
    change ((z2b unitId :: fc :: payload) ++ ?t)
      with (z2b unitId :: fc :: payload ++ t) in *.
    apply parseRTUResponse_complete; [exact Hs|].
    rewrite Hv. reflexivity.
Qed.

Lemma frame_roundtrip_witness :
  (exists frame,
      buildTCPFrame 0 1 x01 [x02; xff; x01] = (0 + 1, Some frame) /\
      parseTCPResponse frame = Pdu [x01; x02; xff; x01]) /\
  parseRTUResponse (buildRTUFrame 1 x01 [x02; xff; x01])
  = Pdu [x01; x02; xff; x01].
Proof.
  apply (frame_roundtrip 0 1 x01 [x02; xff; x01]); [reflexivity|lia].
Defined.

End FrameFacts.

(** ** Running asynchronous programs *)

Section AsyncFacts.

Import Async.
Context {St Req Ans E : Type}.
Implicit Types (net : nat -> Ans) (w : Trace St Req Ans) (s : St).

Lemma run_handle {A B : Type} net (m : Async St Req Ans E A)
    (ok : A -> Async St Req Ans E B) (err : E -> Async St Req Ans E B) w s :
  run net (handle m ok err) w s
  = match run net m w s with
    | (w', s', Ok a) => run net (ok a) w' s'
    | (w', s', Error e) => run net (err e) w' s'
    end.
Proof.
  revert w s. induction m as [a|e|k IH|s' k IH|r k IH]; intros w s; simpl.
  - reflexivity.
  - reflexivity.
  - apply IH.
  - apply IH.
  - apply IH.
Qed.

Lemma run_bind {A B : Type} net (m : Async St Req Ans E A)
    (f : A -> Async St Req Ans E B) w s :
  run net (bind m f) w s
  = match run net m w s with
    | (w', s', Ok a) => run net (f a) w' s'
    | (w', s', Error e) => (w', s', Error e)
    end.
Proof. unfold bind. rewrite run_handle. reflexivity. Qed.

Lemma run_tryCatch {A : Type} net (m : Async St Req Ans E A)
    (h : E -> Async St Req Ans E A) w s :
  run net (tryCatch m h) w s
  = match run net m w s with
    | (w', s', Ok a) => (w', s', Ok a)
    | (w', s', Error e) => run net (h e) w' s'
    end.
Proof. unfold tryCatch. rewrite run_handle. reflexivity. Qed.

Lemma run_modify net (f : St -> St) w s :
  run (E := E) net (modify f) w s = (w, f s, Ok tt).
Proof. reflexivity. Qed.

(** [try { m } finally { s = f(s) }] with a synchronous clean-up. *)
Lemma run_tryFinally_modify {A : Type} net (m : Async St Req Ans E A)
    (f : St -> St) w s :
  run net (tryFinally m (modify f)) w s
  = match run net m w s with
    | (w', s', r) => (w', f s', r)
    end.
Proof.
  unfold tryFinally. rewrite run_handle.
  destruct (run net m w s) as [[w' s'] [a|e]]; reflexivity.
Qed.

(** A run only ever appends to the trace. *)
Lemma run_trace_extends {A : Type} net (m : Async St Req Ans E A) w s :
  exists w1, (run net m w s).1.1 = w ++ w1.
Proof.
  revert w s. induction m as [a|e|k IH|s' k IH|r k IH]; intros w s; simpl.
  - exists []. rewrite app_nil_r. reflexivity.
  - exists []. rewrite app_nil_r. reflexivity.
  - apply IH.
  - apply IH.
  - destruct (IH (net (length w)) (w ++ [(r, net (length w), s)]) s)
      as [w1 Hw1].
    exists ((r, net (length w), s) :: w1). rewrite Hw1, <- app_assoc.
    reflexivity.
Qed.

Lemma advance_handle {A B : Type} (m : Async St Req Ans E A)
    (ok : A -> Async St Req Ans E B) (err : E -> Async St Req Ans E B) s :
  advance (handle m ok err) s
  = match advance m s with
    | (s', Done (Ok a)) => advance (ok a) s'
    | (s', Done (Error e)) => advance (err e) s'
    | (s', Blocked r k) => (s', Blocked r (fun a => handle (k a) ok err))
    end.
Proof.
  revert s. induction m as [a|e|k IH|s' k IH|r k IH]; intros s; simpl.
  - reflexivity.
  - reflexivity.
  - apply IH.
  - apply IH.
  - reflexivity.
Qed.

End AsyncFacts.

(** ** Transport: one exchange, coil reads and writes *)

Section TransportFacts.

Import Buf Codec Async Server.
Local Open Scope Z_scope.

Variable conf : Config.
Implicit Types (net : nat -> list NetEvent) (s : State)
  (w : Trace State Request (list NetEvent)).

Lemma run_ofResult {A : Type} net (r : Result Err A) w s :
  run net (ofResult r) w s = (w, s, r).
Proof. destruct r; reflexivity. Qed.

Lemma run_fromOption_Some {A : Type} net (a : A) (e : Err) w s :
  run net (fromOption (Some a) e) w s = (w, s, Ok a).
Proof. reflexivity. Qed.

Lemma boardState_with_board (key k : string) (f : BoardState -> BoardState) s :
  boardState (with_board key f s) !! k
  = if decide (key = k) then f <$> boardState s !! key
    else boardState s !! k.
Proof. unfold with_board. simpl. apply lookup_alter. Qed.

Lemma boardState_with_board_eq (key : string) (f : BoardState -> BoardState) s :
  boardState (with_board key f s) !! key = f <$> boardState s !! key.
Proof. unfold with_board. simpl. apply lookup_alter_eq. Qed.

Lemma boardState_with_board_ne (key k : string)
    (f : BoardState -> BoardState) s :
  key <> k -> boardState (with_board key f s) !! k = boardState s !! k.
Proof. intros H. unfold with_board. simpl. apply lookup_alter_ne, H. Qed.

(** One exchange, on a configured board whose header fields are in
    range: exactly one request goes on the wire, the state moves to
    [afterSend], and the promise settles as the socket handlers decide. *)
Lemma run_modbusRequest net key fc data w s cfg b :
  assoc key (BOARDS conf) = Some cfg ->
  boardState s !! key = Some b ->
  0 <= BoardCfg.unitId cfg <= 255 ->
  Z.of_nat (length data) <= 65533 ->
  run net (modbusRequest conf key fc data) w s
  = (w ++ [(requestOf key cfg b fc data, net (length w), afterSend key s)],
     afterSend key s,
     settle (useRTU b) [] (net (length w))).
Proof.
  intros Hc Hb Hu Hd. unfold modbusRequest, boardCfg, afterSend, requestOf.
  rewrite Hc, Hb. cbn [bind handle getBoard run]. rewrite Hb.
  cbn [bind handle getBoard run].
  destruct (useRTU b) eqn:Hr; cbn [bind handle getBoard run].
  - rewrite Hb. cbn [bind handle getBoard run]. rewrite Hr.
    apply run_ofResult.
  - rewrite buildTCPFrame_ok by assumption.
    cbn [fst snd fromOption setBoard modify bind handle run default].
    rewrite boardState_with_board_eq, Hb.
    cbn [fmap option_fmap option_map bind handle run set_transactionId useRTU].
    rewrite Hr. apply run_ofResult.
Qed.

Lemma coilData_writeUInt16BE (addr : Z) (value : bool) :
  0 <= addr <= 65535 ->
  writeUInt16BE addr = Some (take 2 (coilData addr value)) /\
  writeUInt16BE (if value then 0xFF00 else 0x0000)
  = Some (drop 2 (coilData addr value)).
Proof.
  intros H. split.
  - rewrite writeUInt16BE_in_range by exact H. reflexivity.
  - destruct value; reflexivity.
Qed.

Lemma run_writeCoil net key addr value w s cfg b :
  assoc key (BOARDS conf) = Some cfg ->
  boardState s !! key = Some b ->
  0 <= BoardCfg.unitId cfg <= 255 ->
  0 <= addr <= 65535 ->
  run net (writeCoil conf key addr value) w s
  = (w ++ [(requestOf key cfg b x05 (coilData addr value), net (length w),
            afterSend key s)],
     afterSend key s,
     match settle (useRTU b) [] (net (length w)) with
     | Ok _ => Ok tt
     | Error e => Error e
     end).
Proof.
  intros Hc Hb Hu Ha. unfold writeCoil.
  destruct (coilData_writeUInt16BE addr value Ha) as [-> ->].
  cbn [fromOption bind handle]. rewrite run_bind.
  rewrite (run_modbusRequest net key x05 _ w s cfg b Hc Hb Hu)
    by (simpl; lia).
  change (take 2 (coilData addr value) ++ drop 2 (coilData addr value))
    with (coilData addr value).
  destruct (settle (useRTU b) [] (net (length w))); reflexivity.
Qed.

Lemma run_readCoils net key startAddr qty w s cfg b :
  assoc key (BOARDS conf) = Some cfg ->
  boardState s !! key = Some b ->
  0 <= BoardCfg.unitId cfg <= 255 ->
  0 <= startAddr <= 65535 -> 0 <= qty <= 65535 ->
  run net (readCoils conf key startAddr qty) w s
  = (w ++ [(requestOf key cfg b x01 (readData startAddr qty),
            net (length w), afterSend key s)],
     afterSend key s,
     match settle (useRTU b) [] (net (length w)) with
     | Ok pdu => Ok (unpackCoils pdu qty)
     | Error e => Error e
     end).
Proof.
  intros Hc Hb Hu Ha Hq. unfold readCoils.
  rewrite !writeUInt16BE_in_range by assumption.
  cbn [fromOption bind handle]. rewrite run_bind.
  rewrite (run_modbusRequest net key x01 _ w s cfg b Hc Hb Hu)
    by (simpl; lia).
  destruct (settle (useRTU b) [] (net (length w))); reflexivity.
Qed.

(** [afterSend] touches nothing but one board's transaction counter. *)
Lemma afterSend_fields key s :
  closeTimers (afterSend key s) = closeTimers s /\
  timers (afterSend key s) = timers s /\
  nextTimer (afterSend key s) = nextTimer s /\
  auditEntries (afterSend key s) = auditEntries s /\
  console (afterSend key s) = console s.
Proof.
  unfold afterSend. destruct (boardState s !! key) as [b|]; [|auto].
  destruct (useRTU b); auto.
Qed.

Lemma boardState_afterSend key k s :
  exists t : Z -> Z,
    boardState (afterSend key s) !! k
    = (fun b => set_transactionId (t (transactionId b)) b)
        <$> boardState s !! k.
Proof.
  assert (forall o : option BoardState,
             (fun b => set_transactionId (id (transactionId b)) b) <$> o = o)
    as Hid by (intros [[]|]; reflexivity).
  unfold afterSend. destruct (boardState s !! key) as [b|] eqn:Hb.
  - destruct (useRTU b).
    + exists id. rewrite Hid. reflexivity.
    + destruct (decide (key = k)) as [->|Hne].
      * exists (fun _ => transactionId b + 1).
        rewrite boardState_with_board_eq, Hb. reflexivity.
      * exists id. rewrite boardState_with_board_ne, Hid by exact Hne.
        reflexivity.
  - exists id. rewrite Hid. reflexivity.
Qed.

Lemma unpackCoils_length (pdu : list byte) (qty : Z) :
  length (unpackCoils pdu qty) = Z.to_nat qty.
Proof. unfold unpackCoils. rewrite length_map, length_seq. reflexivity. Qed.

Lemma unpackCoils_lookup (pdu : list byte) (qty : Z) (i : nat) :
  (i < Z.to_nat qty)%nat ->
  unpackCoils pdu qty !! i = Some (coilAt pdu (Z.of_nat i)).
Proof.
  intros Hi. unfold unpackCoils.
  rewrite list_lookup_fmap, lookup_seq_lt by exact Hi. reflexivity.
Qed.

(** A coil whose byte the PDU does not contain reads as off. *)
Lemma coilAt_absent (pdu : list byte) (i : Z) :
  0 <= i -> Z.of_nat (length pdu) <= 2 + i / 8 -> coilAt pdu i = false.
Proof.
  intros Hi Hl. unfold coilAt.
  assert (0 <= i / 8) by (apply Z.div_pos; lia).
  rewrite lookup_ge_None_2 by lia. reflexivity.
Qed.

Lemma writeUInt16BE_Some (v : Z) (bs : list byte) :
  writeUInt16BE v = Some bs ->
  0 <= v <= 65535 /\ bs = [z2b (Z.shiftr v 8); z2b (Z.land v 255)].
Proof.
  unfold writeUInt16BE.
  destruct (Z.leb_spec 0 v); [|discriminate].
  destruct (Z.leb_spec v 65535); [|discriminate].
  intros [= <-]. split; [lia|reflexivity].
Qed.

(** A successful [readCoils(board, start, qty)] returns exactly [qty]
    booleans, whatever the number of data bytes in the response PDU: coil
    [i] is bit [i mod 8] of PDU byte [2 + i / 8], and is [false] when the
    PDU has no such byte. *)
Lemma readCoils_unpacks_qty_coils net key startAddr qty w s w' s'
    (coils : list bool) :
  run net (readCoils conf key startAddr qty) w s = (w', s', Ok coils) ->
  exists pdu : list byte,
    run net (modbusRequest conf key x01 (readData startAddr qty)) w s
    = (w', s', Ok pdu) /\
    length coils = Z.to_nat qty /\
    forall i : nat, (i < Z.to_nat qty)%nat ->
      coils !! i = Some (coilAt pdu (Z.of_nat i)) /\
      (Z.of_nat (length pdu) <= 2 + Z.of_nat i / 8 ->
       coils !! i = Some false).
Proof.
  unfold readCoils. intros Hrun.
  destruct (writeUInt16BE startAddr) as [a|] eqn:Ea; [|discriminate Hrun].
  destruct (writeUInt16BE qty) as [q|] eqn:Eq; [|discriminate Hrun].
  apply writeUInt16BE_Some in Ea as [_ ->].
  apply writeUInt16BE_Some in Eq as [_ ->].
  cbn [fromOption bind handle] in Hrun. rewrite run_bind in Hrun.
  change ([z2b (Z.shiftr startAddr 8); z2b (Z.land startAddr 255)] ++
          [z2b (Z.shiftr qty 8); z2b (Z.land qty 255)])
    with (readData startAddr qty) in Hrun.
  destruct (run net (modbusRequest conf key x01 (readData startAddr qty)) w s)
    as [[w1 s1] [pdu|e]]; [|discriminate Hrun].
  cbn [run] in Hrun. injection Hrun as -> -> <-.
  exists pdu. split; [reflexivity|]. split; [apply unpackCoils_length|].
  intros i Hi. pose proof (unpackCoils_lookup pdu qty i Hi) as Hl.
  split; [exact Hl|].
  intros Hshort. rewrite Hl, coilAt_absent by lia. reflexivity.
Qed.

End TransportFacts.


(** ** Dialect detection and the heartbeat *)

Section DetectFacts.

Import Buf Codec Async Server.
Local Open Scope Z_scope.

Variable conf : Config.
Implicit Types (net : nat -> list NetEvent) (s : State)
  (w : Trace State Request (list NetEvent)).

Lemma run_setBoard net key f w s :
  run net (setBoard key f) w s = (w, with_board key f s, Ok tt).
Proof. reflexivity. Qed.

Lemma run_log net line w s :
  run net (log line) w s = (w, with_console line s, Ok tt).
Proof. reflexivity. Qed.

Lemma run_getBoard net key w s b :
  boardState s !! key = Some b ->
  run net (getBoard key) w s = (w, s, Ok b).
Proof. intros H. unfold getBoard. cbn [run]. rewrite H. reflexivity. Qed.

Lemma run_boardCfg net key w s cfg :
  assoc key (BOARDS conf) = Some cfg ->
  run net (boardCfg conf key) w s = (w, s, Ok cfg).
Proof. intros H. unfold boardCfg. rewrite H. reflexivity. Qed.

Lemma requestOf_rtu key cfg b b' fc data :
  useRTU b = true -> useRTU b' = true ->
  requestOf key cfg b fc data = requestOf key cfg b' fc data.
Proof. intros H H'. unfold requestOf. rewrite H, H'. reflexivity. Qed.

Lemma requestOf_tcp key cfg b b' fc data :
  useRTU b = false -> useRTU b' = false ->
  transactionId b = transactionId b' ->
  requestOf key cfg b fc data = requestOf key cfg b' fc data.
Proof. intros H H' Ht. unfold requestOf. rewrite H, H', Ht. reflexivity. Qed.

Lemma boardState_tcpProbing key s b :
  boardState s !! key = Some b ->
  boardState (tcpProbing key s) !! key
  = Some (set_transactionId (transactionId b + 1) (set_useRTU false b)).
Proof.
  intros Hb. unfold tcpProbing, afterSend.
  rewrite boardState_with_board_eq, Hb.
  cbn [fmap option_fmap option_map set_useRTU useRTU transactionId].
  rewrite boardState_with_board_eq, boardState_with_board_eq, Hb.
  reflexivity.
Qed.

Lemma boardState_rtuProbing key s b :
  boardState s !! key = Some b ->
  boardState (rtuProbing key s) !! key
  = Some (set_transactionId (transactionId b + 1) (set_useRTU true b)).
Proof.
  intros Hb. unfold rtuProbing.
  rewrite boardState_with_board_eq, (boardState_tcpProbing key s b Hb).
  reflexivity.
Qed.

(** [autoDetectBoard], equationally. *)
Lemma run_autoDetectBoard net key cfg b w s :
  assoc key (BOARDS conf) = Some cfg ->
  boardState s !! key = Some b ->
  wfBoard cfg ->
  let r1 := net (length w) in
  let r2 := net (S (length w)) in
  let e1 := (tcpProbe key cfg b, r1, tcpProbing key s) in
  let e2 := (rtuProbe key cfg b, r2, rtuProbing key s) in
  run net (autoDetectBoard conf key) w s
  = if settled false r1
    then (w ++ [e1],
          with_console (LogInfo (BoardCfg.name cfg) "TCP mode")
                       (tcpProbing key s), Ok true)
    else if settled true r2
    then (w ++ [e1; e2],
          with_console (LogInfo (BoardCfg.name cfg) "RTU mode")
                       (rtuProbing key s), Ok true)
    else (w ++ [e1; e2], rtuProbing key s, Ok false).
Proof.
  intros Hc Hb [Hu Hch] r1 r2 e1 e2. unfold autoDetectBoard.
  rewrite run_bind, (run_boardCfg net key w s cfg Hc).
  rewrite run_bind, (run_getBoard net key w s b Hb).
  rewrite (writeUInt16BE_in_range 0) by lia.
  rewrite (writeUInt16BE_in_range (BoardCfg.channels cfg)) by exact Hch.
  cbn [fromOption bind handle run modify setBoard].
  rewrite run_handle.
  assert (boardState (with_board key (set_useRTU false) s) !! key
          = Some (set_useRTU false b)) as Hb0
    by (rewrite boardState_with_board_eq, Hb; reflexivity).
  rewrite (run_modbusRequest conf net key x01 _ w _ cfg _ Hc Hb0 Hu)
    by (simpl; lia).
  fold (tcpProbing key s).
  change (requestOf key cfg (set_useRTU false b) x01 _) with (tcpProbe key cfg b).
  fold r1. fold e1. unfold settled.
  cbn [set_useRTU useRTU].
  destruct (settle false [] r1) as [pdu1|err1].
  { reflexivity. }
  cbn [bind handle run modify setBoard]. rewrite run_handle.
  fold (rtuProbing key s).
  rewrite (run_modbusRequest conf net key x01 _ _ _ cfg _ Hc
             (boardState_rtuProbing key s b Hb) Hu) by (simpl; lia).
  rewrite length_app. cbn [length]. rewrite Nat.add_1_r. fold r2.
  assert (afterSend key (rtuProbing key s) = rtuProbing key s) as ->.
  { unfold afterSend at 1. rewrite (boardState_rtuProbing key s b Hb).
    reflexivity. }
  rewrite (requestOf_rtu key cfg
             (set_transactionId (transactionId b + 1) (set_useRTU true b))
             (set_useRTU true b)) by reflexivity.
  change (requestOf key cfg (set_useRTU true b) x01 _) with (rtuProbe key cfg b).
  rewrite <- app_assoc. cbn [app]. fold e2.
  cbn [set_transactionId set_useRTU useRTU].
  destruct (settle true [] r2) as [pdu2|err2]; reflexivity.
Qed.

Lemma issuedSince_app w (l : Trace State Request (list NetEvent)) :
  issuedSince w (w ++ l) = l.*1.*1.
Proof. unfold issuedSince. rewrite drop_app_length. reflexivity. Qed.

Lemma issuedSince_nil w : issuedSince w w = [].
Proof.
  rewrite <- (app_nil_r w) at 2. rewrite issuedSince_app. reflexivity.
Qed.

(** A heartbeat that finds the command gate taken returns without I/O. *)
Lemma run_heartbeatBoard_locked net key cfg b w s :
  assoc key (BOARDS conf) = Some cfg ->
  boardState s !! key = Some b ->
  commandLock b = true ->
  run net (heartbeatBoard conf key) w s = (w, s, Ok tt).
Proof.
  intros Hc Hb Hl. unfold heartbeatBoard.
  rewrite run_bind, (run_boardCfg net key w s cfg Hc).
  rewrite run_bind, (run_getBoard net key w s b Hb).
  rewrite Hl. reflexivity.
Qed.

(** An undetected, unlocked board: the heartbeat starts with detection. *)
Lemma run_heartbeatBoard_undetected net key cfg b w s :
  assoc key (BOARDS conf) = Some cfg ->
  boardState s !! key = Some b ->
  commandLock b = false -> modeDetected b = false ->
  run net (heartbeatBoard conf key) w s
  = match run net (autoDetectBoard conf key) w s with
    | (w1, s1, Ok false) =>
        (w1, with_board key (set_modeDetected false) s1, Ok tt)
    | (w1, s1, Ok true) =>
        run net
          (handle (readCoils conf key 0 (BoardCfg.channels cfg))
             (fun coils =>
                let* _ := setBoard key (set_coils coils) in
                let* state := getBoard key in
                if negb (reachable state)
                then
                  let* _ := setBoard key (set_reachable true) in
                  log (LogOnline (BoardCfg.name cfg) coils)
                else Ret tt)
             (fun err =>
                let* state := getBoard key in
                let* _ :=
                  if reachable state
                  then
                    let* _ := setBoard key (set_reachable false) in
                    log (LogOffline (BoardCfg.name cfg) err)
                  else Ret tt
                in
                setBoard key (set_modeDetected false)))
          w1 (with_board key (set_modeDetected true) s1)
    | (w1, s1, Error e) => (w1, s1, Error e)
    end.
Proof.
  intros Hc Hb Hl Hm. unfold heartbeatBoard.
  rewrite run_bind, (run_boardCfg net key w s cfg Hc).
  rewrite run_bind, (run_getBoard net key w s b Hb).
  rewrite Hl, Hm. rewrite run_bind, run_bind.
  destruct (run net (autoDetectBoard conf key) w s) as [[w1 s1] [[|]|e]];
    reflexivity.
Qed.

Lemma tcpProbe_frame key cfg b :
  to_board (tcpProbe key cfg b) = key /\
  fc (tcpProbe key cfg b) = x01 /\
  data (tcpProbe key cfg b) = readData 0 (BoardCfg.channels cfg) /\
  frame (tcpProbe key cfg b)
  = default []
      (buildTCPFrame (transactionId b) (BoardCfg.unitId cfg) x01
         (readData 0 (BoardCfg.channels cfg))).2.
Proof. repeat split. Qed.

Lemma rtuProbe_frame key cfg b :
  to_board (rtuProbe key cfg b) = key /\
  fc (rtuProbe key cfg b) = x01 /\
  data (rtuProbe key cfg b) = readData 0 (BoardCfg.channels cfg) /\
  frame (rtuProbe key cfg b)
  = buildRTUFrame (BoardCfg.unitId cfg) x01
      (readData 0 (BoardCfg.channels cfg)).
Proof. repeat split. Qed.

(** Whatever state an unlocked, undetected board is in, its heartbeat
    first puts the TCP-framed probe on the wire. *)
Lemma heartbeat_undetected_first_request net key cfg b w s :
  assoc key (BOARDS conf) = Some cfg ->
  boardState s !! key = Some b ->
  wfBoard cfg ->
  commandLock b = false -> modeDetected b = false ->
  exists rest,
    issuedSince w (run net (heartbeatBoard conf key) w s).1.1
    = tcpProbe key cfg b :: rest.
Proof.
  intros Hc Hb Hwf Hl Hm.
  rewrite (run_heartbeatBoard_undetected net key cfg b w s Hc Hb Hl Hm).
  rewrite (run_autoDetectBoard net key cfg b w s Hc Hb Hwf). cbv zeta.
  destruct (settled false (net (length w))).
  - match goal with
    | |- context [run net ?m ?w1 ?s1] =>
        destruct (run_trace_extends net m w1 s1) as [w2 Hw2]
    end.
    rewrite Hw2, <- app_assoc, issuedSince_app. cbn. eauto.
  - destruct (settled true (net (S (length w))));
      [|cbn [fst]; rewrite issuedSince_app; cbn; eauto].
    match goal with
    | |- context [run net ?m ?w1 ?s1] =>
        destruct (run_trace_extends net m w1 s1) as [w2 Hw2]
    end.
    rewrite Hw2, <- app_assoc, issuedSince_app. cbn. eauto.
Qed.

(** Detection with no other heartbeat of the board between its turns:
    [autoDetectBoard] first sends a real Read Coils for all channels
    from address 0 framed as Modbus/TCP and answers [true] with the TCP
    dialect selected if that exchange succeeds; only otherwise does it send
    the same read framed as RTU-over-TCP, answering [true] with the RTU
    dialect selected on success; if both fail it answers [false], the
    heartbeat leaves the board undetected without attempting a read, and
    the next heartbeat starts again with the TCP probe. *)
Theorem detect_tcp_then_rtu net key cfg b w s w' s' res :
  assoc key (BOARDS conf) = Some cfg ->
  boardState s !! key = Some b ->
  wfBoard cfg ->
  run net (autoDetectBoard conf key) w s = (w', s', res) ->
  let r1 := net (length w) in
  let r2 := net (S (length w)) in
  (settled false r1 = true ->
     res = Ok true /\ issuedSince w w' = [tcpProbe key cfg b] /\
     useRTU <$> boardState s' !! key = Some false) /\
  (settled false r1 = false -> settled true r2 = true ->
     res = Ok true /\
     issuedSince w w' = [tcpProbe key cfg b; rtuProbe key cfg b] /\
     useRTU <$> boardState s' !! key = Some true) /\
  (settled false r1 = false -> settled true r2 = false ->
     res = Ok false /\
     issuedSince w w' = [tcpProbe key cfg b; rtuProbe key cfg b] /\
     (commandLock b = false -> modeDetected b = false ->
      exists sh bh,
        run net (heartbeatBoard conf key) w s = (w', sh, Ok tt) /\
        boardState sh !! key = Some bh /\
        modeDetected bh = false /\ commandLock bh = false /\
        forall net', exists rest,
          issuedSince w' (run net' (heartbeatBoard conf key) w' sh).1.1
          = tcpProbe key cfg bh :: rest)).
Proof.
  intros Hc Hb Hwf Hrun r1 r2.
  pose proof (run_autoDetectBoard net key cfg b w s Hc Hb Hwf) as Heq.
  cbv zeta in Heq. fold r1 r2 in Heq. rewrite Hrun in Heq.
  split; [|split].
  - intros H1. rewrite H1 in Heq. injection Heq as -> -> ->.
    rewrite issuedSince_app. split; [reflexivity|]. split; [reflexivity|].
    cbn [with_console boardState].
    rewrite (boardState_tcpProbing key s b Hb). reflexivity.
  - intros H1 H2. rewrite H1, H2 in Heq. injection Heq as -> -> ->.
    rewrite issuedSince_app. split; [reflexivity|]. split; [reflexivity|].
    cbn [with_console boardState].
    rewrite (boardState_rtuProbing key s b Hb). reflexivity.
  - intros H1 H2. rewrite H1, H2 in Heq. injection Heq as -> -> ->.
    rewrite issuedSince_app. split; [reflexivity|]. split; [reflexivity|].
    intros Hl Hm.
    eexists _, _.
    rewrite (run_heartbeatBoard_undetected net key cfg b w s Hc Hb Hl Hm).
    rewrite Hrun.
    split; [reflexivity|].
    split; [rewrite boardState_with_board_eq,
              (boardState_rtuProbing key s b Hb); reflexivity|].
    split; [reflexivity|]. split; [exact Hl|].
    intros net'.
    apply heartbeat_undetected_first_request;
      [exact Hc| |exact Hwf|exact Hl|reflexivity].
    rewrite boardState_with_board_eq,
      (boardState_rtuProbing key s b Hb). reflexivity.
Qed.

End DetectFacts.

(** ** Relations every run of a program maintains *)

Section PreservationFacts.

Import Async.
Context {St Req Ans E : Type}.
Variable R : St -> St -> Prop.
Hypothesis R_refl : forall s, R s s.
Hypothesis R_trans : forall s1 s2 s3, R s1 s2 -> R s2 s3 -> R s1 s3.

Lemma preserves_Ret {A : Type} (a : A) :
  preserves R (Ret a : Async St Req Ans E A).
Proof. intros net w s. apply R_refl. Qed.

Lemma preserves_Throw {A : Type} (e : E) :
  preserves R (Throw e : Async St Req Ans E A).
Proof. intros net w s. apply R_refl. Qed.

Lemma preserves_Get {A : Type} (k : St -> Async St Req Ans E A) :
  (forall s, preserves R (k s)) -> preserves R (Get k).
Proof. intros H net w s. apply H. Qed.

Lemma preserves_Await {A : Type} (r : Req) (k : Ans -> Async St Req Ans E A) :
  (forall a, preserves R (k a)) -> preserves R (Await r k).
Proof. intros H net w s. apply H. Qed.

Lemma preserves_modify (f : St -> St) :
  (forall s, R s (f s)) ->
  preserves R (modify f : Async St Req Ans E unit).
Proof. intros H net w s. apply H. Qed.

Lemma preserves_handle {A B : Type} (m : Async St Req Ans E A)
    (ok : A -> Async St Req Ans E B) (err : E -> Async St Req Ans E B) :
  preserves R m -> (forall a, preserves R (ok a)) ->
  (forall e, preserves R (err e)) -> preserves R (handle m ok err).
Proof.
  intros Hm Hok Herr net w s. rewrite run_handle.
  specialize (Hm net w s).
  destruct (run net m w s) as [[w1 s1] [a|e]]; simpl in Hm.
  - eapply R_trans; [exact Hm|apply Hok].
  - eapply R_trans; [exact Hm|apply Herr].
Qed.

Lemma preserves_bind {A B : Type} (m : Async St Req Ans E A)
    (f : A -> Async St Req Ans E B) :
  preserves R m -> (forall a, preserves R (f a)) -> preserves R (bind m f).
Proof.
  intros Hm Hf. apply preserves_handle; [exact Hm|exact Hf|].
  intros e. apply preserves_Throw.
Qed.

Lemma preserves_tryCatch {A : Type} (m : Async St Req Ans E A)
    (h : E -> Async St Req Ans E A) :
  preserves R m -> (forall e, preserves R (h e)) -> preserves R (tryCatch m h).
Proof.
  intros Hm Hh. apply preserves_handle; [exact Hm| |exact Hh].
  intros a. apply preserves_Ret.
Qed.

Lemma preserves_tryFinally {A : Type} (m : Async St Req Ans E A)
    (fin : Async St Req Ans E unit) :
  preserves R m -> preserves R fin -> preserves R (tryFinally m fin).
Proof.
  intros Hm Hf. apply preserves_handle; [exact Hm| |].
  - intros a. apply preserves_bind; [exact Hf|].
    intros _. apply preserves_Ret.
  - intros e. apply preserves_bind; [exact Hf|].
    intros _. apply preserves_Throw.
Qed.

End PreservationFacts.

(** One syntax-directed step towards [preserves R m], for a reflexive and
    transitive [R]. *)
Ltac preserve_step refl trans :=
  lazymatch goal with
  | |- Async.preserves _ (Async.bind _ _) =>
      apply (preserves_bind _ refl trans)
  | |- Async.preserves _ (Async.tryFinally _ _) =>
      apply (preserves_tryFinally _ refl trans)
  | |- Async.preserves _ (Async.tryCatch _ _) =>
      apply (preserves_tryCatch _ refl trans)
  | |- Async.preserves _ (Async.handle _ _ _) =>
      apply (preserves_handle _ trans)
  | |- Async.preserves _ (Async.Ret _) => apply (preserves_Ret _ refl)
  | |- Async.preserves _ (Async.Throw _) => apply (preserves_Throw _ refl)
  | |- Async.preserves _ (Async.Get _) => apply preserves_Get
  | |- Async.preserves _ (Async.Await _ _) => apply preserves_Await
  | |- Async.preserves _ (Async.modify _) => apply preserves_modify
  | |- Async.preserves _ (if ?c then _ else _) => destruct c
  | |- Async.preserves _ (Server.fromOption ?o _) =>
      destruct o; cbn [Server.fromOption]
  | |- Async.preserves _ (Server.ofResult ?o) =>
      destruct o; cbn [Server.ofResult]
  | |- Async.preserves _ (match ?o with _ => _ end) => destruct o
  | |- Async.preserves _ (let _ := _ in _) => cbv zeta
  | |- forall _, _ => intro
  end.

(** ** What invalidates the cached dialect *)

Section DialectFacts.

Import Buf Codec Async Server.
Local Open Scope Z_scope.

Variable conf : Config.

Lemma sameDialect_refl s : sameDialect s s.
Proof. intros k. reflexivity. Qed.

Lemma sameDialect_trans s1 s2 s3 :
  sameDialect s1 s2 -> sameDialect s2 s3 -> sameDialect s1 s3.
Proof. intros H12 H23 k. rewrite H23. apply H12. Qed.

Lemma sameDialect_with_board key (f : BoardState -> BoardState) s :
  (forall b, dialectOf (f b) = dialectOf b) ->
  sameDialect s (with_board key f s).
Proof.
  intros Hf k. rewrite boardState_with_board.
  destruct (decide (key = k)) as [->|]; [|reflexivity].
  destruct (boardState s !! k) as [b|]; [|reflexivity].
  simpl. rewrite Hf. reflexivity.
Qed.

Lemma sameDialect_boards s s' :
  boardState s' = boardState s -> sameDialect s s'.
Proof. intros H k. rewrite H. reflexivity. Qed.

(** Closes goals [preserves sameDialect m] for programs built from the
    combinators, leaving the synchronous updates. *)
Ltac dialect_step := preserve_step sameDialect_refl sameDialect_trans.

Lemma modbusRequest_sameDialect key fc data :
  preserves sameDialect (modbusRequest conf key fc data).
Proof.
  unfold modbusRequest, boardCfg, getBoard, setBoard.
  repeat dialect_step.
  all: try (apply sameDialect_with_board; intros []; reflexivity).
Qed.

Ltac dialect_sync :=
  first [ apply sameDialect_with_board; intros []; reflexivity
        | apply sameDialect_boards; reflexivity ].

Lemma writeCoil_sameDialect key addr value :
  preserves sameDialect (writeCoil conf key addr value).
Proof.
  unfold writeCoil. repeat dialect_step.
  apply modbusRequest_sameDialect.
Qed.

Lemma log_sameDialect line : preserves sameDialect (log line).
Proof. unfold log. dialect_step. intros s. dialect_sync. Qed.

Lemma audit_sameDialect action details source :
  preserves sameDialect (audit action details source).
Proof.
  unfold audit. repeat dialect_step; [|apply log_sameDialect].
  dialect_sync.
Qed.

Lemma cancelCloseTimer_sameDialect barrierId :
  preserves sameDialect (cancelCloseTimer barrierId).
Proof.
  unfold cancelCloseTimer, cancelTimer. dialect_step. intros s.
  destruct (closeTimers s !! barrierId); [dialect_sync|apply sameDialect_refl].
Qed.

Lemma armCloseTimer_sameDialect barrierId :
  preserves sameDialect (armCloseTimer barrierId).
Proof.
  unfold armCloseTimer, armTimer. dialect_step. intros s. dialect_sync.
Qed.

Lemma setBoard_commandLock_sameDialect key v :
  preserves sameDialect (setBoard key (set_commandLock v)).
Proof. unfold setBoard. dialect_step. intros s. dialect_sync. Qed.

(** An action, whatever its outcome, leaves every board's cached dialect
    and reachability as they were. *)
Lemma latchBarrierAction_sameDialect barrierId action source :
  preserves sameDialect (latchBarrierAction conf barrierId action source).
Proof.
  unfold latchBarrierAction, actionWrites, boardCfg, getBoard.
  repeat first
    [ apply writeCoil_sameDialect
    | apply audit_sameDialect
    | apply cancelCloseTimer_sameDialect
    | apply armCloseTimer_sameDialect
    | apply setBoard_commandLock_sameDialect
    | dialect_step ].
Qed.

Lemma sweepChannels_sameDialect key from turns :
  preserves sameDialect (sweepChannels conf key from turns).
Proof.
  revert from. induction turns as [|turns IH]; intros from; simpl.
  - dialect_step.
  - dialect_step; [apply writeCoil_sameDialect|]. intros _. apply IH.
Qed.

Lemma sweepBoards_sameDialect boards :
  preserves sameDialect (sweepBoards conf boards).
Proof.
  induction boards as [|[key cfg] rest IH]; simpl.
  - dialect_step.
  - unfold getBoard.
    repeat first
      [ apply IH
      | apply sweepChannels_sameDialect
      | apply setBoard_commandLock_sameDialect
      | dialect_step ].
Qed.

Lemma cancelAll_boardState s : boardState (cancelAll s) = boardState s.
Proof.
  unfold cancelAll.
  induction (map_to_list (closeTimers s)) as [|kh l IH]; simpl;
    [reflexivity|exact IH].
Qed.

Lemma emergencyOff_sameDialect source :
  preserves sameDialect (emergencyOff conf source).
Proof.
  unfold emergencyOff, cancelAllCloseTimers.
  repeat first
    [ apply sweepBoards_sameDialect
    | apply audit_sameDialect
    | dialect_step ].
  apply sameDialect_boards, cancelAll_boardState.
Qed.

(** A heartbeat on a detected, unlocked board: one read, whose failure
    resets the detection flag. *)
Lemma run_heartbeatBoard_detected net key cfg b w s :
  assoc key (BOARDS conf) = Some cfg ->
  boardState s !! key = Some b ->
  wfBoard cfg ->
  commandLock b = false -> modeDetected b = true ->
  let e := (requestOf key cfg b x01 (readData 0 (BoardCfg.channels cfg)),
            net (length w), afterSend key s) in
  run net (heartbeatBoard conf key) w s
  = match settle (useRTU b) [] (net (length w)) with
    | Ok pdu =>
        let coils := unpackCoils pdu (BoardCfg.channels cfg) in
        let s1 := with_board key (set_coils coils) (afterSend key s) in
        (w ++ [e],
         if reachable b then s1
         else with_console (LogOnline (BoardCfg.name cfg) coils)
                (with_board key (set_reachable true) s1),
         Ok tt)
    | Error err =>
        (w ++ [e],
         with_board key (set_modeDetected false)
           (if reachable b
            then with_console (LogOffline (BoardCfg.name cfg) err)
                   (with_board key (set_reachable false) (afterSend key s))
            else afterSend key s),
         Ok tt)
    end.
Proof.
  intros Hc Hb [Hu Hch] Hl Hm e. unfold heartbeatBoard.
  rewrite run_bind, (run_boardCfg conf net key w s cfg Hc).
  rewrite run_bind, (run_getBoard net key w s b Hb).
  rewrite Hl, Hm. cbn [bind handle negb run]. rewrite run_handle.
  rewrite (run_readCoils conf net key 0 _ w s cfg b Hc Hb Hu) by lia.
  fold e.
  destruct (boardState_afterSend key key s) as [t Ht]. rewrite Hb in Ht.
  cbn [fmap option_fmap option_map] in Ht.
  destruct (settle (useRTU b) [] (net (length w))) as [pdu|err].
  - rewrite run_bind, run_setBoard, run_bind.
    erewrite run_getBoard
      by (rewrite boardState_with_board_eq, Ht; reflexivity).
    cbn [set_coils set_transactionId reachable].
    destruct (reachable b); reflexivity.
  - rewrite run_bind. erewrite run_getBoard by exact Ht.
    cbn [set_transactionId reachable].
    destruct (reachable b); reflexivity.
Qed.

End DialectFacts.

Section DialectClaims.

Import Buf Codec Async Server.
Local Open Scope Z_scope.

Variable conf : Config.

(** C9 (as the code has it): a failed heartbeat read resets the board's
    detection flag, so that the next heartbeat negotiates the dialect
    again starting with the TCP probe; the exchanges of an action or of an
    emergency-off, failed or not, leave every board's cached dialect as it
    was. *)
Theorem dialect_reset_by_failed_heartbeat_only net key cfg b w s
    barrierId action source :
  assoc key (BOARDS conf) = Some cfg ->
  boardState s !! key = Some b ->
  wfBoard cfg ->
  commandLock b = false -> modeDetected b = true ->
  settled (useRTU b) (net (length w)) = false ->
  (exists wh sh bh,
      run net (heartbeatBoard conf key) w s = (wh, sh, Ok tt) /\
      boardState sh !! key = Some bh /\
      modeDetected bh = false /\
      forall net', exists rest,
        issuedSince wh (run net' (heartbeatBoard conf key) wh sh).1.1
        = tcpProbe key cfg bh :: rest) /\
  sameDialect s
    (run net (latchBarrierAction conf barrierId action source) w s).1.2 /\
  sameDialect s (run net (emergencyOff conf source) w s).1.2.
Proof.
  intros Hc Hb Hwf Hl Hm Hfail. split; [|split].
  - rewrite (run_heartbeatBoard_detected conf net key cfg b w s Hc Hb Hwf Hl Hm).
    cbv zeta. unfold settled in Hfail.
    destruct (settle (useRTU b) [] (net (length w))) as [pdu|err];
      [discriminate Hfail|].
    destruct (boardState_afterSend key key s) as [t Ht]. rewrite Hb in Ht.
    cbn [fmap option_fmap option_map] in Ht.
    assert (forall s0 b0, boardState s0 !! key = Some b0 ->
              boardState (with_board key (set_modeDetected false) s0) !! key
              = Some (set_modeDetected false b0)) as Hset
      by (intros s0 b0 H0; rewrite boardState_with_board_eq, H0; reflexivity).
    destruct (reachable b) eqn:Hr; eexists _, _, _;
      (split; [reflexivity|]).
    + split; [apply Hset; cbn [with_console boardState];
              rewrite boardState_with_board_eq, Ht; reflexivity|].
      split; [reflexivity|]. intros net'.
      apply heartbeat_undetected_first_request;
        [exact Hc| |exact Hwf|exact Hl|reflexivity].
      apply Hset. cbn [with_console boardState].
      rewrite boardState_with_board_eq, Ht. reflexivity.
    + split; [apply Hset, Ht|].
      split; [reflexivity|]. intros net'.
      apply heartbeat_undetected_first_request;
        [exact Hc| |exact Hwf|exact Hl|reflexivity].
      apply Hset, Ht.
  - apply latchBarrierAction_sameDialect.
  - apply emergencyOff_sameDialect.
Qed.

End DialectClaims.

Section DialectExamples.

Import Buf Codec Async Server.
Local Open Scope Z_scope.

Lemma dialect_reset_by_failed_heartbeat_only_witness :
  modeDetected <$>
    boardState (run silentNet (heartbeatBoard defaultConfig "board1") []
                    onlineState).1.2 !! "board1" = Some false /\
  sameDialect onlineState
    (run silentNet (latchBarrierAction defaultConfig 1 "lift" "api") []
         onlineState).1.2.
Proof.
  destruct (dialect_reset_by_failed_heartbeat_only defaultConfig silentNet
              "board1"
              {| BoardCfg.host := "10.10.10.64"; BoardCfg.port := 4196;
                 BoardCfg.unitId := 1; BoardCfg.channels := 6;
                 BoardCfg.name := "Board 1 (Main)" |}
              {| reachable := true; modeDetected := true; useRTU := false;
                 commandLock := false;
                 coils := [false; false; false; false; false; false];
                 transactionId := 0 |}
              [] onlineState 1 "lift" "api")
    as [(wh & sh & bh & Hrun & Hbh & Hmd & _) [Hact _]].
  - reflexivity.
  - reflexivity.
  - split; simpl; lia.
  - reflexivity.
  - reflexivity.
  - reflexivity.
  - split; [|exact Hact].
    rewrite Hrun. cbn [fst snd]. rewrite Hbh. cbn. rewrite Hmd. reflexivity.
Defined.

(** C9, the claim as written fails: a coil write of an action times out
    and the board is still marked as detected afterwards. *)
Lemma failed_write_keeps_dialect :
  (run silentNet (latchBarrierAction defaultConfig 1 "lift" "api") []
       onlineState).2 = Error ModbusTimeout /\
  modeDetected <$>
    boardState (run silentNet (latchBarrierAction defaultConfig 1 "lift" "api")
                    [] onlineState).1.2 !! "board1" = Some true.
Proof. split; vm_compute; reflexivity. Qed.

(** A board that only answers RTU frames is detected as RTU. *)
Lemma detect_tcp_then_rtu_witness :
  settled false (rtuOnlyNet 0) = false /\
  settled true (rtuOnlyNet 1) = true /\
  (run rtuOnlyNet (autoDetectBoard defaultConfig "board1") []
       (initState defaultConfig)).2 = Ok true /\
  useRTU <$>
    boardState (run rtuOnlyNet (autoDetectBoard defaultConfig "board1") []
                    (initState defaultConfig)).1.2 !! "board1" = Some true.
Proof.
  set (X := run rtuOnlyNet (autoDetectBoard defaultConfig "board1") []
                (initState defaultConfig)).
  assert (X = (X.1.1, X.1.2, X.2)) as Hrun
    by (destruct X as [[? ?] ?]; reflexivity).
  destruct (detect_tcp_then_rtu defaultConfig rtuOnlyNet "board1"
              {| BoardCfg.host := "10.10.10.64"; BoardCfg.port := 4196;
                 BoardCfg.unitId := 1; BoardCfg.channels := 6;
                 BoardCfg.name := "Board 1 (Main)" |}
              (initBoard
                 {| BoardCfg.host := "10.10.10.64"; BoardCfg.port := 4196;
                    BoardCfg.unitId := 1; BoardCfg.channels := 6;
                    BoardCfg.name := "Board 1 (Main)" |})
              [] (initState defaultConfig) X.1.1 X.1.2 X.2
              eq_refl eq_refl ltac:(split; simpl; lia) Hrun)
    as (_ & Hrtu & _).
  destruct (Hrtu eq_refl eq_refl) as (Hres & _ & Huse).
  repeat split; assumption.
Defined.

(** C8 (where the code misses it): the answer to the RTU probe of the
    first heartbeat, a well-formed RTU frame, arrives when the detection
    of the second heartbeat has switched the board back to Modbus/TCP.
    It is parsed as Modbus/TCP, six bytes where nine are waited for, the
    exchange runs into the deadline, and the detection answers [false]:
    the board stays undetected and unreachable and nothing is logged.
    With no heartbeat in between, the same answer to the same probe
    selects RTU and the board comes online. *)
Lemma overlapping_heartbeats_drop_rtu_answer :
  let lp := interleave crossedDetections (initState defaultConfig) in
  let alone := run rtuOnlyNet (heartbeatBoard defaultConfig "board1") []
                   (initState defaultConfig) in
  settle true [] rtuAnswer = Ok [x01; x01; x05] /\
  settle false [] rtuAnswer = Error ModbusTimeout /\
  map probeView (issued lp)
  = [("H1", ("board1", x01, readData 0 6), Some false);
     ("H1", ("board1", x01, readData 0 6), Some true);
     ("H2", ("board1", x01, readData 0 6), Some false)] /\
  (pool lp).*1 = ["H2"] /\
  dialectOf <$> boardState (now lp) !! "board1"
  = Some (false, false, false, replicate 6 false) /\
  console (now lp) = [] /\
  dialectOf <$> boardState alone.1.2 !! "board1"
  = Some (true, true, true, [true; false; true; false; false; false]) /\
  console alone.1.2
  = [LogInfo "Board 1 (Main)" "RTU mode";
     LogOnline "Board 1 (Main)" [true; false; true; false; false; false]].
Proof. vm_compute. repeat split; reflexivity. Qed.

End DialectExamples.

(** ** Emergency off *)

Section SweepFacts.

Import Buf Codec Async Server.
Local Open Scope Z_scope.

Variable conf : Config.
Implicit Types (net : nat -> list NetEvent) (s : State)
  (w : Trace State Request (list NetEvent)).

Lemma sameRest_refl s : sameRest s s.
Proof. repeat split. Qed.

Lemma sameRest_trans s1 s2 s3 :
  sameRest s1 s2 -> sameRest s2 s3 -> sameRest s1 s3.
Proof.
  intros (A1 & A2 & A3 & A4 & A5) (B1 & B2 & B3 & B4 & B5).
  repeat split; congruence.
Qed.

Ltac rest_step := preserve_step sameRest_refl sameRest_trans.

Lemma modbusRequest_sameRest key fc data :
  preserves sameRest (modbusRequest conf key fc data).
Proof.
  unfold modbusRequest, boardCfg, getBoard, setBoard.
  repeat rest_step. all: repeat split.
Qed.

Lemma writeCoil_sameRest key addr value :
  preserves sameRest (writeCoil conf key addr value).
Proof.
  unfold writeCoil. repeat rest_step. apply modbusRequest_sameRest.
Qed.

Lemma sweepChannels_sameRest key from turns :
  preserves sameRest (sweepChannels conf key from turns).
Proof.
  revert from. induction turns as [|turns IH]; intros from; simpl.
  - rest_step.
  - rest_step; [apply writeCoil_sameRest|]. intros _. apply IH.
Qed.

Lemma sweepBoards_sameRest boards :
  preserves sameRest (sweepBoards conf boards).
Proof.
  induction boards as [|[key cfg] rest IH]; simpl.
  - rest_step.
  - unfold getBoard, setBoard.
    repeat first [ apply IH | apply sweepChannels_sameRest | rest_step ].
    all: repeat split.
Qed.

Lemma sameDialect_lookup s s' k b :
  sameDialect s s' -> boardState s !! k = Some b ->
  exists b', boardState s' !! k = Some b' /\ dialectOf b' = dialectOf b.
Proof.
  intros H Hb. specialize (H k). rewrite Hb in H.
  destruct (boardState s' !! k) as [b'|]; [|discriminate H].
  exists b'. split; [reflexivity|]. simpl in H. congruence.
Qed.

Lemma fullSweep_sameDialect boards s s' :
  sameDialect s s' -> fullSweep boards s' = fullSweep boards s.
Proof.
  intros H. unfold fullSweep.
  induction boards as [|[key cfg] rest IH]; simpl; [reflexivity|].
  rewrite IH. f_equal.
  specialize (H key).
  destruct (boardState s !! key) as [b|], (boardState s' !! key) as [b'|];
    try discriminate H; [|reflexivity].
  simpl in H. injection H as Hr _ _ _. rewrite Hr. reflexivity.
Qed.

Lemma sweepCalls_S key from turns :
  sweepCalls key from (S turns)
  = (key, x05, coilData from false) :: sweepCalls key (from + 1) turns.
Proof.
  unfold sweepCalls. cbn [seq map]. rewrite Z.add_0_r. f_equal.
  rewrite <- seq_shift, map_map. apply map_ext. intros i.
  do 2 f_equal. lia.
Qed.

Lemma commandLock_afterSend key k s :
  commandLock <$> boardState (afterSend key s) !! k
  = commandLock <$> boardState s !! k.
Proof.
  destruct (boardState_afterSend key k s) as [t ->].
  destruct (boardState s !! k); reflexivity.
Qed.

Lemma is_Some_afterSend key k s :
  is_Some (boardState s !! k) -> is_Some (boardState (afterSend key s) !! k).
Proof.
  intros [b Hb]. destruct (boardState_afterSend key k s) as [t ->].
  rewrite Hb. eauto.
Qed.

(** A sweep of one board that returns normally has issued the writes for
    all its channels, in order, and nothing else. *)
Lemma run_sweepChannels_ok net key cfg turns from w s w' s' :
  assoc key (BOARDS conf) = Some cfg ->
  0 <= BoardCfg.unitId cfg <= 255 ->
  is_Some (boardState s !! key) ->
  0 <= from -> from + Z.of_nat turns <= 65536 ->
  run net (sweepChannels conf key from turns) w s = (w', s', Ok tt) ->
  exists w1, w' = w ++ w1 /\
    map logical w1 = sweepCalls key from turns /\
    (commandLock <$> boardState s !! key = Some true ->
     Forall (fun x => gateHeld (to_board x.1.1) x) w1).
Proof.
  intros Hc Hu. revert from w s.
  induction turns as [|turns IH]; intros from w s Hb Hf Ht Hrun.
  - cbn [sweepChannels run] in Hrun. injection Hrun as <- <-.
    exists []. rewrite app_nil_r. repeat split. intros _. constructor.
  - cbn [sweepChannels] in Hrun. rewrite run_bind in Hrun.
    destruct Hb as [b Hb].
    rewrite (run_writeCoil conf net key from false w s cfg b Hc Hb Hu)
      in Hrun by lia.
    destruct (settle (useRTU b) [] (net (length w))) as [pdu|err];
      [|discriminate Hrun].
    apply IH in Hrun as (w1 & -> & Hlog & Hgate);
      [|apply is_Some_afterSend; eauto|lia..].
    eexists (_ :: w1). split; [rewrite <- app_assoc; reflexivity|].
    split.
    + cbn [map]. rewrite Hlog, sweepCalls_S. reflexivity.
    + intros Hlock.
      assert (commandLock <$> boardState (afterSend key s) !! key = Some true)
        as Hlock' by (rewrite commandLock_afterSend; exact Hlock).
      constructor; [exact Hlock'|apply Hgate, Hlock'].
Qed.

Lemma run_audit net action details source w s :
  run net (audit action details source) w s
  = (w,
     with_console
       (LogAudit {| action := action; source := source;
                    details := details |})
       (with_auditEntries
          (pushed {| action := action; source := source;
                     details := details |} (auditEntries s)) s),
     Ok tt).
Proof. reflexivity. Qed.

(** A sweep of the boards that returns normally has swept, in registry
    order, every board marked reachable, each with its gate flag up. *)
Lemma run_sweepBoards_ok net boards w s w' s' :
  (forall key cfg, (key, cfg) ∈ boards ->
     assoc key (BOARDS conf) = Some cfg /\ wfBoard cfg /\
     is_Some (boardState s !! key)) ->
  run net (sweepBoards conf boards) w s = (w', s', Ok tt) ->
  exists w1, w' = w ++ w1 /\
    map logical w1 = fullSweep boards s /\
    Forall (fun x => gateHeld (to_board x.1.1) x) w1.
Proof.
  revert w s. induction boards as [|[key cfg] rest IH]; intros w s Hreg Hrun.
  - cbn [sweepBoards run] in Hrun. injection Hrun as <- <-.
    exists []. rewrite app_nil_r. repeat split. constructor.
  - destruct (Hreg key cfg ltac:(left)) as (Hc & [Hu Hch] & [b Hb]).
    cbn [sweepBoards] in Hrun.
    rewrite run_bind, (run_getBoard net key w s b Hb), run_bind in Hrun.
    assert (forall s1, sameDialect s s1 ->
              forall k c, (k, c) ∈ rest ->
                assoc k (BOARDS conf) = Some c /\ wfBoard c /\
                is_Some (boardState s1 !! k)) as Hrest.
    { intros s1 Hs1 k c Hin.
      destruct (Hreg k c ltac:(right; exact Hin)) as (Hkc & Hwf & [bk Hbk]).
      split; [exact Hkc|]. split; [exact Hwf|].
      destruct (sameDialect_lookup s s1 k bk Hs1 Hbk) as (b' & Hb' & _).
      eauto. }
    unfold fullSweep. cbn [flat_map fst snd]. rewrite Hb.
    fold (fullSweep rest s).
    destruct (reachable b) eqn:Hr; cbn [negb] in Hrun.
    + rewrite run_bind, run_setBoard in Hrun.
      unfold setBoard in Hrun. rewrite run_tryFinally_modify in Hrun.
      set (s0 := with_board key (set_commandLock true) s) in *.
      assert (boardState s0 !! key = Some (set_commandLock true b)) as Hb0
        by (unfold s0; rewrite boardState_with_board_eq, Hb; reflexivity).
      pose proof (sweepChannels_sameDialect conf key 0
                    (Z.to_nat (BoardCfg.channels cfg)) net w s0) as Hd.
      destruct (run net (sweepChannels conf key 0
                           (Z.to_nat (BoardCfg.channels cfg))) w s0)
        as [[wa sa] [[]|e]] eqn:Hsw; [|discriminate Hrun].
      cbn [fst snd] in Hd.
      apply (run_sweepChannels_ok net key cfg) in Hsw
          as (w1 & -> & Hlog & Hgate); [|assumption|assumption|eauto|lia..].
      apply IH in Hrun as (w2 & -> & Hlog2 & Hgate2).
      * exists (w1 ++ w2). split; [rewrite app_assoc; reflexivity|].
        split.
        -- rewrite map_app, Hlog, Hlog2. f_equal.
           apply fullSweep_sameDialect.
           eapply sameDialect_trans;
             [|apply sameDialect_with_board; intros []; reflexivity].
           eapply sameDialect_trans; [|exact Hd].
           apply sameDialect_with_board. intros []; reflexivity.
        -- apply Forall_app. split; [|exact Hgate2].
           apply Hgate. rewrite Hb0. reflexivity.
      * apply Hrest.
        eapply sameDialect_trans;
          [|apply sameDialect_with_board; intros []; reflexivity].
        eapply sameDialect_trans; [|exact Hd].
        apply sameDialect_with_board. intros []; reflexivity.
    + cbn [run] in Hrun.
      apply IH in Hrun as (w2 & -> & Hlog2 & Hgate2);
        [|apply Hrest, sameDialect_refl].
      exists w2. repeat split; assumption.
Qed.

End SweepFacts.

Section TimerFacts.

Import Buf Codec Async Server.
Local Open Scope Z_scope.

Implicit Types (s : State).

Lemma dropCloseTimer_fields id h s :
  boardState (dropCloseTimer id h s) = boardState s /\
  closeTimers (dropCloseTimer id h s) = delete id (closeTimers s) /\
  timers (dropCloseTimer id h s)
  = filter (fun t => bool_decide (t.1 <> h)) (timers s) /\
  nextTimer (dropCloseTimer id h s) = nextTimer s /\
  auditEntries (dropCloseTimer id h s) = auditEntries s /\
  console (dropCloseTimer id h s) = console s.
Proof. repeat split. Qed.

Lemma elem_of_timers_drop id h s t :
  t ∈ timers (dropCloseTimer id h s) <-> t ∈ timers s /\ t.1 <> h.
Proof.
  destruct (dropCloseTimer_fields id h s) as (_ & _ & -> & _).
  rewrite list_elem_of_filter. rewrite bool_decide_spec. tauto.
Qed.

Lemma fold_drop_spec (l : list (Z * nat)) s :
  let s' := foldr (fun kh s' => dropCloseTimer kh.1 kh.2 s') s l in
  (forall k, closeTimers s' !! k
             = if decide (k ∈ l.*1) then None else closeTimers s !! k) /\
  (forall t, t ∈ timers s' <-> t ∈ timers s /\ t.1 ∉ l.*2) /\
  nextTimer s' = nextTimer s /\ auditEntries s' = auditEntries s /\
  console s' = console s.
Proof.
  induction l as [|[k0 h0] l IH]; cbn [foldr fmap list_fmap fst snd].
  - split; [|split; [|repeat split]].
    + intros k. destruct (decide (k ∈ [])) as [Hin|]; [|reflexivity].
      inversion Hin.
    + intros t. split; [intros H; split; [exact H|]|tauto].
      intros Hin. inversion Hin.
  - destruct IH as (IHc & IHt & IHn & IHa & IHo).
    split; [|split; [|repeat split; assumption]].
    + intros k.
      destruct (dropCloseTimer_fields k0 h0
                  (foldr (fun kh s' => dropCloseTimer kh.1 kh.2 s') s l))
        as (_ & -> & _).
      destruct (decide (k = k0)) as [->|Hne].
      * rewrite lookup_delete_eq.
        destruct (decide (k0 ∈ k0 :: l.*1)) as [|Hn]; [reflexivity|].
        exfalso. apply Hn. left.
      * rewrite lookup_delete_ne by congruence. rewrite IHc.
        destruct (decide (k ∈ l.*1)) as [Hin|Hnin],
                 (decide (k ∈ k0 :: l.*1)) as [Hin'|Hnin'];
          try reflexivity.
        -- exfalso. apply Hnin'. right. exact Hin.
        -- exfalso. apply elem_of_cons in Hin' as [?|?]; tauto.
    + intros t. rewrite elem_of_timers_drop, IHt, elem_of_cons.
      cbn [fst snd]. tauto.
Qed.

Lemma closeTimers_cancelAll s : closeTimers (cancelAll s) = ∅.
Proof.
  apply map_empty. intros k. unfold cancelAll.
  destruct (fold_drop_spec (map_to_list (closeTimers s)) s) as (Hc & _).
  rewrite Hc.
  destruct (decide (k ∈ (map_to_list (closeTimers s)).*1)) as [|Hn];
    [reflexivity|].
  destruct (closeTimers s !! k) as [h|] eqn:Hk; [|reflexivity].
  exfalso. apply Hn. apply list_elem_of_fmap. exists (k, h).
  split; [reflexivity|]. apply elem_of_map_to_list, Hk.
Qed.

Lemma timers_cancelAll s : tracked s -> timers (cancelAll s) = [].
Proof.
  intros Htr. unfold cancelAll.
  pose proof (fold_drop_spec (map_to_list (closeTimers s)) s) as H.
  set (s' := foldr _ s _) in *. destruct H as (_ & Ht & _).
  destruct (timers s') as [|[h [id]] ts] eqn:E; [reflexivity|].
  exfalso. destruct (Ht (h, CloseRelease id)) as [[Hin Hnot] _].
  { left. }
  apply Hnot. apply list_elem_of_fmap. exists (id, h).
  split; [reflexivity|]. apply elem_of_map_to_list, Htr, Hin.
Qed.

Lemma elem_of_map_values (m : gmap Z nat) (h : nat) :
  h ∈ (map_to_list m).*2 <-> exists id, m !! id = Some h.
Proof.
  rewrite list_elem_of_fmap. split.
  - intros [[id h'] [-> Hin]]. exists id.
    apply elem_of_map_to_list in Hin. exact Hin.
  - intros [id H]. exists (id, h). split; [reflexivity|].
    apply elem_of_map_to_list, H.
Qed.

(** What [cancelAll] leaves pending: the timeouts no record held. *)
Lemma elem_of_timers_cancelAll s t :
  t ∈ timers (cancelAll s)
  <-> t ∈ timers s /\ forall id, closeTimers s !! id <> Some t.1.
Proof.
  unfold cancelAll.
  destruct (fold_drop_spec (map_to_list (closeTimers s)) s) as (_ & Ht & _).
  rewrite Ht, elem_of_map_values. split.
  - intros [Hin Hnot]. split; [exact Hin|]. intros id Hid. apply Hnot. eauto.
  - intros [Hin Hnot]. split; [exact Hin|]. intros [id Hid].
    exact (Hnot id Hid).
Qed.

Lemma cancelAll_fields s :
  nextTimer (cancelAll s) = nextTimer s /\
  auditEntries (cancelAll s) = auditEntries s /\
  console (cancelAll s) = console s.
Proof.
  unfold cancelAll.
  destruct (fold_drop_spec (map_to_list (closeTimers s)) s)
    as (_ & _ & H). exact H.
Qed.

End TimerFacts.

Section EmergencyOffClaims.

Import Buf Codec Async Server.
Local Open Scope Z_scope.

Variable conf : Config.

Lemma assoc_NoDup {V : Type} (l : list (string * V)) (k : string) (v : V) :
  NoDup l.*1 -> (k, v) ∈ l -> assoc k l = Some v.
Proof.
  induction l as [|[k0 v0] l IH]; intros Hnd Hin; [inversion Hin|].
  cbn [fmap list_fmap fst] in Hnd. apply NoDup_cons in Hnd as [Hk0 Hnd].
  cbn [assoc]. apply elem_of_cons in Hin as [[= -> ->]|Hin].
  - rewrite bool_decide_eq_true_2 by reflexivity. reflexivity.
  - rewrite bool_decide_eq_false_2; [apply IH; assumption|].
    intros ->. apply Hk0. apply list_elem_of_fmap. exists (k, v). eauto.
Qed.

Lemma wfConfig_boards s :
  wfConfig conf -> registered conf s ->
  forall key cfg, (key, cfg) ∈ BOARDS conf ->
    assoc key (BOARDS conf) = Some cfg /\ wfBoard cfg /\
    is_Some (boardState s !! key).
Proof.
  intros (Hwf & Hnd & _) Hreg key cfg Hin.
  pose proof (assoc_NoDup _ key cfg Hnd Hin) as Ha.
  split; [exact Ha|]. split; [|exact (Hreg key cfg Ha)].
  rewrite Forall_forall in Hwf. exact (Hwf (key, cfg) Hin).
Qed.


End EmergencyOffClaims.

Section EmergencyOffExamples.

Import Buf Codec Async Server.
Local Open Scope Z_scope.

Lemma wfConfig_default : wfConfig defaultConfig.
Proof.
  split; [|split].
  - repeat constructor; simpl; lia.
  - cbn. repeat constructor; intros H; repeat (apply elem_of_cons in H as [H|H]; [discriminate H|]); inversion H.
  - apply map_Forall_to_list. vm_compute. repeat constructor; eauto.
Qed.

Lemma registered_default_lookup s :
  is_Some (boardState s !! "board1") ->
  is_Some (boardState s !! "board2") ->
  registered defaultConfig s.
Proof.
  intros H1 H2 key cfg Ha. cbn [defaultConfig BOARDS assoc] in Ha.
  destruct (bool_decide_reflect ("board1" = key)) as [<-|_]; [exact H1|].
  destruct (bool_decide_reflect ("board2" = key)) as [<-|_]; [exact H2|].
  discriminate Ha.
Qed.

Lemma registered_closingState : registered defaultConfig closingState.
Proof. apply registered_default_lookup; vm_compute; eauto. Qed.

Lemma tracked_closingState : tracked closingState.
Proof.
  intros h id Hin.
  assert (timers closingState = [(0%nat, CloseRelease 1)]) as Ht
    by (vm_compute; reflexivity).
  rewrite Ht in Hin. apply list_elem_of_singleton in Hin as [= -> ->].
  vm_compute. reflexivity.
Qed.



(** After two overlapping closes of barrier 1 the record holds the second
    timeout only: the sweep returns normally, the record is cleared, and
    the first timeout is pending still. *)
Lemma emergencyOff_leaves_unrecorded_timeout :
  let s := now (interleave overlappingCloses onlineState) in
  let X := run ackNet (emergencyOff defaultConfig "api") [] s in
  timers s = [(0%nat, CloseRelease 1); (1%nat, CloseRelease 1)] /\
  closeTimers s !! 1 = Some 1%nat /\
  X.2 = Ok tt /\ closeTimers X.1.2 !! 1 = None /\
  timers X.1.2 = [(0%nat, CloseRelease 1)].
Proof. vm_compute. repeat split; reflexivity. Qed.

End EmergencyOffExamples.

(** ** Auto-release timers *)

Section TimerPartFacts.

Import Buf Codec Async Server.
Local Open Scope Z_scope.

Variable conf : Config.
Implicit Types (net : nat -> list NetEvent) (s : State)
  (w : Trace State Request (list NetEvent)).

Lemma sameTimers_refl s : sameTimers s s.
Proof. reflexivity. Qed.

Lemma sameTimers_trans s1 s2 s3 :
  sameTimers s1 s2 -> sameTimers s2 s3 -> sameTimers s1 s3.
Proof. unfold sameTimers. congruence. Qed.

Ltac timers_step := preserve_step sameTimers_refl sameTimers_trans.

Lemma modbusRequest_sameTimers key fc data :
  preserves sameTimers (modbusRequest conf key fc data).
Proof.
  unfold modbusRequest, boardCfg, getBoard, setBoard.
  repeat timers_step. all: reflexivity.
Qed.

Lemma writeCoil_sameTimers key addr value :
  preserves sameTimers (writeCoil conf key addr value).
Proof.
  unfold writeCoil. repeat timers_step. apply modbusRequest_sameTimers.
Qed.

Lemma readCoils_sameTimers key startAddr qty :
  preserves sameTimers (readCoils conf key startAddr qty).
Proof.
  unfold readCoils. repeat timers_step. apply modbusRequest_sameTimers.
Qed.

Lemma log_sameTimers line : preserves sameTimers (log line).
Proof. unfold log. timers_step. reflexivity. Qed.

Lemma audit_sameTimers action details source :
  preserves sameTimers (audit action details source).
Proof.
  unfold audit. repeat timers_step; [|apply log_sameTimers]. reflexivity.
Qed.

Lemma setBoard_sameTimers key f : preserves sameTimers (setBoard key f).
Proof. unfold setBoard. timers_step. reflexivity. Qed.

Lemma autoDetectBoard_sameTimers key :
  preserves sameTimers (autoDetectBoard conf key).
Proof.
  unfold autoDetectBoard, boardCfg, getBoard.
  repeat first
    [ apply modbusRequest_sameTimers | apply log_sameTimers
    | apply setBoard_sameTimers | timers_step ].
Qed.

Lemma heartbeatBoard_sameTimers key :
  preserves sameTimers (heartbeatBoard conf key).
Proof.
  unfold heartbeatBoard, boardCfg, getBoard.
  repeat first
    [ apply autoDetectBoard_sameTimers | apply readCoils_sameTimers
    | apply log_sameTimers | apply setBoard_sameTimers | timers_step ].
Qed.

Lemma sweepChannels_sameTimers key from turns :
  preserves sameTimers (sweepChannels conf key from turns).
Proof.
  revert from. induction turns as [|turns IH]; intros from; simpl.
  - timers_step.
  - timers_step; [apply writeCoil_sameTimers|]. intros _. apply IH.
Qed.

Lemma sweepBoards_sameTimers boards :
  preserves sameTimers (sweepBoards conf boards).
Proof.
  induction boards as [|[key cfg] rest IH]; simpl.
  - timers_step.
  - unfold getBoard.
    repeat first
      [ apply IH | apply sweepChannels_sameTimers
      | apply setBoard_sameTimers | timers_step ].
Qed.

Lemma timersOk_sameTimers s1 s2 :
  sameTimers s1 s2 -> timersOk s1 -> timersOk s2.
Proof.
  unfold sameTimers, timerPart, timersOk, tracked.
  intros [= -> -> ->]. tauto.
Qed.

Lemma pendingFor_sameTimers id s1 s2 :
  sameTimers s1 s2 -> pendingFor id s2 = pendingFor id s1.
Proof.
  unfold sameTimers, timerPart, pendingFor. intros [= _ -> _]. reflexivity.
Qed.

Lemma cancelTimer_sameTimers id s1 s2 :
  sameTimers s1 s2 -> sameTimers (cancelTimer id s1) (cancelTimer id s2).
Proof.
  unfold sameTimers, timerPart, cancelTimer, dropCloseTimer, clearTimeout.
  intros [= H1 H2 H3]. rewrite H1.
  destruct (closeTimers s1 !! id); cbn; congruence.
Qed.

Lemma armTimer_sameTimers id s1 s2 :
  sameTimers s1 s2 -> sameTimers (armTimer id s1) (armTimer id s2).
Proof.
  unfold sameTimers, timerPart, armTimer. intros [= H1 H2 H3]. cbn.
  congruence.
Qed.

Lemma forgetTimer_sameTimers id s1 s2 :
  sameTimers s1 s2 -> sameTimers (forgetTimer id s1) (forgetTimer id s2).
Proof.
  unfold sameTimers, timerPart, forgetTimer. intros [= H1 H2 H3]. cbn.
  congruence.
Qed.

Lemma elem_of_pendingFor id s h :
  h ∈ pendingFor id s <-> (h, CloseRelease id) ∈ timers s.
Proof.
  unfold pendingFor. rewrite list_elem_of_fmap. split.
  - intros ([h' t] & -> & Hin). apply list_elem_of_filter in Hin as [Ht Hin].
    simpl in Ht. subst t. exact Hin.
  - intros Hin. exists (h, CloseRelease id). split; [reflexivity|].
    apply list_elem_of_filter. split; [reflexivity|exact Hin].
Qed.

Lemma pendingFor_nil id s :
  (forall h, (h, CloseRelease id) ∉ timers s) -> pendingFor id s = [].
Proof.
  intros H. destruct (pendingFor id s) as [|h l] eqn:E; [reflexivity|].
  exfalso. apply (H h). apply elem_of_pendingFor. rewrite E. left.
Qed.

(** Dropping the timeout a barrier's [closeTimers] entry holds keeps the
    bookkeeping consistent and leaves that barrier without timeout. *)
Lemma timersOk_dropCloseTimer id h s :
  timersOk s -> closeTimers s !! id = Some h ->
  timersOk (dropCloseTimer id h s) /\
  closeTimers (dropCloseTimer id h s) !! id = None /\
  pendingFor id (dropCloseTimer id h s) = [].
Proof.
  intros (Htr & Hnd & Hlt) Hid.
  assert (forall h' id', (h', CloseRelease id') ∈ timers (dropCloseTimer id h s)
            -> (h', CloseRelease id') ∈ timers s /\ id' <> id) as Hkeep.
  { intros h' id' Hin. apply elem_of_timers_drop in Hin as [Hin Hne].
    split; [exact Hin|]. intros ->. apply Hne. simpl.
    pose proof (Htr h' id Hin) as Hh'. congruence. }
  split; [split; [|split]|split].
  - intros h' id' Hin. destruct (Hkeep h' id' Hin) as [Hin' Hne].
    cbn. rewrite lookup_delete_ne by congruence. apply Htr, Hin'.
  - eapply sublist_NoDup; [exact Hnd|].
    apply fmap_sublist. cbn. apply sublist_filter.
  - intros t Hin. apply elem_of_timers_drop in Hin as [Hin _].
    apply Hlt, Hin.
  - cbn. apply lookup_delete_eq.
  - apply pendingFor_nil. intros h' Hin.
    destruct (Hkeep h' id Hin) as [_ Hne]. congruence.
Qed.

Lemma timersOk_cancelTimer id s :
  timersOk s ->
  timersOk (cancelTimer id s) /\
  closeTimers (cancelTimer id s) !! id = None /\
  pendingFor id (cancelTimer id s) = [].
Proof.
  intros Hok. unfold cancelTimer.
  destruct (closeTimers s !! id) as [h|] eqn:Hid.
  - apply timersOk_dropCloseTimer; assumption.
  - split; [exact Hok|]. split; [exact Hid|].
    apply pendingFor_nil. intros h Hin.
    destruct Hok as (Htr & _). rewrite (Htr h id Hin) in Hid.
    discriminate Hid.
Qed.

Lemma timersOk_armTimer id s :
  timersOk s -> pendingFor id s = [] -> timersOk (armTimer id s).
Proof.
  intros (Htr & Hnd & Hlt) Hnone. unfold armTimer.
  split; [|split].
  - intros h id' Hin. cbn in Hin |- *.
    apply elem_of_app in Hin as [Hin|Hin].
    + assert (id' <> id) as Hne.
      { intros ->. apply elem_of_pendingFor in Hin.
        rewrite Hnone in Hin. inversion Hin. }
      rewrite lookup_insert_ne by congruence. apply Htr, Hin.
    + apply list_elem_of_singleton in Hin as [= -> ->].
      apply lookup_insert_eq.
  - cbn. rewrite fmap_app. apply NoDup_app. split; [exact Hnd|].
    split; [|apply NoDup_singleton].
    intros h Hin Hin'. apply list_elem_of_singleton in Hin'. subst h.
    apply list_elem_of_fmap in Hin as (t & Ht & Hin).
    specialize (Hlt t Hin). cbn in Ht. lia.
  - intros t Hin. cbn in Hin |- *.
    apply elem_of_app in Hin as [Hin|Hin].
    + specialize (Hlt t Hin). lia.
    + apply list_elem_of_singleton in Hin as ->. cbn. lia.
Qed.

Lemma timersOk_clearTimeout h s : timersOk s -> timersOk (clearTimeout h s).
Proof.
  intros (Htr & Hnd & Hlt). split; [|split].
  - intros h' id Hin. cbn in Hin |- *.
    apply list_elem_of_filter in Hin as [_ Hin]. apply Htr, Hin.
  - eapply sublist_NoDup; [exact Hnd|].
    apply fmap_sublist. cbn. apply sublist_filter.
  - intros t Hin. cbn in Hin |- *.
    apply list_elem_of_filter in Hin as [_ Hin]. apply Hlt, Hin.
Qed.

Lemma pendingTask_Some h ts task :
  pendingTask h ts = Some task -> (h, task) ∈ ts.
Proof.
  unfold pendingTask. destruct (find _ ts) as [[h' t]|] eqn:E; [|discriminate].
  intros [= <-]. apply find_some in E as [Hin Hh].
  apply bool_decide_eq_true in Hh. cbn in Hh. subst h'.
  apply list_elem_of_In, Hin.
Qed.

Lemma pendingTask_None h ts :
  h ∉ ts.*1 -> pendingTask h ts = None.
Proof.
  intros Hn. unfold pendingTask.
  destruct (find _ ts) as [[h' t]|] eqn:E; [|reflexivity].
  exfalso. apply find_some in E as [Hin Hh].
  apply bool_decide_eq_true in Hh. cbn in Hh. subst h'.
  apply Hn. apply list_elem_of_fmap. exists (h, t).
  split; [reflexivity|]. apply list_elem_of_In, Hin.
Qed.

(** At most one auto-release timeout is pending per barrier. *)
Lemma timersOk_at_most_one id s :
  timersOk s -> (length (pendingFor id s) <= 1)%nat.
Proof.
  intros (Htr & Hnd & _).
  assert (NoDup (pendingFor id s)) as Hnd'.
  { eapply sublist_NoDup; [exact Hnd|].
    apply fmap_sublist, sublist_filter. }
  assert (forall h, h ∈ pendingFor id s -> closeTimers s !! id = Some h)
    as Hall by (intros h Hin; apply Htr, elem_of_pendingFor, Hin).
  destruct (pendingFor id s) as [|a [|b l]]; simpl; [lia..|].
  exfalso. apply NoDup_cons in Hnd' as [Hab _]. apply Hab.
  pose proof (Hall a ltac:(left)) as Ha.
  pose proof (Hall b ltac:(right; left)) as Hb.
  assert (a = b) as -> by congruence. left.
Qed.

End TimerPartFacts.

Section TimerInvariant.

Import Buf Codec Async Server.
Local Open Scope Z_scope.

Variable conf : Config.
Implicit Types (net : nat -> list NetEvent) (s : State)
  (w : Trace State Request (list NetEvent)).

Lemma run_bind_modify {A : Type} net (f : State -> State)
    (k : unit -> Prog A) w s :
  run net (let* x := modify f in k x) w s = run net (k tt) w (f s).
Proof. reflexivity. Qed.

Lemma run_getBoard_cases net key w s :
  run net (getBoard key) w s
  = (w, s, match boardState s !! key with
           | Some b => Ok b
           | None => Error TypeError
           end).
Proof.
  unfold getBoard. cbn [run]. destruct (boardState s !! key); reflexivity.
Qed.

Lemma run_boardCfg_cases net key w s :
  run net (boardCfg conf key) w s
  = (w, s, match assoc key (BOARDS conf) with
           | Some cfg => Ok cfg
           | None => Error TypeError
           end).
Proof.
  unfold boardCfg. destruct (assoc key (BOARDS conf)); reflexivity.
Qed.

Lemma run_fromOption {A : Type} net (o : option A) (e : Err) w s :
  run net (fromOption o e) w s
  = (w, s, match o with Some a => Ok a | None => Error e end).
Proof. destruct o; reflexivity. Qed.

(** What the [try] block of an action does to the timers: nothing (an
    unknown action name), the barrier's timeout cancelled, or -- only for
    a close whose writes both succeeded -- cancelled and a fresh one
    armed. *)
Lemma actionWrites_timers net id barrier action w s :
  let r := run net (actionWrites conf id barrier action) w s in
  sameTimers s r.1.2 \/
  sameTimers (cancelTimer id s) r.1.2 \/
  (action = "close" /\ r.2 = Ok tt /\
   sameTimers (armTimer id (cancelTimer id s)) r.1.2).
Proof.
  cbv zeta. unfold actionWrites.
  destruct (bool_decide_reflect (action = "lift")) as [Hl|Hl].
  { right. left. unfold cancelCloseTimer. rewrite run_bind_modify.
    apply (preserves_bind _ sameTimers_refl sameTimers_trans);
      [apply writeCoil_sameTimers|intros _; apply writeCoil_sameTimers]. }
  destruct (bool_decide_reflect (action = "close")) as [Hc|Hc].
  { unfold cancelCloseTimer. rewrite run_bind_modify.
    set (s2 := cancelTimer id s).
    rewrite run_bind.
    pose proof (writeCoil_sameTimers conf (Barrier.board barrier)
                  (Barrier.lift barrier) false net w s2) as Ha.
    destruct (run net (writeCoil conf (Barrier.board barrier)
                         (Barrier.lift barrier) false) w s2)
      as [[wa sa] [[]|e]]; cbn [fst snd] in Ha |- *; [|right; left; exact Ha].
    rewrite run_bind.
    pose proof (writeCoil_sameTimers conf (Barrier.board barrier)
                  (Barrier.close barrier) true net wa sa) as Hb.
    destruct (run net (writeCoil conf (Barrier.board barrier)
                         (Barrier.close barrier) true) wa sa)
      as [[wb sb] [[]|e]]; cbn [fst snd] in Hb |- *.
    - right. right. split; [exact Hc|]. split; [reflexivity|].
      apply armTimer_sameTimers.
      eapply sameTimers_trans; [exact Ha|exact Hb].
    - right. left. eapply sameTimers_trans; [exact Ha|exact Hb]. }
  destruct (bool_decide_reflect (action = "stop")) as [Hs|Hs].
  { right. left. unfold cancelCloseTimer. rewrite run_bind_modify.
    apply (preserves_bind _ sameTimers_refl sameTimers_trans);
      [apply writeCoil_sameTimers|intros _].
    apply (preserves_bind _ sameTimers_refl sameTimers_trans);
      [apply writeCoil_sameTimers|intros _; apply writeCoil_sameTimers]. }
  left. apply sameTimers_refl.
Qed.

Lemma latchBarrierAction_timers net id action source w s :
  let r := run net (latchBarrierAction conf id action source) w s in
  sameTimers s r.1.2 \/
  sameTimers (cancelTimer id s) r.1.2 \/
  (action = "close" /\ r.2 = Ok tt /\
   sameTimers (armTimer id (cancelTimer id s)) r.1.2).
Proof.
  cbv zeta. unfold latchBarrierAction. rewrite run_bind, run_fromOption.
  destruct (BARRIERS conf !! id) as [barrier|];
    [|left; apply sameTimers_refl].
  rewrite run_bind, run_getBoard_cases.
  destruct (boardState s !! Barrier.board barrier) as [b|];
    [|left; apply sameTimers_refl].
  rewrite run_bind.
  destruct (reachable b); cbn [run].
  2:{ left. rewrite run_bind, run_boardCfg_cases.
      destruct (assoc (Barrier.board barrier) (BOARDS conf));
        apply sameTimers_refl. }
  rewrite run_bind, run_setBoard, run_bind.
  unfold setBoard. rewrite run_tryFinally_modify.
  set (s1 := with_board (Barrier.board barrier) (set_commandLock true) s).
  assert (sameTimers s s1) as H1 by reflexivity.
  pose proof (actionWrites_timers net id barrier action w s1) as Hw.
  cbv zeta in Hw.
  destruct (run net (actionWrites conf id barrier action) w s1)
    as [[wb sb] rb]. cbn [fst snd] in Hw.
  destruct rb as [[]|e]; [rewrite run_audit|]; cbn [fst snd run].
  - destruct Hw as [Hw|[Hw|(Hc & Hr & Hw)]].
    + left. eapply sameTimers_trans; [exact H1|exact Hw].
    + right. left. eapply sameTimers_trans; [|exact Hw].
      apply cancelTimer_sameTimers, H1.
    + right. right. split; [exact Hc|]. split; [reflexivity|].
      eapply sameTimers_trans; [|exact Hw].
      apply armTimer_sameTimers, cancelTimer_sameTimers, H1.
  - destruct Hw as [Hw|[Hw|(Hc & Hr & Hw)]]; [| |discriminate Hr].
    + left. eapply sameTimers_trans; [exact H1|exact Hw].
    + right. left. eapply sameTimers_trans; [|exact Hw].
      apply cancelTimer_sameTimers, H1.
Qed.

Lemma closeAutoRelease_timers net id w s :
  let r := run net (closeAutoRelease conf id) w s in
  sameTimers s r.1.2 \/ sameTimers (forgetTimer id s) r.1.2.
Proof.
  cbv zeta. unfold closeAutoRelease. rewrite run_bind, run_fromOption.
  destruct (BARRIERS conf !! id) as [barrier|];
    [|left; apply sameTimers_refl].
  right. rewrite run_bind, run_tryCatch.
  match goal with
  | |- context [run net ?m w s] =>
      assert (preserves sameTimers m) as Hm
  end.
  { apply (preserves_bind _ sameTimers_refl sameTimers_trans);
      [apply writeCoil_sameTimers|intros _; apply audit_sameTimers]. }
  specialize (Hm net w s).
  match goal with
  | |- context [run net ?m w s] => destruct (run net m w s) as [[w1 s1] [[]|e]]
  end; cbn [fst snd] in Hm.
  - cbn [run modify]. apply forgetTimer_sameTimers, Hm.
  - rewrite run_log. cbn [run modify fst snd].
    apply forgetTimer_sameTimers. exact Hm.
Qed.

End TimerInvariant.

(** A property of the timer bookkeeping that the five ways of changing it
    maintain is maintained by every handler, hence along every sequence
    of events. *)
Section HandlerInvariant.

Import Buf Codec Async Server.

Variable conf : Config.
Variable Q : State -> Prop.
Hypothesis Q_same : forall s1 s2, sameTimers s1 s2 -> Q s1 -> Q s2.
Hypothesis Q_cancel : forall id s, Q s -> Q (cancelTimer id s).
Hypothesis Q_rearm : forall id s, Q s -> Q (armTimer id (cancelTimer id s)).
Hypothesis Q_clear : forall h s, Q s -> Q (clearTimeout h s).
Hypothesis Q_fired : forall h id s,
  Q s -> pendingTask h (timers s) = Some (CloseRelease id) ->
  Q (forgetTimer id (clearTimeout h s)).
Hypothesis Q_cancelAll : forall s, Q s -> Q (cancelAll s).

Implicit Types (net : nat -> list NetEvent) (s : State)
  (w : Trace State Request (list NetEvent)).

Lemma latchBarrierAction_keeps net id action source w s :
  Q s -> Q (run net (latchBarrierAction conf id action source) w s).1.2.
Proof.
  intros HQ.
  destruct (latchBarrierAction_timers conf net id action source w s)
    as [H|[H|(_ & _ & H)]]; (eapply Q_same; [exact H|]); auto.
Qed.

Lemma fireTimer_keeps net h w s :
  Q s -> Q (run net (fireTimer conf h) w s).1.2.
Proof.
  intros HQ. unfold fireTimer. cbn [run].
  destruct (pendingTask h (timers s)) as [[id]|] eqn:Hp; [|exact HQ].
  cbn [run].
  destruct (closeAutoRelease_timers conf net id w (clearTimeout h s))
    as [H|H]; (eapply Q_same; [exact H|]); auto.
Qed.

Lemma emergencyOff_keeps net source w s :
  Q s -> Q (run net (emergencyOff conf source) w s).1.2.
Proof.
  intros HQ. unfold emergencyOff. rewrite run_bind.
  pose proof (sweepBoards_sameTimers conf (BOARDS conf) net w s) as Hs.
  destruct (run net (sweepBoards conf (BOARDS conf)) w s)
    as [[w1 s1] [[]|e]]; cbn [fst snd] in Hs |- *.
  - unfold cancelAllCloseTimers. rewrite run_bind_modify, run_audit.
    cbn [fst snd].
    apply (Q_same (cancelAll s1)); [reflexivity|].
    apply Q_cancelAll, (Q_same s); assumption.
  - apply (Q_same s); assumption.
Qed.

Lemma handler_keeps net ev w s :
  Q s -> Q (run net (handler conf ev) w s).1.2.
Proof.
  intros HQ. destruct ev as [id action source|source|key|h]; cbn [handler].
  - apply latchBarrierAction_keeps, HQ.
  - apply emergencyOff_keeps, HQ.
  - apply (Q_same s); [|exact HQ]. apply heartbeatBoard_sameTimers.
  - apply fireTimer_keeps, HQ.
Qed.

Lemma runEvents_keeps net evs w s :
  Q s -> Q (runEvents conf net evs w s).2.
Proof.
  revert w s. induction evs as [|ev evs IH]; intros w s HQ; cbn.
  - exact HQ.
  - apply IH, handler_keeps, HQ.
Qed.

End HandlerInvariant.

Section TimersOkInvariant.

Import Buf Codec Async Server.

Variable conf : Config.

Lemma timersOk_cancelAll s : timersOk s -> timersOk (cancelAll s).
Proof.
  intros (Htr & _). unfold timersOk, tracked.
  rewrite (timers_cancelAll s Htr). split; [|split].
  - intros h id Hin. inversion Hin.
  - constructor.
  - intros t Hin. inversion Hin.
Qed.

(** The bookkeeping stays consistent along every sequence of events. *)
Lemma runEvents_timersOk net evs w s :
  timersOk s -> timersOk (runEvents conf net evs w s).2.
Proof.
  apply runEvents_keeps.
  - intros s1 s2. apply timersOk_sameTimers.
  - intros id s1 H. apply timersOk_cancelTimer, H.
  - intros id s1 H.
    destruct (timersOk_cancelTimer id s1 H) as (Hc & _ & Hnone).
    apply timersOk_armTimer; assumption.
  - intros h s1. apply timersOk_clearTimeout.
  - intros h id s1 H Hp.
    apply (timersOk_dropCloseTimer id h s1 H).
    destruct H as (Htr & _). apply Htr, pendingTask_Some, Hp.
  - apply timersOk_cancelAll.
Qed.

Lemma timersOk_initState : timersOk (initState conf).
Proof.
  split; [|split].
  - intros h id Hin. inversion Hin.
  - constructor.
  - intros t Hin. inversion Hin.
Qed.

End TimersOkInvariant.

(** ** Properties that hold at every suspension point *)

Section ThroughoutFacts.

Import Async.
Context {St Req Ans E : Type}.
Variable P : St -> Prop.

Lemma throughout_Ret {A : Type} (a : A) :
  throughout P (Ret a : Async St Req Ans E A).
Proof.
  intros net tr s Hs. split; [exact Hs|]. exists [].
  split; [symmetry; apply app_nil_r|constructor].
Qed.

Lemma throughout_Throw {A : Type} (e : E) :
  throughout P (Throw e : Async St Req Ans E A).
Proof.
  intros net tr s Hs. split; [exact Hs|]. exists [].
  split; [symmetry; apply app_nil_r|constructor].
Qed.

Lemma throughout_Get {A : Type} (k : St -> Async St Req Ans E A) :
  (forall s, throughout P (k s)) -> throughout P (Get k).
Proof. intros H net tr s Hs. exact (H s net tr s Hs). Qed.

Lemma throughout_modify (f : St -> St) :
  (forall s, P s -> P (f s)) ->
  throughout P (modify f : Async St Req Ans E unit).
Proof.
  intros H net tr s Hs. split; [apply H, Hs|]. exists [].
  split; [symmetry; apply app_nil_r|constructor].
Qed.

Lemma throughout_Await {A : Type} (r : Req)
    (k : Ans -> Async St Req Ans E A) :
  (forall a, throughout P (k a)) -> throughout P (Await r k).
Proof.
  intros H net tr s Hs. cbn [run].
  destruct (H (net (length tr)) net (tr ++ [(r, net (length tr), s)]) s Hs)
    as (Hfin & tr1 & Htr & Hall).
  split; [exact Hfin|].
  exists ((r, net (length tr), s) :: tr1).
  split; [rewrite Htr, <- app_assoc; reflexivity|].
  constructor; [exact Hs|exact Hall].
Qed.

Lemma throughout_handle {A B : Type} (m : Async St Req Ans E A)
    (ok : A -> Async St Req Ans E B) (err : E -> Async St Req Ans E B) :
  throughout P m -> (forall a, throughout P (ok a)) ->
  (forall e, throughout P (err e)) -> throughout P (handle m ok err).
Proof.
  intros Hm Hok Herr net tr s Hs. rewrite run_handle.
  destruct (Hm net tr s Hs) as (H1 & tr1 & Htr1 & Hall1).
  destruct (run net m tr s) as [[w1 s1] [a|e]]; cbn [fst snd] in *; subst w1.
  - destruct (Hok a net (tr ++ tr1) s1 H1) as (H2 & tr2 & Htr2 & Hall2).
    split; [exact H2|]. exists (tr1 ++ tr2).
    split; [rewrite Htr2, app_assoc; reflexivity|].
    apply Forall_app. split; assumption.
  - destruct (Herr e net (tr ++ tr1) s1 H1) as (H2 & tr2 & Htr2 & Hall2).
    split; [exact H2|]. exists (tr1 ++ tr2).
    split; [rewrite Htr2, app_assoc; reflexivity|].
    apply Forall_app. split; assumption.
Qed.

Lemma throughout_bind {A B : Type} (m : Async St Req Ans E A)
    (f : A -> Async St Req Ans E B) :
  throughout P m -> (forall a, throughout P (f a)) ->
  throughout P (bind m f).
Proof.
  intros Hm Hf. apply throughout_handle; [exact Hm|exact Hf|].
  intros e. apply throughout_Throw.
Qed.

End ThroughoutFacts.

(** One syntax-directed step towards [throughout P m]. *)
Ltac throughout_step :=
  lazymatch goal with
  | |- Async.throughout _ (Async.bind _ _) => apply throughout_bind
  | |- Async.throughout _ (Async.handle _ _ _) => apply throughout_handle
  | |- Async.throughout _ (Async.Ret _) => apply throughout_Ret
  | |- Async.throughout _ (Async.Throw _) => apply throughout_Throw
  | |- Async.throughout _ (Async.Get _) => apply throughout_Get
  | |- Async.throughout _ (Async.Await _ _) => apply throughout_Await
  | |- Async.throughout _ (Async.modify _) => apply throughout_modify
  | |- Async.throughout _ (if ?c then _ else _) => destruct c
  | |- Async.throughout _ (Server.fromOption ?o _) =>
      destruct o; cbn [Server.fromOption]
  | |- Async.throughout _ (Server.ofResult ?o) =>
      destruct o; cbn [Server.ofResult]
  | |- Async.throughout _ (match ?o with _ => _ end) => destruct o
  | |- Async.throughout _ (let _ := _ in _) => cbv zeta
  | |- forall _, _ => intro
  end.

Section WriteSequenceFacts.

Import Buf Codec Async Server.
Local Open Scope Z_scope.

Variable conf : Config.
Implicit Types (net : nat -> list NetEvent) (s : State)
  (w : Trace State Request (list NetEvent)).

Lemma modbusRequest_throughout P key fc data :
  tidBlind P -> throughout P (modbusRequest conf key fc data).
Proof.
  intros HP. unfold modbusRequest, boardCfg, getBoard, setBoard.
  repeat throughout_step. all: try assumption. apply HP. assumption.
Qed.

Lemma writeCoil_throughout P key addr value :
  tidBlind P -> throughout P (writeCoil conf key addr value).
Proof.
  intros HP. unfold writeCoil. repeat throughout_step.
  apply modbusRequest_throughout, HP.
Qed.

(** The requests of an action's [try] block are all issued in states with
    [P], if [P] holds once the barrier's timeout is cancelled and does not
    depend on transaction counters. *)
Lemma actionWrites_entries P net id barrier action w s :
  tidBlind P -> P (cancelTimer id s) ->
  exists w1,
    (run net (actionWrites conf id barrier action) w s).1.1 = w ++ w1 /\
    Forall (fun x => P x.2) w1.
Proof.
  intros HP Hs. unfold actionWrites, cancelCloseTimer.
  pose proof (fun key addr value =>
                writeCoil_throughout P key addr value HP) as Hw.
  destruct (bool_decide (action = "lift")).
  { rewrite run_bind_modify.
    apply (throughout_bind P); [apply Hw|intros _; apply Hw|exact Hs]. }
  destruct (bool_decide (action = "close")).
  { rewrite run_bind_modify, run_bind.
    destruct (Hw (Barrier.board barrier) (Barrier.lift barrier) false
                 net w (cancelTimer id s) Hs) as (H1 & t1 & Ht1 & Hall1).
    destruct (run net (writeCoil conf (Barrier.board barrier)
                         (Barrier.lift barrier) false) w (cancelTimer id s))
      as [[w1 s1] [[]|e]]; cbn [fst snd] in *; subst w1; [|eauto].
    rewrite run_bind.
    destruct (Hw (Barrier.board barrier) (Barrier.close barrier) true
                 net (w ++ t1) s1 H1) as (H2 & t2 & Ht2 & Hall2).
    destruct (run net (writeCoil conf (Barrier.board barrier)
                         (Barrier.close barrier) true) (w ++ t1) s1)
      as [[w2 s2] [[]|e]]; cbn [fst snd run armCloseTimer modify] in *;
      subst w2; exists (t1 ++ t2);
      (split; [rewrite app_assoc; reflexivity
              |apply Forall_app; split; assumption]). }
  destruct (bool_decide (action = "stop")).
  { rewrite run_bind_modify.
    apply (throughout_bind P); [apply Hw| |exact Hs]. intros _.
    apply (throughout_bind P); [apply Hw|intros _; apply Hw]. }
  exists []. split; [symmetry; apply app_nil_r|constructor].
Qed.

Lemma latchBarrierAction_entries P net id action source w s barrier :
  tidBlind P ->
  BARRIERS conf !! id = Some barrier ->
  P (cancelTimer id
       (with_board (Barrier.board barrier) (set_commandLock true) s)) ->
  exists w1,
    (run net (latchBarrierAction conf id action source) w s).1.1 = w ++ w1 /\
    Forall (fun x => P x.2) w1.
Proof.
  intros HP Hbar Hs.
  assert (exists w1 : Trace State Request (list NetEvent),
             w = w ++ w1 /\ Forall (fun x => P x.2) w1) as Hnone
    by (exists []; split; [symmetry; apply app_nil_r|constructor]).
  unfold latchBarrierAction. rewrite run_bind, run_fromOption, Hbar.
  rewrite run_bind, run_getBoard_cases.
  destruct (boardState s !! Barrier.board barrier) as [b|]; [|exact Hnone].
  rewrite run_bind.
  destruct (reachable b); cbn [run].
  2:{ rewrite run_bind, run_boardCfg_cases.
      destruct (assoc (Barrier.board barrier) (BOARDS conf)); exact Hnone. }
  rewrite run_bind, run_setBoard, run_bind.
  unfold setBoard. rewrite run_tryFinally_modify.
  destruct (actionWrites_entries P net id barrier action w _ HP Hs)
    as (w1 & Hw1 & Hall).
  destruct (run net (actionWrites conf id barrier action) w _)
    as [[wb sb] [[]|e]]; cbn [fst snd] in Hw1; subst wb;
    [rewrite run_audit|]; cbn [fst snd]; eauto.
Qed.

Lemma actionWrites_sameDialect id barrier action :
  preserves sameDialect (actionWrites conf id barrier action).
Proof.
  unfold actionWrites.
  repeat first
    [ apply writeCoil_sameDialect
    | apply cancelCloseTimer_sameDialect
    | apply armCloseTimer_sameDialect
    | preserve_step sameDialect_refl sameDialect_trans ].
Qed.

(** The gate flag is down again after an action that got past its checks,
    however its writes went. *)
Lemma latchBarrierAction_releases net id action source w s barrier b :
  BARRIERS conf !! id = Some barrier ->
  boardState s !! Barrier.board barrier = Some b ->
  reachable b = true ->
  commandLock <$>
    boardState (run net (latchBarrierAction conf id action source) w s).1.2
      !! Barrier.board barrier = Some false.
Proof.
  intros Hbar Hb Hr.
  unfold latchBarrierAction. rewrite run_bind, run_fromOption, Hbar.
  rewrite run_bind, run_getBoard_cases, Hb, run_bind, Hr. cbn [run].
  rewrite run_bind, run_setBoard, run_bind.
  unfold setBoard. rewrite run_tryFinally_modify.
  set (s1 := with_board (Barrier.board barrier) (set_commandLock true) s).
  pose proof (actionWrites_sameDialect id barrier action net w s1) as Hd.
  destruct (run net (actionWrites conf id barrier action) w s1)
    as [[wb sb] rb]. cbn [fst snd] in Hd.
  assert (exists b', boardState sb !! Barrier.board barrier = Some b')
    as [b' Hb'].
  { specialize (Hd (Barrier.board barrier)). unfold s1 in Hd.
    rewrite boardState_with_board_eq, Hb in Hd.
    destruct (boardState sb !! Barrier.board barrier); [eauto|].
    discriminate Hd. }
  destruct rb as [[]|e]; [rewrite run_audit|]; cbn [fst snd];
    cbn [with_console with_auditEntries boardState];
    rewrite boardState_with_board_eq, Hb'; reflexivity.
Qed.

End WriteSequenceFacts.

(** ** Actions that returned normally *)

Section CoilImageFacts.

Import Buf Codec Async Server.
Local Open Scope Z_scope.

Variable conf : Config.
Implicit Types (net : nat -> list NetEvent) (s : State)
  (w : Trace State Request (list NetEvent)).

Lemma sameBytes_eq (a b : list byte) : sameBytes a b = true <-> a = b.
Proof.
  unfold sameBytes. rewrite bool_decide_eq_true. split; [|congruence].
  revert b. induction a as [|x a IH]; intros [|y b] H; try discriminate H.
  - reflexivity.
  - cbn in H. injection H as Hxy Hab.
    f_equal; [apply b2z_inj, Hxy|apply IH, Hab].
Qed.

Lemma uint16BE_inj (a a' : Z) :
  0 <= a <= 65535 -> 0 <= a' <= 65535 ->
  z2b (Z.shiftr a 8) = z2b (Z.shiftr a' 8) ->
  z2b (Z.land a 255) = z2b (Z.land a' 255) -> a = a'.
Proof.
  intros Ha Ha' Hhi Hlo.
  apply (f_equal b2z) in Hhi. apply (f_equal b2z) in Hlo.
  change 255 with (Z.ones 8) in Hlo.
  rewrite !Z.land_ones in Hlo by lia.
  rewrite !Z.shiftr_div_pow2 in Hhi by lia. change (2 ^ 8) with 256 in *.
  pose proof (Z.mod_pos_bound a 256 ltac:(lia)).
  pose proof (Z.mod_pos_bound a' 256 ltac:(lia)).
  assert (0 <= a / 256 < 256)
    by (split; [apply Z.div_pos; lia|apply Z.div_lt_upper_bound; lia]).
  assert (0 <= a' / 256 < 256)
    by (split; [apply Z.div_pos; lia|apply Z.div_lt_upper_bound; lia]).
  rewrite !b2z_z2b_small in Hhi, Hlo by lia.
  rewrite (Z.div_mod a 256), (Z.div_mod a' 256) by lia. lia.
Qed.

Lemma coilData_inj (a a' : Z) (v v' : bool) :
  0 <= a <= 65535 -> 0 <= a' <= 65535 ->
  coilData a v = coilData a' v' -> a = a' /\ v = v'.
Proof.
  intros Ha Ha'. unfold coilData. intros [= Hhi Hlo Hv]. split.
  - apply uint16BE_inj; assumption.
  - destruct v, v'; try reflexivity; discriminate Hv.
Qed.

(** What an acknowledged write of coil [a] leaves in coil [addr]. *)
Lemma writes_of_call key addr x a v :
  logical x = (key, x05, coilData a v) -> acked x = true ->
  0 <= addr <= 65535 -> 0 <= a <= 65535 ->
  writes key addr x = if decide (a = addr) then Some v else None.
Proof.
  unfold logical, writes. intros [= Hk Hf Hd] Hack Haddr Ha.
  rewrite Hk, Hf, Hd, Hack.
  rewrite bool_decide_eq_true_2 by reflexivity.
  replace (sameBytes [x05] [x05]) with true by reflexivity. cbn [andb].
  destruct (decide (a = addr)) as [->|Hne].
  - destruct v.
    + replace (sameBytes (coilData addr true) (coilData addr true)) with true
        by (symmetry; apply sameBytes_eq; reflexivity).
      reflexivity.
    + destruct (sameBytes (coilData addr false) (coilData addr true)) eqn:E.
      * apply sameBytes_eq, coilData_inj in E as [_ E]; [discriminate E|lia..].
      * replace (sameBytes (coilData addr false) (coilData addr false))
          with true by (symmetry; apply sameBytes_eq; reflexivity).
        reflexivity.
  - destruct (sameBytes (coilData a v) (coilData addr true)) eqn:E1.
    { apply sameBytes_eq, coilData_inj in E1 as [E1 _]; [tauto|lia..]. }
    destruct (sameBytes (coilData a v) (coilData addr false)) eqn:E2.
    { apply sameBytes_eq, coilData_inj in E2 as [E2 _]; [tauto|lia..]. }
    reflexivity.
Qed.

Lemma coilImage_snoc key addr w x :
  coilImage key addr (w ++ [x])
  = match writes key addr x with
    | Some v => Some v
    | None => coilImage key addr w
    end.
Proof. unfold coilImage. rewrite foldl_app. reflexivity. Qed.

(** One coil write, seen from its outcome. *)
Lemma run_writeCoil_inv net key addr value w s w' s' r cfg :
  assoc key (BOARDS conf) = Some cfg ->
  0 <= BoardCfg.unitId cfg <= 255 ->
  is_Some (boardState s !! key) ->
  0 <= addr <= 65535 ->
  run net (writeCoil conf key addr value) w s = (w', s', r) ->
  exists x, w' = w ++ [x] /\
    logical x = (key, x05, coilData addr value) /\
    is_Some (boardState s' !! key) /\
    (r = Ok tt -> acked x = true).
Proof.
  intros Hc Hu [b Hb] Ha Hrun.
  rewrite (run_writeCoil conf net key addr value w s cfg b Hc Hb Hu Ha)
    in Hrun.
  injection Hrun as <- <- <-.
  eexists. split; [reflexivity|]. split; [reflexivity|].
  split; [apply is_Some_afterSend; eauto|].
  intros Hok. unfold acked. cbn [fst snd requestOf to_board].
  destruct (boardState_afterSend key key s) as [t Ht]. rewrite Hb in Ht.
  rewrite Ht. cbn [fmap option_fmap option_map set_transactionId useRTU].
  unfold settled.
  destruct (settle (useRTU b) [] (net (length w))); [reflexivity|].
  discriminate Hok.
Qed.


Lemma boardState_cancelTimer id s :
  boardState (cancelTimer id s) = boardState s.
Proof. unfold cancelTimer. destruct (closeTimers s !! id); reflexivity. Qed.

(** A [try] block that completed: its exchanges are the writes of the
    action, each acknowledged, and the timers are as the action leaves
    them. *)
Lemma actionWrites_ok net id barrier action w s w' s' cfg :
  assoc (Barrier.board barrier) (BOARDS conf) = Some cfg ->
  0 <= BoardCfg.unitId cfg <= 255 ->
  is_Some (boardState s !! Barrier.board barrier) ->
  wfBarrier barrier ->
  run net (actionWrites conf id barrier action) w s = (w', s', Ok tt) ->
  exists w1, w' = w ++ w1 /\
    Forall2 (answered (Barrier.board barrier)) w1 (actionCalls barrier action) /\
    sameTimers (timersAfter id action s) s'.
Proof.
  intros Hc Hu Hb (Hl & Hcl & Hst & _) Hrun.
  unfold actionWrites, actionCalls, timersAfter, cancelCloseTimer in *.
  rewrite <- (boardState_cancelTimer id s) in Hb.
  pose proof (fun addr value w s =>
                writeCoil_sameTimers conf (Barrier.board barrier) addr value
                  net w s) as Hsame.
  destruct (bool_decide_reflect (action = "lift")) as [->|Hnl].
  { cbn [bool_decide orb]. rewrite run_bind_modify, run_bind in Hrun.
    specialize (Hsame (Barrier.close barrier) false w (cancelTimer id s))
      as H1.
    destruct (run net (writeCoil conf _ (Barrier.close barrier) false) w _)
      as [[w1 s1] [[]|e]] eqn:E1; [|discriminate Hrun].
    destruct (run_writeCoil_inv net _ _ _ _ _ _ _ _ cfg Hc Hu Hb Hcl E1)
      as (x1 & -> & Hx1 & Hb1 & Ha1).
    specialize (Hsame (Barrier.lift barrier) true (w ++ [x1]) s1) as H2.
    rewrite Hrun in H2.
    destruct (run_writeCoil_inv net _ _ _ _ _ _ _ _ cfg Hc Hu Hb1 Hl Hrun)
      as (x2 & -> & Hx2 & Hb2 & Ha2).
    exists [x1; x2]. split; [rewrite <- app_assoc; reflexivity|].
    split; [repeat constructor; auto|].
    cbn [fst snd] in *. eapply sameTimers_trans; eassumption. }
  destruct (bool_decide_reflect (action = "close")) as [->|Hnc].
  { rewrite run_bind_modify, run_bind in Hrun.
    specialize (Hsame (Barrier.lift barrier) false w (cancelTimer id s))
      as H1.
    destruct (run net (writeCoil conf _ (Barrier.lift barrier) false) w _)
      as [[w1 s1] [[]|e]] eqn:E1; [|discriminate Hrun].
    destruct (run_writeCoil_inv net _ _ _ _ _ _ _ _ cfg Hc Hu Hb Hl E1)
      as (x1 & -> & Hx1 & Hb1 & Ha1).
    rewrite run_bind in Hrun.
    specialize (Hsame (Barrier.close barrier) true (w ++ [x1]) s1) as H2.
    destruct (run net (writeCoil conf _ (Barrier.close barrier) true) _ s1)
      as [[w2 s2] [[]|e]] eqn:E2; [|discriminate Hrun].
    destruct (run_writeCoil_inv net _ _ _ _ _ _ _ _ cfg Hc Hu Hb1 Hcl E2)
      as (x2 & -> & Hx2 & Hb2 & Ha2).
    cbn [run armCloseTimer modify] in Hrun. injection Hrun as <- <-.
    exists [x1; x2]. split; [rewrite <- app_assoc; reflexivity|].
    split; [repeat constructor; auto|].
    cbn [fst snd] in *. apply armTimer_sameTimers.
    eapply sameTimers_trans; eassumption. }
  destruct (bool_decide_reflect (action = "stop")) as [->|Hns].
  { cbn [orb]. rewrite run_bind_modify, run_bind in Hrun.
    specialize (Hsame (Barrier.lift barrier) false w (cancelTimer id s))
      as H1.
    destruct (run net (writeCoil conf _ (Barrier.lift barrier) false) w _)
      as [[w1 s1] [[]|e]] eqn:E1; [|discriminate Hrun].
    destruct (run_writeCoil_inv net _ _ _ _ _ _ _ _ cfg Hc Hu Hb Hl E1)
      as (x1 & -> & Hx1 & Hb1 & Ha1).
    rewrite run_bind in Hrun.
    specialize (Hsame (Barrier.close barrier) false (w ++ [x1]) s1) as H2.
    destruct (run net (writeCoil conf _ (Barrier.close barrier) false) _ s1)
      as [[w2 s2] [[]|e]] eqn:E2; [|discriminate Hrun].
    destruct (run_writeCoil_inv net _ _ _ _ _ _ _ _ cfg Hc Hu Hb1 Hcl E2)
      as (x2 & -> & Hx2 & Hb2 & Ha2).
    specialize (Hsame (Barrier.stop barrier) true ((w ++ [x1]) ++ [x2]) s2)
      as H3.
    rewrite Hrun in H3.
    destruct (run_writeCoil_inv net _ _ _ _ _ _ _ _ cfg Hc Hu Hb2 Hst Hrun)
      as (x3 & -> & Hx3 & Hb3 & Ha3).
    exists [x1; x2; x3]. split; [rewrite <- !app_assoc; reflexivity|].
    split; [repeat constructor; auto|].
    cbn [fst snd] in *.
    eapply sameTimers_trans; [|eassumption].
    eapply sameTimers_trans; eassumption. }
  cbn [orb]. cbn [run] in Hrun. injection Hrun as <- <-.
  exists []. split; [symmetry; apply app_nil_r|].
  split; [constructor|apply sameTimers_refl].
Qed.

(** The same for a whole action that returned normally. *)
Lemma latchBarrierAction_ok net id action source w s w' s' barrier cfg :
  BARRIERS conf !! id = Some barrier ->
  assoc (Barrier.board barrier) (BOARDS conf) = Some cfg ->
  0 <= BoardCfg.unitId cfg <= 255 ->
  wfBarrier barrier ->
  run net (latchBarrierAction conf id action source) w s = (w', s', Ok tt) ->
  exists w1, w' = w ++ w1 /\
    Forall2 (answered (Barrier.board barrier)) w1 (actionCalls barrier action) /\
    sameTimers (timersAfter id action s) s'.
Proof.
  intros Hbar Hc Hu Hwf Hrun. unfold latchBarrierAction in Hrun.
  rewrite run_bind, run_fromOption, Hbar in Hrun.
  rewrite run_bind, run_getBoard_cases in Hrun.
  destruct (boardState s !! Barrier.board barrier) as [b|] eqn:Hb;
    [|discriminate Hrun].
  rewrite run_bind in Hrun.
  destruct (reachable b); cbn [run] in Hrun.
  2:{ rewrite run_bind, run_boardCfg_cases, Hc in Hrun. discriminate Hrun. }
  rewrite run_bind, run_setBoard, run_bind in Hrun.
  unfold setBoard in Hrun. rewrite run_tryFinally_modify in Hrun.
  set (s1 := with_board (Barrier.board barrier) (set_commandLock true) s)
    in Hrun.
  assert (is_Some (boardState s1 !! Barrier.board barrier)) as Hb1.
  { unfold s1. rewrite boardState_with_board_eq, Hb. eauto. }
  destruct (run net (actionWrites conf id barrier action) w s1)
    as [[wb sb] [[]|e]] eqn:E; [|discriminate Hrun].
  destruct (actionWrites_ok net id barrier action w s1 wb sb cfg
              Hc Hu Hb1 Hwf E) as (w1 & -> & Hall & Hsame).
  rewrite run_audit in Hrun. cbn [fst snd] in Hrun.
  injection Hrun as <- <-.
  exists w1. split; [reflexivity|]. split; [exact Hall|].
  unfold sameTimers in *. cbn [timerPart with_console with_auditEntries
    closeTimers timers nextTimer]. 
  etransitivity; [|etransitivity; [exact Hsame|]].
  - reflexivity.
  - assert (sameTimers s s1) as H1 by reflexivity. unfold timersAfter.
    destruct (bool_decide (action = "close"));
      [apply armTimer_sameTimers, cancelTimer_sameTimers, H1|].
    destruct (bool_decide (action = "lift") || bool_decide (action = "stop"));
      [apply cancelTimer_sameTimers, H1|exact H1].
Qed.

End CoilImageFacts.

(** ** Handles that can no longer fire *)

Section RetiredFacts.

Import Buf Codec Async Server.
Local Open Scope Z_scope.

Variable conf : Config.
Implicit Types (net : nat -> list NetEvent) (s : State)
  (w : Trace State Request (list NetEvent)).

Lemma retired_shrink h s s' :
  nextTimer s' = nextTimer s ->
  (forall t, t ∈ timers s' -> t ∈ timers s) ->
  retired h s -> retired h s'.
Proof.
  intros Hn Hsub [Hlt Hnot]. split; [rewrite Hn; exact Hlt|].
  intros Hin. apply Hnot. apply list_elem_of_fmap in Hin as (t & -> & Hin).
  apply list_elem_of_fmap. exists t. split; [reflexivity|apply Hsub, Hin].
Qed.

Lemma retired_sameTimers h s1 s2 :
  sameTimers s1 s2 -> retired h s1 -> retired h s2.
Proof.
  unfold sameTimers, timerPart, retired. intros [= _ -> ->]. tauto.
Qed.

Lemma retired_cancelTimer h id s : retired h s -> retired h (cancelTimer id s).
Proof.
  unfold cancelTimer. destruct (closeTimers s !! id) as [h'|]; [|tauto].
  apply retired_shrink; [reflexivity|].
  intros t Hin. apply elem_of_timers_drop in Hin. tauto.
Qed.

Lemma retired_armTimer h id s : retired h s -> retired h (armTimer id s).
Proof.
  intros [Hlt Hnot]. split; [cbn; lia|]. cbn. rewrite fmap_app.
  intros Hin. apply elem_of_app in Hin as [Hin|Hin]; [tauto|].
  apply list_elem_of_singleton in Hin. cbn in Hin. lia.
Qed.

Lemma retired_clearTimeout h h' s :
  retired h s -> retired h (clearTimeout h' s).
Proof.
  apply retired_shrink; [reflexivity|].
  intros t Hin. cbn in Hin. apply list_elem_of_filter in Hin. tauto.
Qed.

Lemma retired_cancelAll h s : retired h s -> retired h (cancelAll s).
Proof.
  apply retired_shrink; [apply cancelAll_fields|].
  intros t Hin. unfold cancelAll in Hin.
  destruct (fold_drop_spec (map_to_list (closeTimers s)) s) as (_ & Ht & _).
  apply Ht in Hin. tauto.
Qed.

(** A retired handle stays retired along every sequence of events. *)
Lemma runEvents_retired net h evs w s :
  retired h s -> retired h (runEvents conf net evs w s).2.
Proof.
  apply runEvents_keeps.
  - intros s1 s2. apply retired_sameTimers.
  - intros id s1. apply retired_cancelTimer.
  - intros id s1 H. apply retired_armTimer, retired_cancelTimer, H.
  - intros h' s1. apply retired_clearTimeout.
  - intros h' id s1 H _.
    apply (retired_clearTimeout h h') in H. exact H.
  - apply retired_cancelAll.
Qed.

(** A timeout that comes due on a retired handle runs nothing. *)
Lemma fireTimer_retired net h w s :
  retired h s -> run net (fireTimer conf h) w s = (w, s, Ok tt).
Proof.
  intros [_ Hnot]. unfold fireTimer. cbn [run].
  rewrite (pendingTask_None h (timers s) Hnot). reflexivity.
Qed.

Lemma assoc_elem {V : Type} (l : list (string * V)) (k : string) (v : V) :
  assoc k l = Some v -> (k, v) ∈ l.
Proof.
  induction l as [|[k0 v0] l IH]; cbn [assoc]; [discriminate|].
  destruct (bool_decide_reflect (k0 = k)) as [->|Hne].
  - intros [= ->]. left.
  - intros H. right. apply IH, H.
Qed.

Lemma pendingFor_armTimer id s :
  pendingFor id (armTimer id s) = pendingFor id s ++ [nextTimer s].
Proof.
  unfold pendingFor, armTimer. cbn [timers with_timers].
  rewrite filter_app, fmap_app. f_equal.
  rewrite filter_cons_True by reflexivity. reflexivity.
Qed.

Lemma nextTimer_cancelTimer id s : nextTimer (cancelTimer id s) = nextTimer s.
Proof. unfold cancelTimer. destruct (closeTimers s !! id); reflexivity. Qed.

(** The handle a completed close armed is retired by the next action on
    the barrier. *)
Lemma retired_after_cancel id h s :
  closeTimers s !! id = Some h -> (h < nextTimer s)%nat ->
  retired h (cancelTimer id s).
Proof.
  intros Hid Hlt. unfold cancelTimer. rewrite Hid. split; [exact Hlt|].
  intros Hin. apply list_elem_of_fmap in Hin as (t & -> & Hin).
  apply elem_of_timers_drop in Hin as [_ Hne]. apply Hne. reflexivity.
Qed.

End RetiredFacts.

(** ** One auto-release timer per barrier *)

Section AutoReleaseClaims.

Import Buf Codec Async Server.
Local Open Scope Z_scope.

Implicit Types (net : nat -> list NetEvent) (s : State)
  (w : Trace State Request (list NetEvent)).

Lemma noTimer_tidBlind id :
  tidBlind (fun s => closeTimers s !! id = None /\ pendingFor id s = []).
Proof. intros key v s H. exact H. Qed.

(** Handlers run one after the other, each to its end, the timeout
    callbacks among them: along every sequence of events
    handled one after the other from start-up the timer bookkeeping stays
    consistent and no barrier has more than one auto-release timeout
    pending; every request of an action on a barrier is issued with that
    barrier's timeout cancelled and forgotten; and when a close and then
    a lift of one barrier both return normally, the close armed exactly
    one timeout, the last acknowledged writes leave lift on and close off,
    no timeout of the barrier is pending, and whatever is handled later,
    the handle the close armed runs nothing when it comes due: no
    request, no state change, hence no release event. *)
Theorem one_auto_release_timer conf net :
  wfConfig conf ->
  (forall evs id,
     let s := (runEvents conf net evs [] (initState conf)).2 in
     timersOk s /\ (length (pendingFor id s) <= 1)%nat) /\
  (forall id barrier action source w s,
     BARRIERS conf !! id = Some barrier -> timersOk s ->
     exists w1,
       (run net (latchBarrierAction conf id action source) w s).1.1
       = w ++ w1 /\
       Forall (fun x => closeTimers x.2 !! id = None /\
                        pendingFor id x.2 = []) w1) /\
  (forall id barrier source source' w s w1 s1 w2 s2,
     BARRIERS conf !! id = Some barrier -> wfBarrier barrier ->
     timersOk s ->
     run net (latchBarrierAction conf id "close" source) w s
     = (w1, s1, Ok tt) ->
     run net (latchBarrierAction conf id "lift" source') w1 s1
     = (w2, s2, Ok tt) ->
     pendingFor id s1 = [nextTimer s] /\
     coilImage (Barrier.board barrier) (Barrier.lift barrier) w2
     = Some true /\
     coilImage (Barrier.board barrier) (Barrier.close barrier) w2
     = Some false /\
     pendingFor id s2 = [] /\
     forall evs,
       let r := runEvents conf net evs w2 s2 in
       run net (fireTimer conf (nextTimer s)) r.1 r.2 = (r.1, r.2, Ok tt)).
Proof.
  intros Hwf. split; [|split].
  - intros evs id s.
    assert (timersOk s) as Hok
      by apply runEvents_timersOk, timersOk_initState.
    split; [exact Hok|apply timersOk_at_most_one, Hok].
  - intros id barrier action source w s Hbar Hok.
    apply (latchBarrierAction_entries conf _ net id action source w s barrier
             (noTimer_tidBlind id) Hbar).
    assert (timersOk (with_board (Barrier.board barrier)
                        (set_commandLock true) s)) as Hok'
      by (revert Hok; apply timersOk_sameTimers; reflexivity).
    destruct (timersOk_cancelTimer id _ Hok') as (_ & H1 & H2).
    split; assumption.
  - intros id barrier source source' w s w1 s1 w2 s2
      Hbar Hwb Hok Hclose Hlift.
    destruct Hwf as (Hboards & Hnd & Hon).
    destruct (Hon id barrier Hbar) as [cfg Hcfg].
    assert (0 <= BoardCfg.unitId cfg <= 255) as Hu.
    { rewrite Forall_forall in Hboards.
      apply (Hboards (Barrier.board barrier, cfg)), assoc_elem, Hcfg. }
    destruct (latchBarrierAction_ok conf net id "close" source w s w1 s1
                barrier cfg Hbar Hcfg Hu Hwb Hclose)
      as (t1 & -> & Hans1 & Hs1).
    destruct (latchBarrierAction_ok conf net id "lift" source' _ s1 w2 s2
                barrier cfg Hbar Hcfg Hu Hwb Hlift)
      as (t2 & -> & Hans2 & Hs2).
    change (timersAfter id "close" s) with (armTimer id (cancelTimer id s))
      in Hs1.
    change (timersAfter id "lift" s1) with (cancelTimer id s1) in Hs2.
    destruct (timersOk_cancelTimer id s Hok) as (Hok0 & _ & Hnone0).
    assert (timersOk s1) as Hok1.
    { apply (timersOk_sameTimers _ _ Hs1), timersOk_armTimer; assumption. }
    assert (pendingFor id s1 = [nextTimer s]) as Hp1.
    { rewrite (pendingFor_sameTimers id _ _ Hs1), pendingFor_armTimer,
        Hnone0, nextTimer_cancelTimer. reflexivity. }
    assert (closeTimers s1 !! id = Some (nextTimer s)
            /\ nextTimer s1 = S (nextTimer s)) as [Hct1 Hn1].
    { unfold sameTimers, timerPart in Hs1. injection Hs1 as -> _ ->.
      cbn [armTimer with_timers closeTimers nextTimer].
      rewrite lookup_insert_eq, nextTimer_cancelTimer. split; reflexivity. }
    assert (retired (nextTimer s) s2) as Hret.
    { apply (retired_sameTimers _ _ _ Hs2), retired_after_cancel;
        [exact Hct1|lia]. }
    destruct (timersOk_cancelTimer id s1 Hok1) as (_ & _ & Hnone1).
    unfold actionCalls in Hans1, Hans2. cbn [bool_decide] in Hans1, Hans2.
    destruct Hwb as (Hl & Hc & _ & Hlc & _).
    inversion Hans2 as [|y1 c1 t2' l2 [Hy1 Ha1] Hrest]; subst.
    inversion Hrest as [|y2 c2 t2'' l3 [Hy2 Ha2] Hrest']; subst.
    inversion Hrest'; subst. cbn [fst snd] in *.
    split; [exact Hp1|]. split; [|split; [|split]].
    + change [y1; y2] with ([y1] ++ [y2]). rewrite !app_assoc.
      rewrite coilImage_snoc, (writes_of_call _ _ _ _ _ Hy2 Ha2 Hl Hl).
      rewrite decide_True by reflexivity. reflexivity.
    + change [y1; y2] with ([y1] ++ [y2]). rewrite !app_assoc.
      rewrite coilImage_snoc, (writes_of_call _ _ _ _ _ Hy2 Ha2 Hc Hl).
      rewrite decide_False by exact Hlc.
      rewrite coilImage_snoc, (writes_of_call _ _ _ _ _ Hy1 Ha1 Hc Hc).
      rewrite decide_True by reflexivity. reflexivity.
    + rewrite (pendingFor_sameTimers id _ _ Hs2). exact Hnone1.
    + intros evs. cbv zeta. apply fireTimer_retired, runEvents_retired, Hret.
Qed.

End AutoReleaseClaims.

Section AutoReleaseExamples.

Import Buf Codec Async Server.
Local Open Scope Z_scope.

Lemma timersOk_onlineState : timersOk onlineState.
Proof.
  split; [|split].
  - intros h id Hin. inversion Hin.
  - constructor.
  - intros t Hin. inversion Hin.
Qed.

(** Barrier 1 of the default registry, both boards online and every
    write acknowledged: close arms handle 0, lift cancels it, and the
    timeout coming due afterwards, once and again after a heartbeat,
    changes nothing. *)
Lemma one_auto_release_timer_witness :
  let X := run ackNet (latchBarrierAction defaultConfig 1 "close" "api") []
               onlineState in
  let Y := run ackNet (latchBarrierAction defaultConfig 1 "lift" "api")
               X.1.1 X.1.2 in
  wfConfig defaultConfig /\
  pendingFor 1 X.1.2 = [0%nat] /\
  coilImage "board1" 0 Y.1.1 = Some true /\
  coilImage "board1" 1 Y.1.1 = Some false /\
  pendingFor 1 Y.1.2 = [] /\
  (let r := runEvents defaultConfig ackNet [TimerDue 0; Beat "board1"]
              Y.1.1 Y.1.2 in
   run ackNet (fireTimer defaultConfig 0) r.1 r.2 = (r.1, r.2, Ok tt)).
Proof.
  intros X Y.
  assert (BARRIERS defaultConfig !! 1
          = Some {| Barrier.board := "board1"; Barrier.lift := 0;
                    Barrier.close := 1; Barrier.stop := 2;
                    Barrier.name := "Barrier 1" |}) as Hbar
    by (vm_compute; reflexivity).
  assert (wfBarrier {| Barrier.board := "board1"; Barrier.lift := 0;
                       Barrier.close := 1; Barrier.stop := 2;
                       Barrier.name := "Barrier 1" |}) as Hwb
    by (unfold wfBarrier; cbn; lia).
  assert (X = (X.1.1, X.1.2, Ok tt)) as HX by (vm_compute; reflexivity).
  assert (Y = (Y.1.1, Y.1.2, Ok tt)) as HY by (vm_compute; reflexivity).
  destruct (one_auto_release_timer defaultConfig ackNet wfConfig_default)
    as (_ & _ & H).
  destruct (H 1 _ "api" "api" [] onlineState X.1.1 X.1.2 Y.1.1 Y.1.2
              Hbar Hwb timersOk_onlineState HX HY)
    as (H1 & H2 & H3 & H4 & H5).
  assert (nextTimer onlineState = 0%nat) as Hn by (vm_compute; reflexivity).
  rewrite Hn in H1. specialize (H5 [TimerDue 0; Beat "board1"]).
  rewrite Hn in H5.
  split; [exact wfConfig_default|].
  split; [exact H1|]. split; [exact H2|]. split; [exact H3|].
  split; [exact H4|]. exact H5.
Defined.

(** Overlapping handlers: two close requests for barrier 1 both get past
    the cancellation before either has armed its timeout: both handles
    stay pending although [closeTimers] remembers only the second. The
    lift that follows cancels that one; the first comes due and
    releases. *)
Lemma overlapping_closes_leave_two_timers :
  pendingFor 1 (now (interleave overlappingCloses onlineState))
  = [0%nat; 1%nat] /\
  closeTimers (now (interleave overlappingCloses onlineState)) !! 1
  = Some 1%nat /\
  (let r := runEvents defaultConfig ackNet
              [Action 1 "lift" "api"; TimerDue 0%nat] []
              (now (interleave overlappingCloses onlineState)) in
   map logical r.1
   = [("board1", x05, coilData 1 false); ("board1", x05, coilData 0 true);
      ("board1", x05, coilData 1 false)] /\
   action <$> last (auditEntries r.2)
   = Some "close_auto_release").
Proof. vm_compute. repeat split; reflexivity. Qed.

(** C4 (where the code misses it): the callback of the first timeout
    clears the record of the barrier when its write has returned, and by
    then the record holds the timeout of the second close. That timeout
    stays pending with no record of it; the lift finds nothing to cancel;
    the timeout fires after the lift, writes the close coil once more and
    a second [close_auto_release] is audited. *)
Lemma stale_release_fires_after_lift :
  let recorded := now (interleave (take 7 staleRelease) onlineState) in
  let cleared := now (interleave (take 8 staleRelease) onlineState) in
  let lifted := now (interleave (take 11 staleRelease) onlineState) in
  let lp := interleave staleRelease onlineState in
  (pendingFor 1 recorded, closeTimers recorded !! 1)
  = ([1%nat], Some 1%nat) /\
  (pendingFor 1 cleared, closeTimers cleared !! 1) = ([1%nat], None) /\
  (pendingFor 1 lifted, closeTimers lifted !! 1) = ([1%nat], None) /\
  map issuedView (issued lp)
  = [("A", ("board1", x05, coilData 0 false), Some true);
     ("A", ("board1", x05, coilData 1 true), Some true);
     ("T", ("board1", x05, coilData 1 false), Some false);
     ("B", ("board1", x05, coilData 0 false), Some true);
     ("B", ("board1", x05, coilData 1 true), Some true);
     ("C", ("board1", x05, coilData 1 false), Some true);
     ("C", ("board1", x05, coilData 0 true), Some true);
     ("U", ("board1", x05, coilData 1 false), Some false)] /\
  action <$> auditEntries (now lp)
  = ["barrier_close"; "barrier_close"; "close_auto_release";
     "barrier_lift"; "close_auto_release"].
Proof. vm_compute. repeat split; reflexivity. Qed.

End AutoReleaseExamples.

(** ** The gate flag of a board *)

Section SuspensionFacts.

Import Async.
Context {St Req Ans E : Type}.

(** A run is its first leg up to the suspension point, then the run of
    what is resumed with the answer. *)
Lemma run_advance {A : Type} (net : nat -> Ans)
    (m : Async St Req Ans E A) w s :
  run net m w s
  = match advance m s with
    | (s', Done r) => (w, s', r)
    | (s', Blocked r k) =>
        run net (k (net (length w))) (w ++ [(r, net (length w), s')]) s'
    end.
Proof.
  revert w s. induction m as [a|e|k IH|s' k IH|r k IH]; intros w s;
    cbn [run advance]; auto.
Qed.

(** The first exchange of a run is where the task first suspends. *)
Lemma first_suspension {A : Type} (net : nat -> Ans)
    (m : Async St Req Ans E A) w s x rest :
  (run net m w s).1.1 = w ++ x :: rest ->
  exists k, advance m s = (x.2, Blocked x.1.1 k).
Proof.
  rewrite run_advance. destruct (advance m s) as [s' [r|r k]].
  - cbn [fst]. intros H. exfalso.
    apply (f_equal length) in H. rewrite length_app in H. cbn in H. lia.
  - destruct (run_trace_extends net (k (net (length w)))
                (w ++ [(r, net (length w), s')]) s') as [t Ht].
    rewrite Ht, <- app_assoc. intros H. apply app_inv_head in H.
    injection H as <- _. exists k. reflexivity.
Qed.

Lemma run_bind_first {A B : Type} (net : nat -> Ans)
    (m : Async St Req Ans E A) (f : A -> Async St Req Ans E B) w s x rest :
  (run net m w s).1.1 = w ++ x :: rest ->
  exists rest', (run net (bind m f) w s).1.1 = w ++ x :: rest'.
Proof.
  intros H. rewrite run_bind.
  destruct (run net m w s) as [[w1 s1] [a|e]]; cbn [fst] in H; subst w1.
  - destruct (run_trace_extends net (f a) (w ++ x :: rest) s1) as [t Ht].
    rewrite Ht, <- app_assoc. eauto.
  - eauto.
Qed.

End SuspensionFacts.

(** ** Tasks between the turns of others *)

Section TurnFacts.

Import Async.

Context {St Req Ans E : Type}.
Implicit Types (s : St).

Lemma steps_handle (R : St -> St -> Prop) {A B : Type}
    (m : Async St Req Ans E A) (ok : A -> Async St Req Ans E B)
    (err : E -> Async St Req Ans E B) s :
  steps R m s -> (forall a, stepwise R (ok a)) ->
  (forall e, stepwise R (err e)) -> steps R (handle m ok err) s.
Proof.
  intros Hm Hok Herr. revert s Hm.
  induction m as [a|e|k IH|s' k IH|r k IH]; intros s Hm; cbn [handle steps] in *.
  - apply Hok.
  - apply Herr.
  - apply IH, Hm.
  - destruct Hm as [Hr Hm]. split; [exact Hr|apply IH, Hm].
  - intros a s'. apply IH, Hm.
Qed.

Lemma stepwise_handle (R : St -> St -> Prop) {A B : Type}
    (m : Async St Req Ans E A) (ok : A -> Async St Req Ans E B)
    (err : E -> Async St Req Ans E B) :
  stepwise R m -> (forall a, stepwise R (ok a)) ->
  (forall e, stepwise R (err e)) -> stepwise R (handle m ok err).
Proof. intros Hm Hok Herr s. apply steps_handle; auto. Qed.

Lemma stepwise_Ret (R : St -> St -> Prop) {A : Type} (a : A) :
  stepwise R (Ret a : Async St Req Ans E A).
Proof. intros s. exact I. Qed.

Lemma stepwise_Throw (R : St -> St -> Prop) {A : Type} (e : E) :
  stepwise R (Throw e : Async St Req Ans E A).
Proof. intros s. exact I. Qed.

Lemma stepwise_Get (R : St -> St -> Prop) {A : Type}
    (k : St -> Async St Req Ans E A) :
  (forall s, stepwise R (k s)) -> stepwise R (Get k).
Proof. intros H s. apply H. Qed.

Lemma stepwise_Await (R : St -> St -> Prop) {A : Type} (r : Req)
    (k : Ans -> Async St Req Ans E A) :
  (forall a, stepwise R (k a)) -> stepwise R (Await r k).
Proof. intros H s a s'. apply H. Qed.

Lemma stepwise_Put (R : St -> St -> Prop) {A : Type} (s' : St)
    (k : Async St Req Ans E A) :
  (forall s, R s s') -> stepwise R k -> stepwise R (Put s' k).
Proof. intros H Hk s. split; [apply H|apply Hk]. Qed.

Lemma stepwise_modify (R : St -> St -> Prop) (f : St -> St) :
  (forall s, R s (f s)) ->
  stepwise R (modify f : Async St Req Ans E unit).
Proof. intros H s. split; [apply H|exact I]. Qed.

Lemma stepwise_bind (R : St -> St -> Prop) {A B : Type}
    (m : Async St Req Ans E A) (f : A -> Async St Req Ans E B) :
  stepwise R m -> (forall a, stepwise R (f a)) -> stepwise R (bind m f).
Proof.
  intros Hm Hf. apply stepwise_handle; [exact Hm|exact Hf|].
  intros e. apply stepwise_Throw.
Qed.

Lemma stepwise_tryCatch (R : St -> St -> Prop) {A : Type}
    (m : Async St Req Ans E A) (h : E -> Async St Req Ans E A) :
  stepwise R m -> (forall e, stepwise R (h e)) -> stepwise R (tryCatch m h).
Proof.
  intros Hm Hh. apply stepwise_handle; [exact Hm| |exact Hh].
  intros a. apply stepwise_Ret.
Qed.

Lemma stepwise_tryFinally (R : St -> St -> Prop) {A : Type}
    (m : Async St Req Ans E A) (fin : Async St Req Ans E unit) :
  stepwise R m -> stepwise R fin -> stepwise R (tryFinally m fin).
Proof.
  intros Hm Hf. apply stepwise_handle; [exact Hm| |].
  - intros a. apply stepwise_bind; [exact Hf|].
    intros _. apply stepwise_Ret.
  - intros e. apply stepwise_bind; [exact Hf|].
    intros _. apply stepwise_Throw.
Qed.

(** A turn of a task that changes the state along [R]. *)
Lemma advance_steps (R : St -> St -> Prop) {A : Type}
    (m : Async St Req Ans E A) s :
  (forall s0, R s0 s0) -> (forall s1 s2 s3, R s1 s2 -> R s2 s3 -> R s1 s3) ->
  steps R m s ->
  R s (advance m s).1 /\
  match (advance m s).2 with
  | Blocked _ k => forall a, stepwise R (k a)
  | Done _ => True
  end.
Proof.
  intros Hrefl Htrans. revert s.
  induction m as [a|e|k IH|s' k IH|r k IH]; intros s Hm;
    cbn [advance steps fst snd] in *.
  - split; [apply Hrefl|exact I].
  - split; [apply Hrefl|exact I].
  - apply IH, Hm.
  - destruct Hm as [Hr Hm]. destruct (IH s' Hm) as [H1 H2].
    split; [eapply Htrans; eassumption|exact H2].
  - split; [apply Hrefl|]. intros a s'. apply Hm.
Qed.

Lemma holds_mono (I : St -> Prop) {A : Type}
    (Q Q' : Result E A -> St -> Prop) (m : Async St Req Ans E A) s :
  (forall r s', Q r s' -> Q' r s') -> holds I Q m s -> holds I Q' m s.
Proof.
  intros HQ. revert s.
  induction m as [a|e|k IH|s' k IH|r k IH]; intros s Hm; cbn [holds] in *.
  - apply HQ, Hm.
  - apply HQ, Hm.
  - apply IH, Hm.
  - apply IH, Hm.
  - destruct Hm as [Hi Hm]. split; [exact Hi|].
    intros a s' Hs'. apply IH, Hm, Hs'.
Qed.

Lemma holds_handle (I : St -> Prop) {A B : Type}
    (Q : Result E B -> St -> Prop) (m : Async St Req Ans E A)
    (ok : A -> Async St Req Ans E B) (err : E -> Async St Req Ans E B) s :
  holds I (fun r s' => match r with
                       | Ok a => holds I Q (ok a) s'
                       | Error e => holds I Q (err e) s'
                       end) m s ->
  holds I Q (handle m ok err) s.
Proof.
  revert s.
  induction m as [a|e|k IH|s' k IH|r k IH]; intros s Hm;
    cbn [handle holds] in *.
  - exact Hm.
  - exact Hm.
  - apply IH, Hm.
  - apply IH, Hm.
  - destruct Hm as [Hi Hm]. split; [exact Hi|].
    intros a s' Hs'. apply IH, Hm, Hs'.
Qed.

Lemma keeps_handle (I : St -> Prop) {A B : Type}
    (m : Async St Req Ans E A) (ok : A -> Async St Req Ans E B)
    (err : E -> Async St Req Ans E B) :
  keeps I m -> (forall a, keeps I (ok a)) -> (forall e, keeps I (err e)) ->
  keeps I (handle m ok err).
Proof.
  intros Hm Hok Herr s Hs. apply holds_handle.
  eapply holds_mono; [|apply Hm, Hs].
  intros [a|e] s' Hs'; [apply Hok|apply Herr]; exact Hs'.
Qed.

Lemma keeps_Ret (I : St -> Prop) {A : Type} (a : A) :
  keeps I (Ret a : Async St Req Ans E A).
Proof. intros s Hs. exact Hs. Qed.

Lemma keeps_Throw (I : St -> Prop) {A : Type} (e : E) :
  keeps I (Throw e : Async St Req Ans E A).
Proof. intros s Hs. exact Hs. Qed.

Lemma keeps_Get (I : St -> Prop) {A : Type}
    (k : St -> Async St Req Ans E A) :
  (forall s, keeps I (k s)) -> keeps I (Get k).
Proof. intros H s Hs. apply H, Hs. Qed.

Lemma keeps_Await (I : St -> Prop) {A : Type} (r : Req)
    (k : Ans -> Async St Req Ans E A) :
  (forall a, keeps I (k a)) -> keeps I (Await r k).
Proof. intros H s Hs. split; [exact Hs|]. intros a s' Hs'. apply H, Hs'. Qed.

Lemma keeps_modify (I : St -> Prop) (f : St -> St) :
  (forall s, I s -> I (f s)) ->
  keeps I (modify f : Async St Req Ans E unit).
Proof. intros H s Hs. apply H, Hs. Qed.

Lemma keeps_bind (I : St -> Prop) {A B : Type}
    (m : Async St Req Ans E A) (f : A -> Async St Req Ans E B) :
  keeps I m -> (forall a, keeps I (f a)) -> keeps I (bind m f).
Proof.
  intros Hm Hf. apply keeps_handle; [exact Hm|exact Hf|].
  intros e. apply keeps_Throw.
Qed.

Lemma holds_bind_Ret (I : St -> Prop) {A B : Type}
    (Q : Result E B -> St -> Prop) (a : A)
    (f : A -> Async St Req Ans E B) s :
  holds I Q (bind (Ret a) f) s = holds I Q (f a) s.
Proof. reflexivity. Qed.

Lemma holds_bind_modify (I : St -> Prop) {B : Type}
    (Q : Result E B -> St -> Prop) (g : St -> St)
    (f : unit -> Async St Req Ans E B) s :
  holds I Q (bind (modify g) f) s = holds I Q (f tt) (g s).
Proof. reflexivity. Qed.

(** A task that changes the state along a relation that keeps [I], keeps
    [I]. *)
Lemma stepwise_keeps (R : St -> St -> Prop) (I : St -> Prop) {A : Type}
    (m : Async St Req Ans E A) :
  (forall s s', R s s' -> I s -> I s') -> stepwise R m -> keeps I m.
Proof.
  intros HR Hm s Hs. specialize (Hm s). revert s Hm Hs.
  induction m as [a|e|k IH|s' k IH|r k IH]; intros s Hm Hs;
    cbn [steps holds] in *.
  - exact Hs.
  - exact Hs.
  - apply IH; assumption.
  - destruct Hm as [Hr Hm]. apply IH; [exact Hm|]. exact (HR _ _ Hr Hs).
  - split; [exact Hs|]. intros a s' Hs'. apply IH; [apply Hm|exact Hs'].
Qed.

(** A turn of a task that suspends in states with [I]. *)
Lemma advance_holds (I : St -> Prop) {A : Type}
    (Q : Result E A -> St -> Prop) (m : Async St Req Ans E A) s :
  holds I Q m s ->
  match advance m s with
  | (s', Done r) => Q r s'
  | (s', Blocked _ k) => I s' /\ forall a s'', I s'' -> holds I Q (k a) s''
  end.
Proof.
  revert s.
  induction m as [a|e|k IH|s' k IH|r k IH]; intros s Hm;
    cbn [advance holds] in *.
  - exact Hm.
  - exact Hm.
  - apply IH, Hm.
  - apply IH, Hm.
  - exact Hm.
Qed.

End TurnFacts.

Section LoopFacts.

Import Async.

Context {St Req Ans E L : Type} `{EqDecision L}.
Implicit Types (lp : Loop St Req Ans E L) (s : St)
  (p : list (L * (Ans -> Async St Req Ans E unit))).

Lemma foldl_schedStep_app (evs evs' : list (Sched St Req Ans E L)) lp :
  foldl schedStep lp (evs ++ evs') = foldl schedStep (foldl schedStep lp evs) evs'.
Proof. apply foldl_app. Qed.

(** The task [takeTask] takes is the first of its label. *)
Lemma takeTask_Some (l : L) p k rest :
  takeTask l p = Some (k, rest) ->
  (l, k) ∈ p /\ (forall x, x ∈ rest -> x ∈ p) /\
  forall l', filter (fun lk => lk.1 = l') p
             = if decide (l = l')
               then (l, k) :: filter (fun lk => lk.1 = l') rest
               else filter (fun lk => lk.1 = l') rest.
Proof.
  revert k rest. induction p as [|[l0 k0] p IH]; intros k rest; cbn [takeTask];
    [discriminate|].
  destruct (decide (l0 = l)) as [->|Hne].
  - intros [= <- <-]. split; [left|]. split; [intros x Hx; right; exact Hx|].
    intros l'. destruct (decide (l = l')) as [->|Hn].
    + rewrite filter_cons_True by reflexivity. reflexivity.
    + rewrite filter_cons_False by exact Hn. reflexivity.
  - destruct (takeTask l p) as [[k1 rest1]|] eqn:Et; [|discriminate].
    intros [= <- <-]. destruct (IH k1 rest1 eq_refl) as (H1 & H2 & H3).
    split; [right; exact H1|]. split.
    + intros x Hx. apply elem_of_cons in Hx as [->|Hx]; [left|right; auto].
    + intros l'. specialize (H3 l').
      destruct (decide (l0 = l')) as [->|Hn0].
      * rewrite !filter_cons_True by reflexivity. rewrite H3.
        destruct (decide (l = l')); [congruence|reflexivity].
      * rewrite !filter_cons_False by exact Hn0. exact H3.
Qed.

Section Watched.

Variables (R : St -> St -> Prop) (I Q : St -> Prop) (l : L).
Hypothesis R_refl : forall s, R s s.
Hypothesis R_trans : forall s1 s2 s3, R s1 s2 -> R s2 s3 -> R s1 s3.
Hypothesis R_I : forall s s', R s s' -> I s -> I s'.
Hypothesis R_Q : forall s s', R s s' -> Q s -> Q s'.

Lemma watching_issued lp l' r s :
  (l' = l -> I s) ->
  Forall (fun x => x.1.1 = l -> I x.2) (issued lp) ->
  Forall (fun x => x.1.1 = l -> I x.2) (issued lp ++ [(l', r, s)]).
Proof.
  intros H Hall. apply Forall_app. split; [exact Hall|].
  apply Forall_cons. split; [exact H|constructor].
Qed.

(** A turn of a task other than the watched one. *)
Lemma watching_other lp l' (m : Async St Req Ans E unit) :
  l' <> l -> steps R m (now lp) -> watching R I Q l lp ->
  watching R I Q l (resume l' m lp).
Proof.
  intros Hne Hm (Hiss & Hpool & Hw). unfold resume.
  destruct (advance_steps R m (now lp) R_refl R_trans Hm) as [Hr Hk].
  destruct (advance m (now lp)) as [s' [r|r k]]; cbn [fst snd] in Hr, Hk.
  - split; [exact Hiss|]. split; [exact Hpool|].
    unfold waiting in *. cbn [pool now].
    destruct (filter _ (pool lp)) as [|[l0 k0] [|]]; [eauto| |exact Hw].
    destruct Hw as [Hw1 Hw2]. eauto.
  - split; [apply watching_issued; [congruence|exact Hiss]|]. split.
    + cbn [pool]. apply Forall_app. split; [exact Hpool|].
      apply Forall_cons. split; [intros _; exact Hk|constructor].
    + unfold waiting in *. cbn [pool now].
      rewrite filter_app, filter_cons_False, filter_nil, app_nil_r
        by exact Hne.
      destruct (filter _ (pool lp)) as [|[l0 k0] [|]]; [eauto| |exact Hw].
      destruct Hw as [Hw1 Hw2]. eauto.
Qed.

(** A turn of the watched task. *)
Lemma watching_mine lp (m : Async St Req Ans E unit) :
  Forall (fun x => x.1.1 = l -> I x.2) (issued lp) ->
  Forall (fun lk => lk.1 <> l -> forall a, stepwise R (lk.2 a)) (pool lp) ->
  waiting l lp = [] ->
  holds I (fun _ s' => Q s') m (now lp) ->
  watching R I Q l (resume l m lp).
Proof.
  intros Hiss Hpool Hw Hm. unfold resume.
  pose proof (advance_holds I _ m (now lp) Hm) as Ha.
  destruct (advance m (now lp)) as [s' [r|r k]].
  - split; [exact Hiss|]. split; [exact Hpool|].
    unfold waiting in *. cbn [pool now]. rewrite Hw. exact Ha.
  - destruct Ha as [Hi Hk].
    split; [apply watching_issued; [intros _; exact Hi|exact Hiss]|]. split.
    + cbn [pool]. apply Forall_app. split; [exact Hpool|].
      apply Forall_cons. split; [intros Hn; cbn in Hn; congruence|constructor].
    + unfold waiting in *. cbn [pool now].
      rewrite filter_app, Hw, filter_cons_True, filter_nil by reflexivity.
      cbn [app]. split; [exact Hk|exact Hi].
Qed.

Lemma watching_step lp ev :
  aside R l ev -> watching R I Q l lp -> watching R I Q l (schedStep lp ev).
Proof.
  intros Hev Hlp. destruct ev as [l' m|l' a]; cbn [schedStep aside] in *.
  - destruct Hev as [Hne Hm]. apply watching_other; [exact Hne|apply Hm|exact Hlp].
  - destruct (takeTask l' (pool lp)) as [[k rest]|] eqn:Et; [|exact Hlp].
    destruct (takeTask_Some l' (pool lp) k rest Et) as (Hin & Hsub & Hf).
    destruct Hlp as (Hiss & Hpool & Hw). specialize (Hf l).
    assert (Forall (fun lk => lk.1 <> l -> forall a, stepwise R (lk.2 a)) rest)
      as Hrest.
    { rewrite Forall_forall in Hpool |- *. intros x Hx. apply Hpool, Hsub, Hx. }
    unfold waiting in Hw. rewrite Hf in Hw.
    destruct (decide (l' = l)) as [->|Hne].
    + destruct (filter (fun lk => lk.1 = l) rest) as [|x xs] eqn:Hr;
        [|destruct Hw].
      destruct Hw as [Hk Hi].
      apply watching_mine; [exact Hiss|exact Hrest|exact Hr|].
      apply Hk, Hi.
    + apply watching_other; [exact Hne| |].
      * rewrite Forall_forall in Hpool. apply (Hpool _ Hin). exact Hne.
      * split; [exact Hiss|]. split; [exact Hrest|exact Hw].
Qed.

Lemma watching_steps evs lp :
  Forall (aside R l) evs -> watching R I Q l lp ->
  watching R I Q l (foldl schedStep lp evs).
Proof.
  revert lp. induction evs as [|ev evs IH]; intros lp Hevs Hlp; [exact Hlp|].
  apply Forall_cons in Hevs as [Hev Hevs]. cbn [foldl].
  apply IH; [exact Hevs|]. apply watching_step; assumption.
Qed.

End Watched.

End LoopFacts.

(** One syntax-directed step towards [stepwise R m]. *)
Ltac stepwise_step :=
  lazymatch goal with
  | |- Async.stepwise _ (Async.bind _ _) => apply stepwise_bind
  | |- Async.stepwise _ (Async.tryFinally _ _) => apply stepwise_tryFinally
  | |- Async.stepwise _ (Async.tryCatch _ _) => apply stepwise_tryCatch
  | |- Async.stepwise _ (Async.handle _ _ _) => apply stepwise_handle
  | |- Async.stepwise _ (Async.Ret _) => apply stepwise_Ret
  | |- Async.stepwise _ (Async.Throw _) => apply stepwise_Throw
  | |- Async.stepwise _ (Async.Get _) => apply stepwise_Get
  | |- Async.stepwise _ (Async.Await _ _) => apply stepwise_Await
  | |- Async.stepwise _ (Async.modify _) => apply stepwise_modify
  | |- Async.stepwise _ (if ?c then _ else _) => destruct c
  | |- Async.stepwise _ (Server.fromOption ?o _) =>
      destruct o; cbn [Server.fromOption]
  | |- Async.stepwise _ (Server.ofResult ?o) =>
      destruct o; cbn [Server.ofResult]
  | |- Async.stepwise _ (match ?o with _ => _ end) => destruct o
  | |- Async.stepwise _ (let _ := _ in _) => cbv zeta
  | |- forall _, _ => intro
  end.

(** One syntax-directed step towards [keeps I m]. *)
Ltac keeps_step :=
  lazymatch goal with
  | |- Async.keeps _ (Async.bind _ _) => apply keeps_bind
  | |- Async.keeps _ (Async.handle _ _ _) => apply keeps_handle
  | |- Async.keeps _ (Async.Ret _) => apply keeps_Ret
  | |- Async.keeps _ (Async.Throw _) => apply keeps_Throw
  | |- Async.keeps _ (Async.Get _) => apply keeps_Get
  | |- Async.keeps _ (Async.Await _ _) => apply keeps_Await
  | |- Async.keeps _ (Async.modify _) => apply keeps_modify
  | |- Async.keeps _ (if ?c then _ else _) => destruct c
  | |- Async.keeps _ (Server.fromOption ?o _) =>
      destruct o; cbn [Server.fromOption]
  | |- Async.keeps _ (Server.ofResult ?o) =>
      destruct o; cbn [Server.ofResult]
  | |- Async.keeps _ (match ?o with _ => _ end) => destruct o
  | |- Async.keeps _ (let _ := _ in _) => cbv zeta
  | |- forall _, _ => intro
  end.

Section GateFacts.

Import Buf Codec Async Server.
Local Open Scope Z_scope.

Variable conf : Config.
Implicit Types (net : nat -> list NetEvent) (s : State)
  (w : Trace State Request (list NetEvent)).

Lemma gateHeld_tidBlind key :
  tidBlind (fun s => commandLock <$> boardState s !! key = Some true).
Proof.
  intros k v s H. rewrite boardState_with_board.
  destruct (decide (k = key)) as [->|]; [|exact H].
  destruct (boardState s !! key); [exact H|discriminate H].
Qed.

Lemma writeCoil_first net key addr value w s cfg :
  assoc key (BOARDS conf) = Some cfg ->
  0 <= BoardCfg.unitId cfg <= 255 ->
  is_Some (boardState s !! key) ->
  0 <= addr <= 65535 ->
  exists x,
    (run net (writeCoil conf key addr value) w s).1.1 = w ++ [x] /\
    logical x = (key, x05, coilData addr value).
Proof.
  intros Hc Hu Hb Ha.
  destruct (run net (writeCoil conf key addr value) w s) as [[w1 s1] r]
    eqn:E.
  destruct (run_writeCoil_inv conf net key addr value w s w1 s1 r cfg
              Hc Hu Hb Ha E) as (x & -> & Hx & _).
  eauto.
Qed.

(** The first request of a [try] block is the first write of the action. *)
Lemma actionWrites_first net id barrier action w s cfg c cs :
  assoc (Barrier.board barrier) (BOARDS conf) = Some cfg ->
  0 <= BoardCfg.unitId cfg <= 255 ->
  is_Some (boardState s !! Barrier.board barrier) ->
  wfBarrier barrier ->
  actionCalls barrier action = c :: cs ->
  exists x rest,
    (run net (actionWrites conf id barrier action) w s).1.1
    = w ++ x :: rest /\
    logical x = (Barrier.board barrier, x05, coilData c.1 c.2).
Proof.
  intros Hc Hu Hb (Hl & Hcl & _) Hcalls.
  rewrite <- (boardState_cancelTimer id s) in Hb.
  unfold actionWrites, actionCalls, cancelCloseTimer in *.
  destruct (bool_decide (action = "lift")).
  { injection Hcalls as <- _. rewrite run_bind_modify.
    destruct (writeCoil_first net _ (Barrier.close barrier) false w _ cfg
                Hc Hu Hb Hcl) as (x & Hx & Hlog).
    destruct (run_bind_first net _
                (fun _ => writeCoil conf (Barrier.board barrier)
                            (Barrier.lift barrier) true) w _ x [] Hx)
      as [rest Hrest].
    eauto. }
  destruct (bool_decide (action = "close")).
  { injection Hcalls as <- _. rewrite run_bind_modify.
    destruct (writeCoil_first net _ (Barrier.lift barrier) false w _ cfg
                Hc Hu Hb Hl) as (x & Hx & Hlog).
    match goal with
    | |- context [run net (bind _ ?f) _ _] =>
        destruct (run_bind_first net _ f w _ x [] Hx) as [rest Hrest]
    end.
    eauto. }
  destruct (bool_decide (action = "stop")); [|discriminate Hcalls].
  injection Hcalls as <- _. rewrite run_bind_modify.
  destruct (writeCoil_first net _ (Barrier.lift barrier) false w _ cfg
              Hc Hu Hb Hl) as (x & Hx & Hlog).
  match goal with
  | |- context [run net (bind _ ?f) _ _] =>
      destruct (run_bind_first net _ f w _ x [] Hx) as [rest Hrest]
  end.
  eauto.
Qed.

Lemma latchBarrierAction_first net id action source w s barrier cfg b c cs :
  BARRIERS conf !! id = Some barrier ->
  assoc (Barrier.board barrier) (BOARDS conf) = Some cfg ->
  0 <= BoardCfg.unitId cfg <= 255 ->
  wfBarrier barrier ->
  boardState s !! Barrier.board barrier = Some b ->
  reachable b = true ->
  actionCalls barrier action = c :: cs ->
  exists x rest,
    (run net (latchBarrierAction conf id action source) w s).1.1
    = w ++ x :: rest /\
    logical x = (Barrier.board barrier, x05, coilData c.1 c.2).
Proof.
  intros Hbar Hc Hu Hwf Hb Hr Hcalls.
  unfold latchBarrierAction. rewrite run_bind, run_fromOption, Hbar.
  rewrite run_bind, run_getBoard_cases, Hb, run_bind, Hr. cbn [run].
  rewrite run_bind, run_setBoard, run_bind.
  unfold setBoard. rewrite run_tryFinally_modify.
  set (s1 := with_board (Barrier.board barrier) (set_commandLock true) s).
  assert (is_Some (boardState s1 !! Barrier.board barrier)) as Hb1.
  { unfold s1. rewrite boardState_with_board_eq, Hb. eauto. }
  destruct (actionWrites_first net id barrier action w s1 cfg c cs
              Hc Hu Hb1 Hwf Hcalls) as (x & rest & Hx & Hlog).
  destruct (run net (actionWrites conf id barrier action) w s1)
    as [[wb sb] [[]|e]]; cbn [fst snd] in Hx; subst wb;
    [rewrite run_audit|]; cbn [fst snd]; eauto.
Qed.

(** The requests of an action all go out with the gate flag of the
    barrier's board up. *)
Lemma latchBarrierAction_gateHeld net id action source w s barrier :
  BARRIERS conf !! id = Some barrier ->
  exists w1,
    (run net (latchBarrierAction conf id action source) w s).1.1 = w ++ w1 /\
    Forall (gateHeld (Barrier.board barrier)) w1.
Proof.
  intros Hbar.
  destruct (boardState s !! Barrier.board barrier) as [b|] eqn:Hb.
  - apply (latchBarrierAction_entries conf
             (fun s => commandLock <$> boardState s !! Barrier.board barrier
                       = Some true)
             net id action source w s barrier
             (gateHeld_tidBlind _) Hbar).
    rewrite boardState_cancelTimer, boardState_with_board_eq, Hb.
    reflexivity.
  - exists []. split; [|constructor]. rewrite app_nil_r.
    unfold latchBarrierAction. rewrite run_bind, run_fromOption, Hbar.
    rewrite run_bind, run_getBoard_cases, Hb. reflexivity.
Qed.

End GateFacts.

Section FlagFacts.

Import Buf Codec Async Server.
Local Open Scope Z_scope.

Variable conf : Config.
Variable key : string.
Implicit Types (s : State).

Lemma sameFlag_refl s : sameFlag key s s.
Proof. reflexivity. Qed.

Lemma sameFlag_trans s1 s2 s3 :
  sameFlag key s1 s2 -> sameFlag key s2 s3 -> sameFlag key s1 s3.
Proof. unfold sameFlag. congruence. Qed.

Lemma sameFlag_boards s s' :
  boardState s' = boardState s -> sameFlag key s s'.
Proof. intros H. unfold sameFlag, gateFlag. rewrite H. reflexivity. Qed.

(** A board record changed in another field, or another board's
    record. *)
Lemma sameFlag_with_board k f s :
  (k = key -> forall b, commandLock (f b) = commandLock b) ->
  sameFlag key s (with_board k f s).
Proof.
  intros H. unfold sameFlag, gateFlag. rewrite boardState_with_board.
  destruct (decide (k = key)) as [->|Hne]; [|reflexivity].
  destruct (boardState s !! key) as [b|]; [|reflexivity].
  cbn. rewrite (H eq_refl). reflexivity.
Qed.

Lemma setBoard_stepwise k f :
  (k = key -> forall b, commandLock (f b) = commandLock b) ->
  stepwise (sameFlag key) (setBoard k f).
Proof. intros H. apply stepwise_modify. intros s. apply sameFlag_with_board, H. Qed.

Lemma log_stepwise line : stepwise (sameFlag key) (log line).
Proof. apply stepwise_modify. intros s. apply sameFlag_boards. reflexivity. Qed.

Lemma audit_stepwise action details source :
  stepwise (sameFlag key) (audit action details source).
Proof.
  unfold audit. cbv zeta. apply stepwise_bind; [|intros _; apply log_stepwise].
  apply stepwise_modify. intros s. apply sameFlag_boards. reflexivity.
Qed.

Lemma boardCfg_stepwise k : stepwise (sameFlag key) (boardCfg conf k).
Proof. unfold boardCfg. repeat stepwise_step. Qed.

Lemma getBoard_stepwise k : stepwise (sameFlag key) (getBoard k).
Proof. unfold getBoard. repeat stepwise_step. Qed.

Lemma modbusRequest_stepwise k fc data :
  stepwise (sameFlag key) (modbusRequest conf k fc data).
Proof.
  unfold modbusRequest.
  repeat first
    [ apply boardCfg_stepwise | apply getBoard_stepwise
    | apply setBoard_stepwise; intros _ b; reflexivity
    | stepwise_step ].
Qed.

Lemma writeCoil_stepwise k addr value :
  stepwise (sameFlag key) (writeCoil conf k addr value).
Proof.
  unfold writeCoil. repeat first [ apply modbusRequest_stepwise | stepwise_step ].
Qed.

Lemma readCoils_stepwise k startAddr qty :
  stepwise (sameFlag key) (readCoils conf k startAddr qty).
Proof.
  unfold readCoils. repeat first [ apply modbusRequest_stepwise | stepwise_step ].
Qed.

Lemma autoDetectBoard_stepwise k :
  stepwise (sameFlag key) (autoDetectBoard conf k).
Proof.
  unfold autoDetectBoard.
  repeat first
    [ apply boardCfg_stepwise | apply getBoard_stepwise
    | apply modbusRequest_stepwise | apply log_stepwise
    | apply setBoard_stepwise; intros _ b; reflexivity
    | stepwise_step ].
Qed.

Lemma heartbeatBoard_stepwise k :
  stepwise (sameFlag key) (heartbeatBoard conf k).
Proof.
  unfold heartbeatBoard.
  repeat first
    [ apply boardCfg_stepwise | apply getBoard_stepwise
    | apply autoDetectBoard_stepwise | apply readCoils_stepwise
    | apply log_stepwise
    | apply setBoard_stepwise; intros _ b; reflexivity
    | stepwise_step ].
Qed.

Lemma closeAutoRelease_stepwise id :
  stepwise (sameFlag key) (closeAutoRelease conf id).
Proof.
  unfold closeAutoRelease.
  repeat first
    [ apply writeCoil_stepwise | apply audit_stepwise | apply log_stepwise
    | stepwise_step ].
  apply sameFlag_boards. reflexivity.
Qed.

Lemma fireTimer_stepwise h : stepwise (sameFlag key) (fireTimer conf h).
Proof.
  intros s. unfold fireTimer. cbn [steps].
  destruct (pendingTask h (timers s)) as [[id]|]; cbn [steps]; [|exact I].
  split; [apply sameFlag_boards; reflexivity|apply closeAutoRelease_stepwise].
Qed.

Lemma actionWrites_stepwise id barrier action :
  stepwise (sameFlag key) (actionWrites conf id barrier action).
Proof.
  unfold actionWrites, cancelCloseTimer, armCloseTimer.
  repeat first [ apply writeCoil_stepwise | stepwise_step ].
  all: apply sameFlag_boards;
    first [ apply boardState_cancelTimer | reflexivity ].
Qed.

(** An action on a barrier of another board. *)
Lemma latchBarrierAction_stepwise id action source :
  Barrier.board <$> BARRIERS conf !! id <> Some key ->
  stepwise (sameFlag key) (latchBarrierAction conf id action source).
Proof.
  intros Hne. unfold latchBarrierAction.
  destruct (BARRIERS conf !! id) as [barrier|];
    cbn [fromOption]; [|intros s; exact I].
  assert (Barrier.board barrier <> key) as Hk
    by (intros Heq; apply Hne; cbn; congruence).
  change (bind (Ret barrier) ?f) with (f barrier). cbv beta zeta.
  repeat first
    [ apply boardCfg_stepwise | apply getBoard_stepwise
    | apply actionWrites_stepwise | apply audit_stepwise
    | apply setBoard_stepwise; intros Heq; congruence
    | stepwise_step ].
Qed.

Lemma beside_stepwise (m : Prog unit) :
  beside conf key m -> stepwise (sameFlag key) m.
Proof.
  intros [k|h|id action source Hne].
  - apply heartbeatBoard_stepwise.
  - apply fireTimer_stepwise.
  - apply latchBarrierAction_stepwise, Hne.
Qed.

Lemma besides_aside l ev :
  besides conf key l ev -> aside (sameFlag key) l ev.
Proof.
  destruct ev as [l' m|l' a]; cbn; [|auto].
  intros [Hl Hm]. split; [exact Hl|apply beside_stepwise, Hm].
Qed.

Lemma sameFlag_up s s' :
  sameFlag key s s' -> gateFlag key s = Some true ->
  gateFlag key s' = Some true.
Proof. unfold sameFlag. congruence. Qed.

Lemma sameFlag_down s s' :
  sameFlag key s s' -> gateFlag key s = Some false ->
  gateFlag key s' = Some false.
Proof. unfold sameFlag. congruence. Qed.

End FlagFacts.

Section FlagHeld.

Import Buf Codec Async Server.
Local Open Scope Z_scope.

Variable conf : Config.
Implicit Types (s : State).

(** An action suspends with the flag of its board up, in whatever state
    it starts, as long as it finds the flag up when it is resumed; and
    when it has got past its checks, it ends with the flag down. *)
Lemma latchBarrierAction_holds id barrier action source s :
  BARRIERS conf !! id = Some barrier ->
  let key := Barrier.board barrier in
  holds (fun s' => gateFlag key s' = Some true)
        (fun _ s' =>
           (exists b, boardState s !! key = Some b /\ reachable b = true) ->
           gateFlag key s' = Some false)
        (latchBarrierAction conf id action source) s.
Proof.
  intros Hbar key. unfold latchBarrierAction. rewrite Hbar.
  cbn [fromOption bind handle getBoard holds]. fold key.
  destruct (boardState s !! key) as [b|] eqn:Hb; cbn [handle holds];
    [|intros (b & [=] & _)].
  destruct (reachable b) eqn:Hr; cbn [handle holds].
  2:{ unfold boardCfg. destruct (assoc key (BOARDS conf));
        cbn [handle holds]; intros (b' & [= <-] & Hr'); congruence. }
  rewrite holds_bind_Ret. unfold setBoard at 1. rewrite holds_bind_modify.
  apply holds_handle. unfold tryFinally. apply holds_handle.
  assert (gateFlag key (with_board key (set_commandLock true) s) = Some true)
    as Hup.
  { unfold gateFlag. rewrite boardState_with_board_eq, Hb. reflexivity. }
  eapply holds_mono;
    [|apply (stepwise_keeps (sameFlag key) _ _ (sameFlag_up key)
               (actionWrites_stepwise conf key id barrier action)), Hup].
  intros r s' Hs'.
  assert (gateFlag key (with_board key (set_commandLock false) s')
          = Some false) as Hdown.
  { unfold gateFlag in *. rewrite boardState_with_board_eq.
    destruct (boardState s' !! key); [reflexivity|discriminate Hs']. }
  destruct r as [[]|e]; unfold setBoard; rewrite holds_bind_modify;
    cbn [holds]; [|intros _; exact Hdown].
  unfold audit. cbv zeta. rewrite holds_bind_modify.
  unfold log. cbn [modify holds]. intros _. exact Hdown.
Qed.

End FlagHeld.

Section GateLoop.

Import Buf Codec Async Server.
Local Open Scope Z_scope.

Variable conf : Config.
Implicit Types (s : State)
  (lp : Loop State Request (list NetEvent) Err string).

Lemma waiting_unused l lp : unused l lp -> waiting l lp = [].
Proof.
  intros [_ Hp]. unfold waiting.
  induction (pool lp) as [|lk p IH]; [reflexivity|].
  apply Forall_cons in Hp as [Hlk Hp].
  rewrite filter_cons_False by exact Hlk. apply IH, Hp.
Qed.

Lemma waiting_nil_labels l lp :
  waiting l lp = [] -> Forall (fun lk => lk.1 <> l) (pool lp).
Proof.
  unfold waiting. induction (pool lp) as [|lk p IH]; intros Hw; [constructor|].
  destruct (decide (lk.1 = l)) as [Heq|Hne].
  - rewrite filter_cons_True in Hw by exact Heq. discriminate Hw.
  - rewrite filter_cons_False in Hw by exact Hne.
    apply Forall_cons. split; [exact Hne|apply IH, Hw].
Qed.

(** An action started when no actuation of its board is under way, among
    heartbeats, release callbacks and actions on other boards, whatever
    the order of the turns. *)
Lemma latchBarrierAction_among (Q : State -> Prop) id barrier action
    source l lp0 evs :
  BARRIERS conf !! id = Some barrier ->
  let key := Barrier.board barrier in
  (forall s s', sameFlag key s s' -> Q s -> Q s') ->
  (forall s',
     ((exists b, boardState (now lp0) !! key = Some b /\
                 reachable b = true) ->
      gateFlag key s' = Some false) -> Q s') ->
  unused l lp0 -> gateQuiet key lp0 ->
  Forall (besides conf key l) evs ->
  watching (sameFlag key) (fun s' => gateFlag key s' = Some true) Q l
    (foldl schedStep lp0
       (Spawn l (latchBarrierAction conf id action source) :: evs)).
Proof.
  intros Hbar key HQ Hend Hun Hq Hevs. cbn [foldl].
  assert (Forall (aside (sameFlag key) l) evs) as A2.
  { eapply Forall_impl; [exact Hevs|]. intros ev. apply (besides_aside conf). }
  apply watching_steps;
    [apply sameFlag_refl|apply sameFlag_trans|apply sameFlag_up|exact HQ
    |exact A2|].
  cbn [schedStep]. apply watching_mine.
  - destruct Hun as [Hi _]. eapply Forall_impl; [exact Hi|].
    intros x Hx Hl. contradiction.
  - eapply Forall_impl; [exact Hq|]. intros lk Hlk _. exact Hlk.
  - apply waiting_unused, Hun.
  - eapply holds_mono;
      [|apply (latchBarrierAction_holds conf id barrier action source
                 (now lp0) Hbar)].
    intros r s' Hs'. apply Hend. exact Hs'.
Qed.

(** Heartbeats, release callbacks and actions on other boards leave no
    actuation of the board under way, and a label they do not bear
    unused. *)
Lemma besides_gateQuiet key l evs lp :
  Forall (besides conf key l) evs -> unused l lp -> gateQuiet key lp ->
  unused l (foldl schedStep lp evs) /\ gateQuiet key (foldl schedStep lp evs).
Proof.
  intros Hevs Hun Hq.
  assert (Forall (aside (sameFlag key) l) evs) as A2.
  { eapply Forall_impl; [exact Hevs|]. intros ev. apply (besides_aside conf). }
  assert (watching (sameFlag key) (fun _ => False) (fun _ => True) l
            (foldl schedStep lp evs)) as (Hi & Hp & Hw).
  { apply watching_steps;
      [apply sameFlag_refl|apply sameFlag_trans|auto|auto|exact A2|].
    split; [|split].
    - eapply Forall_impl; [apply Hun|]. intros x Hx Hl. contradiction.
    - eapply Forall_impl; [exact Hq|]. intros lk Hlk _. exact Hlk.
    - rewrite (waiting_unused l lp Hun). exact I. }
  assert (waiting l (foldl schedStep lp evs) = []) as Hnil.
  { destruct (waiting l (foldl schedStep lp evs)) as [|[l0 k0] [|x xs]];
      [reflexivity|destruct Hw as [_ []]|destruct Hw]. }
  pose proof (waiting_nil_labels l _ Hnil) as Hlab.
  split; [split|].
  - eapply Forall_impl; [exact Hi|]. intros x Hx Hl. exact (Hx Hl).
  - exact Hlab.
  - unfold gateQuiet. rewrite Forall_forall in Hp, Hlab |- *.
    intros lk Hin. apply (Hp lk Hin), (Hlab lk Hin).
Qed.

End GateLoop.

Section GateClaims.

Import Buf Codec Async Server.
Local Open Scope Z_scope.

Implicit Types (net : nat -> list NetEvent) (s : State)
  (w : Trace State Request (list NetEvent)).

(** C2 (the gate as a flag): an action raises the [commandLock] flag of
    its barrier's board before its first write and, once past its
    checks, takes it down when it ends, whether it returned or threw.
    Started when no actuation of the board is under way, and with
    heartbeats, release callbacks and actions on other boards taking
    their turns beside it in whatever order, every request of the action
    goes out with the flag up, the flag is up for as long as the action
    is suspended and down once it has ended, and no actuation of the
    board is under way then; nor is any after heartbeats, release
    callbacks and actions on other boards alone. A heartbeat that finds
    the flag up returns in the turn it starts, without a request and
    without touching the state. An action never waits for the flag:
    started on a reachable board it issues its first write in the same
    turn, whatever the flags are. Run alone, the action has the same
    brackets. *)
Theorem gate_flag_brackets_writes conf :
  wfConfig conf ->
  (forall id barrier action source (l : string) lp0 evs,
     BARRIERS conf !! id = Some barrier ->
     let key := Barrier.board barrier in
     unused l lp0 -> gateQuiet key lp0 ->
     Forall (besides conf key l) evs ->
     let lp :=
       foldl schedStep lp0
         (Spawn l (latchBarrierAction conf id action source) :: evs) in
     Forall (fun x => x.1.1 = l -> gateFlag key x.2 = Some true)
            (issued lp) /\
     (length (waiting l lp) <= 1)%nat /\
     (waiting l lp <> [] -> gateFlag key (now lp) = Some true) /\
     (waiting l lp = [] ->
      gateQuiet key lp /\
      ((exists b, boardState (now lp0) !! key = Some b /\
                  reachable b = true) ->
       gateFlag key (now lp) = Some false))) /\
  (forall key (l : string) evs s,
     Forall (besides conf key l) evs ->
     unused l (interleave evs s) /\ gateQuiet key (interleave evs s)) /\
  (forall key (l : string)
          (lp : Loop State Request (list NetEvent) Err string) b,
     is_Some (assoc key (BOARDS conf)) ->
     boardState (now lp) !! key = Some b -> commandLock b = true ->
     schedStep lp (Spawn l (heartbeatBoard conf key)) = lp) /\
  (forall id barrier action source s b c cs,
     BARRIERS conf !! id = Some barrier -> wfBarrier barrier ->
     boardState s !! Barrier.board barrier = Some b ->
     reachable b = true ->
     actionCalls barrier action = c :: cs ->
     exists s' r k,
       advance (latchBarrierAction conf id action source) s
       = (s', Blocked r k) /\
       (to_board r, fc r, data r)
       = (Barrier.board barrier, x05, coilData c.1 c.2) /\
       commandLock <$> boardState s' !! Barrier.board barrier = Some true) /\
  (forall net id barrier action source w s,
     BARRIERS conf !! id = Some barrier ->
     (exists w1,
        (run net (latchBarrierAction conf id action source) w s).1.1
        = w ++ w1 /\
        Forall (gateHeld (Barrier.board barrier)) w1) /\
     forall b,
       boardState s !! Barrier.board barrier = Some b ->
       reachable b = true ->
       commandLock <$>
         boardState
           (run net (latchBarrierAction conf id action source) w s).1.2
           !! Barrier.board barrier = Some false).
Proof.
  intros Hwf. split; [|split; [|split; [|split]]].
  - intros id barrier action source l lp0 evs Hbar key Hun Hq Hevs lp.
    assert (watching (sameFlag key) (fun s' => gateFlag key s' = Some true)
              (fun s' =>
                 (exists b,
                    boardState (now lp0) !! key = Some b /\
                    reachable b = true) ->
                 gateFlag key s' = Some false) l lp) as Hw.
    { apply (latchBarrierAction_among conf _ id barrier action source l lp0
               evs Hbar); [| |exact Hun|exact Hq|exact Hevs].
      - intros s1 s2 Hs Hd Hb. eapply sameFlag_down; [exact Hs|auto].
      - intros s' Hs'. exact Hs'. }
    destruct Hw as (Hiss & Hp & Hw).
    split; [exact Hiss|].
    destruct (waiting l lp) as [|[l0 k0] [|x xs]] eqn:Hwait; [| |destruct Hw].
    + split; [cbn; lia|]. split; [congruence|]. intros _.
      split; [|exact Hw].
      pose proof (waiting_nil_labels l lp Hwait) as Hlab.
      unfold gateQuiet. rewrite Forall_forall in Hp, Hlab |- *.
      intros lk Hin. apply (Hp lk Hin), (Hlab lk Hin).
    + destruct Hw as [_ Hup]. split; [cbn; lia|].
      split; [intros _; exact Hup|]. intros [=].
  - intros key l evs s Hevs. unfold interleave.
    apply (besides_gateQuiet conf); [exact Hevs| |constructor].
    split; constructor.
  - intros key l lp b [cfg Hc] Hb Hl.
    pose proof (run_heartbeatBoard_locked conf (fun _ => []) key cfg b []
                  (now lp) Hc Hb Hl) as Hrun.
    rewrite run_advance in Hrun. cbn [schedStep]. unfold resume.
    destruct (advance (heartbeatBoard conf key) (now lp)) as [s' [r|r k]].
    + injection Hrun as -> _. destruct lp. reflexivity.
    + exfalso.
      match type of Hrun with
      | run ?n ?m ?w0 ?s0 = _ =>
          destruct (run_trace_extends n m w0 s0) as [t Ht]
      end.
      rewrite Hrun in Ht. cbn [fst] in Ht.
      apply (f_equal length) in Ht. rewrite !length_app in Ht.
      cbn [length] in Ht. lia.
  - intros id barrier action source s b c cs Hbar Hwb Hb Hr Hcalls.
    destruct Hwf as (Hboards & Hnd & Hon).
    destruct (Hon id barrier Hbar) as [cfg Hcfg].
    assert (0 <= BoardCfg.unitId cfg <= 255) as Hu.
    { rewrite Forall_forall in Hboards.
      apply (Hboards (Barrier.board barrier, cfg)), assoc_elem, Hcfg. }
    destruct (latchBarrierAction_first conf (fun _ => []) id action source []
                s barrier cfg b c cs Hbar Hcfg Hu Hwb Hb Hr Hcalls)
      as (x & rest & Hx & Hlog).
    destruct (latchBarrierAction_gateHeld conf (fun _ => []) id action source
                [] s barrier Hbar) as (w1 & Hw1 & Hheld).
    rewrite Hx in Hw1. cbn [app] in Hw1. subst w1.
    apply Forall_cons in Hheld as [Hheld _].
    destruct (first_suspension (fun _ => []) _ [] s x rest Hx) as [k Hk].
    exists x.2, x.1.1, k. split; [exact Hk|]. split; [exact Hlog|].
    exact Hheld.
  - intros net id barrier action source w s Hbar. split.
    + apply latchBarrierAction_gateHeld, Hbar.
    + intros b Hb Hr. eapply latchBarrierAction_releases; eassumption.
Qed.

End GateClaims.

Section GateExamples.

Import Buf Codec Async Server.
Local Open Scope Z_scope.

(** The close of barrier 1 in [sharedLoop], started while a heartbeat of
    board 2 waits for its answer: both its writes go out with the flag
    of board 1 up, the heartbeat of board 1 that ticks between them asks
    nothing, the lift on board 2 is not held up, and the flag is down at
    the end. *)
Lemma gate_flag_brackets_writes_witness :
  let lp := interleave sharedLoop onlineState in
  wfConfig defaultConfig /\
  Forall (fun x => x.1.1 = "A" -> gateFlag "board1" x.2 = Some true)
         (issued lp) /\
  gateFlag "board1" (now lp) = Some false /\
  map issuedView (issued lp)
  = [("G", ("board2", x01, readData 0 3), Some false);
     ("A", ("board1", x05, coilData 0 false), Some true);
     ("B", ("board2", x05, coilData 1 false), Some true);
     ("A", ("board1", x05, coilData 1 true), Some true);
     ("B", ("board2", x05, coilData 0 true), Some true)].
Proof.
  intros lp.
  assert (BARRIERS defaultConfig !! 1
          = Some {| Barrier.board := "board1"; Barrier.lift := 0;
                    Barrier.close := 1; Barrier.stop := 2;
                    Barrier.name := "Barrier 1" |}) as Hbar
    by (vm_compute; reflexivity).
  destruct (gate_flag_brackets_writes defaultConfig wfConfig_default)
    as (H1 & H2 & _).
  assert (Forall (besides defaultConfig "board1" "A")
            [Spawn "G" (heartbeatBoard defaultConfig "board2")]) as B1.
  { apply Forall_cons. split; [|constructor].
    split; [discriminate|constructor]. }
  assert (Forall (besides defaultConfig "board1" "A") besideClose) as B2.
  { unfold besideClose.
    apply Forall_cons; split;
      [split; [discriminate|constructor; vm_compute; discriminate]|].
    apply Forall_cons; split; [exact I|].
    apply Forall_cons; split; [split; [discriminate|constructor]|].
    repeat (apply Forall_cons; split; [exact I|]). constructor. }
  destruct (H2 "board1" "A" _ onlineState B1) as [Hun Hq].
  destruct (H1 1 _ "close" "api" "A" _ besideClose Hbar Hun Hq B2)
    as (Hiss & _ & _ & Hdown).
  split; [exact wfConfig_default|]. split; [exact Hiss|].
  split; [|vm_compute; reflexivity].
  apply Hdown; [vm_compute; reflexivity|vm_compute; eauto].
Defined.

(** C2 with interleaved handlers: board 1 with a close of barrier 1 and
    a lift of barrier 2 under way at once: the lift's first write goes out between the two writes of the
    close; the close ends and takes the flag down; the heartbeat that
    ticks next finds it down and reads the coils while the lift still
    waits for its first acknowledgement; the lift's second write goes out
    with the flag down. Nothing was queued. *)
Lemma gate_flag_does_not_exclude :
  map issuedView (issued (interleave crossedActions onlineState))
  = [("A", ("board1", x05, coilData 0 false), Some true);
     ("B", ("board1", x05, coilData 4 false), Some true);
     ("A", ("board1", x05, coilData 1 true), Some true);
     ("H", ("board1", x01, readData 0 6), Some false);
     ("B", ("board1", x05, coilData 3 true), Some false)].
Proof. vm_compute. reflexivity. Qed.

End GateExamples.

(** ** The lock flag of the HTTP front end *)

Section AdvanceFacts.

Import Async.
Context {St Req Ans E : Type}.

Lemma advance_bind {A B : Type} (m : Async St Req Ans E A)
    (f : A -> Async St Req Ans E B) s :
  advance (bind m f) s
  = match advance m s with
    | (s', Done (Ok a)) => advance (f a) s'
    | (s', Done (Error e)) => (s', Done (Error e))
    | (s', Blocked r k) => (s', Blocked r (fun a => bind (k a) f))
    end.
Proof.
  unfold bind. rewrite advance_handle.
  destruct (advance m s) as [s' [[a|e]|r k]]; reflexivity.
Qed.

End AdvanceFacts.

Section ApiFacts.

Import Async Api.
Local Open Scope Z_scope.

Implicit Types (net : nat -> Outcome) (s : State)
  (w : Trace State Call Outcome) (barrier : BarrierConfig).

Lemma run_eventLog net type who details w s :
  run net (log type who details) w s
  = (w, logged type who details s, Ok tt).
Proof.
  unfold logged, log. rewrite !run_bind. cbn [run modify fst snd].
  destruct (negb (bool_decide (type = "startup"))
            && negb (bool_decide (type = "pulse-off"))); reflexivity.
Qed.

Lemma advance_eventLog type who details s :
  advance (log type who details) s
  = (logged type who details s, Done (Ok tt)).
Proof.
  unfold logged, log. rewrite advance_bind, !run_bind.
  cbn [run advance modify fst snd].
  destruct (negb (bool_decide (type = "startup"))
            && negb (bool_decide (type = "pulse-off"))); reflexivity.
Qed.

Lemma logged_fields type who details s :
  barrierStates (logged type who details s) = barrierStates s /\
  latchedCoils (logged type who details s) = latchedCoils s.
Proof.
  unfold logged, log. rewrite !run_bind. cbn [run modify fst snd].
  destruct (negb (bool_decide (type = "startup"))
            && negb (bool_decide (type = "pulse-off")));
    split; reflexivity.
Qed.

Lemma run_call net c w s :
  run net (call c) w s
  = (w ++ [(c, net (length w), s)], s,
     match net (length w) with
     | Resolved data => Ok data
     | Rejected m => Error (Failed m)
     end).
Proof.
  unfold call. cbn [run]. destruct (net (length w)); reflexivity.
Qed.

Lemma run_call_resolving net c w s :
  resolving net ->
  exists data,
    run net (call c) w s = (w ++ [(c, net (length w), s)], s, Ok data).
Proof.
  intros Hnet. rewrite run_call. destruct (Hnet (length w)) as [d ->].
  eauto.
Qed.

Lemma run_dropLatch net barrier w s :
  exists s1, run net (dropLatch barrier) w s = (w, s1, Ok tt) /\
             barrierStates s1 = barrierStates s.
Proof.
  unfold dropLatch. cbn [run].
  destruct (latchedCoils s !! id barrier) as [[h|]|]; eexists;
    (split; [reflexivity|reflexivity]).
Qed.

Lemma run_stateOf net barrier w s st :
  barrierStates s !! id barrier = Some st ->
  run net (stateOf barrier) w s = (w, s, Ok st).
Proof. intros H. unfold stateOf. cbn [run]. rewrite H. reflexivity. Qed.

Lemma advance_stateOf barrier s st :
  barrierStates s !! id barrier = Some st ->
  advance (stateOf barrier) s = (s, Done (Ok st)).
Proof. intros H. unfold stateOf. cbn [advance]. rewrite H. reflexivity. Qed.

Lemma calls_app w w' : calls (w ++ w') = calls w ++ calls w'.
Proof. unfold calls. rewrite !fmap_app. reflexivity. Qed.

(** [activateCoil] when every call resolves: the clear, the settling
    delay, the target coil; the barrier records are not touched. *)
Lemma run_activateCoil net barrier action hold w s :
  resolving net ->
  exists w1 s1,
    run net (activateCoil barrier action hold) w s = (w ++ w1, s1, Ok tt) /\
    calls w1 = activation barrier action /\
    barrierStates s1 = barrierStates s.
Proof.
  intros Hnet. unfold activateCoil. cbv zeta. rewrite run_bind.
  destruct (run_dropLatch net barrier w s) as (s0 & -> & Hs0).
  do 3 (rewrite run_bind;
        match goal with
        | |- context [run net (call ?c) ?w0 ?s0] =>
            destruct (run_call_resolving net c w0 s0 Hnet) as [? ->]
        end).
  destruct hold.
  - rewrite run_bind. cbn [run modify]. rewrite run_eventLog.
    eexists [_; _; _], _. split; [rewrite <- !app_assoc; reflexivity|].
    split; [reflexivity|].
    destruct (logged_fields "latch" (id barrier)
                (actionName action +:+ " coil HELD ON (latched)")
                (with_latchedCoils (<[id barrier:=None]> (latchedCoils s0)) s0))
      as [-> _].
    exact Hs0.
  - rewrite run_bind. cbn [run setTimeout modify].
    eexists [_; _; _], _. split; [rewrite <- !app_assoc; reflexivity|].
    split; [reflexivity|exact Hs0].
Qed.

Lemma run_releaseLatch net barrier w s :
  resolving net ->
  exists w1 s1,
    run net (releaseLatch barrier) w s = (w ++ w1, s1, Ok tt) /\
    calls w1 = [WriteMultipleCoils (relay_host barrier) (relay_port barrier)
                                   (clearedCoils barrier)] /\
    barrierStates s1 = barrierStates s.
Proof.
  intros Hnet. unfold releaseLatch. rewrite run_bind.
  destruct (run_dropLatch net barrier w s) as (s0 & -> & Hs0).
  rewrite run_bind.
  destruct (run_call_resolving net
              (WriteMultipleCoils (relay_host barrier) (relay_port barrier)
                 (clearedCoils barrier)) w s0 Hnet) as [d1 ->].
  rewrite run_eventLog. eexists [_], _. split; [reflexivity|].
  split; [reflexivity|].
  destruct (logged_fields "unlatch" (id barrier) "All coils released" s0)
    as [-> _].
  exact Hs0.
Qed.

Lemma logged_broadcast type who details s :
  type <> "startup" -> type <> "pulse-off" ->
  barrierStates (logged type who details s) = barrierStates s /\
  latchedCoils (logged type who details s) = latchedCoils s /\
  timers (logged type who details s)
  = timers s ++ [(nextTimer s, BroadcastState)] /\
  nextTimer (logged type who details s) = S (nextTimer s).
Proof.
  intros H1 H2. unfold logged, log. rewrite !run_bind. cbn [run modify fst snd].
  rewrite !bool_decide_eq_false_2 by assumption. cbn [negb andb].
  rewrite run_bind. cbn [run setTimeout fst snd]. repeat split.
Qed.

Lemma run_dropLatch_exact net barrier w s :
  exists s1, run net (dropLatch barrier) w s = (w, s1, Ok tt) /\
             barrierStates s1 = barrierStates s /\
             latchedCoils s1 = delete (id barrier) (latchedCoils s) /\
             timers s1 = unpulsed barrier s /\
             nextTimer s1 = nextTimer s.
Proof.
  unfold dropLatch, unpulsed. cbn [run].
  destruct (latchedCoils s !! id barrier) as [[h|]|]; eexists;
    (split; [reflexivity|repeat split]).
Qed.

(** [activateCoil] with [hold] when every call resolves: the pulse
    timeout on record is cleared and none is armed; the entry of the
    barrier in [latchedCoils] is [null]. *)
Lemma run_activateCoil_hold net barrier action w s :
  resolving net ->
  exists w1 s1,
    run net (activateCoil barrier action true) w s = (w ++ w1, s1, Ok tt) /\
    calls w1 = activation barrier action /\
    barrierStates s1 = barrierStates s /\
    latchedCoils s1 = <[id barrier := None]> (latchedCoils s) /\
    timers s1 = unpulsed barrier s ++ [(nextTimer s, BroadcastState)] /\
    nextTimer s1 = S (nextTimer s).
Proof.
  intros Hnet. unfold activateCoil. cbv zeta. rewrite run_bind.
  destruct (run_dropLatch_exact net barrier w s)
    as (s0 & -> & Hs0 & Hl0 & Ht0 & Hn0).
  do 3 (rewrite run_bind;
        match goal with
        | |- context [run net (call ?c) ?w0 ?s0] =>
            destruct (run_call_resolving net c w0 s0 Hnet) as [? ->]
        end).
  rewrite run_bind. cbn [run modify]. rewrite run_eventLog.
  eexists [_; _; _], _. split; [rewrite <- !app_assoc; reflexivity|].
  split; [reflexivity|].
  destruct (logged_broadcast "latch" (id barrier)
              (actionName action +:+ " coil HELD ON (latched)")
              (with_latchedCoils (<[id barrier:=None]> (latchedCoils s0)) s0))
    as (-> & -> & -> & ->); [discriminate|discriminate|].
  cbn [with_latchedCoils barrierStates latchedCoils timers nextTimer].
  rewrite Hl0, Ht0, Hn0, insert_delete_eq. auto.
Qed.

End ApiFacts.

Section LockClaims.

Import Async Api.
Local Open Scope Z_scope.

Implicit Types (net : nat -> Outcome) (s : State)
  (w : Trace State Call Outcome).

(** C3 (as the routes have it): on a barrier whose [locked] flag is set,
    [lift] and [close] are answered 423 "Barrier is locked" in the turn
    the request is handled: the handler never suspends, calls nothing
    in the Modbus client, and leaves the barrier records and latches as
    they were (it logs the denial). [stop] and [unlatch] are not
    rejected: when their calls resolve they answer 200, [unlatch]
    clearing the flag. [latch-open] and [latch-close] do not look at the
    flag, set or not: they clear the coils, switch the target coil on
    and hold it (the pulse timeout on record is cleared, none is armed
    and the barrier's entry in [latchedCoils] is [null]), set the flag
    and answer 200. *)
Theorem locked_rejects_lift_and_close barrierId barrier st s :
  findBarrier barrierId = Some barrier ->
  barrierStates s !! id barrier = Some st ->
  (locked st = true ->
   forall action, action <> stop ->
     let denied :=
       {| status := 423;
          body := LockedBody "Barrier is locked" (id barrier) |} in
     let s' :=
       logged "error" (id barrier)
              ("Action " +:+ actionName action
               +:+ " denied — barrier locked") s in
     advance (postAction action barrierId) s = (s', Done (Ok denied)) /\
     (forall net w,
        run net (postAction action barrierId) w s = (w, s', Ok denied)) /\
     barrierStates s' = barrierStates s /\
     latchedCoils s' = latchedCoils s) /\
  (forall net w, resolving net ->
     let r := run net (postAction stop barrierId) w s in
     exists w1, r.1.1 = w ++ w1 /\
       calls w1 = activation barrier stop /\
       r.2 = Ok {| status := 200; body := ActionBody (id barrier) "stop" |}) /\
  (forall net w, resolving net ->
     let r := run net (postUnlatch barrierId) w s in
     exists w1, r.1.1 = w ++ w1 /\
       calls w1 = [WriteMultipleCoils (relay_host barrier)
                     (relay_port barrier) (clearedCoils barrier)] /\
       r.2 = Ok {| status := 200;
                   body := ActionBody (id barrier) "unlatch" |} /\
       locked <$> barrierStates r.1.2 !! id barrier = Some false) /\
  (forall net w, resolving net ->
     let r := run net (postLatchOpen barrierId) w s in
     exists w1, r.1.1 = w ++ w1 /\
       calls w1 = activation barrier lift /\
       r.2 = Ok {| status := 200;
                   body := ActionBody (id barrier) "latch-open" |} /\
       latchedCoils r.1.2 = <[id barrier := None]> (latchedCoils s) /\
       timers r.1.2
       = unpulsed barrier s ++ [(nextTimer s, BroadcastState);
                                (S (nextTimer s), BroadcastState)] /\
       barrierStates r.1.2 !! id barrier
       = Some {| locked := true; lastAction := Some "latch-open" |}) /\
  (forall net w, resolving net ->
     let r := run net (postLatchClose barrierId) w s in
     exists w1, r.1.1 = w ++ w1 /\
       calls w1 = activation barrier close /\
       r.2 = Ok {| status := 200;
                   body := ActionBody (id barrier) "latch-close" |} /\
       latchedCoils r.1.2 = <[id barrier := None]> (latchedCoils s) /\
       timers r.1.2
       = unpulsed barrier s ++ [(nextTimer s, BroadcastState);
                                (S (nextTimer s), BroadcastState)] /\
       barrierStates r.1.2 !! id barrier
       = Some {| locked := true; lastAction := Some "latch-close" |}).
Proof.
  intros Hfind Hst.
  split; [|split; [|split; [|split]]].
  - intros Hlocked action Hns denied s'.
    assert (advance (postAction action barrierId) s = (s', Done (Ok denied)))
      as Hadv.
    { unfold postAction. rewrite Hfind.
      rewrite advance_bind, (advance_stateOf barrier s st Hst), Hlocked.
      replace (bool_decide (actionName action = "stop")) with false
        by (destruct action; try reflexivity; congruence).
      cbn [andb negb]. rewrite advance_bind, advance_eventLog. reflexivity. }
    split; [exact Hadv|]. split.
    + intros net w. rewrite run_advance, Hadv. reflexivity.
    + apply logged_fields.
  - intros net w Hnet r. unfold r, postAction. rewrite Hfind.
    rewrite run_bind, (run_stateOf net barrier w s st Hst).
    replace (bool_decide (actionName stop = "stop")) with true
      by reflexivity.
    cbn [negb]. rewrite andb_false_r. rewrite run_tryCatch, run_bind.
    destruct (run_activateCoil net barrier stop false w s Hnet)
      as (w1 & s1 & -> & Hcalls & _).
    rewrite run_bind. cbn [run assign modify]. rewrite run_bind, run_eventLog.
    cbn [run fst snd]. eauto.
  - intros net w Hnet r. unfold r, postUnlatch. rewrite Hfind.
    rewrite run_tryCatch, run_bind.
    destruct (run_releaseLatch net barrier w s Hnet)
      as (w1 & s1 & -> & Hcalls & Hs1).
    rewrite run_bind, (run_stateOf net barrier _ s1 st)
      by (rewrite Hs1; exact Hst).
    rewrite run_bind. cbn [run assign modify]. rewrite run_bind, run_eventLog.
    cbn [run fst snd]. exists w1. split; [reflexivity|].
    split; [exact Hcalls|]. split; [reflexivity|].
    destruct (logged_fields "unlatch" (id barrier)
                "Barrier UNLATCHED — coils released, commands unlocked"
                (with_barrierStates
                   (alter (fun _ => {| locked := false;
                                       lastAction := Some "unlatch" |})
                          (id barrier) (barrierStates s1)) s1))
      as [-> _].
    cbn [barrierStates with_barrierStates].
    rewrite lookup_alter_eq, Hs1, Hst. reflexivity.
  - intros net w Hnet r. unfold r, postLatchOpen. rewrite Hfind.
    rewrite run_tryCatch, run_bind.
    destruct (run_activateCoil_hold net barrier lift w s Hnet)
      as (w1 & s1 & -> & Hcalls & Hs1 & Hl1 & Ht1 & Hn1).
    rewrite run_bind, (run_stateOf net barrier _ s1 st)
      by (rewrite Hs1; exact Hst).
    rewrite run_bind. cbn [run assign modify]. rewrite run_bind, run_eventLog.
    cbn [run fst snd]. exists w1. split; [reflexivity|].
    split; [exact Hcalls|]. split; [reflexivity|].
    match goal with
    | |- context [logged ?t ?b ?d ?s0] =>
        destruct (logged_broadcast t b d s0) as (-> & -> & -> & _);
          [discriminate|discriminate|]
    end.
    cbn [with_barrierStates barrierStates latchedCoils timers nextTimer].
    split; [exact Hl1|]. split.
    + rewrite Ht1, Hn1, <- app_assoc. reflexivity.
    + rewrite lookup_alter_eq, Hs1, Hst. reflexivity.
  - intros net w Hnet r. unfold r, postLatchClose. rewrite Hfind.
    rewrite run_tryCatch, run_bind.
    destruct (run_activateCoil_hold net barrier close w s Hnet)
      as (w1 & s1 & -> & Hcalls & Hs1 & Hl1 & Ht1 & Hn1).
    rewrite run_bind, (run_stateOf net barrier _ s1 st)
      by (rewrite Hs1; exact Hst).
    rewrite run_bind. cbn [run assign modify]. rewrite run_bind, run_eventLog.
    cbn [run fst snd]. exists w1. split; [reflexivity|].
    split; [exact Hcalls|]. split; [reflexivity|].
    match goal with
    | |- context [logged ?t ?b ?d ?s0] =>
        destruct (logged_broadcast t b d s0) as (-> & -> & -> & _);
          [discriminate|discriminate|]
    end.
    cbn [with_barrierStates barrierStates latchedCoils timers nextTimer].
    split; [exact Hl1|]. split.
    + rewrite Ht1, Hn1, <- app_assoc. reflexivity.
    + rewrite lookup_alter_eq, Hs1, Hst. reflexivity.
Qed.

End LockClaims.

Section LockExamples.

Import Async Api.
Local Open Scope Z_scope.

Lemma resolving_okNet : resolving okNet.
Proof. intros n. exists []. reflexivity. Qed.

(** The entry barrier after [POST /api/barrier/1/lock]: a lift is
    answered 423 with nothing called, a stop goes through, and a
    latch-open holds the lift coil with no pulse timeout armed. *)
Lemma locked_rejects_lift_and_close_witness :
  run okNet (postAction lift "1") [] lockedEntry
  = ([],
     logged "error" "krs-entry" "Action lift denied — barrier locked"
            lockedEntry,
     Ok {| status := 423;
           body := LockedBody "Barrier is locked" "krs-entry" |}) /\
  (run okNet (postAction stop "1") [] lockedEntry).2
  = Ok {| status := 200; body := ActionBody "krs-entry" "stop" |} /\
  latchedCoils (run okNet (postLatchOpen "1") [] lockedEntry).1.2
  = <[ "krs-entry" := None ]> (latchedCoils lockedEntry).
Proof.
  assert (findBarrier "1"
          = Some {| id := "krs-entry"; numericId := 1;
                    name := "Entry Barrier"; site := "KRS01";
                    direction := "entry"; relay_host := "10.10.10.64";
                    relay_port := 4196; coils_lift := 0; coils_stop := 1;
                    coils_close := 2 |}) as Hfind
    by (vm_compute; reflexivity).
  assert (barrierStates lockedEntry !! "krs-entry"
          = Some {| locked := true; lastAction := None |}) as Hst
    by (vm_compute; reflexivity).
  destruct (locked_rejects_lift_and_close "1" _ _ lockedEntry Hfind Hst)
    as (Hdeny & Hstop & _ & Hopen & _).
  split; [|split].
  - destruct (Hdeny eq_refl lift ltac:(discriminate)) as (_ & Hrun & _).
    exact (Hrun okNet []).
  - destruct (Hstop okNet [] resolving_okNet) as (w1 & _ & _ & Hres).
    exact Hres.
  - destruct (Hopen okNet [] resolving_okNet) as (w1 & _ & _ & _ & Hl & _).
    exact Hl.
Defined.

(** C3 for the latch routes: the same locked barrier takes a
    latch-open: the coils are cleared, lift is switched on and held, the
    answer is 200. *)
Lemma locked_barrier_accepts_latch_open :
  calls (run okNet (postLatchOpen "1") [] lockedEntry).1.1
  = [WriteMultipleCoils "10.10.10.64" 4196
       [(0, false); (1, false); (2, false)];
     Sleep 50;
     WriteCoil "10.10.10.64" 4196 0 true] /\
  (run okNet (postLatchOpen "1") [] lockedEntry).2
  = Ok {| status := 200; body := ActionBody "krs-entry" "latch-open" |} /\
  locked <$> barrierStates lockedEntry !! "krs-entry" = Some true.
Proof. vm_compute. repeat split; reflexivity. Qed.

End LockExamples.

(** ** More on the response parsers *)

Section ParserFacts.

Import Buf Codec Async Server.
Local Open Scope Z_scope.

Lemma parseTCPResponse_past_header (h pdu : list byte) :
  length h = 7%nat ->
  parseTCPResponse (h ++ pdu)
  = match pdu with
    | fc :: code :: _ =>
        if negb (Z.land (b2z fc) 0x80 =? 0)
        then Raise (ModbusException (Z.land (b2z fc) 0x7F) (b2z code))
        else Pdu pdu
    | _ => Incomplete
    end.
Proof.
  intros Hh. unfold parseTCPResponse. rewrite length_app, Hh.
  destruct pdu as [|fc [|code rest]]; [reflexivity..|].
  cbn [length]. destruct (Nat.ltb_spec (7 + S (S (length rest))) 9); [lia|].
  unfold readAt, readUInt8.
  rewrite !lookup_app_r by lia. rewrite Hh.
  cbn [Nat.sub lookup list_lookup fmap option_fmap option_map].
  rewrite drop_app_length' by (symmetry; exact Hh). reflexivity.
Qed.

(** [parseTCPResponse] never looks at the seven header bytes: not at the
    transaction id, the protocol id, the length field or the unit, so
    that two buffers that differ only there parse alike. What it returns
    is decided by the bytes from offset 7 on: nothing before two of them
    have arrived, an exception when the function byte has its top bit
    set, otherwise all of them as the PDU. *)
Theorem parseTCPResponse_ignores_header (h h' pdu : list byte) :
  length h = 7%nat -> length h' = 7%nat ->
  parseTCPResponse (h ++ pdu) = parseTCPResponse (h' ++ pdu) /\
  parseTCPResponse (h ++ pdu)
  = match pdu with
    | fc :: code :: _ =>
        if negb (Z.land (b2z fc) 0x80 =? 0)
        then Raise (ModbusException (Z.land (b2z fc) 0x7F) (b2z code))
        else Pdu pdu
    | _ => Incomplete
    end.
Proof.
  intros Hh Hh'. rewrite !parseTCPResponse_past_header by assumption.
  split; reflexivity.
Qed.

(** A reply to transaction 0x1234 carrying a wrong protocol id and length
    parses like the well-formed one. *)
Lemma parseTCPResponse_ignores_header_witness :
  parseTCPResponse ([x12; x34; x56; x78; x9a; xbc; xde]
                    ++ [x05; x00; x01; xff; x00])
  = parseTCPResponse ([x12; x34; x00; x00; x00; x06; x01]
                      ++ [x05; x00; x01; xff; x00]) /\
  parseTCPResponse ([x12; x34; x56; x78; x9a; xbc; xde]
                    ++ [x05; x00; x01; xff; x00])
  = Pdu [x05; x00; x01; xff; x00].
Proof.
  exact (parseTCPResponse_ignores_header
           [x12; x34; x56; x78; x9a; xbc; xde]
           [x12; x34; x00; x00; x00; x06; x01]
           [x05; x00; x01; xff; x00] eq_refl eq_refl).
Defined.

(** In the Modbus/TCP dialect the promise resolves with whatever has
    arrived as soon as nine bytes are there and the function byte is no
    exception: the length field is not consulted, and what the socket
    delivers afterwards (more data, an error, the deadline) is dropped. *)
Theorem tcp_response_taken_at_nine_bytes (h body : list byte) (fc : byte)
    (later : list NetEvent) :
  length h = 7%nat -> (1 <= length body)%nat ->
  Z.land (b2z fc) 0x80 = 0 ->
  settle false [] (Data (h ++ fc :: body) :: later) = Ok (fc :: body).
Proof.
  intros Hh Hb Hfc.
  cbn [settle app]. rewrite (parseTCPResponse_past_header h _ Hh).
  destruct body as [|code rest]; [simpl in Hb; lia|].
  rewrite Hfc. reflexivity.
Qed.

(** A Read Coils response announcing two data bytes of which only the
    first has arrived: the promise resolves without the second. *)
Lemma tcp_response_taken_at_nine_bytes_witness :
  settle false []
    [Data ([x00; x01; x00; x00; x00; x05; x01] ++ x01 :: [x02; xff]);
     Data [x03]]
  = Ok [x01; x02; xff].
Proof.
  apply (tcp_response_taken_at_nine_bytes
           [x00; x01; x00; x00; x00; x05; x01] [x02; xff] x01 [Data [x03]]);
    [reflexivity|simpl; lia|reflexivity].
Defined.

End ParserFacts.

Section RtuParserFacts.

Import Buf Codec Async Server.
Local Open Scope Z_scope.

Lemma parseRTUResponse_exception (response : list byte) (fc : byte) :
  (5 <= length response)%nat ->
  response !! 1%nat = Some fc ->
  Z.land (b2z fc) 0x80 <> 0 ->
  parseRTUResponse response
  = if verifyCRC (slice response 0 5)
    then match readUInt8 response 2 with
         | Some code => Raise (ModbusException (Z.land (b2z fc) 0x7F) code)
         | None => Raise RangeError
         end
    else Incomplete.
Proof.
  intros Hl Hfc Hbit. unfold parseRTUResponse.
  destruct (Nat.ltb_spec (length response) 5); [lia|].
  unfold readAt at 1. unfold readUInt8 at 1. rewrite Hfc.
  cbn [fmap option_fmap option_map].
  destruct (Z.eqb_spec (Z.land (b2z fc) 128) 0) as [E|E]; [tauto|].
  cbn [negb].
  destruct (Nat.leb_spec 5 (length response)); [|lia].
  cbn [andb]. destruct (verifyCRC (slice response 0 5)); reflexivity.
Qed.

Lemma settle_swallowed (buf : list byte) (fc : byte)
    (chunks : list (list byte)) :
  (5 <= length buf)%nat ->
  buf !! 1%nat = Some fc ->
  Z.land (b2z fc) 0x80 <> 0 ->
  verifyCRC (slice buf 0 5) = false ->
  settle true buf (map Data chunks) = Error ModbusTimeout.
Proof.
  revert buf. induction chunks as [|c chunks IH]; intros buf Hl Hfc Hbit Hcrc.
  - reflexivity.
  - cbn [map settle].
    assert (slice (buf ++ c) 0 5 = slice buf 0 5) as Hs.
    { rewrite !slice_0. apply take_app_le. exact Hl. }
    assert ((buf ++ c) !! 1%nat = Some fc) as Hfc'
      by (rewrite lookup_app_l by lia; exact Hfc).
    rewrite (parseRTUResponse_exception (buf ++ c) fc)
      by (rewrite ?length_app; try lia; assumption).
    rewrite Hs, Hcrc. apply IH; try assumption.
    + rewrite length_app. lia.
    + rewrite Hs. exact Hcrc.
Qed.

(** Exception responses in the RTU dialect. A five-byte exception frame
    with a correct CRC rejects with the function code (top bit removed)
    and the exception code. One whose CRC does not match is not reported
    as a CRC mismatch: it is taken for an incomplete frame, whatever
    arrives after it, so the request ends in the timeout. *)
Theorem rtu_exception_frames (u fc code : byte) :
  Z.land (b2z fc) 0x80 <> 0 ->
  parseRTUResponse (appendCRC [u; fc; code])
  = Raise (ModbusException (Z.land (b2z fc) 0x7F) (b2z code)) /\
  forall (lo hi : byte) (chunks : list (list byte)),
    verifyCRC [u; fc; code; lo; hi] = false ->
    settle true [] (map Data ([u; fc; code; lo; hi] :: chunks))
    = Error ModbusTimeout.
Proof.
  intros Hbit. split.
  - rewrite (parseRTUResponse_exception _ fc);
      [|simpl; lia|reflexivity|exact Hbit].
    change (slice (appendCRC [u; fc; code]) 0 5)
      with (appendCRC [u; fc; code]).
    rewrite verifyCRC_appendCRC. reflexivity.
  - intros lo hi chunks Hcrc. cbn [map settle app].
    rewrite (parseRTUResponse_exception _ fc);
      [|simpl; lia|reflexivity|exact Hbit].
    change (slice [u; fc; code; lo; hi] 0 5) with [u; fc; code; lo; hi].
    rewrite Hcrc.
    apply (settle_swallowed _ fc); try assumption; reflexivity.
Qed.

Lemma rtu_exception_frames_witness :
  parseRTUResponse (appendCRC [x01; x85; x02])
  = Raise (ModbusException 5 2) /\
  settle true [] (map Data [[x01; x85; x02; x00; x00]; [x01; x85]])
  = Error ModbusTimeout.
Proof.
  destruct (rtu_exception_frames x01 x85 x02 ltac:(discriminate))
    as [H1 H2].
  split; [exact H1|].
  exact (H2 x00 x00 [[x01; x85]] eq_refl).
Defined.

(** For a function code other than 1, 2, 5 and 6 the RTU parser has no
    expected length: it takes what has arrived for the whole frame. From
    five bytes on it never waits: the buffer parses if its last two bytes
    are its CRC and is a CRC mismatch otherwise, be it only the beginning
    of the response. *)
Theorem parseRTUResponse_other_codes (u fc : byte) (rest : list byte) :
  (3 <= length rest)%nat ->
  Z.land (b2z fc) 0x80 = 0 ->
  b2z fc <> 1 -> b2z fc <> 2 -> b2z fc <> 5 -> b2z fc <> 6 ->
  parseRTUResponse (u :: fc :: rest)
  = if verifyCRC (u :: fc :: rest)
    then Pdu (fc :: take (length rest - 2) rest)
    else Raise CrcMismatch.
Proof.
  intros Hl Hbit H1 H2 H5 H6. unfold parseRTUResponse.
  cbn [length].
  destruct (Nat.ltb_spec (S (S (length rest))) 5); [lia|].
  unfold readAt, readUInt8.
  cbn [lookup list_lookup fmap option_fmap option_map].
  rewrite Hbit. cbn [Z.eqb negb].
  destruct (Z.eqb_spec (b2z fc) 1); [tauto|].
  destruct (Z.eqb_spec (b2z fc) 2); [tauto|].
  destruct (Z.eqb_spec (b2z fc) 5); [tauto|].
  destruct (Z.eqb_spec (b2z fc) 6); [tauto|].
  cbn [orb]. rewrite Nat.ltb_irrefl.
  rewrite slice_0, take_ge by (simpl; lia).
  destruct (verifyCRC (u :: fc :: rest)); [|reflexivity].
  cbn [negb]. unfold slice. cbn [drop skipn].
  replace (S (S (length rest)) - 2 - 1)%nat with (S (length rest - 2))
    by lia.
  reflexivity.
Qed.

Lemma parseRTUResponse_other_codes_witness :
  parseRTUResponse (x01 :: x0f :: [x00; x00; x00])
  = Raise CrcMismatch /\
  parseRTUResponse (buildRTUFrame 1 x0f [x00; x00; x00; x06])
  = Pdu [x0f; x00; x00; x00; x06].
Proof.
  split.
  - exact (parseRTUResponse_other_codes x01 x0f [x00; x00; x00]
             ltac:(simpl; lia) eq_refl ltac:(discriminate)
             ltac:(discriminate) ltac:(discriminate) ltac:(discriminate)).
  - exact (parseRTUResponse_other_codes x01 x0f
             ([x00; x00; x00; x06]
              ++ uint16LE (crc16 [x01; x0f; x00; x00; x00; x06]))
             ltac:(simpl; lia) eq_refl ltac:(discriminate)
             ltac:(discriminate) ltac:(discriminate) ltac:(discriminate)).
Defined.

(** [buildTCPFrame] outside its ranges, for a transaction counter from 0
    to below 2^53, where the [++] of the code is exact. The counter is
    incremented before anything is written, so a build that raises has
    consumed an id all the same. A header write raises exactly when the
    unit id is no byte or the data is longer than 65533 bytes. Otherwise
    the frame is eight bytes longer than the data, the PDU follows the
    seven header bytes, and the id on the wire is the counter modulo
    65536: the counter itself does not wrap there. *)
Theorem buildTCPFrame_ranges (transactionId unitId : Z) (fc : byte)
    (data : list byte) :
  0 <= transactionId < 2 ^ 53 ->
  let built := buildTCPFrame transactionId unitId fc data in
  built.1 = transactionId + 1 /\
  (built.2 = None <->
   unitId < 0 \/ 255 < unitId \/ 65533 < Z.of_nat (length data)) /\
  forall frame, built.2 = Some frame ->
    length frame = (8 + length data)%nat /\
    drop 7 frame = fc :: data /\
    exists hi lo, take 2 frame = [hi; lo] /\
      256 * b2z hi + b2z lo = (transactionId + 1) mod 65536.
Proof.
  intros _. cbv zeta. split; [reflexivity|].
  destruct (Z_le_gt_dec 0 unitId) as [Hu0|Hu0];
    [destruct (Z_le_gt_dec unitId 255) as [Hu1|Hu1];
     [destruct (Z_le_gt_dec (Z.of_nat (length data)) 65533) as [Hd|Hd]|]|].
  - rewrite buildTCPFrame_ok by lia. cbn [snd]. split.
    + split; [discriminate|lia].
    + intros frame [= <-]. split; [simpl; reflexivity|].
      split; [reflexivity|].
      eexists _, _. split; [reflexivity|].
      pose proof (land_FFFF_range (transactionId + 1)) as Hr.
      assert (Z.land (transactionId + 1) 65535
              = (transactionId + 1) mod 65536) as Hm.
      { change 65535 with (Z.ones 16). rewrite Z.land_ones by lia.
        reflexivity. }
      rewrite <- Hm.
      set (v := Z.land (transactionId + 1) 65535) in *.
      change 255 with (Z.ones 8). rewrite Z.land_ones by lia.
      rewrite Z.shiftr_div_pow2 by lia. change (2 ^ 8) with 256.
      pose proof (Z.mod_pos_bound v 256 ltac:(lia)).
      assert (0 <= v / 256 < 256)
        by (split; [apply Z.div_pos; lia|apply Z.div_lt_upper_bound; lia]).
      rewrite !b2z_z2b_small by lia.
      rewrite (Z.div_mod v 256) at 3 by lia. lia.
  - assert ((buildTCPFrame transactionId unitId fc data).2 = None) as ->.
    { unfold buildTCPFrame. cbv zeta. cbn [snd].
      rewrite (writeUInt16BE_in_range (Z.land _ _)) by apply land_FFFF_range.
      rewrite (writeUInt16BE_in_range 0) by lia.
      unfold writeUInt16BE at 1. cbn [length].
      destruct (Z.leb_spec 0 (Z.of_nat (S (length data)) + 1)); [|lia].
      destruct (Z.leb_spec (Z.of_nat (S (length data)) + 1) 65535); [lia|].
      reflexivity. }
    split; [split; [lia|reflexivity]|discriminate].
  - assert ((buildTCPFrame transactionId unitId fc data).2 = None) as ->.
    { unfold buildTCPFrame. cbv zeta. cbn [snd].
      unfold writeUInt8.
      destruct (Z.leb_spec 0 unitId); [|lia].
      destruct (Z.leb_spec unitId 255); [lia|]. cbn [andb].
      repeat match goal with
             | |- context [match ?x with _ => _ end] => destruct x
             end; reflexivity. }
    split; [split; [lia|reflexivity]|discriminate].
  - assert ((buildTCPFrame transactionId unitId fc data).2 = None) as ->.
    { unfold buildTCPFrame. cbv zeta. cbn [snd].
      unfold writeUInt8.
      destruct (Z.leb_spec 0 unitId); [lia|]. cbn [andb].
      repeat match goal with
             | |- context [match ?x with _ => _ end] => destruct x
             end; reflexivity. }
    split; [split; [lia|reflexivity]|discriminate].
Qed.

Lemma buildTCPFrame_ranges_witness :
  (buildTCPFrame 65535 1 x05 [x00; x03; xff; x00]).1 = 65536 /\
  (buildTCPFrame 65535 1 x05 [x00; x03; xff; x00]).2
  = Some [x00; x00; x00; x00; x00; x06; x01; x05; x00; x03; xff; x00] /\
  (buildTCPFrame 65535 256 x05 [x00; x03; xff; x00]).2 = None.
Proof.
  destruct (buildTCPFrame_ranges 65535 1 x05 [x00; x03; xff; x00]
              ltac:(lia)) as [H1 _].
  destruct (buildTCPFrame_ranges 65535 256 x05 [x00; x03; xff; x00]
              ltac:(lia)) as [_ [H2 _]].
  split; [exact H1|]. split; [reflexivity|].
  apply H2. right. left. lia.
Defined.

End RtuParserFacts.

(** ** The routes of [server.js] *)

Section RouteFacts.

Import Buf Codec Async Server Routes.
Local Open Scope Z_scope.

Variable conf : Config.
Implicit Types (net : nat -> list NetEvent) (s : State)
  (w : Trace State Request (list NetEvent)).

(** With a key configured, [apiAuth] guards the paths under [/api/]
    except those that begin with [/api/events], and nothing else. On a
    guarded path the header decides when it is there and not empty: a
    wrong header is not made good by a right [api_key] parameter. *)
Theorem apiAuth_guards_api_paths (key path : string)
    (xApiKey queryKey : option string) :
  key <> "" ->
  (startsWith path "/api/" = false \/ startsWith path "/api/events" = true ->
   apiAuth (Some key) path xApiKey queryKey = true) /\
  (startsWith path "/api/" = true -> startsWith path "/api/events" = false ->
   (apiAuth (Some key) path xApiKey queryKey = true <->
    match truthy xApiKey with
    | Some v => v = key
    | None => queryKey = Some key
    end) /\
   forall wrong, wrong <> "" -> wrong <> key ->
     apiAuth (Some key) path (Some wrong) (Some key) = false).
Proof.
  intros Hkey.
  assert (truthy (Some key) = Some key) as Ht
    by (destruct key; [congruence|reflexivity]).
  unfold apiAuth. rewrite Ht. split.
  - intros [H|H]; rewrite H; cbn [negb orb]; rewrite ?orb_true_r;
      reflexivity.
  - intros Hapi Hev. rewrite Hapi, Hev. cbn [negb orb].
    assert (path <> "/") as Hne.
    { intros ->. discriminate Hapi. }
    rewrite bool_decide_eq_false_2 by exact Hne. cbn [orb]. split.
    + rewrite bool_decide_eq_true.
      destruct (truthy xApiKey); split; congruence.
    + intros wrong Hw Hwk.
      assert (truthy (Some wrong) = Some wrong) as ->
        by (destruct wrong; [congruence|reflexivity]).
      apply bool_decide_eq_false_2. congruence.
Qed.

Lemma apiAuth_guards_api_paths_witness :
  apiAuth (Some "s3cret") "/api/eventsource" None None = true /\
  apiAuth (Some "s3cret") "/api/status" (Some "nope") (Some "s3cret")
  = false.
Proof.
  destruct (apiAuth_guards_api_paths "s3cret" "/api/eventsource" None None
              ltac:(discriminate)) as [H1 _].
  destruct (apiAuth_guards_api_paths "s3cret" "/api/status" (Some "nope")
              (Some "s3cret") ltac:(discriminate)) as [_ H2].
  split.
  - apply H1. right. reflexivity.
  - destruct (H2 eq_refl eq_refl) as [_ H3].
    apply H3; discriminate.
Defined.

(** [GET /api/audit] answers with a tail of the audit ring, newest entry
    last, without a call and without a change of state. A limit [n >= 1]
    gives the last [n] entries, at most 500 and at most what is there; a
    missing or empty limit counts as 100. A limit of 0, or one that is no
    number, gives the whole ring, not an empty list; a negative limit
    [-n] drops the [n] oldest entries. *)
Theorem getAudit_tail net (limitParam : option string) w s :
  let ring := auditEntries s in
  exists sent,
    run net (getAudit limitParam) w s = (w, s, Ok (AuditReply sent)) /\
    sent `suffix_of` ring /\
    Z.of_nat (length sent)
    = match Api.parseInt (orDefault limitParam "100") with
      | None => Z.of_nat (length ring)
      | Some n =>
          if n <? 0 then Z.max (Z.of_nat (length ring) + n) 0
          else if n =? 0 then Z.of_nat (length ring)
          else Z.min (Z.min n 500) (Z.of_nat (length ring))
      end.
Proof.
  intros ring. unfold getAudit, auditLimit. cbn [run]. fold ring.
  eexists. split; [reflexivity|]. split.
  { unfold sliceFrom.
    destruct (Z.opp <$> _) as [k|]; [|reflexivity].
    destruct (k <? 0); apply suffix_drop. }
  destruct (Api.parseInt (orDefault limitParam "100")) as [n|];
    cbn [fmap option_fmap option_map sliceFrom]; [|reflexivity].
  change (Z.of_nat MAX_AUDIT_ENTRIES) with 500.
  destruct (Z.ltb_spec (- Z.min n 500) 0), (Z.ltb_spec n 0),
    (Z.eqb_spec n 0); rewrite length_drop; lia.
Qed.

(** [POST /api/barrier/:id/:action] never throws, for an action
    parameter of ASCII characters and an id that [parseInt] reads as no
    number or as one between -2^53 and 2^53. The id is what [parseInt]
    reads from the parameter, white space of any kind skipped, and the
    action is lower-cased before it is looked at. An id that is no number
    or not the key of a barrier, and an action other than lift, close or
    stop, are answered 400 without a request to a board and without a
    change of state, the audit ring included; the barrier is checked
    first. Any other request runs [latchBarrierAction] on the parsed id
    and the lower-cased action, with the source header or ['api'] when
    that is missing or empty: 200 with the channel (coil index plus one)
    when it returns, 500 with its error when it throws. *)
Theorem postBarrier_validates (idParam actionParam : string)
    (xSource : option string) net w s :
  isAscii actionParam = true ->
  (forall id, Api.parseInt idParam = Some id -> - 2 ^ 53 < id < 2 ^ 53) ->
  let action := toLowerCase actionParam in
  let r := run net (postBarrier conf idParam actionParam xSource) w s in
  (exists reply, r.2 = Ok reply) /\
  match Api.parseInt idParam with
  | None => r = (w, s, Ok (Failed 400 (UnknownBarrierText None)))
  | Some id =>
      match BARRIERS conf !! id with
      | None => r = (w, s, Ok (Failed 400 (UnknownBarrierText (Some id))))
      | Some barrier =>
          if bool_decide (action ∈ ["lift"; "close"; "stop"])
          then
            let r' := run net (latchBarrierAction conf id action
                                 (orDefault xSource "api")) w s in
            r = (r'.1.1, r'.1.2,
                 Ok match r'.2 with
                    | Ok _ =>
                        ActionReply (Barrier.name barrier) action
                          ((fun c => c + 1) <$> actionCoil barrier action)
                    | Error err => Failed 500 (Thrown err)
                    end)
          else r = (w, s, Ok (Failed 400 (UnknownActionText action)))
      end
  end.
Proof.
  intros _ _. cbv zeta. unfold postBarrier. cbv zeta.
  destruct (Api.parseInt idParam) as [id|]; [|split; [eexists|]; reflexivity].
  destruct (BARRIERS conf !! id) as [barrier|];
    [|split; [eexists|]; reflexivity].
  destruct (bool_decide (toLowerCase actionParam ∈ ["lift"; "close"; "stop"]));
    cbn [negb]; [|split; [eexists|]; reflexivity].
  rewrite run_tryCatch, run_bind.
  destruct (run net (latchBarrierAction conf id (toLowerCase actionParam)
                       (orDefault xSource "api")) w s) as [[w1 s1] [[]|e]];
    (split; [eexists|]; reflexivity).
Qed.

End RouteFacts.

Section WeakenFacts.

Import Async.

Context {St Req Ans E : Type}.

Lemma preserves_weaken (R R' : St -> St -> Prop) {A : Type}
    (m : Async St Req Ans E A) :
  (forall s s', R s s' -> R' s s') -> preserves R m -> preserves R' m.
Proof. intros H Hm net w s. apply H, Hm. Qed.

End WeakenFacts.

(** ** The audit ring and the console *)

Section LogFacts.

Import Buf Codec Async Server Routes.
Local Open Scope Z_scope.

Variable conf : Config.
Implicit Types (net : nat -> list NetEvent) (s : State)
  (w : Trace State Request (list NetEvent)).

Lemma sameLog_refl s : sameLog s s.
Proof. split; reflexivity. Qed.

Lemma sameLog_trans s1 s2 s3 : sameLog s1 s2 -> sameLog s2 s3 -> sameLog s1 s3.
Proof. intros [A1 A2] [B1 B2]. split; congruence. Qed.

Lemma sameRest_sameLog s s' : sameRest s s' -> sameLog s s'.
Proof. intros (_ & _ & _ & H1 & H2). split; assumption. Qed.

Ltac log_step := preserve_step sameLog_refl sameLog_trans.

Lemma writeCoil_sameLog key addr value :
  preserves sameLog (writeCoil conf key addr value).
Proof.
  apply (preserves_weaken sameRest); [apply sameRest_sameLog|].
  apply writeCoil_sameRest.
Qed.

Lemma cancelTimer_sameLog id s : sameLog s (cancelTimer id s).
Proof.
  unfold cancelTimer. destruct (closeTimers s !! id); split; reflexivity.
Qed.

Lemma actionWrites_sameLog id barrier action :
  preserves sameLog (actionWrites conf id barrier action).
Proof.
  unfold actionWrites, cancelCloseTimer, armCloseTimer.
  repeat first [ apply writeCoil_sameLog | log_step ].
  all: first [ apply cancelTimer_sameLog | split; reflexivity ].
Qed.

(** An action, one of lift, close and stop as the route passes them,
    leaves its mark in the audit ring and on the console exactly when it
    returns normally: one entry [barrier_<action>] with the barrier's
    name and id, the channel number (coil index plus one) and the source,
    pushed as the newest. An action that throws (unknown barrier, board
    not connected, a write that fails) leaves both as they were. *)
Theorem action_audited_iff_returned net id action source w s :
  action ∈ ["lift"; "close"; "stop"] ->
  let r := run net (latchBarrierAction conf id action source) w s in
  match r.2 with
  | Ok _ =>
      exists barrier, BARRIERS conf !! id = Some barrier /\
        let entry :=
          {| Server.action := "barrier_" +:+ action; Server.source := source;
             details := ActionDetails (Barrier.name barrier) id
                          ((fun c => c + 1) <$> actionCoil barrier action) |}
        in
        auditEntries r.1.2 = pushed entry (auditEntries s) /\
        console r.1.2 = console s ++ [LogAudit entry]
  | Error _ => sameLog s r.1.2
  end.
Proof.
  intros _. cbv zeta. unfold latchBarrierAction.
  rewrite run_bind, run_fromOption.
  destruct (BARRIERS conf !! id) as [barrier|];
    [|apply sameLog_refl].
  rewrite run_bind, run_getBoard_cases.
  destruct (boardState s !! Barrier.board barrier) as [b|];
    [|apply sameLog_refl].
  rewrite run_bind.
  destruct (reachable b); cbn [run].
  2:{ rewrite run_bind, run_boardCfg_cases.
      destruct (assoc (Barrier.board barrier) (BOARDS conf));
        apply sameLog_refl. }
  rewrite run_bind, run_setBoard, run_bind.
  unfold setBoard. rewrite run_tryFinally_modify.
  set (s1 := with_board (Barrier.board barrier) (set_commandLock true) s).
  pose proof (actionWrites_sameLog id barrier action net w s1) as [Ha Hc].
  destruct (run net (actionWrites conf id barrier action) w s1)
    as [[wb sb] [[]|e]]; cbn [fst snd] in Ha, Hc |- *.
  - rewrite run_audit. cbn [fst snd]. exists barrier.
    split; [reflexivity|]. cbv zeta.
    cbn [with_console with_auditEntries with_board auditEntries console].
    rewrite Ha, Hc. split; reflexivity.
  - split; cbn [with_board auditEntries console]; assumption.
Qed.

(** What [audit] does to the ring: the entry becomes the newest, the
    older ones keep their order, and only when the ring was full does
    the oldest leave. *)
Lemma pushed_spec (entry : AuditEntry) (entries : list AuditEntry) :
  (length entries <= MAX_AUDIT_ENTRIES)%nat ->
  last (pushed entry entries) = Some entry /\
  length (pushed entry entries)
  = Nat.min MAX_AUDIT_ENTRIES (S (length entries)) /\
  pushed entry entries
  = drop (S (length entries) - MAX_AUDIT_ENTRIES) (entries ++ [entry]).
Proof.
  intros Hl. unfold pushed. rewrite length_app. cbn [length].
  destruct (Nat.ltb_spec MAX_AUDIT_ENTRIES (length entries + 1)) as [H|H].
  - assert (length entries = MAX_AUDIT_ENTRIES) as Hfull by lia.
    replace (S (length entries) - MAX_AUDIT_ENTRIES)%nat with 1%nat by lia.
    split; [|split; [|reflexivity]].
    + destruct entries as [|e0 es]; [discriminate Hfull|].
      cbn [app drop]. apply last_snoc.
    + rewrite length_drop, length_app. cbn [length]. lia.
  - replace (S (length entries) - MAX_AUDIT_ENTRIES)%nat with 0%nat by lia.
    split; [apply last_snoc|]. split; [|reflexivity].
    rewrite length_app. cbn [length]. lia.
Qed.

Lemma keepsBound_refl s : keepsBound s s.
Proof. intros H. exact H. Qed.

Lemma keepsBound_trans s1 s2 s3 :
  keepsBound s1 s2 -> keepsBound s2 s3 -> keepsBound s1 s3.
Proof. unfold keepsBound. tauto. Qed.

Lemma sameLog_keepsBound s s' : sameLog s s' -> keepsBound s s'.
Proof. intros [H _]. unfold keepsBound, auditBounded. rewrite H. tauto. Qed.

Lemma audit_keepsBound action details source :
  preserves keepsBound (audit action details source).
Proof.
  intros net w s Hb. rewrite run_audit. cbn [fst snd].
  unfold auditBounded in *.
  cbn [with_console with_auditEntries auditEntries].
  destruct (pushed_spec {| Server.action := action; Server.source := source;
                           details := details |} (auditEntries s) Hb)
    as (_ & -> & _).
  lia.
Qed.

End LogFacts.

Section BoundFacts.

Import Buf Codec Async Server Routes.
Local Open Scope Z_scope.

Variable conf : Config.
Implicit Types (net : nat -> list NetEvent) (s : State)
  (w : Trace State Request (list NetEvent)).

Ltac bound_step := preserve_step keepsBound_refl keepsBound_trans.
Ltac bound_leaf := try (intros H; exact H).

Lemma modbusRequest_keepsBound key fc data :
  preserves keepsBound (modbusRequest conf key fc data).
Proof.
  apply (preserves_weaken sameRest);
    [intros s s' H; apply sameLog_keepsBound, sameRest_sameLog, H|].
  apply modbusRequest_sameRest.
Qed.

Lemma writeCoil_keepsBound key addr value :
  preserves keepsBound (writeCoil conf key addr value).
Proof.
  unfold writeCoil.
  repeat first [ apply modbusRequest_keepsBound | bound_step ].
Qed.

Lemma readCoils_keepsBound key startAddr qty :
  preserves keepsBound (readCoils conf key startAddr qty).
Proof.
  unfold readCoils.
  repeat first [ apply modbusRequest_keepsBound | bound_step ].
Qed.

Lemma heartbeatBoard_keepsBound key :
  preserves keepsBound (heartbeatBoard conf key).
Proof.
  unfold heartbeatBoard, autoDetectBoard, boardCfg, getBoard, setBoard, log.
  repeat first
    [ apply modbusRequest_keepsBound | apply readCoils_keepsBound
    | bound_step ].
  all: bound_leaf.
Qed.

Lemma latchBarrierAction_keepsBound id action source :
  preserves keepsBound (latchBarrierAction conf id action source).
Proof.
  unfold latchBarrierAction, actionWrites, cancelCloseTimer, armCloseTimer,
    boardCfg, getBoard, setBoard.
  repeat first
    [ apply writeCoil_keepsBound | apply audit_keepsBound | bound_step ].
  all: bound_leaf.
  all: apply sameLog_keepsBound, cancelTimer_sameLog.
Qed.

Lemma emergencyOff_keepsBound source :
  preserves keepsBound (emergencyOff conf source).
Proof.
  unfold emergencyOff, cancelAllCloseTimers.
  repeat first [ apply audit_keepsBound | bound_step ].
  - apply (preserves_weaken sameRest);
      [intros s s' H; apply sameLog_keepsBound, sameRest_sameLog, H|].
    apply sweepBoards_sameRest.
  - unfold keepsBound, auditBounded.
    destruct (cancelAll_fields s) as (_ & -> & _). tauto.
Qed.

Lemma fireTimer_keepsBound h : preserves keepsBound (fireTimer conf h).
Proof.
  intros net w s. unfold fireTimer. cbn [run].
  destruct (pendingTask h (timers s)) as [[id]|]; [|apply keepsBound_refl].
  cbn [run].
  assert (preserves keepsBound (closeAutoRelease conf id)) as H.
  { unfold closeAutoRelease, log.
    repeat first
      [ apply writeCoil_keepsBound | apply audit_keepsBound | bound_step ].
    all: bound_leaf. }
  exact (H net w (clearTimeout h s)).
Qed.

Lemma runEvents_keepsBound net evs w s :
  keepsBound s (runEvents conf net evs w s).2.
Proof.
  revert w s. induction evs as [|ev evs IH]; intros w s; cbn [runEvents].
  - apply keepsBound_refl.
  - eapply keepsBound_trans; [|apply IH].
    destruct ev; cbn [handler].
    + apply latchBarrierAction_keepsBound.
    + apply emergencyOff_keepsBound.
    + apply heartbeatBoard_keepsBound.
    + apply fireTimer_keepsBound.
Qed.

(** The audit ring never holds more than 500 entries, whatever the
    process has handled since it started. [audit] puts its entry last;
    the ring grows by one until it is full, after which each new entry
    pushes the oldest out and the others keep their order. *)
Theorem audit_ring_keeps_last_500 net :
  (forall evs,
     (length (auditEntries (runEvents conf net evs [] (initState conf)).2)
      <= 500)%nat) /\
  (forall action details source w s,
     (length (auditEntries s) <= 500)%nat ->
     let entry := {| Server.action := action; Server.source := source;
                     details := details |} in
     let s' := (run net (audit action details source) w s).1.2 in
     last (auditEntries s') = Some entry /\
     length (auditEntries s') = Nat.min 500 (S (length (auditEntries s))) /\
     auditEntries s'
     = drop (S (length (auditEntries s)) - 500) (auditEntries s ++ [entry])).
Proof.
  split.
  - intros evs. apply (runEvents_keepsBound net evs [] (initState conf)).
    unfold auditBounded. cbn. lia.
  - intros action details source w s Hb entry s'. unfold s'.
    rewrite run_audit.
    cbn [fst snd with_console with_auditEntries auditEntries].
    apply (pushed_spec entry (auditEntries s) Hb).
Qed.

End BoundFacts.

(** ** The heartbeat and the auto-release callback *)

Section BeatFacts.

Import Buf Codec Async Server Routes.
Local Open Scope Z_scope.

Variable conf : Config.
Implicit Types (net : nat -> list NetEvent) (s : State)
  (w : Trace State Request (list NetEvent)).

(** A heartbeat on a board whose dialect is known and whose gate flag is
    down makes one Read Coils request for all channels and never throws.
    If the read succeeds the snapshot is replaced and the board is
    reachable; if it fails the board is unreachable, its dialect is
    forgotten and the old snapshot stays. The console gets a line only
    when reachability changes: going online with the coils read, going
    offline with the error. Nothing else of the state moves but the
    board's transaction counter. *)
Theorem heartbeat_reports_edges net key cfg b w s :
  assoc key (BOARDS conf) = Some cfg ->
  boardState s !! key = Some b ->
  wfBoard cfg ->
  commandLock b = false -> modeDetected b = true ->
  exists e s' b',
    run net (heartbeatBoard conf key) w s = (w ++ [e], s', Ok tt) /\
    logical e = (key, x01, readData 0 (BoardCfg.channels cfg)) /\
    boardState s' !! key = Some b' /\
    useRTU b' = useRTU b /\ commandLock b' = false /\
    match settle (useRTU b) [] (net (length w)) with
    | Ok pdu =>
        reachable b' = true /\ modeDetected b' = true /\
        coils b' = unpackCoils pdu (BoardCfg.channels cfg) /\
        console s'
        = console s ++
          (if reachable b then []
           else [LogOnline (BoardCfg.name cfg) (coils b')])
    | Error err =>
        reachable b' = false /\ modeDetected b' = false /\
        coils b' = coils b /\
        console s'
        = console s ++
          (if reachable b then [LogOffline (BoardCfg.name cfg) err] else [])
    end /\
    auditEntries s' = auditEntries s /\ sameTimers s s' /\
    forall k, k <> key -> boardState s' !! k = boardState s !! k.
Proof.
  intros Hc Hb Hwf Hl Hm.
  rewrite (run_heartbeatBoard_detected conf net key cfg b w s Hc Hb Hwf Hl Hm).
  cbv zeta.
  destruct (boardState_afterSend key key s) as [t Ht]. rewrite Hb in Ht.
  cbn [fmap option_fmap option_map] in Ht.
  destruct (afterSend_fields key s) as (F1 & F2 & F3 & F4 & F5).
  assert (forall k, k <> key ->
            boardState (afterSend key s) !! k = boardState s !! k) as Hother.
  { intros k Hk. unfold afterSend. rewrite Hb.
    destruct (useRTU b); [reflexivity|].
    apply boardState_with_board_ne. congruence. }
  assert (sameTimers s (afterSend key s)) as Hst
    by (unfold sameTimers, timerPart; rewrite F1, F2, F3; reflexivity).
  destruct (settle (useRTU b) [] (net (length w))) as [pdu|err];
    destruct (reachable b) eqn:Hr; eexists _, _, _;
    (split; [reflexivity|]); (split; [reflexivity|]).
  all: repeat first
         [ rewrite boardState_with_board_eq | rewrite Ht
         | progress cbn [with_console boardState console auditEntries
                         fmap option_fmap option_map] ].
  all: cbn [set_coils set_reachable set_modeDetected set_transactionId
            useRTU commandLock reachable modeDetected coils].
  all: (split; [reflexivity|]). all: (split; [reflexivity|]).
  all: (split; [exact Hl|]).
  all: split;
    [repeat split; try assumption;
     cbn [with_board with_console console]; rewrite F5, ?app_nil_r;
     reflexivity|].
  all: split; [cbn [with_board with_console auditEntries]; exact F4|].
  all: split;
    [unfold sameTimers, timerPart;
     cbn [with_board with_console closeTimers timers nextTimer];
     rewrite F1, F2, F3; reflexivity|].
  all: intros k Hk;
    repeat first [ rewrite boardState_with_board_ne by congruence
                 | progress cbn [with_console boardState] ];
    apply Hother, Hk.
Qed.

End BeatFacts.

Section ReleaseFacts.

Import Buf Codec Async Server Routes.
Local Open Scope Z_scope.

Variable conf : Config.
Implicit Types (net : nat -> list NetEvent) (s : State)
  (w : Trace State Request (list NetEvent)).

Lemma pendingTask_member h (ts : list (nat * TimerTask)) task :
  NoDup ts.*1 -> (h, task) ∈ ts -> pendingTask h ts = Some task.
Proof.
  intros Hnd Hin. unfold pendingTask.
  induction ts as [|[h0 t0] ts IH]; [inversion Hin|].
  cbn [fmap list_fmap fst] in Hnd. apply NoDup_cons in Hnd as [Hh0 Hnd].
  cbn [find fst]. apply elem_of_cons in Hin as [[= <- <-]|Hin].
  - rewrite bool_decide_eq_true_2 by reflexivity. reflexivity.
  - rewrite bool_decide_eq_false_2; [apply IH; assumption|].
    intros ->. apply Hh0. apply list_elem_of_fmap. exists (h, task).
    split; [reflexivity|exact Hin].
Qed.

(** The auto-release of a close, when its timeout comes due and its
    callback runs to its end: one write switching the close coil off,
    issued without the gate flag being raised. If the board acknowledges,
    a [close_auto_release] entry of source [system] is pushed to the
    audit ring; if not, the failure is logged and nothing is retried.
    Either way the callback does not throw, the handle leaves the pending
    timeouts and no other does, the barrier's record in [closeTimers] is
    cleared whatever handle it held, and the handle coming due again runs
    nothing. When the timeout was the recorded one and the only one of
    its barrier, the barrier is left without. *)
Theorem close_auto_release_fires_once net h id barrier cfg w s :
  BARRIERS conf !! id = Some barrier ->
  assoc (Barrier.board barrier) (BOARDS conf) = Some cfg ->
  0 <= BoardCfg.unitId cfg <= 255 ->
  is_Some (boardState s !! Barrier.board barrier) ->
  0 <= Barrier.close barrier <= 65535 ->
  pendingTask h (timers s) = Some (CloseRelease id) ->
  exists x s',
    run net (fireTimer conf h) w s = (w ++ [x], s', Ok tt) /\
    logical x
    = (Barrier.board barrier, x05, coilData (Barrier.close barrier) false) /\
    commandLock <$> boardState x.2 !! Barrier.board barrier
    = commandLock <$> boardState s !! Barrier.board barrier /\
    closeTimers s' = delete id (closeTimers s) /\
    timers s' = filter (fun t => bool_decide (t.1 <> h)) (timers s) /\
    (timersOk s -> pendingFor id s' = []) /\
    (let entry := {| Server.action := "close_auto_release";
                     Server.source := "system";
                     details := ReleaseDetails (Barrier.name barrier) |} in
     if acked x
     then auditEntries s' = pushed entry (auditEntries s) /\
          console s' = console s ++ [LogAudit entry]
     else auditEntries s' = auditEntries s /\
          exists e,
            console s'
            = console s ++ [LogReleaseFailed (Barrier.name barrier) e]) /\
    run net (fireTimer conf h) (w ++ [x]) s' = (w ++ [x], s', Ok tt).
Proof.
  intros Hbar Hc Hu [b Hb] Hcl Hp.
  assert ((h, CloseRelease id) ∈ timers s) as Hin.
  { unfold pendingTask in Hp.
    destruct (find _ (timers s)) as [[h' t]|] eqn:E; [|discriminate Hp].
    injection Hp as ->. apply find_some in E as [Hin Hh].
    apply bool_decide_eq_true in Hh. cbn in Hh. subst h'.
    apply list_elem_of_In, Hin. }
  unfold fireTimer at 1. cbn [run]. rewrite Hp. cbn [run].
  set (s0 := clearTimeout h s).
  assert (boardState s0 !! Barrier.board barrier = Some b) as Hb0 by exact Hb.
  unfold closeAutoRelease. rewrite run_bind, run_fromOption, Hbar.
  rewrite run_bind, run_tryCatch, run_bind.
  rewrite (run_writeCoil conf net _ _ false w s0 cfg b Hc Hb0 Hu Hcl).
  set (x := (requestOf (Barrier.board barrier) cfg b x05
               (coilData (Barrier.close barrier) false),
             net (length w), afterSend (Barrier.board barrier) s0)).
  destruct (boardState_afterSend (Barrier.board barrier)
              (Barrier.board barrier) s0) as [tf Htf].
  rewrite Hb0 in Htf.
  assert (acked x = settled (useRTU b) (net (length w))) as Hack.
  { unfold acked, x. cbn [fst snd requestOf to_board].
    rewrite Htf. reflexivity. }
  assert (commandLock <$> boardState x.2 !! Barrier.board barrier
          = commandLock <$> boardState s !! Barrier.board barrier) as Hgate.
  { unfold x. cbn [snd]. rewrite Htf, Hb. reflexivity. }
  destruct (afterSend_fields (Barrier.board barrier) s0)
    as (F1 & F2 & F3 & F4 & F5).
  assert (forall s1, timers s1 = timers s0 -> timersOk s ->
            pendingFor id (forgetTimer id s1) = []) as Hnone.
  { intros s1 Ht (Htr & _ & _). apply pendingFor_nil. intros h' Hin'.
    cbn [forgetTimer with_timers timers] in Hin'. rewrite Ht in Hin'.
    cbn [s0 clearTimeout with_timers timers] in Hin'.
    apply list_elem_of_filter in Hin' as [Hne Hin'].
    apply bool_decide_spec in Hne. cbn [fst] in Hne.
    pose proof (Htr _ _ Hin') as E1. pose proof (Htr _ _ Hin) as E2.
    congruence. }
  assert (forall s1 w1, timers s1 = timers s0 ->
            run net (fireTimer conf h) w1 (forgetTimer id s1)
            = (w1, forgetTimer id s1, Ok tt)) as Hagain.
  { intros s1 w1 Ht. unfold fireTimer. cbn [run].
    rewrite pendingTask_None; [reflexivity|].
    cbn [forgetTimer with_timers timers]. rewrite Ht.
    cbn [s0 clearTimeout with_timers timers].
    intros Hh. apply list_elem_of_fmap in Hh as ([h' t'] & E & Hh).
    apply list_elem_of_filter in Hh as [Hne _].
    apply bool_decide_spec in Hne. cbn [fst] in *. congruence. }
  exists x. unfold settled in Hack.
  destruct (settle (useRTU b) [] (net (length w))) as [pdu|e].
  - rewrite run_audit. cbn [run modify fst snd].
    eexists. split; [reflexivity|]. split; [reflexivity|].
    split; [exact Hgate|].
    split.
    { cbn [forgetTimer with_timers with_console with_auditEntries
             closeTimers]. rewrite F1. reflexivity. }
    split.
    { cbn [forgetTimer with_timers with_console with_auditEntries timers].
      rewrite F2. reflexivity. }
    split; [apply Hnone; cbn [with_console with_auditEntries timers];
            exact F2|].
    split.
    + cbv zeta. rewrite Hack.
      cbn [forgetTimer with_timers with_console with_auditEntries
             auditEntries console].
      rewrite F4, F5. split; reflexivity.
    + apply Hagain. cbn [with_console with_auditEntries timers]. exact F2.
  - rewrite run_log. cbn [run modify fst snd].
    eexists. split; [reflexivity|]. split; [reflexivity|].
    split; [exact Hgate|].
    split.
    { cbn [forgetTimer with_timers with_console closeTimers].
      rewrite F1. reflexivity. }
    split.
    { cbn [forgetTimer with_timers with_console timers].
      rewrite F2. reflexivity. }
    split; [apply Hnone; cbn [with_console timers]; exact F2|].
    split.
    + cbv zeta. rewrite Hack.
      cbn [forgetTimer with_timers with_console auditEntries console].
      rewrite F4, F5. split; [reflexivity|]. exists e. reflexivity.
    + apply Hagain. cbn [with_console timers]. exact F2.
Qed.

End ReleaseFacts.

(** ** The status route *)

Section StatusFacts.

Import Buf Codec Async Server Routes.
Local Open Scope Z_scope.

Variable conf : Config.
Implicit Types (net : nat -> list NetEvent) (s : State)
  (w : Trace State Request (list NetEvent)).

Lemma run_refreshCoils_cons net kc rest w s :
  run net (refreshCoils conf (kc :: rest)) w s
  = match run net (refreshCoils conf [kc]) w s with
    | (w1, s1, Ok _) => run net (refreshCoils conf rest) w1 s1
    | (w1, s1, Error e) => (w1, s1, Error e)
    end.
Proof.
  destruct kc as [key cfg]. cbn [refreshCoils].
  rewrite !run_bind.
  destruct (run net (getBoard key) w s) as [[w0 s0] [b|e]]; [|reflexivity].
  rewrite !run_bind.
  match goal with
  | |- context [run net ?m w0 s0] =>
      destruct (run net m w0 s0) as [[w1 s1] [[]|e]]; reflexivity
  end.
Qed.

(** One turn of the loop. *)
Lemma run_refreshCoils_one net key cfg b w s :
  assoc key (BOARDS conf) = Some cfg ->
  wfBoard cfg ->
  boardState s !! key = Some b ->
  exists w1 s1 b1,
    run net (refreshCoils conf [(key, cfg)]) w s = (w ++ w1, s1, Ok tt) /\
    sameRest s s1 /\
    boardState s1 !! key = Some b1 /\
    (forall k, k <> key -> boardState s1 !! k = boardState s !! k) /\
    modeDetected b1 = modeDetected b /\ useRTU b1 = useRTU b /\
    commandLock b1 = commandLock b /\
    if reachable b && negb (commandLock b)
    then exists x, w1 = [x] /\
           logical x = (key, x01, readData 0 (BoardCfg.channels cfg)) /\
           match settle (useRTU b) [] x.1.2 with
           | Ok pdu => reachable b1 = true /\
                       coils b1 = unpackCoils pdu (BoardCfg.channels cfg)
           | Error _ => reachable b1 = false /\ coils b1 = coils b
           end
    else w1 = [] /\ b1 = b.
Proof.
  intros Hc [Hu Hch] Hb. cbn [refreshCoils].
  rewrite run_bind, (run_getBoard net key w s b Hb), run_bind.
  destruct (reachable b && negb (commandLock b)) eqn:Hgo.
  - rewrite run_tryCatch, run_bind.
    rewrite (run_readCoils conf net key 0 _ w s cfg b Hc Hb Hu) by lia.
    destruct (boardState_afterSend key key s) as [t Ht]. rewrite Hb in Ht.
    cbn [fmap option_fmap option_map] in Ht.
    destruct (afterSend_fields key s) as (F1 & F2 & F3 & F4 & F5).
    assert (forall k, k <> key ->
              boardState (afterSend key s) !! k = boardState s !! k) as Hother.
    { intros k Hk. unfold afterSend. rewrite Hb.
      destruct (useRTU b); [reflexivity|].
      apply boardState_with_board_ne. congruence. }
    destruct (settle (useRTU b) [] (net (length w))) as [pdu|err] eqn:Hs;
      rewrite run_setBoard; cbn [run]; eexists [_], _, _;
      (split; [reflexivity|]).
    all: split; [repeat split; cbn [with_board closeTimers timers nextTimer
                                    auditEntries console]; assumption|].
    all: split; [rewrite boardState_with_board_eq, Ht; reflexivity|].
    all: split; [intros k Hk; rewrite boardState_with_board_ne by congruence;
                 apply Hother, Hk|].
    all: repeat (split; [reflexivity|]).
    all: eexists; split; [reflexivity|]; split; [reflexivity|].
    all: cbn [fst snd]; rewrite Hs; split; try reflexivity.
    apply andb_true_iff in Hgo as [Hr _]. exact Hr || reflexivity.
  - cbn [run]. exists [], s, b. rewrite app_nil_r.
    split; [reflexivity|]. split; [repeat split|]. split; [exact Hb|].
    repeat split.
Qed.

Lemma statusReads_ext boards s s' :
  (forall kc, kc ∈ boards -> boardState s' !! kc.1 = boardState s !! kc.1) ->
  statusReads boards s' = statusReads boards s.
Proof.
  induction boards as [|kc rest IH]; intros H; [reflexivity|].
  cbn [statusReads flat_map]. rewrite (H kc) by left.
  f_equal. apply IH. intros kc' Hin. apply H. right. exact Hin.
Qed.

Lemma run_refreshCoils net boards w s :
  (forall key cfg, (key, cfg) ∈ boards ->
     assoc key (BOARDS conf) = Some cfg /\ wfBoard cfg /\
     is_Some (boardState s !! key)) ->
  NoDup boards.*1 ->
  exists w1 s',
    run net (refreshCoils conf boards) w s = (w ++ w1, s', Ok tt) /\
    map logical w1 = statusReads boards s /\
    sameRest s s' /\
    (forall k, k ∉ boards.*1 -> boardState s' !! k = boardState s !! k) /\
    (forall k b, boardState s !! k = Some b ->
       exists b', boardState s' !! k = Some b' /\
         modeDetected b' = modeDetected b /\ useRTU b' = useRTU b /\
         commandLock b' = commandLock b) /\
    Forall (fun x =>
      exists cfg b b',
        (to_board x.1.1, cfg) ∈ boards /\
        boardState s !! to_board x.1.1 = Some b /\
        boardState s' !! to_board x.1.1 = Some b' /\
        match settle (useRTU b) [] x.1.2 with
        | Ok pdu => reachable b' = true /\
                    coils b' = unpackCoils pdu (BoardCfg.channels cfg)
        | Error _ => reachable b' = false /\ coils b' = coils b
        end) w1.
Proof.
  revert w s. induction boards as [|[key cfg] rest IH]; intros w s Hreg Hnd.
  - exists [], s. rewrite app_nil_r. cbn [refreshCoils run].
    split; [reflexivity|]. split; [reflexivity|].
    split; [apply sameRest_refl|]. split; [reflexivity|].
    split; [eauto|constructor].
  - cbn [fmap list_fmap fst] in Hnd. apply NoDup_cons in Hnd as [Hkey Hnd].
    destruct (Hreg key cfg ltac:(left)) as (Hc & Hwf & [b Hb]).
    rewrite run_refreshCoils_cons.
    destruct (run_refreshCoils_one net key cfg b w s Hc Hwf Hb)
      as (w1 & s1 & b1 & -> & Hrest1 & Hb1 & Hoth1 & Hm1 & Hr1 & Hl1 & Hcase).
    assert (forall k c, (k, c) ∈ rest -> k <> key) as Hne.
    { intros k c Hin ->. apply Hkey. apply list_elem_of_fmap.
      exists (key, c). split; [reflexivity|exact Hin]. }
    destruct (IH (w ++ w1) s1) as (w2 & s' & -> & Hlog2 & Hrest2 & Hoth2
                                    & Hflags2 & Hall2).
    { intros k c Hin. destruct (Hreg k c ltac:(right; exact Hin))
        as (Hkc & Hwfc & Hsome).
      split; [exact Hkc|]. split; [exact Hwfc|].
      rewrite Hoth1 by (eapply Hne; exact Hin). exact Hsome. }
    { exact Hnd. }
    assert (boardState s' !! key = Some b1) as Hb'
      by (rewrite Hoth2 by exact Hkey; exact Hb1).
    exists (w1 ++ w2), s'. split; [rewrite app_assoc; reflexivity|].
    split; [|split; [|split; [|split]]].
    + rewrite map_app, Hlog2.
      rewrite (statusReads_ext rest s s1)
        by (intros [k c] Hin; apply Hoth1; eapply Hne; exact Hin).
      cbn [statusReads flat_map fst snd]. rewrite Hb. f_equal.
      destruct (reachable b && negb (commandLock b)).
      * destruct Hcase as (x & -> & Hx & _). cbn [map]. rewrite Hx.
        reflexivity.
      * destruct Hcase as [-> _]. reflexivity.
    + eapply sameRest_trans; eassumption.
    + intros k Hk. cbn [fmap list_fmap fst] in Hk.
      apply not_elem_of_cons in Hk as [Hk1 Hk2].
      rewrite Hoth2 by exact Hk2. apply Hoth1, Hk1.
    + intros k bk Hbk. destruct (decide (k = key)) as [->|Hk].
      * rewrite Hb in Hbk. injection Hbk as <-.
        destruct (Hflags2 key b1 Hb1) as (b' & Hb2 & E1 & E2 & E3).
        exists b'. split; [exact Hb2|]. repeat split; congruence.
      * apply Hflags2. rewrite Hoth1 by exact Hk. exact Hbk.
    + apply Forall_app. split.
      * destruct (reachable b && negb (commandLock b)).
        -- destruct Hcase as (x & -> & Hx & Hres).
           constructor; [|constructor].
           injection Hx as Hxk _ _. rewrite Hxk.
           exists cfg, b, b1. split; [left|]. repeat split; assumption.
        -- destruct Hcase as [-> _]. constructor.
      * eapply Forall_impl; [exact Hall2|].
        intros x (c & bx & bx' & Hxc & Hxb & Hxb' & Hres).
        exists c, bx, bx'. split; [right; exact Hxc|].
        split; [|split; assumption].
        rewrite <- Hoth1 by (eapply Hne; exact Hxc). exact Hxb.
Qed.

(** [GET /api/status] reads the coils of every board that is reachable
    and whose gate flag is down, in registry order, and of no other. A
    read that succeeds replaces the board's snapshot; one that fails
    marks the board unreachable and keeps the old snapshot, without
    forgetting the dialect and without failing the route: with every
    configured board registered the answer is always the status, built
    from the snapshots as they are after the reads. No gate flag is
    raised, and audit ring, console and timers are not touched. *)
Theorem getStatus_polls_and_reports net w s :
  wfConfig conf -> registered conf s ->
  exists w1 s' st,
    run net (getStatus conf) w s = (w ++ w1, s', Ok (StatusReply st)) /\
    map logical w1 = statusReads (BOARDS conf) s /\
    getFullStatus conf s' = Ok st /\
    sameRest s s' /\
    (forall k b, boardState s !! k = Some b ->
       exists b', boardState s' !! k = Some b' /\
         modeDetected b' = modeDetected b /\ useRTU b' = useRTU b /\
         commandLock b' = commandLock b) /\
    Forall (fun x =>
      exists cfg b b',
        (to_board x.1.1, cfg) ∈ BOARDS conf /\
        boardState s !! to_board x.1.1 = Some b /\
        boardState s' !! to_board x.1.1 = Some b' /\
        match settle (useRTU b) [] x.1.2 with
        | Ok pdu => reachable b' = true /\
                    coils b' = unpackCoils pdu (BoardCfg.channels cfg)
        | Error _ => reachable b' = false /\ coils b' = coils b
        end) w1.
Proof.
  intros Hwf Hreg.
  pose proof (wfConfig_boards conf s Hwf Hreg) as Hboards.
  destruct Hwf as (Hwfb & Hnd & Hon).
  destruct (run_refreshCoils net (BOARDS conf) w s Hboards Hnd)
    as (w1 & s' & Hrun & Hlog & Hrest & _ & Hflags & Hall).
  assert (exists st, getFullStatus conf s' = Ok st) as [st Hst].
  { assert (forall k, is_Some (boardState s !! k) ->
              is_Some (boardState s' !! k)) as Hsome.
    { intros k [b Hb]. destruct (Hflags k b Hb) as (b' & Hb' & _). eauto. }
    unfold getFullStatus.
    assert (forall l : list (Z * Barrier.t),
              (forall e, e ∈ l -> BARRIERS conf !! e.1 = Some e.2) ->
              exists bs, mapM (barrierStatus s') l = Ok bs) as Hbars.
    { induction l as [|e l IH]; intros Hl; [eexists; reflexivity|].
      destruct IH as [bs Hbs]; [intros e' He'; apply Hl; right; exact He'|].
      cbn [mapM]. unfold barrierStatus at 1.
      destruct (Hon e.1 e.2 (Hl e ltac:(left))) as [cfg Hcfg].
      destruct (Hsome _ (Hreg _ _ Hcfg)) as [b' ->]. rewrite Hbs.
      eexists. reflexivity. }
    destruct (Hbars (entries (BARRIERS conf))) as [bs ->].
    { intros [k v] He. unfold entries in He.
      rewrite merge_sort_Permutation in He.
      apply elem_of_map_to_list in He. exact He. }
    assert (forall l : list (string * BoardCfg.t),
              (forall e, e ∈ l -> e ∈ BOARDS conf) ->
              exists bs, mapM (boardStatus s') l = Ok bs) as Hbds.
    { induction l as [|e l IH]; intros Hl; [eexists; reflexivity|].
      destruct IH as [bs' Hbs]; [intros e' He'; apply Hl; right; exact He'|].
      destruct e as [k c]. cbn [mapM]. unfold boardStatus at 1.
      cbn [fst snd].
      destruct (Hboards k c (Hl _ ltac:(left))) as (_ & _ & Hk).
      destruct (Hsome _ Hk) as [b' ->]. rewrite Hbs.
      eexists. reflexivity. }
    destruct (Hbds (BOARDS conf)) as [bds ->]; [auto|].
    eexists. reflexivity. }
  exists w1, s', st. split.
  - unfold getStatus. rewrite run_tryCatch, run_bind, Hrun, run_bind.
    cbn [run]. rewrite Hst. reflexivity.
  - split; [exact Hlog|]. split; [exact Hst|]. split; [exact Hrest|].
    split; [exact Hflags|exact Hall].
Qed.

End StatusFacts.

(** ** Programs on a part of the state *)

Section ZoomFacts.

Import Async Routes.

Context {S1 S2 Req Ans E : Type}.
Variable get : S2 -> S1.
Variable put : S1 -> S2 -> S2.
Hypothesis get_put : forall a p, get (put a p) = a.
Hypothesis put_put : forall a a' p, put a (put a' p) = put a p.
Hypothesis put_get : forall p, put (get p) p = p.

(** The zoomed program does on the whole state what the program does on
    the part: the same requests, answered alike, the same result. *)
Lemma run_zoom {A : Type} (net : nat -> Ans) (m : Async S1 Req Ans E A)
    (w1 : Trace S1 Req Ans) (w2 : Trace S2 Req Ans) (p : S2) :
  length w2 = length w1 ->
  run net (zoom get put m) w2 p
  = (w2 ++ ((fun x => (x.1, put x.2 p))
            <$> drop (length w1) (run net m w1 (get p)).1.1),
     put (run net m w1 (get p)).1.2 p,
     (run net m w1 (get p)).2).
Proof.
  revert w1 w2 p. induction m as [a|e|k IH|s1 k IH|r k IH];
    intros w1 w2 p Hl; cbn [zoom run fst snd].
  - rewrite drop_all, put_get. cbn. rewrite app_nil_r. reflexivity.
  - rewrite drop_all, put_get. cbn. rewrite app_nil_r. reflexivity.
  - apply IH, Hl.
  - rewrite (IH w1 w2 (put s1 p) Hl), get_put.
    do 2 f_equal; [|apply put_put].
    f_equal. apply list_fmap_ext. intros i x _. cbn. f_equal. apply put_put.
  - rewrite Hl.
    rewrite (IH (net (length w1)) (w1 ++ [(r, net (length w1), get p)])
               (w2 ++ [(r, net (length w1), p)]) p)
      by (rewrite !length_app; cbn; lia).
    destruct (run_trace_extends net (k (net (length w1)))
                (w1 ++ [(r, net (length w1), get p)]) (get p)) as [t Ht].
    rewrite Ht. rewrite (drop_app_length (w1 ++ [_]) t).
    rewrite <- (app_assoc w1 [_] t), (drop_app_length w1).
    cbn [app fmap list_fmap fst snd]. rewrite put_get, <- app_assoc.
    reflexivity.
Qed.

End ZoomFacts.

(** ** Shutdown *)

Section ShutdownFacts.

Import Buf Codec Async Server Routes.
Local Open Scope Z_scope.

Variable conf : Config.
Implicit Types (net : nat -> list NetEvent) (s : State)
  (w : Trace State Request (list NetEvent)).

Ltac rest_step := preserve_step sameRest_refl sameRest_trans.
Ltac dialect_step := preserve_step sameDialect_refl sameDialect_trans.

Lemma offChannels_sameRest key from turns :
  preserves sameRest (offChannels conf key from turns).
Proof.
  revert from. induction turns as [|turns IH]; intros from; simpl.
  - rest_step.
  - repeat first [ apply writeCoil_sameRest | apply IH | rest_step ].
Qed.

Lemma offBoards_sameRest boards :
  preserves sameRest (offBoards conf boards).
Proof.
  induction boards as [|[key cfg] rest IH]; simpl.
  - rest_step.
  - unfold getBoard.
    repeat first [ apply IH | apply offChannels_sameRest | rest_step ].
Qed.

Lemma offChannels_sameDialect key from turns :
  preserves sameDialect (offChannels conf key from turns).
Proof.
  revert from. induction turns as [|turns IH]; intros from; simpl.
  - dialect_step.
  - repeat first [ apply writeCoil_sameDialect | apply IH | dialect_step ].
Qed.

Lemma offBoards_sameDialect boards :
  preserves sameDialect (offBoards conf boards).
Proof.
  induction boards as [|[key cfg] rest IH]; simpl.
  - dialect_step.
  - unfold getBoard.
    repeat first [ apply IH | apply offChannels_sameDialect | dialect_step ].
Qed.

(** The sweep of one board at shutdown issues the write for every
    channel, whatever the earlier ones came to. *)
Lemma run_offChannels net key cfg turns from w s :
  assoc key (BOARDS conf) = Some cfg ->
  0 <= BoardCfg.unitId cfg <= 255 ->
  is_Some (boardState s !! key) ->
  0 <= from -> from + Z.of_nat turns <= 65536 ->
  exists w1 s',
    run net (offChannels conf key from turns) w s = (w ++ w1, s', Ok tt) /\
    map logical w1 = sweepCalls key from turns.
Proof.
  intros Hc Hu. revert from w s.
  induction turns as [|turns IH]; intros from w s Hb Hf Ht.
  - exists [], s. rewrite app_nil_r. split; reflexivity.
  - cbn [offChannels]. rewrite run_bind, run_tryCatch.
    destruct Hb as [b Hb].
    rewrite (run_writeCoil conf net key from false w s cfg b Hc Hb Hu)
      by lia.
    destruct (IH (from + 1) (w ++ [(requestOf key cfg b x05
                                      (coilData from false),
                                    net (length w), afterSend key s)])
                 (afterSend key s))
      as (w1 & s' & Hrun & Hlog);
      [apply is_Some_afterSend; eauto|lia..|].
    exists ((requestOf key cfg b x05 (coilData from false),
             net (length w), afterSend key s) :: w1), s'. split.
    + destruct (settle (useRTU b) [] (net (length w))); cbn [run];
        rewrite Hrun, <- app_assoc; reflexivity.
    + cbn [map]. rewrite Hlog, sweepCalls_S. reflexivity.
Qed.

Lemma run_offBoards net boards w s :
  (forall key cfg, (key, cfg) ∈ boards ->
     assoc key (BOARDS conf) = Some cfg /\ wfBoard cfg /\
     is_Some (boardState s !! key)) ->
  exists w1 s',
    run net (offBoards conf boards) w s = (w ++ w1, s', Ok tt) /\
    map logical w1 = fullSweep boards s /\
    sameRest s s' /\ sameDialect s s'.
Proof.
  intros Hreg.
  pose proof (offBoards_sameRest boards net w s) as Hrest.
  pose proof (offBoards_sameDialect boards net w s) as Hdia.
  enough (exists w1,
            (run net (offBoards conf boards) w s).1.1 = w ++ w1 /\
            (run net (offBoards conf boards) w s).2 = Ok tt /\
            map logical w1 = fullSweep boards s) as (w1 & H1 & H2 & H3).
  { destruct (run net (offBoards conf boards) w s) as [[w' s'] r].
    cbn [fst snd] in *. subst. eauto 10. }
  clear Hrest Hdia. revert w s Hreg.
  induction boards as [|[key cfg] rest IH]; intros w s Hreg.
  - exists []. rewrite app_nil_r. repeat split.
  - destruct (Hreg key cfg ltac:(left)) as (Hc & [Hu Hch] & [b Hb]).
    cbn [offBoards]. rewrite run_bind, (run_getBoard net key w s b Hb).
    rewrite run_bind.
    assert (forall s1, sameDialect s s1 ->
              forall k c, (k, c) ∈ rest ->
                assoc k (BOARDS conf) = Some c /\ wfBoard c /\
                is_Some (boardState s1 !! k)) as Hrest.
    { intros s1 Hs1 k c Hin.
      destruct (Hreg k c ltac:(right; exact Hin)) as (Hkc & Hwf & [bk Hbk]).
      split; [exact Hkc|]. split; [exact Hwf|].
      destruct (sameDialect_lookup s s1 k bk Hs1 Hbk) as (b' & Hb' & _).
      eauto. }
    unfold fullSweep. cbn [flat_map fst snd]. rewrite Hb.
    fold (fullSweep rest s).
    destruct (reachable b) eqn:Hr.
    + destruct (run_offChannels net key cfg
                  (Z.to_nat (BoardCfg.channels cfg)) 0 w s Hc Hu
                  ltac:(eauto) ltac:(lia) ltac:(lia))
        as (w1 & s1 & Hrun & Hlog).
      pose proof (offChannels_sameDialect key 0
                    (Z.to_nat (BoardCfg.channels cfg)) net w s) as Hd.
      rewrite Hrun in Hd |- *. cbn [fst snd] in Hd.
      destruct (IH (w ++ w1) s1 (Hrest s1 Hd)) as (w2 & H1 & H2 & H3).
      exists (w1 ++ w2). rewrite app_assoc. split; [exact H1|].
      split; [exact H2|].
      rewrite map_app, Hlog, H3. f_equal.
      apply fullSweep_sameDialect, Hd.
    + cbn [run].
      destruct (IH w s (Hrest s (sameDialect_refl s))) as (w2 & H1 & H2 & H3).
      exists w2. repeat split; assumption.
Qed.

(** What [stopCloseTimers] leaves pending: the timeouts no record
    held. *)
Lemma elem_of_timers_stopCloseTimers s t :
  t ∈ timers (stopCloseTimers s)
  <-> t ∈ timers s /\ forall id, closeTimers s !! id <> Some t.1.
Proof.
  unfold stopCloseTimers.
  assert (forall (l : list (Z * nat)) t,
            t ∈ timers (foldr (fun kh s' => clearTimeout kh.2 s') s l)
            <-> t ∈ timers s /\ t.1 ∉ l.*2) as Hspec.
  { induction l as [|[k0 h0] l IH]; intros t0;
      cbn [foldr fmap list_fmap snd].
    - split; [intros H; split; [exact H|]|tauto].
      intros Hin. inversion Hin.
    - cbn [clearTimeout with_timers timers].
      rewrite list_elem_of_filter, bool_decide_spec, IH, not_elem_of_cons.
      tauto. }
  rewrite Hspec, elem_of_map_values. split.
  - intros [Hin Hnot]. split; [exact Hin|]. intros id Hid. apply Hnot. eauto.
  - intros [Hin Hnot]. split; [exact Hin|]. intros [id Hid].
    exact (Hnot id Hid).
Qed.

Lemma timers_stopCloseTimers s :
  tracked s -> timers (stopCloseTimers s) = [].
Proof.
  intros Htr.
  destruct (timers (stopCloseTimers s)) as [|[h [id]] ts] eqn:E;
    [reflexivity|].
  exfalso.
  destruct (elem_of_timers_stopCloseTimers s (h, CloseRelease id))
    as [[Hin Hnot] _].
  { rewrite E. left. }
  exact (Hnot id (Htr _ _ Hin)).
Qed.

Lemma stopCloseTimers_fields s :
  boardState (stopCloseTimers s) = boardState s /\
  closeTimers (stopCloseTimers s) = closeTimers s /\
  nextTimer (stopCloseTimers s) = nextTimer s /\
  auditEntries (stopCloseTimers s) = auditEntries s /\
  console (stopCloseTimers s) = console s.
Proof.
  unfold stopCloseTimers.
  induction (map_to_list (closeTimers s)) as [|kh l IH]; [repeat split|].
  cbn [foldr clearTimeout with_timers boardState closeTimers nextTimer
         auditEntries console].
  exact IH.
Qed.


End ShutdownFacts.

(** ** The status report *)

Section ReportFacts.

Import Buf Codec Async Server Routes.
Local Open Scope Z_scope.

Variable conf : Config.
Implicit Types (s : State).

Lemma mapM_Ok {A B : Type} (f : A -> Result Err B) (l : list A)
    (bs : list B) :
  mapM f l = Ok bs <-> Forall2 (fun a b => f a = Ok b) l bs.
Proof.
  revert bs. induction l as [|a l IH]; intros bs; cbn [mapM].
  - split.
    + intros [= <-]. constructor.
    + intros H. inversion H. reflexivity.
  - destruct (f a) as [b|e] eqn:Hf.
    + destruct (mapM f l) as [bs'|e] eqn:Hm.
      * split.
        -- intros [= <-]. constructor; [exact Hf|]. apply IH. reflexivity.
        -- intros H. inversion H as [|? b0 ? bs0 Hb Hrest]; subst.
           apply IH in Hrest. congruence.
      * split; [discriminate|].
        intros H. inversion H as [|? b0 ? bs0 Hb Hrest]; subst.
        apply IH in Hrest. discriminate.
    + split; [discriminate|].
      intros H. inversion H as [|? b0 ? bs0 Hb Hrest]; subst. congruence.
Qed.

Lemma Forall2_elem_r {A B : Type} (R : A -> B -> Prop) (l : list A)
    (k : list B) (y : B) :
  Forall2 R l k -> y ∈ k -> exists x, x ∈ l /\ R x y.
Proof.
  induction 1 as [|a b l k Hab _ IH]; intros Hy.
  - apply elem_of_nil in Hy as [].
  - apply elem_of_cons in Hy as [->|Hy].
    + exists a. split; [left|exact Hab].
    + destruct (IH Hy) as (x & Hx & HR). exists x. split; [right|]; assumption.
Qed.

Lemma Forall2_elem_l {A B : Type} (R : A -> B -> Prop) (l : list A)
    (k : list B) (x : A) :
  Forall2 R l k -> x ∈ l -> exists y, y ∈ k /\ R x y.
Proof.
  induction 1 as [|a b l k Hab _ IH]; intros Hx.
  - apply elem_of_nil in Hx as [].
  - apply elem_of_cons in Hx as [->|Hx].
    + exists b. split; [left|exact Hab].
    + destruct (IH Hx) as (y & Hy & HR). exists y. split; [right|]; assumption.
Qed.

Lemma keyLe_trans : Transitive keyLe.
Proof. intros a b c. unfold keyLe. lia. Qed.

Lemma keyLe_total : Total keyLe.
Proof. intros a b. unfold keyLe. lia. Qed.

Lemma sorted_strict (l : list Z) :
  StronglySorted Z.le l -> NoDup l -> StronglySorted Z.lt l.
Proof.
  induction 1 as [|a l Hs IH Hall]; intros Hnd; [constructor|].
  apply NoDup_cons in Hnd as [Hnot Hnd]. constructor; [apply IH, Hnd|].
  rewrite Forall_forall in Hall |- *. intros x Hx.
  specialize (Hall x Hx). assert (a <> x) by (intros ->; exact (Hnot Hx)).
  lia.
Qed.

Lemma entries_keys (m : gmap Z Barrier.t) :
  StronglySorted Z.lt (entries m).*1 /\
  forall e, e ∈ entries m <-> m !! e.1 = Some e.2.
Proof.
  unfold entries. split.
  - apply sorted_strict.
    + apply (StronglySorted_fmap fst keyLe Z.le); [auto|].
      apply StronglySorted_merge_sort;
        [exact keyLe_trans|exact keyLe_total].
    + rewrite merge_sort_Permutation. apply NoDup_fst_map_to_list.
  - intros e. rewrite merge_sort_Permutation. apply elem_of_map_to_list'.
Qed.

(** [getFullStatus] with every configured board registered and every
    barrier on a configured board: it does not throw. The barriers come
    in ascending order of their id, each configured barrier once, with
    its three coils read from the snapshot of its board; a coil index
    outside the snapshot reads as off. The boards come in registry
    order, with the reachable flag as [connected] and the snapshot as
    channels numbered from 1. *)
Theorem getFullStatus_in_key_order s :
  wfConfig conf -> registered conf s ->
  exists st,
    getFullStatus conf s = Ok st /\
    StronglySorted Z.lt (BarrierStatus.id <$> barriers st) /\
    (forall x, x ∈ barriers st <->
       exists barrier b,
         BARRIERS conf !! BarrierStatus.id x = Some barrier /\
         boardState s !! Barrier.board barrier = Some b /\
         x = {| BarrierStatus.id := BarrierStatus.id x;
                BarrierStatus.name := Barrier.name barrier;
                BarrierStatus.board := Barrier.board barrier;
                BarrierStatus.lift := coilOr (coils b) (Barrier.lift barrier);
                BarrierStatus.close :=
                  coilOr (coils b) (Barrier.close barrier);
                BarrierStatus.stop :=
                  coilOr (coils b) (Barrier.stop barrier) |}) /\
    Forall2 (fun kc y =>
               exists b,
                 boardState s !! kc.1 = Some b /\
                 y = {| BoardStatus.key := kc.1;
                        BoardStatus.name := BoardCfg.name kc.2;
                        BoardStatus.host := BoardCfg.host kc.2;
                        BoardStatus.port := BoardCfg.port kc.2;
                        BoardStatus.connected := reachable b;
                        BoardStatus.mode :=
                          if useRTU b then "RTU-over-TCP" else "Modbus TCP";
                        BoardStatus.channels :=
                          imap (fun i active => (Z.of_nat i + 1, active))
                               (coils b) |})
            (BOARDS conf) (boards st) /\
    (forall (snapshot : list bool) i,
       coilOr snapshot i = true
       <-> 0 <= i /\ snapshot !! Z.to_nat i = Some true).
Proof.
  intros Hwf Hreg.
  pose proof (wfConfig_boards conf s Hwf Hreg) as Hboards.
  destruct Hwf as (Hwfb & Hnd & Hon).
  destruct (entries_keys (BARRIERS conf)) as [Hsorted Hmem].
  assert (forall l : list (Z * Barrier.t),
            (forall e, e ∈ l -> BARRIERS conf !! e.1 = Some e.2) ->
            exists bs, mapM (barrierStatus s) l = Ok bs) as Hbars.
  { induction l as [|e l IH]; intros Hl; [eexists; reflexivity|].
    destruct IH as [bs Hbs]; [intros e' He'; apply Hl; right; exact He'|].
    cbn [mapM]. unfold barrierStatus at 1.
    destruct (Hon e.1 e.2 (Hl e ltac:(left))) as [cfg Hcfg].
    destruct (Hreg _ _ Hcfg) as [b' ->]. rewrite Hbs.
    eexists. reflexivity. }
  destruct (Hbars (entries (BARRIERS conf))) as [bs Hbs].
  { intros e He. apply Hmem, He. }
  assert (forall l : list (string * BoardCfg.t),
            (forall e, e ∈ l -> is_Some (boardState s !! e.1)) ->
            exists bds, mapM (boardStatus s) l = Ok bds) as Hbds.
  { induction l as [|e l IH]; intros Hl; [eexists; reflexivity|].
    destruct IH as [bds Hb]; [intros e' He'; apply Hl; right; exact He'|].
    cbn [mapM]. unfold boardStatus at 1.
    destruct (Hl e ltac:(left)) as [b' ->]. rewrite Hb.
    eexists. reflexivity. }
  destruct (Hbds (BOARDS conf)) as [bds Hb].
  { intros [k c] He. apply (Hboards k c He). }
  exists {| boards := bds; barriers := bs |}.
  split; [unfold getFullStatus; rewrite Hbs, Hb; reflexivity|].
  cbn [boards barriers].
  apply mapM_Ok in Hbs. apply mapM_Ok in Hb.
  assert (BarrierStatus.id <$> bs = (entries (BARRIERS conf)).*1) as Hids.
  { clear -Hbs. induction Hbs as [|e x l bs' Hx _ IH]; [reflexivity|].
    cbn [fmap list_fmap]. rewrite <- IH. f_equal.
    unfold barrierStatus in Hx.
    destruct (boardState s !! Barrier.board e.2); [|discriminate].
    injection Hx as <-. reflexivity. }
  split; [rewrite Hids; exact Hsorted|]. split.
  { intros x. split.
    - intros Hx.
      destruct (Forall2_elem_r _ _ _ x Hbs Hx) as (e & He & Hex).
      apply Hmem in He. unfold barrierStatus in Hex.
      destruct (boardState s !! Barrier.board e.2) as [b|] eqn:Hbd;
        [|discriminate].
      injection Hex as <-. cbn [BarrierStatus.id].
      exists e.2, b. split; [exact He|]. split; [exact Hbd|reflexivity].
    - intros (barrier & b & Hbar & Hbd & Hx).
      assert ((BarrierStatus.id x, barrier) ∈ entries (BARRIERS conf))
        as He by (apply Hmem; exact Hbar).
      destruct (Forall2_elem_l _ _ _ _ Hbs He) as (y & Hy & Hey).
      unfold barrierStatus in Hey. cbn [fst snd] in Hey.
      rewrite Hbd in Hey. injection Hey as <-. rewrite Hx. exact Hy. }
  split.
  { eapply Forall2_impl; [exact Hb|]. cbn. intros [k c] y Hy.
    unfold boardStatus in Hy. cbn [fst snd] in Hy |- *.
    destruct (boardState s !! k) as [b|]; [|discriminate].
    injection Hy as <-. exists b. split; reflexivity. }
  intros snapshot i. unfold coilOr.
  destruct (Z.leb_spec 0 i) as [Hi|Hi].
  - destruct (snapshot !! Z.to_nat i) as [[|]|]; cbn; split;
      try (intros [_ [=]]); try discriminate; auto.
  - split; [discriminate|lia].
Qed.

End ReportFacts.

(** ** The queries of [index.ts] *)

Section QueryFacts.

Import Async Api ApiRoutes.
Local Open Scope Z_scope.

Implicit Types (net : nat -> Outcome) (s : State)
  (w : Trace State Call Outcome).

Lemma sliceTo_prefix {A : Type} (l : list A) (e : Z) :
  sliceTo l e `prefix_of` l.
Proof.
  unfold sliceTo. destruct (e <? 0); apply prefix_take.
Qed.

Lemma sliceTo_length {A : Type} (l : list A) (e : Z) :
  Z.of_nat (length (sliceTo l e))
  = if e <? 0 then Z.max (Z.of_nat (length l) + e) 0
    else Z.min e (Z.of_nat (length l)).
Proof.
  unfold sliceTo. destruct (Z.ltb_spec e 0); rewrite length_take; lia.
Qed.

Lemma filterBy_spec (field : LogEntry -> string) (v : option string)
    (entries : list LogEntry) (e : LogEntry) :
  e ∈ filterBy field v entries
  <-> e ∈ entries /\
      match v with
      | Some (String a v') => field e = String a v'
      | _ => True
      end.
Proof.
  unfold filterBy. destruct v as [[|a v']|]; [tauto| |tauto].
  rewrite list_elem_of_filter. tauto.
Qed.

Lemma filterBy_sublist (field : LogEntry -> string) (v : option string)
    (entries : list LogEntry) :
  filterBy field v entries `sublist_of` entries.
Proof.
  unfold filterBy. destruct v as [[|a v']|]; [reflexivity| |reflexivity].
  apply sublist_filter.
Qed.

Lemma logLimit_range (limitParam : option string) :
  logLimit limitParam <= 2000 /\ logLimit limitParam <> 0.
Proof.
  unfold logLimit. destruct (limitParam ≫= parseInt) as [n|]; [|lia].
  destruct (Z.eqb_spec n 0); [lia|].
  change (Z.of_nat MAX_LOG) with 2000. lia.
Qed.

(** [GET /api/log] answers from the ring as it is, without a call and
    without a change of state. The entries counted in [total] are those
    of the ring that pass the filters given (an absent or empty filter
    passes all), in the ring's order, newest first; the entries sent are
    the first [limit] of them for a limit that is not negative, and all
    but the last [-limit] for a negative one. The limit is what
    [parseInt] reads from the parameter, capped at 2000, and 200 when
    the parameter is missing, not a number, or 0. *)
Theorem getLog_filters_then_limits net limitParam typeParam barrierParam w s :
  let limit := logLimit limitParam in
  let passes (v : option string) (x : string) :=
    match v with
    | Some (String a v') => x = String a v'
    | _ => True
    end in
  exists matching sent,
    run net (getLog limitParam typeParam barrierParam) w s
    = (w, s, Ok (LogReply sent (length matching))) /\
    matching `sublist_of` eventLog s /\
    (forall e, e ∈ matching
               <-> e ∈ eventLog s /\ passes typeParam (type e)
                   /\ passes barrierParam (barrier e)) /\
    sent `prefix_of` matching /\
    Z.of_nat (length sent)
    = (if limit <? 0 then Z.max (Z.of_nat (length matching) + limit) 0
       else Z.min limit (Z.of_nat (length matching))) /\
    limit <= 2000 /\
    (match limitParam ≫= parseInt with
     | Some n => n = 0
     | None => True
     end -> limit = 200) /\
    (forall n, limitParam ≫= parseInt = Some n -> n <> 0 ->
               limit = Z.min n 2000).
Proof.
  intros limit passes.
  exists (filterBy barrier barrierParam
            (filterBy type typeParam (eventLog s))),
         (sliceTo (filterBy barrier barrierParam
                     (filterBy type typeParam (eventLog s))) limit).
  split; [reflexivity|]. split.
  { etransitivity; apply filterBy_sublist. }
  split.
  { intros e. rewrite !filterBy_spec. unfold passes. tauto. }
  split; [apply sliceTo_prefix|]. split; [apply sliceTo_length|].
  split; [apply logLimit_range|]. split.
  - unfold limit, logLimit. destruct (limitParam ≫= parseInt) as [n|].
    + intros ->. reflexivity.
    + reflexivity.
  - intros n Hn Hz. unfold limit, logLimit. rewrite Hn.
    destruct (Z.eqb_spec n 0); [contradiction|reflexivity].
Qed.

Lemma minCoil_le (b : BarrierConfig) :
  minCoil b <= coils_lift b /\ minCoil b <= coils_stop b /\
  minCoil b <= coils_close b.
Proof. unfold minCoil. lia. Qed.

Lemma maxCoil_ge (b : BarrierConfig) :
  coils_lift b <= maxCoil b /\ coils_stop b <= maxCoil b /\
  coils_close b <= maxCoil b.
Proof. unfold maxCoil. lia. Qed.

Lemma at_Some (data : list bool) (i : Z) :
  0 <= i < Z.of_nat (length data) -> is_Some (at_ data i).
Proof.
  intros H. unfold at_. destruct (Z.leb_spec 0 i); [|lia].
  apply lookup_lt_is_Some. lia.
Qed.

(** The relay status of a barrier is one read of the smallest window of
    coils that holds its three coils, whatever their order on the
    board. The route never throws and changes nothing; a rejected read
    is answered 500 with the error's message. A read that resolves with
    at least as many values as were asked for gives each of the three
    coils its value at the coil's offset in the window. *)
Theorem relay_status_reads_one_window net barrierId b w s :
  findBarrier barrierId = Some b ->
  let first := minCoil b in
  let count := maxCoil b - minCoil b + 1 in
  let r := run net (getRelayStatus barrierId) w s in
  r.1 = (w ++ [(ReadCoils (relay_host b) (relay_port b) first count,
                net (length w), s)], s) /\
  1 <= count /\
  (forall c, c ∈ [coils_lift b; coils_stop b; coils_close b] ->
             first <= c < first + count) /\
  first ∈ [coils_lift b; coils_stop b; coils_close b] /\
  first + count - 1 ∈ [coils_lift b; coils_stop b; coils_close b] /\
  match net (length w) with
  | Rejected m => r.2 = Ok (Failure500 m)
  | Resolved data =>
      r.2 = Ok (RelayStatus (id b)
                  (at_ data (coils_lift b - first))
                  (at_ data (coils_stop b - first))
                  (at_ data (coils_close b - first))) /\
      (count <= Z.of_nat (length data) ->
       is_Some (at_ data (coils_lift b - first)) /\
       is_Some (at_ data (coils_stop b - first)) /\
       is_Some (at_ data (coils_close b - first)))
  end.
Proof.
  intros Hfind first count r.
  pose proof (minCoil_le b) as (Hl1 & Hl2 & Hl3).
  pose proof (maxCoil_ge b) as (Hu1 & Hu2 & Hu3).
  assert (run net (getRelayStatus barrierId) w s
          = (w ++ [(ReadCoils (relay_host b) (relay_port b) first count,
                    net (length w), s)], s,
             match net (length w) with
             | Rejected m => Ok (Failure500 m)
             | Resolved data =>
                 Ok (RelayStatus (id b)
                       (at_ data (coils_lift b - first))
                       (at_ data (coils_stop b - first))
                       (at_ data (coils_close b - first)))
             end)) as Hrun.
  { unfold getRelayStatus. rewrite Hfind. cbv zeta.
    rewrite run_tryCatch, run_bind, run_call.
    destruct (net (length w)); reflexivity. }
  unfold r. rewrite Hrun. cbn [fst snd].
  split; [reflexivity|]. split; [unfold count; lia|]. split.
  { intros c Hc. unfold first, count.
    rewrite !elem_of_cons in Hc. rewrite elem_of_nil in Hc.
    destruct Hc as [->|[->|[->|[]]]]; lia. }
  split.
  { unfold first, minCoil. rewrite !elem_of_cons.
    destruct (Z.min_spec (coils_lift b) (coils_stop b)) as [[_ E1]|[_ E1]];
      rewrite E1;
      match goal with
      | |- context [Z.min ?a ?c] =>
          destruct (Z.min_spec a c) as [[_ E2]|[_ E2]]; rewrite E2
      end; auto. }
  split.
  { unfold first, count, maxCoil.
    replace (minCoil b + (Z.max (Z.max (coils_lift b) (coils_stop b))
                            (coils_close b) - minCoil b + 1) - 1)
      with (Z.max (Z.max (coils_lift b) (coils_stop b)) (coils_close b))
      by lia.
    rewrite !elem_of_cons.
    destruct (Z.max_spec (coils_lift b) (coils_stop b)) as [[_ E1]|[_ E1]];
      rewrite E1;
      match goal with
      | |- context [Z.max ?a ?c] =>
          destruct (Z.max_spec a c) as [[_ E2]|[_ E2]]; rewrite E2
      end; auto. }
  destruct (net (length w)) as [data|m]; [|reflexivity].
  split; [reflexivity|]. intros Hlen.
  repeat split; apply at_Some; unfold first, count in *; lia.
Qed.

End QueryFacts.

(** ** Looking a barrier up, locking and unlocking *)

Section LookupFacts.

Import Async Api ApiRoutes.
Local Open Scope Z_scope.

Implicit Types (net : nat -> Outcome) (s : State)
  (w : Trace State Call Outcome).

Lemma find_elem {A : Type} (f : A -> bool) (l : list A) (a : A) :
  find f l = Some a -> a ∈ l /\ f a = true.
Proof.
  intros H. apply find_some in H. rewrite <- list_elem_of_In in H. exact H.
Qed.

Lemma find_none_elem {A : Type} (f : A -> bool) (l : list A) (a : A) :
  find f l = None -> a ∈ l -> f a = false.
Proof.
  intros H Ha. apply (find_none f l H). rewrite <- list_elem_of_In. exact Ha.
Qed.

Lemma findBarrier_sound barrierId b :
  findBarrier barrierId = Some b ->
  b ∈ BARRIERS /\
  match parseInt barrierId with
  | Some n => numericId b = n
  | None => id b = barrierId
  end.
Proof.
  unfold findBarrier. destruct (parseInt barrierId) as [n|]; intros H;
    apply find_elem in H as [Hin Hb]; apply bool_decide_eq_true in Hb; auto.
Qed.

(** A barrier is looked up by number whenever [parseInt] reads a number
    from the parameter, and by its [id] only when it reads none: what is
    found is a configured barrier with that number, or that [id]. When
    none is configured with it, every route that takes a barrier answers
    404 without a call to the relay and without a change of state, the
    log included. *)
Theorem unknown_barrier_is_404_everywhere barrierId :
  match findBarrier barrierId with
  | Some b =>
      b ∈ BARRIERS /\
      match parseInt barrierId with
      | Some n => numericId b = n
      | None => id b = barrierId
      end
  | None =>
      (forall b, b ∈ BARRIERS ->
         match parseInt barrierId with
         | Some n => numericId b <> n
         | None => id b <> barrierId
         end) /\
      forall net w s,
        (forall route,
           route ∈ [postAction lift; postAction close; postAction stop;
                    postLatchOpen; postLatchClose; postUnlatch;
                    postLock; postUnlock] ->
           run net (route barrierId) w s = (w, s, Ok notFound)) /\
        run net (getRelayStatus barrierId) w s = (w, s, Ok NotFound404)
  end.
Proof.
  destruct (findBarrier barrierId) as [b|] eqn:Hfind.
  - apply findBarrier_sound, Hfind.
  - split.
    + intros b Hb. unfold findBarrier in Hfind.
      destruct (parseInt barrierId) as [n|];
        apply (find_none_elem _ _ b Hfind) in Hb;
        apply bool_decide_eq_false in Hb; exact Hb.
    + intros net w s. split.
      * intros route Hr. rewrite !elem_of_cons in Hr.
        rewrite elem_of_nil in Hr.
        destruct Hr as [->|[->|[->|[->|[->|[->|[->|[->|[]]]]]]]]];
          cbv beta delta [postAction postLatchOpen postLatchClose
                          postUnlatch postLock postUnlock];
          rewrite Hfind; reflexivity.
      * unfold getRelayStatus. rewrite Hfind. reflexivity.
Qed.

Lemma logged_eventLog type who details s :
  eventLog (logged type who details s)
  = (let entries :=
       {| type := type; barrier := who; details := details |}
       :: eventLog s in
     if (MAX_LOG <? length entries)%nat then removelast entries
     else entries).
Proof.
  unfold logged, log. rewrite !run_bind. cbn [run modify fst snd].
  destruct (negb (bool_decide (type = "startup"))
            && negb (bool_decide (type = "pulse-off"))); reflexivity.
Qed.

Lemma logged_head type who details s :
  head (eventLog (logged type who details s))
  = Some {| type := type; barrier := who; details := details |}.
Proof.
  rewrite logged_eventLog. cbv zeta.
  destruct (MAX_LOG <? _)%nat eqn:E; [|reflexivity].
  destruct (eventLog s) as [|e l]; [discriminate E|reflexivity].
Qed.

Lemma logged_timers type who details s :
  timers (logged type who details s)
  = timers s
    ++ (if negb (bool_decide (type = "startup"))
           && negb (bool_decide (type = "pulse-off"))
        then [(nextTimer s, BroadcastState)] else []) /\
  nextTimer (logged type who details s)
  = (if negb (bool_decide (type = "startup"))
        && negb (bool_decide (type = "pulse-off"))
     then S (nextTimer s) else nextTimer s).
Proof.
  unfold logged, log. rewrite !run_bind. cbn [run modify fst snd].
  destruct (negb (bool_decide (type = "startup"))
            && negb (bool_decide (type = "pulse-off")));
    cbn; rewrite ?app_nil_r; split; reflexivity.
Qed.

(** [lock] and [unlock] set the flag of the barrier found and nothing
    else of its record or of any other barrier's; they make no call to
    the relay, and leave the latches and the pending pulse timers as
    they are, so that unlocking a barrier latched open leaves its coil
    held. Each logs one entry and schedules one state broadcast. Locking
    and then unlocking a barrier that was not locked restores the
    barrier records. *)
Theorem lock_and_unlock_only_set_the_flag net barrierId b st (v : bool) w s :
  findBarrier barrierId = Some b ->
  barrierStates s !! id b = Some st ->
  let route := if v then postLock else postUnlock in
  let r := run net (route barrierId) w s in
  r.1.1 = w /\
  r.2 = Ok {| status := 200; body := LockBody (id b) v |} /\
  barrierStates r.1.2
  = <[id b := {| locked := v; lastAction := lastAction st |}]>
      (barrierStates s) /\
  latchedCoils r.1.2 = latchedCoils s /\
  timers r.1.2 = timers s ++ [(nextTimer s, BroadcastState)] /\
  head (eventLog r.1.2)
  = Some {| type := if v then "lock" else "unlock"; barrier := id b;
            details := if v then "Barrier LOCKED" else "Barrier UNLOCKED" |} /\
  (v = true -> locked st = false ->
   forall net' w',
     barrierStates (run net' (postUnlock barrierId) w' r.1.2).1.2
     = barrierStates s).
Proof.
  intros Hfind Hst route r.
  assert (forall (u : bool) net0 w0 s0 st0,
            barrierStates s0 !! id b = Some st0 ->
            run net0 ((if u then postLock else postUnlock) barrierId) w0 s0
            = (w0,
               logged (if u then "lock" else "unlock") (id b)
                 (if u then "Barrier LOCKED" else "Barrier UNLOCKED")
                 (with_barrierStates
                    (alter (fun st1 => {| locked := u;
                                          lastAction := lastAction st1 |})
                           (id b) (barrierStates s0)) s0),
               Ok {| status := 200; body := LockBody (id b) u |})) as Hrun.
  { intros u net0 w0 s0 st0 H0.
    destruct u; cbv beta delta [postLock postUnlock]; rewrite Hfind;
      rewrite run_bind, (run_stateOf net0 b w0 s0 st0 H0);
      rewrite run_bind; cbn [run assign modify];
      rewrite run_bind, run_eventLog; reflexivity. }
  assert (forall (u : bool) s0 st0,
            barrierStates s0 !! id b = Some st0 ->
            alter (fun st1 => {| locked := u; lastAction := lastAction st1 |})
                  (id b) (barrierStates s0)
            = <[id b := {| locked := u; lastAction := lastAction st0 |}]>
                (barrierStates s0)) as Halter.
  { intros u s0 st0 H0. apply map_eq. intros k.
    destruct (decide (k = id b)) as [->|Hk].
    - rewrite lookup_alter_eq, lookup_insert_eq, H0. reflexivity.
    - rewrite lookup_alter_ne, lookup_insert_ne by congruence. reflexivity. }
  unfold r, route. rewrite (Hrun v net w s st Hst). cbn [fst snd].
  match goal with
  | |- context [logged ?t ?b0 ?d ?s0] =>
      destruct (logged_fields t b0 d s0) as [Hb Hl];
      destruct (logged_timers t b0 d s0) as [Ht _];
      pose proof (logged_head t b0 d s0) as Hh
  end.
  split; [reflexivity|]. split; [reflexivity|]. split.
  { rewrite Hb. cbn [barrierStates with_barrierStates].
    apply (Halter v s st Hst). }
  split; [rewrite Hl; reflexivity|]. split.
  { rewrite Ht. destruct v; reflexivity. }
  split; [exact Hh|].
  intros -> Hunlocked net' w'.
  match goal with
  | |- context [run net' _ w' ?s1] =>
      assert (barrierStates s1 !! id b
              = Some {| locked := true; lastAction := lastAction st |})
        as Hst1
        by (rewrite Hb; cbn [barrierStates with_barrierStates];
            rewrite lookup_alter_eq, Hst; reflexivity);
      rewrite (Hrun false net' w' s1 _ Hst1)
  end.
  cbn [fst snd].
  match goal with
  | |- context [logged ?t ?b0 ?d ?s0] =>
      destruct (logged_fields t b0 d s0) as [-> _]
  end.
  cbn [barrierStates with_barrierStates]. rewrite Hb.
  cbn [barrierStates with_barrierStates].
  apply map_eq. intros k. destruct (decide (k = id b)) as [->|Hk].
  - rewrite !lookup_alter_eq, Hst. cbn. destruct st as [l a].
    cbn in Hunlocked |- *. rewrite Hunlocked. reflexivity.
  - rewrite !lookup_alter_ne by congruence. reflexivity.
Qed.

End LookupFacts.

(** ** Pulses *)

Section PulseFacts.

Import Async Api ApiRoutes.
Local Open Scope Z_scope.

Implicit Types (net : nat -> Outcome) (s : State)
  (w : Trace State Call Outcome).

Lemma run_dropped net b w s :
  run net (dropLatch b) w s = (w, dropped b s, Ok tt).
Proof.
  unfold dropped, dropLatch. cbn [run].
  destruct (latchedCoils s !! id b) as [[h|]|]; reflexivity.
Qed.

Lemma dropped_fields b s :
  barrierStates (dropped b s) = barrierStates s /\
  latchedCoils (dropped b s) = delete (id b) (latchedCoils s) /\
  eventLog (dropped b s) = eventLog s /\
  nextTimer (dropped b s) = nextTimer s /\
  timers (dropped b s)
  = match latchedCoils s !! id b with
    | Some (Some h) => filter (fun t => bool_decide (t.1 <> h)) (timers s)
    | _ => timers s
    end.
Proof.
  unfold dropped, dropLatch. cbn [run].
  destruct (latchedCoils s !! id b) as [[h|]|]; cbn; auto.
Qed.

Lemma pending_filter h (l : list (nat * TimerTask)) :
  h ∉ (filter (fun t => bool_decide (t.1 <> h)) l).*1.
Proof.
  intros Hin. apply list_elem_of_fmap in Hin as (t & -> & Ht).
  apply list_elem_of_filter in Ht as [Ht _].
  apply bool_decide_spec in Ht. congruence.
Qed.

Lemma dropped_cancels b s h :
  latchedCoils s !! id b = Some (Some h) -> h ∉ pending (dropped b s).
Proof.
  intros H. unfold pending.
  destruct (dropped_fields b s) as (_ & _ & _ & _ & ->). rewrite H.
  apply pending_filter.
Qed.

(** [activateCoil] when the clearing write ([k = 0]) or the write of the
    target coil ([k = 2]) is rejected. *)
Lemma run_activateCoil_rejected net b action hold (k : nat) m w s :
  k = 0%nat \/ k = 2%nat ->
  (forall i, (i < k)%nat -> exists d, net (length w + i)%nat = Resolved d) ->
  net (length w + k)%nat = Rejected m ->
  exists w1,
    run net (activateCoil b action hold) w s
    = (w ++ w1, dropped b s, Error (Failed m)) /\
    calls w1 = take (S k) (activation b action).
Proof.
  intros Hk Hres Hrej. unfold activateCoil. cbv zeta.
  rewrite run_bind, run_dropped, run_bind, run_call.
  destruct Hk as [->| ->].
  - rewrite Nat.add_0_r in Hrej. rewrite Hrej.
    eexists [_]. split; reflexivity.
  - destruct (Hres 0%nat ltac:(lia)) as [d0 H0].
    destruct (Hres 1%nat ltac:(lia)) as [d1 H1].
    rewrite Nat.add_0_r in H0. rewrite H0.
    rewrite run_bind, run_call, length_app. cbn [length].
    rewrite H1.
    rewrite run_bind, run_call, !length_app. cbn [length].
    replace (length w + 1 + 1)%nat with (length w + 2)%nat by lia.
    rewrite Hrej.
    eexists [_; _; _]. rewrite <- !app_assoc. split; reflexivity.
Qed.

(** A command whose clearing write or target write is rejected is
    answered 500 with the error's message, after the calls up to the
    rejected one. The barrier's record is as before (its last action is
    not the failed one), but its latch entry is gone and the pulse timer
    recorded there has been cancelled: a coil that timer was to release
    is not released by it any more. The failure is the newest entry of
    the log. *)
Theorem failed_command_has_dropped_the_pulse
    net barrierId b st action (k : nat) m w s :
  findBarrier barrierId = Some b ->
  barrierStates s !! id b = Some st ->
  locked st = false \/ action = stop ->
  k = 0%nat \/ k = 2%nat ->
  (forall i, (i < k)%nat -> exists d, net (length w + i)%nat = Resolved d) ->
  net (length w + k)%nat = Rejected m ->
  let r := run net (postAction action barrierId) w s in
  r.2 = Ok {| status := 500; body := ErrorBody m |} /\
  (exists w1, r.1.1 = w ++ w1 /\
              calls w1 = take (S k) (activation b action)) /\
  barrierStates r.1.2 = barrierStates s /\
  latchedCoils r.1.2 = delete (id b) (latchedCoils s) /\
  (forall h task, latchedCoils s !! id b = Some (Some h) ->
                  (h, task) ∈ timers r.1.2 -> task = BroadcastState) /\
  head (eventLog r.1.2)
  = Some {| type := "error"; barrier := id b;
            details := actionName action +:+ " failed: " +:+ m |}.
Proof.
  intros Hfind Hst Hopen Hk Hres Hrej r.
  destruct (run_activateCoil_rejected net b action false k m w s Hk Hres Hrej)
    as (w1 & Hrun & Hcalls).
  assert (locked st && negb (bool_decide (actionName action = "stop"))
          = false) as Hgo.
  { destruct Hopen as [->| ->]; [reflexivity|]. apply andb_false_r. }
  assert (r = (w ++ w1,
               logged "error" (id b)
                      (actionName action +:+ " failed: " +:+ m)
                      (dropped b s),
               Ok {| status := 500; body := ErrorBody m |})) as ->.
  { unfold r, postAction. rewrite Hfind.
    rewrite run_bind, (run_stateOf net b w s st Hst), Hgo.
    rewrite run_tryCatch, run_bind, Hrun.
    rewrite run_bind, run_eventLog. reflexivity. }
  cbn [fst snd].
  match goal with
  | |- context [logged ?t ?b0 ?d ?s0] =>
      destruct (logged_fields t b0 d s0) as [Hb Hl];
      destruct (logged_timers t b0 d s0) as [Ht _];
      pose proof (logged_head t b0 d s0) as Hh
  end.
  destruct (dropped_fields b s) as (Hd1 & Hd2 & _).
  split; [reflexivity|]. split; [eauto|].
  split; [congruence|]. split; [congruence|]. split; [|exact Hh].
  intros h task Hh0 Hin. rewrite Ht, elem_of_app in Hin.
  destruct Hin as [Hin|Hin].
  - exfalso. apply (dropped_cancels b s h Hh0). unfold pending.
    apply list_elem_of_fmap. exists (h, task). split; [reflexivity|exact Hin].
  - cbn in Hin. apply list_elem_of_singleton in Hin. congruence.
Qed.

End PulseFacts.

Section HoareFacts.

Import Async ApiRoutes.

Context {St Req Ans E : Type}.
Implicit Types (P Q R : St -> Prop).

Lemma hoare_Ret {A : Type} P Q (a : A) :
  (forall s, P s -> Q s) -> hoare P (Ret a : Async St Req Ans E A) Q.
Proof. intros H net tr s Hs. apply H, Hs. Qed.

Lemma hoare_Throw {A : Type} P Q (e : E) :
  (forall s, P s -> Q s) -> hoare P (Throw e : Async St Req Ans E A) Q.
Proof. intros H net tr s Hs. apply H, Hs. Qed.

Lemma hoare_Get {A : Type} P Q (k : St -> Async St Req Ans E A) :
  (forall s0, hoare (fun s => P s /\ s = s0) (k s0) Q) -> hoare P (Get k) Q.
Proof. intros H net tr s Hs. apply (H s net tr s). auto. Qed.

Lemma hoare_Await {A : Type} P Q (r : Req) (k : Ans -> Async St Req Ans E A) :
  (forall a, hoare P (k a) Q) -> hoare P (Await r k) Q.
Proof. intros H net tr s Hs. cbn [run]. apply H, Hs. Qed.

Lemma hoare_modify P Q (f : St -> St) :
  (forall s, P s -> Q (f s)) ->
  hoare P (modify f : Async St Req Ans E unit) Q.
Proof. intros H net tr s Hs. apply H, Hs. Qed.

Lemma hoare_handle {A B : Type} P R Q (m : Async St Req Ans E A)
    (ok : A -> Async St Req Ans E B) (err : E -> Async St Req Ans E B) :
  hoare P m R -> (forall a, hoare R (ok a) Q) ->
  (forall e, hoare R (err e) Q) -> hoare P (handle m ok err) Q.
Proof.
  intros Hm Hok Herr net tr s Hs. rewrite run_handle.
  specialize (Hm net tr s Hs).
  destruct (run net m tr s) as [[w1 s1] [a|e]]; cbn [fst snd] in Hm.
  - apply Hok, Hm.
  - apply Herr, Hm.
Qed.

Lemma hoare_bind {A B : Type} P R Q (m : Async St Req Ans E A)
    (f : A -> Async St Req Ans E B) :
  hoare P m R -> (forall a, hoare R (f a) Q) -> (forall s, R s -> Q s) ->
  hoare P (bind m f) Q.
Proof.
  intros Hm Hf HRQ. apply (hoare_handle P R Q); [exact Hm|exact Hf|].
  intros e. apply hoare_Throw, HRQ.
Qed.

Lemma hoare_tryCatch {A : Type} P R Q (m : Async St Req Ans E A)
    (h : E -> Async St Req Ans E A) :
  hoare P m R -> (forall e, hoare R (h e) Q) -> (forall s, R s -> Q s) ->
  hoare P (tryCatch m h) Q.
Proof.
  intros Hm Hh HRQ. apply (hoare_handle P R Q); [exact Hm| |exact Hh].
  intros a. apply hoare_Ret, HRQ.
Qed.

Lemma hoare_weaken {A : Type} P P' Q Q' (m : Async St Req Ans E A) :
  hoare P m Q -> (forall s, P' s -> P s) -> (forall s, Q s -> Q' s) ->
  hoare P' m Q'.
Proof. intros Hm HP HQ net tr s Hs. apply HQ, Hm, HP, Hs. Qed.

(** In one step: a program that keeps [P] at every step keeps it. *)
Lemma hoare_bind_same {A B : Type} P (m : Async St Req Ans E A)
    (f : A -> Async St Req Ans E B) :
  hoare P m P -> (forall a, hoare P (f a) P) -> hoare P (bind m f) P.
Proof. intros Hm Hf. apply (hoare_bind P P P); auto. Qed.

Lemma hoare_tryCatch_same {A : Type} P (m : Async St Req Ans E A)
    (h : E -> Async St Req Ans E A) :
  hoare P m P -> (forall e, hoare P (h e) P) -> hoare P (tryCatch m h) P.
Proof. intros Hm Hh. apply (hoare_tryCatch P P P); auto. Qed.

End HoareFacts.

(** ** The pulse timers *)

Section PulseInvariant.

Import Async Api ApiRoutes.
Local Open Scope Z_scope.

Implicit Types (net : nat -> Outcome) (s : State)
  (w : Trace State Call Outcome) (b : BarrierConfig).

Lemma NoDup_fst_inj {A B : Type} (l : list (A * B)) (x y : A * B) :
  NoDup l.*1 -> x ∈ l -> y ∈ l -> x.1 = y.1 -> x = y.
Proof.
  induction l as [|t l IH]; intros Hnd Hx Hy E.
  - apply elem_of_nil in Hx as [].
  - cbn in Hnd. apply NoDup_cons in Hnd as [Hnot Hnd].
    apply elem_of_cons in Hx as [->|Hx]; apply elem_of_cons in Hy as [->|Hy].
    + reflexivity.
    + exfalso. apply Hnot. rewrite E. apply list_elem_of_fmap. eauto.
    + exfalso. apply Hnot. rewrite <- E. apply list_elem_of_fmap. eauto.
    + auto.
Qed.

Lemma hoare_call (P : State -> Prop) c : hoare P (call c) P.
Proof. intros net tr s Hs. rewrite run_call. exact Hs. Qed.

Lemma hoare_log (P : State -> Prop) type who details :
  (forall s, P s -> P (logged type who details s)) ->
  hoare P (log type who details) P.
Proof. intros H net tr s Hs. rewrite run_eventLog. apply H, Hs. Qed.

Lemma hoare_stateOf (P : State -> Prop) b : hoare P (stateOf b) P.
Proof.
  intros net tr s Hs. unfold stateOf. cbn [run].
  destruct (barrierStates s !! id b); exact Hs.
Qed.

Lemma pulsesOk_ext s s' :
  timers s' = timers s -> nextTimer s' = nextTimer s ->
  latchedCoils s' = latchedCoils s -> pulsesOk s -> pulsesOk s'.
Proof.
  intros Ht Hn Hl (H1 & H2 & H3). unfold pulsesOk, handlesFresh, pending,
    pulsesTracked. rewrite Ht, Hn, Hl. auto.
Qed.

Lemma noPulse_ext id0 s s' :
  timers s' = timers s -> noPulse id0 s -> noPulse id0 s'.
Proof. intros Ht H. unfold noPulse. rewrite Ht. exact H. Qed.

Lemma pulsesOk_snoc s s' task :
  timers s' = timers s ++ [(nextTimer s, task)] ->
  nextTimer s' = S (nextTimer s) ->
  pulsesOk s ->
  handlesFresh s' /\ NoDup (pending s') /\
  forall h b a, (h, PulseOff b a) ∈ timers s' ->
    (h, PulseOff b a) ∈ timers s \/
    (h = nextTimer s /\ task = PulseOff b a).
Proof.
  intros Ht Hn (H1 & H2 & H3). unfold handlesFresh, pending in *.
  rewrite Ht, Hn. split; [|split].
  - apply Forall_app. split.
    + eapply Forall_impl; [exact H1|]. cbn. intros; lia.
    + constructor; [cbn; lia|constructor].
  - rewrite fmap_app. apply NoDup_app. split; [exact H2|]. split.
    + intros h Hin Hin'. cbn in Hin'. apply list_elem_of_singleton in Hin'.
      subst h. apply list_elem_of_fmap in Hin as (t & Heq & Hin).
      rewrite Forall_forall in H1. specialize (H1 t Hin). lia.
    + cbn. apply NoDup_singleton.
  - intros h b a Hin. rewrite elem_of_app in Hin.
    destruct Hin as [Hin|Hin]; [auto|].
    apply list_elem_of_singleton in Hin. right. split; congruence.
Qed.

Lemma pulsesOk_logged type who details s :
  pulsesOk s -> pulsesOk (logged type who details s).
Proof.
  intros Hok.
  destruct (logged_timers type who details s) as [Ht Hn].
  destruct (logged_fields type who details s) as [_ Hl].
  destruct (negb (bool_decide (type = "startup"))
            && negb (bool_decide (type = "pulse-off"))).
  - destruct (pulsesOk_snoc s _ BroadcastState Ht Hn Hok) as (H1 & H2 & H3).
    split; [exact H1|]. split; [exact H2|].
    intros h b a Hin. rewrite Hl.
    destruct (H3 h b a Hin) as [Hin'|[_ Heq]]; [|discriminate Heq].
    destruct Hok as (_ & _ & Htr). apply (Htr h b a Hin').
  - rewrite app_nil_r in Ht. exact (pulsesOk_ext s _ Ht Hn Hl Hok).
Qed.

Lemma noPulse_logged id0 type who details s :
  noPulse id0 s -> noPulse id0 (logged type who details s).
Proof.
  intros H h b a Hin.
  destruct (logged_timers type who details s) as [Ht _].
  rewrite Ht, elem_of_app in Hin. destruct Hin as [Hin|Hin].
  - exact (H h b a Hin).
  - destruct (negb _ && negb _); cbn in Hin.
    + apply list_elem_of_singleton in Hin. discriminate Hin.
    + apply elem_of_nil in Hin as [].
Qed.

Lemma pulsesOk_barrierStates m s :
  pulsesOk s -> pulsesOk (with_barrierStates m s).
Proof. apply pulsesOk_ext; reflexivity. Qed.

(** Pending timers after [clearTimeout h]. *)
Lemma pulsesOk_filter s s' h :
  timers s' = filter (fun t => bool_decide (t.1 <> h)) (timers s) ->
  nextTimer s' = nextTimer s ->
  pulsesOk s ->
  handlesFresh s' /\ NoDup (pending s') /\
  forall h' b a, (h', PulseOff b a) ∈ timers s' ->
                 (h', PulseOff b a) ∈ timers s /\ h' <> h.
Proof.
  intros Ht Hn (H1 & H2 & H3). unfold handlesFresh, pending in *.
  rewrite Ht, Hn. split; [|split].
  - rewrite Forall_forall in H1 |- *. intros t Ht'.
    apply list_elem_of_filter in Ht' as [_ Ht']. apply H1, Ht'.
  - apply (sublist_NoDup _ (timers s).*1); [exact H2|].
    apply fmap_sublist, sublist_filter.
  - intros h' b a Hin. apply list_elem_of_filter in Hin as [Hne Hin].
    apply bool_decide_spec in Hne. auto.
Qed.

Lemma pulsesOk_dropped b s :
  pulsesOk s -> pulsesOk (dropped b s) /\ noPulse (id b) (dropped b s).
Proof.
  intros Hok. pose proof Hok as (H1 & H2 & H3).
  destruct (dropped_fields b s) as (_ & Hl & _ & Hn & Ht).
  destruct (latchedCoils s !! id b) as [[h|]|] eqn:Hrec.
  - destruct (pulsesOk_filter s _ h Ht Hn Hok) as (G1 & G2 & G3).
    split; [split; [exact G1|split; [exact G2|]]|].
    + intros h' b' a Hin. destruct (G3 h' b' a Hin) as [Hin' Hne].
      rewrite Hl. specialize (H3 h' b' a Hin').
      destruct (decide (id b' = id b)) as [E|E].
      * rewrite E, Hrec in H3. congruence.
      * rewrite lookup_delete_ne by congruence. exact H3.
    + intros h' b' a Hin E. destruct (G3 h' b' a Hin) as [Hin' Hne].
      specialize (H3 h' b' a Hin'). rewrite E, Hrec in H3. congruence.
  - split; [split; [|split]|].
    + unfold handlesFresh. rewrite Ht, Hn. exact H1.
    + unfold pending. rewrite Ht. exact H2.
    + intros h' b' a Hin. rewrite Ht in Hin. rewrite Hl.
      specialize (H3 h' b' a Hin).
      destruct (decide (id b' = id b)) as [E|E].
      * rewrite E, Hrec in H3. congruence.
      * rewrite lookup_delete_ne by congruence. exact H3.
    + intros h' b' a Hin E. rewrite Ht in Hin.
      specialize (H3 h' b' a Hin). rewrite E, Hrec in H3. congruence.
  - split; [split; [|split]|].
    + unfold handlesFresh. rewrite Ht, Hn. exact H1.
    + unfold pending. rewrite Ht. exact H2.
    + intros h' b' a Hin. rewrite Ht in Hin. rewrite Hl.
      specialize (H3 h' b' a Hin).
      destruct (decide (id b' = id b)) as [E|E].
      * rewrite E, Hrec in H3. congruence.
      * rewrite lookup_delete_ne by congruence. exact H3.
    + intros h' b' a Hin E. rewrite Ht in Hin.
      specialize (H3 h' b' a Hin). rewrite E, Hrec in H3. congruence.
Qed.

Lemma hoare_dropLatch b :
  hoare pulsesOk (dropLatch b)
        (fun s => pulsesOk s /\ noPulse (id b) s).
Proof.
  intros net tr s Hs. rewrite run_dropped. apply pulsesOk_dropped, Hs.
Qed.

Lemma pulsesOk_latch b (v : option nat) s :
  pulsesOk s -> noPulse (id b) s ->
  pulsesOk (with_latchedCoils (<[id b := v]> (latchedCoils s)) s).
Proof.
  intros (H1 & H2 & H3) Hno. split; [exact H1|]. split; [exact H2|].
  intros h b' a Hin. cbn [latchedCoils with_latchedCoils].
  cbn [timers with_latchedCoils] in Hin.
  rewrite lookup_insert_ne by (intros E; exact (Hno h b' a Hin (eq_sym E))).
  apply (H3 h b' a Hin).
Qed.

Lemma pulsesOk_unlatch b s :
  pulsesOk s -> noPulse (id b) s ->
  pulsesOk (with_latchedCoils (delete (id b) (latchedCoils s)) s).
Proof.
  intros (H1 & H2 & H3) Hno. split; [exact H1|]. split; [exact H2|].
  intros h b' a Hin. cbn [latchedCoils with_latchedCoils].
  cbn [timers with_latchedCoils] in Hin.
  rewrite lookup_delete_ne by (intros E; exact (Hno h b' a Hin (eq_sym E))).
  apply (H3 h b' a Hin).
Qed.

Lemma hoare_activateCoil b action hold :
  hoare pulsesOk (activateCoil b action hold) pulsesOk.
Proof.
  unfold activateCoil. cbv zeta.
  apply (hoare_bind _ (fun s => pulsesOk s /\ noPulse (id b) s));
    [apply hoare_dropLatch| |tauto].
  intros _.
  do 3 (apply (hoare_bind _ (fun s => pulsesOk s /\ noPulse (id b) s));
        [apply hoare_call| |tauto]; intros _).
  destruct hold.
  - apply (hoare_bind _ pulsesOk); [| |auto].
    + apply hoare_modify. intros s [Hok Hno]. apply pulsesOk_latch; auto.
    + intros _. apply hoare_log. intros s. apply pulsesOk_logged.
  - intros net tr s [Hok Hno]. rewrite run_bind.
    cbn [run setTimeout modify fst snd].
    set (s1 := {| barrierStates := barrierStates s;
                  latchedCoils := latchedCoils s; eventLog := eventLog s;
                  timers := timers s ++ [(nextTimer s, PulseOff b action)];
                  nextTimer := S (nextTimer s) |}).
    destruct (pulsesOk_snoc s s1 (PulseOff b action) eq_refl eq_refl Hok)
      as (G1 & G2 & G3).
    split; [exact G1|]. split; [exact G2|].
    intros h b' a Hin. cbn [latchedCoils with_latchedCoils].
    cbn [timers with_latchedCoils] in Hin.
    destruct (G3 h b' a Hin) as [Hin'|[-> Heq]].
    + rewrite lookup_insert_ne
        by (intros E; exact (Hno h b' a Hin' (eq_sym E))).
      destruct Hok as (_ & _ & Htr). apply (Htr h b' a Hin').
    + injection Heq as <- <-. apply lookup_insert_eq.
Qed.

Lemma hoare_releaseLatch b : hoare pulsesOk (releaseLatch b) pulsesOk.
Proof.
  unfold releaseLatch.
  apply (hoare_bind _ (fun s => pulsesOk s /\ noPulse (id b) s));
    [apply hoare_dropLatch| |tauto].
  intros _.
  apply (hoare_bind _ (fun s => pulsesOk s /\ noPulse (id b) s));
    [apply hoare_call| |tauto].
  intros _.
  apply (hoare_weaken (fun s => pulsesOk s /\ noPulse (id b) s) _
                      (fun s => pulsesOk s /\ noPulse (id b) s));
    [|auto|tauto].
  apply hoare_log. intros s [Hok Hno].
  split; [apply pulsesOk_logged, Hok|apply noPulse_logged, Hno].
Qed.

(** One syntax-directed step towards [hoare pulsesOk m pulsesOk]. *)
Ltac pulses_step :=
  lazymatch goal with
  | |- hoare _ (Async.bind _ _) _ => apply hoare_bind_same
  | |- hoare _ (Async.tryCatch _ _) _ => apply hoare_tryCatch_same
  | |- hoare _ (Async.Ret _) _ => apply hoare_Ret; auto
  | |- hoare _ (Api.log _ _ _) _ =>
      apply hoare_log; intros ?; apply pulsesOk_logged
  | |- hoare _ (Api.call _) _ => apply hoare_call
  | |- hoare _ (Api.stateOf _) _ => apply hoare_stateOf
  | |- hoare _ (Api.assign _ _) _ =>
      apply hoare_modify; intros ?; apply pulsesOk_barrierStates
  | |- hoare _ (Api.activateCoil _ _ _) _ => apply hoare_activateCoil
  | |- hoare _ (Api.releaseLatch _) _ => apply hoare_releaseLatch
  | |- hoare _ (if ?c then _ else _) _ => destruct c
  | |- hoare _ (match ?o with _ => _ end) _ => destruct o
  | |- hoare _ (let _ := _ in _) _ => cbv zeta
  | |- forall _, _ => intro
  end.

Lemma hoare_allOff (P : State -> Prop) host port from turns :
  hoare P (allOff host port from turns) P.
Proof.
  revert from. induction turns as [|n IH]; intros from; cbn [allOff].
  - apply hoare_Ret. auto.
  - apply hoare_bind_same; [apply hoare_call|]. intros _. apply IH.
Qed.

Lemma hoare_sweepRelays (P : State -> Prop) bs seen :
  hoare P (sweepRelays bs seen) P.
Proof.
  revert seen. induction bs as [|b bs IH]; intros seen; cbn [sweepRelays].
  - apply hoare_Ret. auto.
  - cbv zeta. destruct (bool_decide _); [apply IH|].
    apply hoare_bind_same; [apply hoare_allOff|]. intros _. apply IH.
Qed.

Lemma hoare_readHosts (P : State -> Prop) hosts :
  hoare P (readHosts hosts) P.
Proof.
  induction hosts as [|h hosts IH]; cbn [readHosts].
  - apply hoare_Ret. auto.
  - apply hoare_bind_same; [|intros _; apply IH].
    apply hoare_tryCatch_same; [apply hoare_call|].
    intros e. apply hoare_Ret. auto.
Qed.

Lemma hoare_broadcastState (P : State -> Prop) : hoare P broadcastState P.
Proof.
  unfold broadcastState. apply hoare_tryCatch_same; [apply hoare_readHosts|].
  intros e. apply hoare_Ret. auto.
Qed.

Lemma hoare_fireTimer h : hoare pulsesOk (fireTimer h) pulsesOk.
Proof.
  unfold fireTimer. apply hoare_Get. intros s0.
  destruct (find _ (timers s0)) as [[h' task]|] eqn:Hfind;
    [|apply hoare_Ret; tauto].
  apply find_elem in Hfind as [Hin Hh]. apply bool_decide_eq_true in Hh.
  cbn in Hh. subst h'. cbn [snd].
  apply (hoare_bind _ (fun s => pulsesOk s /\
                                match task with
                                | PulseOff b _ => noPulse (id b) s
                                | BroadcastState => True
                                end)); [| |tauto].
  - unfold clearTimeout. apply hoare_modify. intros s [Hok ->].
    match goal with
    | |- pulsesOk ?s1 /\ _ =>
        destruct (pulsesOk_filter s0 s1 h eq_refl eq_refl Hok)
          as (G1 & G2 & G3)
    end.
    pose proof Hok as (_ & Hnd & Htr).
    split; [split; [exact G1|split; [exact G2|]]|].
    + intros h' b a Hin'. destruct (G3 h' b a Hin') as [Hin0 _].
      apply (Htr h' b a Hin0).
    + destruct task as [|b action]; [exact I|].
      intros h' b' a Hin' E. destruct (G3 h' b' a Hin') as [Hin0 Hne].
      pose proof (Htr h' b' a Hin0) as R1.
      pose proof (Htr h b action Hin) as R2.
      rewrite E, R2 in R1. congruence.
  - intros _. destruct task as [|b action]; cbn [timerBody].
    + apply (hoare_weaken pulsesOk _ pulsesOk);
        [apply (hoare_broadcastState pulsesOk)|tauto|auto].
    + unfold pulseOff.
      apply (hoare_tryCatch _ pulsesOk); [| |auto].
      * apply (hoare_bind _ (fun s => pulsesOk s /\ noPulse (id b) s));
          [apply hoare_call| |tauto].
        intros _. apply (hoare_bind _ pulsesOk); [| |auto].
        -- apply hoare_modify. intros s [Hok Hno].
           apply pulsesOk_unlatch; auto.
        -- intros _. apply hoare_log. intros s. apply pulsesOk_logged.
      * intros e. apply hoare_log. intros s. apply pulsesOk_logged.
Qed.

Lemma hoare_handler ev : hoare pulsesOk (handler ev) pulsesOk.
Proof.
  destruct ev; cbn [handler]; try apply hoare_fireTimer;
    cbv beta delta [postAction postLatchOpen postLatchClose postUnlatch
                    postLock postUnlock postEmergencyOff getLog
                    getRelayStatus];
    repeat pulses_step.
  - apply hoare_sweepRelays.
  - apply hoare_Get. intros s0. apply hoare_Ret. tauto.
Qed.

Lemma pulsesOk_initState : pulsesOk initState.
Proof.
  split; [constructor|]. split; [constructor|].
  intros h b a Hin. cbn in Hin. apply elem_of_nil in Hin as [].
Qed.

Lemma runEvents_pulsesOk net evs w s :
  pulsesOk s -> pulsesOk (runEvents net evs w s).2.
Proof.
  revert w s. induction evs as [|ev evs IH]; intros w s Hs; cbn.
  - exact Hs.
  - apply IH, hoare_handler, Hs.
Qed.

(** Requests and timers handled one after the other, each to its end,
    from the start of the program: at most one pulse timer is pending
    for a barrier, it is the one recorded in [latchedCoils], and no two
    pending timers have the same handle. *)
Theorem one_pulse_timer_per_barrier net evs :
  let s := (runEvents net evs [] initState).2 in
  NoDup (pending s) /\
  (forall h b a, (h, PulseOff b a) ∈ timers s ->
                 latchedCoils s !! id b = Some (Some h)) /\
  (forall h1 b1 a1 h2 b2 a2,
     (h1, PulseOff b1 a1) ∈ timers s -> (h2, PulseOff b2 a2) ∈ timers s ->
     id b1 = id b2 -> h1 = h2 /\ b1 = b2 /\ a1 = a2).
Proof.
  intros s.
  destruct (runEvents_pulsesOk net evs [] initState pulsesOk_initState)
    as (H1 & H2 & H3).
  fold s in H1, H2, H3. split; [exact H2|]. split; [exact H3|].
  intros h1 b1 a1 h2 b2 a2 Hin1 Hin2 E.
  pose proof (H3 h1 b1 a1 Hin1) as R1. pose proof (H3 h2 b2 a2 Hin2) as R2.
  rewrite E, R2 in R1. assert (h1 = h2) as -> by congruence.
  split; [reflexivity|].
  assert ((h2, PulseOff b1 a1) = (h2, PulseOff b2 a2)) as Heq.
  { apply (NoDup_fst_inj (timers s)); auto. }
  split; congruence.
Qed.

End PulseInvariant.

(** ** The emergency-off route *)

Section SweepRouteFacts.

Import Async Api ApiRoutes.
Local Open Scope Z_scope.

Implicit Types (net : nat -> Outcome) (s : State)
  (w : Trace State Call Outcome).

Lemma issue_app net n s cs1 cs2 :
  issue net n s (cs1 ++ cs2)
  = match (issue net n s cs1).2 with
    | None =>
        ((issue net n s cs1).1 ++ (issue net (n + length cs1) s cs2).1,
         (issue net (n + length cs1) s cs2).2)
    | Some m => ((issue net n s cs1).1, Some m)
    end.
Proof.
  revert n. induction cs1 as [|c cs1 IH]; intros n; cbn [issue app length].
  - rewrite Nat.add_0_r. destruct (issue net n s cs2). reflexivity.
  - destruct (net n) as [d|m]; [|reflexivity].
    cbv zeta. cbn [fst snd]. rewrite IH.
    replace (S n + length cs1)%nat with (n + S (length cs1))%nat by lia.
    destruct (issue net (S n) s cs1).2; reflexivity.
Qed.

Lemma issue_length net n s cs :
  (issue net n s cs).2 = None -> length (issue net n s cs).1 = length cs.
Proof.
  revert n. induction cs as [|c cs IH]; intros n; cbn [issue].
  - reflexivity.
  - destruct (net n) as [d|m]; [|discriminate].
    cbv zeta. cbn [fst snd length]. intros H. rewrite IH; auto.
Qed.

Lemma issue_all net n s cs :
  (forall i, (i < length cs)%nat -> exists d, net (n + i)%nat = Resolved d) ->
  calls (issue net n s cs).1 = cs /\ (issue net n s cs).2 = None.
Proof.
  revert n. induction cs as [|c cs IH]; intros n H; cbn [issue].
  - split; reflexivity.
  - destruct (H 0%nat ltac:(cbn; lia)) as [d Hd].
    rewrite Nat.add_0_r in Hd. rewrite Hd. cbv zeta. cbn [fst snd].
    destruct (IH (S n)) as [H1 H2].
    { intros i Hi. destruct (H (S i) ltac:(cbn; lia)) as [d' Hd'].
      exists d'. rewrite <- Hd'. f_equal. lia. }
    split; [|exact H2]. unfold calls in *. cbn. f_equal. exact H1.
Qed.

Lemma issue_until net n s cs (j : nat) m :
  (j < length cs)%nat ->
  (forall i, (i < j)%nat -> exists d, net (n + i)%nat = Resolved d) ->
  net (n + j)%nat = Rejected m ->
  calls (issue net n s cs).1 = take (S j) cs /\
  (issue net n s cs).2 = Some m.
Proof.
  revert n j. induction cs as [|c cs IH]; intros n j Hj Hres Hrej;
    cbn [issue length] in *; [lia|].
  destruct j as [|j].
  - rewrite Nat.add_0_r in Hrej. rewrite Hrej. split; reflexivity.
  - destruct (Hres 0%nat ltac:(lia)) as [d Hd].
    rewrite Nat.add_0_r in Hd. rewrite Hd. cbv zeta. cbn [fst snd].
    destruct (IH (S n) j) as [H1 H2].
    { lia. }
    { intros i Hi. destruct (Hres (S i) ltac:(lia)) as [d' Hd'].
      exists d'. rewrite <- Hd'. f_equal. lia. }
    { rewrite <- Hrej. f_equal. lia. }
    split; [|exact H2]. unfold calls in *. cbn. f_equal. exact H1.
Qed.

Lemma issue_prefix net n s cs : calls (issue net n s cs).1 `prefix_of` cs.
Proof.
  revert n. induction cs as [|c cs IH]; intros n; cbn [issue].
  - reflexivity.
  - destruct (net n) as [d|m]; cbv zeta; cbn [fst snd].
    + unfold calls in *. cbn. apply prefix_cons, IH.
    + unfold calls. cbn. apply prefix_cons, prefix_nil.
Qed.

Lemma issue_state net n s cs :
  Forall (fun x => x.2 = s) (issue net n s cs).1.
Proof.
  revert n. induction cs as [|c cs IH]; intros n; cbn [issue].
  - constructor.
  - destruct (net n) as [d|m]; cbv zeta; cbn [fst snd].
    + constructor; [reflexivity|apply IH].
    + constructor; [reflexivity|constructor].
Qed.

Lemma relaySweepFrom_S host port from n :
  relaySweepFrom host port from (S n)
  = WriteCoil host port from false :: relaySweepFrom host port (from + 1) n.
Proof.
  unfold relaySweepFrom. cbn [seq fmap list_fmap]. f_equal.
  - f_equal. lia.
  - rewrite <- seq_shift, <- list_fmap_compose.
    apply list_fmap_ext. intros _ i _. cbn. f_equal. lia.
Qed.

Lemma run_allOff net host port from turns w s :
  run net (allOff host port from turns) w s
  = (w ++ (issue net (length w) s (relaySweepFrom host port from turns)).1,
     s,
     outcome (issue net (length w) s (relaySweepFrom host port from turns)).2).
Proof.
  revert from w. induction turns as [|n IH]; intros from w.
  - cbn. rewrite app_nil_r. reflexivity.
  - rewrite relaySweepFrom_S. cbn [allOff issue].
    rewrite run_bind, run_call.
    destruct (net (length w)) as [d|m].
    + rewrite IH, length_app. cbn [length fst snd].
      replace (length w + 1)%nat with (S (length w)) by lia.
      rewrite <- app_assoc. reflexivity.
    + reflexivity.
Qed.

Lemma run_sweepRelays net bs seen w s :
  let cs :=
    flat_map (fun k => relaySweepFrom k.1 k.2 0 8)
      (distinct ((fun b => (relay_host b, relay_port b)) <$> bs) seen) in
  run net (sweepRelays bs seen) w s
  = (w ++ (issue net (length w) s cs).1, s,
     outcome (issue net (length w) s cs).2).
Proof.
  cbv zeta. revert seen w. induction bs as [|b bs IH]; intros seen w.
  - cbn. rewrite app_nil_r. reflexivity.
  - cbn [sweepRelays fmap list_fmap distinct]. cbv zeta.
    destruct (bool_decide ((relay_host b, relay_port b) ∈ seen));
      [apply IH|].
    cbn [flat_map fst snd]. rewrite run_bind, run_allOff, issue_app.
    destruct (issue net (length w) s
                (relaySweepFrom (relay_host b) (relay_port b) 0 8)).2
      as [m|] eqn:E.
    + reflexivity.
    + cbn [outcome]. rewrite IH, length_app, (issue_length _ _ _ _ E).
      cbn [fst snd]. rewrite <- app_assoc. reflexivity.
Qed.

(** The emergency-off route logs first, then writes coils 0 to 7 of
    every relay off, one relay after the other in the order of the
    barriers, each relay once. It stops at the first write that is
    rejected and answers 500 with that error's message: the coils after
    it, and the relays after that one, are not written. When no write is
    rejected it answers 200 after all of them. In either case it leaves
    the barrier records (the locks among them), the latches and the
    pending pulse timers as they were. *)
Theorem emergency_off_route_stops_at_first_failure net w s :
  let all := flat_map (fun k => relaySweep k.1 k.2) (relays BARRIERS) in
  let r := run net postEmergencyOff w s in
  exists w1,
    r.1.1 = w ++ w1 /\
    calls w1 `prefix_of` all /\
    barrierStates r.1.2 = barrierStates s /\
    latchedCoils r.1.2 = latchedCoils s /\
    (exists more, timers r.1.2 = timers s ++ more /\
                  Forall (fun t => t.2 = BroadcastState) more) /\
    ((forall i, (i < length all)%nat ->
                exists d, net (length w + i)%nat = Resolved d) ->
     calls w1 = all /\ r.2 = Ok EmergencyOk /\
     head (eventLog r.1.2)
     = Some {| type := "emergency-off"; barrier := "ALL";
               details := "⚠️ EMERGENCY OFF — all coils OFF" |}) /\
    (forall (j : nat) m,
       (j < length all)%nat ->
       (forall i, (i < j)%nat ->
                  exists d, net (length w + i)%nat = Resolved d) ->
       net (length w + j)%nat = Rejected m ->
       calls w1 = take (S j) all /\ r.2 = Ok (Failure500 m) /\
       head (eventLog r.1.2)
       = Some {| type := "error"; barrier := "ALL";
                 details := "Emergency off failed: " +:+ m |}).
Proof.
  intros all r.
  set (s0 := logged "emergency-off" "ALL" "⚠️ EMERGENCY OFF — all coils OFF" s).
  assert (all = flat_map (fun k => relaySweepFrom k.1 k.2 0 8)
                  (distinct ((fun b => (relay_host b, relay_port b))
                             <$> BARRIERS) [])) as Hall by reflexivity.
  set (x := issue net (length w) s0 all).
  assert (r = match x.2 with
              | None => (w ++ x.1, s0, Ok EmergencyOk)
              | Some m =>
                  (w ++ x.1,
                   logged "error" "ALL" ("Emergency off failed: " +:+ m) s0,
                   Ok (Failure500 m))
              end) as Hr.
  { unfold r, postEmergencyOff. rewrite run_bind, run_eventLog.
    fold s0. rewrite run_tryCatch, run_bind.
    pose proof (run_sweepRelays net BARRIERS [] w s0) as Hs.
    cbv zeta in Hs. rewrite <- Hall in Hs. rewrite Hs. fold x.
    destruct x.2 as [m|]; cbn [outcome].
    - rewrite run_bind, run_eventLog. reflexivity.
    - reflexivity. }
  destruct (logged_fields "emergency-off" "ALL"
              "⚠️ EMERGENCY OFF — all coils OFF" s) as [Hb0 Hl0].
  destruct (logged_timers "emergency-off" "ALL"
              "⚠️ EMERGENCY OFF — all coils OFF" s) as [Ht0 Hn0].
  fold s0 in Hb0, Hl0, Ht0, Hn0. cbn [negb andb bool_decide] in Ht0.
  exists x.1. split; [rewrite Hr; destruct x.2; reflexivity|].
  split; [apply issue_prefix|].
  split.
  { rewrite Hr. destruct x.2 as [m|]; cbn [fst snd]; [|exact Hb0].
    destruct (logged_fields "error" "ALL" ("Emergency off failed: " +:+ m) s0)
      as [-> _]. exact Hb0. }
  split.
  { rewrite Hr. destruct x.2 as [m|]; cbn [fst snd]; [|exact Hl0].
    destruct (logged_fields "error" "ALL" ("Emergency off failed: " +:+ m) s0)
      as [_ ->]. exact Hl0. }
  split.
  { rewrite Hr. destruct x.2 as [m|]; cbn [fst snd].
    - destruct (logged_timers "error" "ALL"
                  ("Emergency off failed: " +:+ m) s0) as [-> _].
      rewrite Ht0, <- app_assoc. eexists. split; [reflexivity|].
      repeat constructor.
    - rewrite Ht0. eexists. split; [reflexivity|]. repeat constructor. }
  split.
  - intros Hres. destruct (issue_all net (length w) s0 all Hres) as [H1 H2].
    fold x in H1, H2. rewrite Hr, H2. cbn [fst snd].
    split; [exact H1|]. split; [reflexivity|]. apply logged_head.
  - intros j m Hj Hres Hrej.
    destruct (issue_until net (length w) s0 all j m Hj Hres Hrej) as [H1 H2].
    fold x in H1, H2. rewrite Hr, H2. cbn [fst snd].
    split; [exact H1|]. split; [reflexivity|]. apply logged_head.
Qed.

End SweepRouteFacts.

(** ** A pulse timer coming due, and the ring of the log *)

Section PulseDueFacts.

Import Async Api ApiRoutes.
Local Open Scope Z_scope.

Implicit Types (net : nat -> Outcome) (s : State)
  (w : Trace State Call Outcome) (b : BarrierConfig).

Lemma find_pending (l : list (nat * TimerTask)) h task :
  NoDup l.*1 -> (h, task) ∈ l ->
  find (fun t => bool_decide (t.1 = h)) l = Some (h, task).
Proof.
  intros Hnd Hin.
  destruct (find (fun t => bool_decide (t.1 = h)) l) as [t|] eqn:Hf.
  - apply find_elem in Hf as [Hin' Ht]. apply bool_decide_eq_true in Ht.
    f_equal. apply (NoDup_fst_inj l); auto.
  - apply (find_none_elem _ _ _ Hf) in Hin.
    apply bool_decide_eq_false in Hin. contradiction Hin. reflexivity.
Qed.

(** A pulse timer that comes due writes the coil it was armed for off,
    once, and is not pending afterwards; the callback never throws.
    When the write resolves the barrier's latch entry is deleted and
    [pulse-off] is logged, which schedules no broadcast. When the write
    is rejected the error is logged and nothing else is done: the latch
    entry stays, and no timer is armed to try again, so the coil stays
    on until another command clears it. *)
Theorem pulse_timer_releases_once net h b action w s :
  handlesFresh s -> NoDup (pending s) ->
  (h, PulseOff b action) ∈ timers s ->
  let r := run net (fireTimer h) w s in
  let rest := filter (fun t => bool_decide (t.1 <> h)) (timers s) in
  r.2 = Ok tt /\
  calls (drop (length w) r.1.1)
  = [WriteCoil (relay_host b) (relay_port b) (targetCoil b action) false] /\
  take (length w) r.1.1 = w /\
  (h ∉ pending r.1.2) /\
  barrierStates r.1.2 = barrierStates s /\
  match net (length w) with
  | Resolved _ =>
      timers r.1.2 = rest /\
      latchedCoils r.1.2 = delete (id b) (latchedCoils s) /\
      head (eventLog r.1.2)
      = Some {| type := "pulse-off"; barrier := id b;
                details := actionName action
                           +:+ " coil auto-released after 1500ms" |}
  | Rejected m =>
      timers r.1.2 = rest ++ [(nextTimer s, BroadcastState)] /\
      latchedCoils r.1.2 = latchedCoils s /\
      head (eventLog r.1.2)
      = Some {| type := "error"; barrier := id b;
                details := "Failed to release " +:+ actionName action
                           +:+ " coil: " +:+ m |}
  end.
Proof.
  intros Hfresh Hnd Hin r rest.
  set (s1 := {| barrierStates := barrierStates s;
                latchedCoils := latchedCoils s; eventLog := eventLog s;
                timers := rest; nextTimer := nextTimer s |}).
  set (c := WriteCoil (relay_host b) (relay_port b) (targetCoil b action)
                      false).
  assert (r = (w ++ [(c, net (length w), s1)],
               match net (length w) with
               | Resolved _ =>
                   logged "pulse-off" (id b)
                     (actionName action
                      +:+ " coil auto-released after 1500ms")
                     (with_latchedCoils (delete (id b) (latchedCoils s1)) s1)
               | Rejected m =>
                   logged "error" (id b)
                     ("Failed to release " +:+ actionName action
                      +:+ " coil: " +:+ m) s1
               end, Ok tt)) as Hr.
  { unfold r, fireTimer. cbn [run].
    rewrite (find_pending (timers s) h (PulseOff b action) Hnd Hin).
    rewrite run_bind. cbn [run clearTimeout modify snd timerBody].
    fold rest. fold s1. unfold pulseOff.
    rewrite run_tryCatch, run_bind, run_call. fold c.
    destruct (net (length w)) as [d|m].
    - rewrite run_bind. cbn [run modify]. rewrite run_eventLog. reflexivity.
    - cbn [message]. rewrite run_eventLog. reflexivity. }
  assert (h ∉ rest.*1) as Hgone by apply pending_filter.
  rewrite Hr. cbn [fst snd].
  split; [reflexivity|].
  split; [rewrite drop_app_length; reflexivity|].
  split; [rewrite take_app_length; reflexivity|].
  destruct (net (length w)) as [d|m].
  - match goal with
    | |- context [logged ?t ?b0 ?d0 ?s0] =>
        destruct (logged_fields t b0 d0 s0) as [Hb Hl];
        destruct (logged_timers t b0 d0 s0) as [Ht _];
        pose proof (logged_head t b0 d0 s0) as Hh
    end.
    cbn [negb andb bool_decide] in Ht.
    replace (bool_decide ("pulse-off" = "startup")) with false in Ht
      by reflexivity.
    replace (bool_decide ("pulse-off" = "pulse-off")) with true in Ht
      by reflexivity.
    cbn [negb andb] in Ht. rewrite app_nil_r in Ht.
    split; [unfold pending; rewrite Ht; exact Hgone|].
    split; [rewrite Hb; reflexivity|].
    split; [rewrite Ht; reflexivity|].
    split; [rewrite Hl; reflexivity|exact Hh].
  - match goal with
    | |- context [logged ?t ?b0 ?d0 ?s0] =>
        destruct (logged_fields t b0 d0 s0) as [Hb Hl];
        destruct (logged_timers t b0 d0 s0) as [Ht _];
        pose proof (logged_head t b0 d0 s0) as Hh
    end.
    replace (bool_decide ("error" = "startup")) with false in Ht
      by reflexivity.
    replace (bool_decide ("error" = "pulse-off")) with false in Ht
      by reflexivity.
    cbn [negb andb] in Ht.
    split.
    { unfold pending. rewrite Ht, fmap_app, elem_of_app.
      intros [Hx|Hx]; [exact (Hgone Hx)|].
      cbn in Hx. apply list_elem_of_singleton in Hx.
      unfold handlesFresh in Hfresh. rewrite Forall_forall in Hfresh.
      specialize (Hfresh _ Hin). cbn in Hfresh. lia. }
    split; [rewrite Hb; reflexivity|].
    split; [rewrite Ht; reflexivity|].
    split; [rewrite Hl; reflexivity|exact Hh].
Qed.

End PulseDueFacts.

Section LogRingFacts.

Import Async Api ApiRoutes.
Local Open Scope Z_scope.

Implicit Types (net : nat -> Outcome) (s : State)
  (w : Trace State Call Outcome) (b : BarrierConfig).

Lemma removelast_take {A : Type} (l : list A) :
  removelast l = take (length l - 1) l.
Proof.
  induction l as [|a [|a' l] IH]; [reflexivity|reflexivity|].
  cbn [removelast] in *. rewrite IH. cbn [length]. 
  replace (S (S (length l)) - 1)%nat with (S (S (length l) - 1)) by lia.
  reflexivity.
Qed.

Lemma logged_ring type who details s :
  logBounded s ->
  eventLog (logged type who details s)
  = take MAX_LOG ({| type := type; barrier := who; details := details |}
                  :: eventLog s) /\
  logBounded (logged type who details s).
Proof.
  unfold logBounded. intros Hb. rewrite logged_eventLog. cbv zeta.
  destruct (Nat.ltb_spec MAX_LOG
              (length ({| type := type; barrier := who; details := details |}
                       :: eventLog s))) as [Hlt|Hge].
  - cbn [length] in Hlt. assert (length (eventLog s) = MAX_LOG) as E by lia.
    rewrite removelast_take. cbn [length]. rewrite E.
    replace (S MAX_LOG - 1)%nat with MAX_LOG by lia.
    split; [reflexivity|]. rewrite length_take. lia.
  - split; [symmetry; apply take_ge; lia|lia].
Qed.

Lemma logBounded_ext s s' :
  eventLog s' = eventLog s -> logBounded s -> logBounded s'.
Proof. unfold logBounded. intros ->. auto. Qed.

(** One syntax-directed step towards [hoare logBounded m logBounded]. *)
Ltac ring_step :=
  lazymatch goal with
  | |- hoare _ (Async.bind _ _) _ => apply hoare_bind_same
  | |- hoare _ (Async.tryCatch _ _) _ => apply hoare_tryCatch_same
  | |- hoare _ (Async.Ret _) _ => apply hoare_Ret; auto
  | |- hoare _ (Async.Get _) _ =>
      apply hoare_Get; intros ?;
      apply (hoare_weaken logBounded _ logBounded); [|tauto|auto]
  | |- hoare _ (Api.log _ _ _) _ =>
      apply hoare_log; intros ? ?; apply logged_ring; assumption
  | |- hoare _ (Api.call _) _ => apply hoare_call
  | |- hoare _ (Api.stateOf _) _ => apply hoare_stateOf
  | |- hoare _ (Async.modify _) _ =>
      apply hoare_modify; intros ?; apply logBounded_ext; reflexivity
  | |- hoare _ (Api.clearTimeout _) _ =>
      apply hoare_modify; intros ?; apply logBounded_ext; reflexivity
  | |- hoare _ (Api.assign _ _) _ =>
      apply hoare_modify; intros ?; apply logBounded_ext; reflexivity
  | |- hoare _ (Api.setTimeout _) _ =>
      apply hoare_Get; intros ?; intros ? ? ? [? ->]; assumption
  | |- hoare _ (ApiRoutes.sweepRelays _ _) _ => apply hoare_sweepRelays
  | |- hoare _ (ApiRoutes.broadcastState) _ => apply hoare_broadcastState
  | |- hoare _ (if ?c then _ else _) _ => destruct c
  | |- hoare _ (match ?o with _ => _ end) _ => destruct o
  | |- hoare _ (let _ := _ in _) _ => cbv zeta
  | |- forall _, _ => intro
  end.

Lemma handler_logBounded ev : hoare logBounded (handler ev) logBounded.
Proof.
  destruct ev; cbn [handler];
    cbv beta delta [postAction postLatchOpen postLatchClose postUnlatch
                    postLock postUnlock postEmergencyOff getLog
                    getRelayStatus fireTimer timerBody pulseOff
                    activateCoil releaseLatch dropLatch];
    repeat ring_step.
Qed.

Lemma runEvents_logBounded net evs w s :
  logBounded s -> logBounded (runEvents net evs w s).2.
Proof.
  revert w s. induction evs as [|ev evs IH]; intros w s Hs; cbn.
  - exact Hs.
  - apply IH, handler_logBounded, Hs.
Qed.

(** A log of at most 2000 entries, as it is when the program starts,
    never grows beyond 2000, whatever requests and timers are handled.
    [log] puts its entry first; once the ring is full each entry pushes
    the oldest out, the others keeping their order. *)
Theorem event_log_keeps_newest_2000 net :
  (forall evs w s,
     (length (eventLog s) <= 2000)%nat ->
     (length (eventLog (runEvents net evs w s).2) <= 2000)%nat) /\
  (forall type who details w s,
     (length (eventLog s) <= 2000)%nat ->
     let entry := {| type := type; barrier := who; details := details |} in
     let s' := (run net (log type who details) w s).1.2 in
     head (eventLog s') = Some entry /\
     length (eventLog s') = Nat.min 2000 (S (length (eventLog s))) /\
     eventLog s' = take 2000 (entry :: eventLog s)).
Proof.
  split.
  - intros evs w s Hb. apply (runEvents_logBounded net evs w s). exact Hb.
  - intros type who details w s Hb entry s'. unfold s'.
    rewrite run_eventLog. cbn [fst snd].
    destruct (logged_ring type who details s Hb) as [Heq _].
    split; [apply logged_head|]. rewrite Heq.
    split; [|reflexivity].
    rewrite length_take. cbn [length]. change MAX_LOG with 2000%nat. lia.
Qed.

End LogRingFacts.

(** ** The Modbus client: connecting and retrying *)

Section ClientFacts.

Import Async ModbusClient.
Local Open Scope Z_scope.

Implicit Types (net : nat -> Answer) (s : State)
  (w : Trace State Request Answer).

Lemma run_library_call net r w s :
  run net (call r) w s
  = (w ++ [(r, net (length w), s)], s,
     match net (length w) with
     | Resolved data => Ok data
     | Rejected m => Error m
     end).
Proof. unfold call. cbn [run]. destruct (net (length w)); reflexivity. Qed.

Lemma requests_one (r : Request) (a : Answer) s : requests [(r, a, s)] = [r].
Proof. reflexivity. Qed.

Lemma requests_app w w' : requests (w ++ w') = requests w ++ requests w'.
Proof. unfold requests. rewrite !fmap_app. reflexivity. Qed.

(** What a run of [getConnection] leaves: no connect in flight for the
    relay; at most one request, the connect of a new client; when it
    returns, the client is the open connection of the relay; when it
    throws, the connect was rejected with the error thrown and the relay
    has no connection. *)
Lemma run_getConnection net host port w s :
  connectPromises s !! (host, port) = None ->
  exists w1 s1 res,
    run net (getConnection host port) w s = (w ++ w1, s1, res) /\
    connectPromises s1 !! (host, port) = None /\
    (forall k, k <> (host, port) ->
               connections s1 !! k = connections s !! k) /\
    (nextClient s <= nextClient s1)%nat /\
    match res with
    | Ok c =>
        connections s1 !! (host, port) = Some {| cid := c; isOpen := true |}
        /\ (w1 = [] \/
            exists s0, w1 = [(ConnectTCP c host port, net (length w), s0)] /\
                       c = nextClient s /\
                       exists d, net (length w) = Resolved d)
    | Error m =>
        connections s1 !! (host, port) = None /\
        exists s0, w1 = [(ConnectTCP (nextClient s) host port,
                          Rejected m, s0)] /\
                   net (length w) = Rejected m
    end.
Proof.
  intros Hidle.
  assert (forall s0,
            connectPromises s0 !! (host, port) = None ->
            connections s0 !! (host, port) = None ->
            exists w1 s1 res,
              run net (connect host port) w s0 = (w ++ w1, s1, res) /\
              connectPromises s1 !! (host, port) = None /\
              (forall k, k <> (host, port) ->
                         connections s1 !! k = connections s0 !! k) /\
              (nextClient s0 <= nextClient s1)%nat /\
              match res with
              | Ok c =>
                  connections s1 !! (host, port)
                  = Some {| cid := c; isOpen := true |} /\
                  exists s2,
                    w1 = [(ConnectTCP c host port, net (length w), s2)] /\
                    c = nextClient s0 /\
                    exists d, net (length w) = Resolved d
              | Error m =>
                  connections s1 !! (host, port) = None /\
                  exists s2,
                    w1 = [(ConnectTCP (nextClient s0) host port,
                           Rejected m, s2)] /\
                    net (length w) = Rejected m
              end) as Hconnect.
  { intros s0 Hp Hc. unfold connect. cbv zeta. cbn [run]. rewrite Hp.
    rewrite run_bind. cbn [run newClient]. rewrite run_bind.
    cbn [run modify].
    unfold tryFinally.
    rewrite run_handle, run_tryCatch, run_bind, run_library_call.
    destruct (net (length w)) as [d|m] eqn:Hnet.
    - rewrite run_bind. cbn [run modify]. rewrite run_bind.
      cbn [run log modify]. rewrite run_bind. cbn [run modify].
      eexists _, _, _. split; [reflexivity|].
      cbn [connectPromises connections nextClient with_connectPromises
             with_connections].
      split; [apply lookup_delete_eq|].
      split; [intros k Hk; apply lookup_insert_ne; congruence|].
      split; [lia|]. split; [apply lookup_insert_eq|].
      eexists. split; [reflexivity|]. split; [reflexivity|]. eauto.
    - cbn [run log modify]. rewrite run_bind. cbn [run modify].
      eexists _, _, _. split; [reflexivity|].
      cbn [connectPromises connections nextClient with_connectPromises
             with_connections].
      split; [apply lookup_delete_eq|].
      split; [reflexivity|]. split; [lia|]. split; [exact Hc|].
      eexists. split; [reflexivity|]. reflexivity. }
  unfold getConnection. cbv zeta. cbn [run].
  destruct (connections s !! (host, port)) as [[c [|]]|] eqn:Hcon.
  - cbn [isOpen cid run]. exists [], s, (Ok c).
    rewrite app_nil_r. split; [reflexivity|]. split; [exact Hidle|].
    split; [reflexivity|]. split; [lia|]. split; [exact Hcon|]. left.
    reflexivity.
  - cbn [isOpen]. rewrite run_bind. cbn [run dropConnection modify].
    rewrite Hcon.
    match goal with
    | |- context [run net (connect host port) w ?s0] =>
        destruct (Hconnect s0) as (w1 & s1 & res & Hrun & H1 & H2 & H3 & H4)
    end.
    { exact Hidle. }
    { cbn. apply lookup_delete_eq. }
    exists w1, s1, res. split; [exact Hrun|]. split; [exact H1|].
    split.
    { intros k Hk. rewrite (H2 k Hk). cbn.
      apply lookup_delete_ne. congruence. }
    split; [exact H3|].
    destruct res as [c'|m].
    + destruct H4 as (G1 & s2 & G2). split; [exact G1|]. right. eauto.
    + exact H4.
  - destruct (Hconnect s Hidle Hcon)
      as (w1 & s1 & res & Hrun & H1 & H2 & H3 & H4).
    exists w1, s1, res. split; [exact Hrun|]. split; [exact H1|].
    split; [exact H2|]. split; [exact H3|].
    destruct res as [c'|m].
    + destruct H4 as (G1 & s2 & G2). split; [exact G1|]. right. eauto.
    + exact H4.
Qed.

Lemma run_dropConnection net k w s :
  exists s1,
    run net (dropConnection k) w s = (w, s1, Ok tt) /\
    connections s1 !! k = None /\
    connectPromises s1 = connectPromises s /\
    nextClient s1 = nextClient s /\
    console s1 = console s /\
    closed s1 = closed s ++ match connections s !! k with
                            | Some c => [cid c]
                            | None => []
                            end.
Proof.
  unfold dropConnection. cbn [run modify].
  destruct (connections s !! k) as [c|] eqn:Hc; eexists;
    (split; [reflexivity|]); cbn; rewrite ?app_nil_r; repeat split; auto.
  apply lookup_delete_eq.
Qed.

Lemma run_client_log net line w s :
  run net (log line) w s
  = (w, {| connections := connections s;
           connectPromises := connectPromises s;
           nextClient := nextClient s; closed := closed s;
           console := console s ++ [line] |}, Ok tt).
Proof. reflexivity. Qed.

Lemma run_write_attempt net host port coil value w s :
  connectPromises s !! (host, port) = None ->
  exists w1 s1 res,
    run net (let* client := getConnection host port in
             let* _ := call (WriteCoil client coil value) in
             log (CoilSet host port coil value)) w s
    = (w ++ w1, s1, res) /\
    connectPromises s1 !! (host, port) = None /\
    (nextClient s <= nextClient s1)%nat /\
    Forall (writeAttempt host port coil value (nextClient s)) (requests w1) /\
    (length (filter isConnect (requests w1)) <= 1)%nat /\
    (length (coilWrites (requests w1)) <= 1)%nat /\
    match res with
    | Ok _ =>
        exists c s0 d,
          connections s1 !! (host, port)
          = Some {| cid := c; isOpen := true |} /\
          last w1 = Some (WriteCoil c coil value, Resolved d, s0)
    | Error m => exists x, last w1 = Some x /\ x.1.2 = Rejected m
    end.
Proof.
  intros Hidle. rewrite run_bind.
  destruct (run_getConnection net host port w s Hidle)
    as (w1 & s1 & res & -> & H1 & _ & H3 & H4).
  destruct res as [c|m].
  - destruct H4 as [Hc Hw1]. rewrite run_bind, run_library_call.
    assert (Forall (writeAttempt host port coil value (nextClient s))
                   (requests w1) /\
            (length (filter isConnect (requests w1)) <= 1)%nat /\
            coilWrites (requests w1) = []) as (F1 & F2 & F3).
    { destruct Hw1 as [->|(s0 & -> & -> & _)].
      - split; [constructor|]. split; [cbn; lia|reflexivity].
      - rewrite requests_one.
        split; [|split; [vm_compute; lia|reflexivity]].
        apply Forall_cons. split; [left; eauto|constructor]. }
    assert (Forall (writeAttempt host port coil value (nextClient s))
                   (requests (w1 ++ [(WriteCoil c coil value,
                                      net (length (w ++ w1)), s1)]))) as G1.
    { rewrite requests_app, requests_one. apply Forall_app.
      split; [exact F1|].
      apply Forall_cons. split; [right; eauto|constructor]. }
    assert ((length (filter isConnect
               (requests (w1 ++ [(WriteCoil c coil value,
                                  net (length (w ++ w1)), s1)]))) <= 1)%nat)
      as G2.
    { rewrite requests_app, filter_app, length_app.
      change (length (filter isConnect (requests [(WriteCoil c coil value,
                net (length (w ++ w1)), s1)]))) with 0%nat. lia. }
    assert ((length (coilWrites
               (requests (w1 ++ [(WriteCoil c coil value,
                                  net (length (w ++ w1)), s1)]))) <= 1)%nat)
      as G3.
    { rewrite requests_app. unfold coilWrites in *.
      rewrite omap_app, F3. cbn. lia. }
    destruct (net (length (w ++ w1))) as [d|m] eqn:Hnet.
    + rewrite run_client_log. eexists _, _, _.
      split; [rewrite <- app_assoc; reflexivity|].
      cbn [connectPromises nextClient connections].
      split; [exact H1|]. split; [exact H3|]. split; [exact G1|].
      split; [exact G2|]. split; [exact G3|].
      exists c, s1, d. split; [exact Hc|]. apply last_snoc.
    + eexists _, _, _. split; [rewrite <- app_assoc; reflexivity|].
      split; [exact H1|]. split; [exact H3|]. split; [exact G1|].
      split; [exact G2|]. split; [exact G3|].
      eexists. split; [apply last_snoc|reflexivity].
  - destruct H4 as (_ & s0 & -> & Hnet).
    eexists _, _, _. split; [reflexivity|].
    split; [exact H1|]. split; [exact H3|]. rewrite requests_one. split.
    { apply Forall_cons. split; [left; eauto|constructor]. }
    split; [vm_compute; lia|]. split; [vm_compute; lia|].
    eexists. split; reflexivity.
Qed.

(** [writeCoil] makes at most two attempts. Each connects at most once,
    always with a new client, and writes the coil at most once; nothing
    else is asked of the library. When the call returns, the last
    request was the write, it resolved, and the client it went to is the
    open connection of the relay. When it throws, both attempts failed:
    the error is that of the last request, the first one's is only
    logged, and the relay is left without connection, so that the next
    call connects anew. *)
Theorem writeCoil_retries_once net host port coil value w s :
  connectPromises s !! (host, port) = None ->
  let r := run net (writeCoil host port coil value) w s in
  exists w1,
    r.1.1 = w ++ w1 /\
    Forall (writeAttempt host port coil value (nextClient s)) (requests w1) /\
    (length (filter isConnect (requests w1)) <= 2)%nat /\
    (length (coilWrites (requests w1)) <= 2)%nat /\
    connectPromises r.1.2 !! (host, port) = None /\
    match r.2 with
    | Ok _ =>
        exists c s0 d,
          connections r.1.2 !! (host, port)
          = Some {| cid := c; isOpen := true |} /\
          last w1 = Some (WriteCoil c coil value, Resolved d, s0)
    | Error m =>
        connections r.1.2 !! (host, port) = None /\
        (exists x, last w1 = Some x /\ x.1.2 = Rejected m) /\
        (2 <= length (filter rejected w1))%nat
    end.
Proof.
  intros Hidle r. unfold r, writeCoil, withRetry, attemptOp.
  rewrite run_tryCatch.
  destruct (run_write_attempt net host port coil value w s Hidle)
    as (w1 & s1 & res & -> & H1 & H2 & H3 & H4 & H5 & H6).
  destruct res as [[]|m].
  - exists w1. cbn [fst snd]. split; [reflexivity|]. split; [exact H3|].
    split; [lia|]. split; [lia|]. split; [exact H1|]. exact H6.
  - rewrite run_bind.
    destruct (run_dropConnection net (host, port) (w ++ w1) s1)
      as (s2 & -> & D1 & D2 & D3 & _).
    cbn [Z.eqb]. rewrite run_bind, run_client_log, run_tryCatch.
    match goal with
    | |- context [run net _ (w ++ w1) ?s3] =>
        destruct (run_write_attempt net host port coil value (w ++ w1) s3)
          as (w2 & s4 & res & -> & K1 & K2 & K3 & K4 & K5 & K6)
    end.
    { cbn. rewrite D2. exact H1. }
    cbn [nextClient] in K2, K3. rewrite D3 in K2, K3.
    assert (Forall (writeAttempt host port coil value (nextClient s))
                   (requests w2)) as K3'.
    { eapply Forall_impl; [exact K3|]. cbn.
      intros x [(c & -> & Hc)|Hx]; [left|right; exact Hx].
      exists c. split; [reflexivity|lia]. }
    destruct H6 as (x1 & Hx1 & Hrej1).
    assert (forall m0 t x, last t = Some x -> x.1.2 = Rejected m0 ->
              (1 <= length (filter rejected t))%nat) as Hlast2.
    { intros m0 t x Ht Hx. apply last_Some in Ht as [t' ->].
      rewrite filter_app, length_app.
      assert (rejected x = true) as Hr
        by (unfold rejected; rewrite Hx; reflexivity).
      rewrite filter_cons_True by (apply Is_true_true; exact Hr).
      cbn. lia. }
    pose proof (Hlast2 m w1 x1 Hx1 Hrej1) as Hone.
    destruct res as [[]|m2].
    + exists (w1 ++ w2). cbn [fst snd].
      split; [rewrite app_assoc; reflexivity|].
      rewrite requests_app.
      split; [apply Forall_app; split; assumption|].
      split; [rewrite filter_app, length_app; lia|].
      split; [unfold coilWrites in *; rewrite omap_app, length_app; lia|].
      split; [exact K1|].
      destruct K6 as (c & s0 & d & G1 & G2). exists c, s0, d.
      split; [exact G1|].
      apply last_Some in G2 as [w2' ->]. rewrite app_assoc. apply last_snoc.
    + rewrite run_bind.
      destruct (run_dropConnection net (host, port) ((w ++ w1) ++ w2) s4)
        as (s5 & -> & E1 & E2 & _).
      cbn [Z.eqb run fst snd]. exists (w1 ++ w2).
      split; [rewrite app_assoc; reflexivity|].
      rewrite requests_app.
      split; [apply Forall_app; split; assumption|].
      split; [rewrite filter_app, length_app; lia|].
      split; [unfold coilWrites in *; rewrite omap_app, length_app; lia|].
      split; [rewrite E2; exact K1|]. split; [exact E1|].
      destruct K6 as (x2 & Hx2 & Hrej2). split.
      * exists x2. split; [|exact Hrej2].
        apply last_Some in Hx2 as [w2' ->]. rewrite app_assoc.
        apply last_snoc.
      * unfold Trace. rewrite filter_app, length_app.
        pose proof (Hlast2 m2 w2 x2 Hx2 Hrej2). lia.
Qed.

Lemma run_writeAll net host port c writes w s :
  exists w1 s1 res,
    run net (writeAll host port c writes) w s = (w ++ w1, s1, res) /\
    connections s1 = connections s /\
    connectPromises s1 = connectPromises s /\
    nextClient s1 = nextClient s /\ closed s1 = closed s /\
    ((forall i, (i < length writes)%nat ->
                exists d, net (length w + i)%nat = Resolved d) ->
     res = Ok tt /\
     requests w1 = (fun x => WriteCoil c x.1 x.2) <$> writes /\
     console s1
     = console s ++ ((fun x => CoilSet host port x.1 x.2) <$> writes)) /\
    (forall (j : nat) m,
       (j < length writes)%nat ->
       (forall i, (i < j)%nat ->
                  exists d, net (length w + i)%nat = Resolved d) ->
       net (length w + j)%nat = Rejected m ->
       res = Error m /\
       requests w1 = (fun x => WriteCoil c x.1 x.2) <$> take (S j) writes /\
       console s1
       = console s
         ++ ((fun x => CoilSet host port x.1 x.2) <$> take j writes)).
Proof.
  revert w s. induction writes as [|[coil value] rest IH]; intros w s.
  - exists [], s, (Ok tt). cbn [writeAll run].
    rewrite app_nil_r. split; [reflexivity|].
    do 4 (split; [reflexivity|]). split.
    + intros _. split; [reflexivity|]. split; [reflexivity|].
      cbn. rewrite app_nil_r. reflexivity.
    + intros j m Hj. cbn in Hj. lia.
  - cbn [writeAll]. rewrite run_bind, run_library_call.
    destruct (net (length w)) as [d|m0] eqn:Hnet.
    + rewrite run_bind, run_client_log.
      match goal with
      | |- context [run net (writeAll host port c rest) ?w0 ?s0] =>
          destruct (IH w0 s0)
            as (w1 & s1 & res & -> & L1 & L2 & L3 & L4 & Hok & Hfail)
      end.
      cbn [connections connectPromises nextClient closed console]
        in L1, L2, L3, L4, Hok, Hfail.
      rewrite length_app in Hok, Hfail. cbn [length] in Hok, Hfail.
      eexists _, s1, res.
      split; [rewrite <- app_assoc; reflexivity|].
      do 4 (split; [assumption|]). split.
      * intros Hres. destruct Hok as (-> & Hreq & Hcon).
        { intros i Hi. destruct (Hres (S i) ltac:(cbn; lia)) as [d' Hd'].
          exists d'. rewrite <- Hd'. f_equal. lia. }
        split; [reflexivity|]. split.
        -- rewrite requests_app, requests_one, Hreq. reflexivity.
        -- rewrite Hcon, <- app_assoc. reflexivity.
      * intros j m Hj Hres Hrej. destruct j as [|j].
        { rewrite Nat.add_0_r in Hrej. congruence. }
        destruct (Hfail j m) as (-> & Hreq & Hcon).
        { cbn in Hj. lia. }
        { intros i Hi. destruct (Hres (S i) ltac:(lia)) as [d' Hd'].
          exists d'. rewrite <- Hd'. f_equal. lia. }
        { rewrite <- Hrej. f_equal. lia. }
        split; [reflexivity|]. split.
        -- rewrite requests_app, requests_one, Hreq. reflexivity.
        -- rewrite Hcon, <- app_assoc. reflexivity.
    + eexists [_], s, (Error m0). split; [reflexivity|].
      do 4 (split; [reflexivity|]). split.
      * intros Hres. destruct (Hres 0%nat ltac:(cbn; lia)) as [d Hd].
        rewrite Nat.add_0_r in Hd. congruence.
      * intros j m Hj Hres Hrej. destruct j as [|j].
        -- rewrite Nat.add_0_r in Hrej.
           assert (m0 = m) as -> by congruence.
           split; [reflexivity|]. split; [reflexivity|].
           cbn. rewrite app_nil_r. reflexivity.
        -- destruct (Hres 0%nat ltac:(lia)) as [d Hd].
           rewrite Nat.add_0_r in Hd. congruence.
Qed.

Lemma run_connect_resolved net host port d w s :
  connections s !! (host, port) = None ->
  connectPromises s !! (host, port) = None ->
  net (length w) = Resolved d ->
  exists s0 s1,
    run net (getConnection host port) w s
    = (w ++ [(ConnectTCP (nextClient s) host port, Resolved d, s0)], s1,
       Ok (nextClient s)) /\
    connections s1
    = <[(host, port) := {| cid := nextClient s; isOpen := true |}]>
        (connections s) /\
    connectPromises s1 !! (host, port) = None /\
    nextClient s1 = S (nextClient s) /\ closed s1 = closed s /\
    console s1 = console s ++ [Connected host port].
Proof.
  intros Hc Hp Hnet. unfold getConnection. cbv zeta. cbn [run].
  rewrite Hc. unfold connect. cbv zeta. cbn [run]. rewrite Hp.
  rewrite run_bind. cbn [run newClient]. rewrite run_bind.
  cbn [run modify].
  unfold tryFinally.
  rewrite run_handle, run_tryCatch, run_bind, run_library_call.
  rewrite Hnet. rewrite run_bind. cbn [run modify]. rewrite run_bind.
  cbn [run log modify]. rewrite run_bind. cbn [run modify].
  eexists _, _. split; [reflexivity|].
  cbn [connectPromises connections nextClient closed console
         with_connectPromises with_connections].
  split; [reflexivity|]. split; [apply lookup_delete_eq|].
  repeat split.
Qed.

(** A [writeMultipleCoils] whose [j]-th write is rejected on an open
    connection starts over: the connection is closed and dropped, a new
    client connects, and all the writes are made again from the first
    one, so that the writes before the rejected one are made twice. With
    the connect and the second round resolving, the call returns
    normally and the new client is the relay's connection. *)
Theorem writeMultipleCoils_replays_from_the_start
    net host port writes c (j : nat) m w s :
  connections s !! (host, port) = Some {| cid := c; isOpen := true |} ->
  connectPromises s !! (host, port) = None ->
  (j < length writes)%nat ->
  (forall i, (i < j)%nat -> exists d, net (length w + i)%nat = Resolved d) ->
  net (length w + j)%nat = Rejected m ->
  (forall i, (i <= length writes)%nat ->
             exists d, net (length w + S j + i)%nat = Resolved d) ->
  let r := run net (writeMultipleCoils host port writes) w s in
  let c' := nextClient s in
  r.2 = Ok tt /\
  take (length w) r.1.1 = w /\
  requests (drop (length w) r.1.1)
  = ((fun x => WriteCoil c x.1 x.2) <$> take (S j) writes)
    ++ ConnectTCP c' host port
    :: ((fun x => WriteCoil c' x.1 x.2) <$> writes) /\
  connections r.1.2 !! (host, port)
  = Some {| cid := c'; isOpen := true |} /\
  closed r.1.2 = closed s ++ [c] /\
  console r.1.2
  = console s
    ++ ((fun x => CoilSet host port x.1 x.2) <$> take j writes)
    ++ [Reconnecting host port m; Connected host port]
    ++ ((fun x => CoilSet host port x.1 x.2) <$> writes).
Proof.
  intros Hcon Hidle Hj Hres Hrej Hres2 r c'.
  remember (run net (writeMultipleCoils host port writes) w s) as X eqn:HX.
  unfold r. clear r.
  unfold writeMultipleCoils, withRetry, attemptOp in HX.
  rewrite run_tryCatch, run_bind in HX.
  unfold getConnection at 1 in HX. cbv zeta in HX. cbn [run] in HX.
  rewrite Hcon in HX. cbn [isOpen cid run] in HX.
  destruct (run_writeAll net host port c writes w s)
    as (w1 & s1 & res & E1 & L1 & L2 & L3 & L4 & _ & Hfail).
  rewrite E1 in HX. clear E1.
  destruct (Hfail j m Hj Hres Hrej) as (-> & Hreq1 & Hlog1).
  assert (length w1 = S j) as Hlen1.
  { transitivity (length (requests w1)).
    - unfold requests. rewrite !length_fmap. reflexivity.
    - rewrite Hreq1, length_fmap, length_take. lia. }
  rewrite run_bind in HX.
  destruct (run_dropConnection net (host, port) (w ++ w1) s1)
    as (s2 & E2 & D1 & D2 & D3 & D4 & D5).
  rewrite E2 in HX. clear E2.
  rewrite L1, Hcon in D5. cbn [cid] in D5.
  cbn [Z.eqb] in HX.
  rewrite run_bind, run_client_log, run_tryCatch, run_bind in HX.
  destruct (Hres2 0%nat ltac:(lia)) as [d0 Hd0].
  match type of HX with
  | context [run net (getConnection host port) (w ++ w1) ?s3] =>
      destruct (run_connect_resolved net host port d0 (w ++ w1) s3)
        as (s4 & s5 & E3 & C1 & C2 & C3 & C4 & C5)
  end.
  { exact D1. }
  { cbn. rewrite D2, L2. exact Hidle. }
  { rewrite length_app, Hlen1, <- Hd0. f_equal. lia. }
  rewrite E3 in HX. clear E3.
  cbn [connections nextClient closed console] in C1, C3, C4, C5, HX.
  rewrite D3, L3 in C3, HX. rewrite D3, L3 in C1.
  fold c' in C1, C3, HX.
  match type of HX with
  | context [run net (writeAll host port c' writes) ?w0 s5] =>
      destruct (run_writeAll net host port c' writes w0 s5)
        as (w2 & s6 & res & E4 & M1 & M2 & M3 & M4 & Hok & _)
  end.
  rewrite E4 in HX. clear E4.
  destruct Hok as (-> & Hreq2 & Hlog2).
  { intros i Hi. destruct (Hres2 (S i) ltac:(lia)) as [d Hd].
    exists d. rewrite <- Hd. f_equal.
    rewrite !length_app, Hlen1. cbn [length]. lia. }
  subst X. cbn [fst snd]. split; [reflexivity|]. split.
  { rewrite <- !app_assoc. apply take_app_length. }
  split.
  { rewrite <- !app_assoc, drop_app_length, !requests_app, Hreq1, Hreq2.
    reflexivity. }
  split; [rewrite M1, C1; apply lookup_insert_eq|].
  split; [rewrite M4, C4, D5, L4; reflexivity|].
  rewrite Hlog2, C5, D4, Hlog1, <- !app_assoc. reflexivity.
Qed.

End ClientFacts.

Section ReadCoilsClaims.

Import Buf Codec Async.
Local Open Scope Z_scope.

(** [withRetry] returns what an attempt of the operation returned. *)
Lemma run_withRetry_ok {A : Type} (net : nat -> ModbusClient.Answer)
    host port (op : nat -> ModbusClient.Prog A) w s w' s' (a : A) :
  run net (ModbusClient.withRetry host port op) w s = (w', s', Ok a) ->
  exists client w0 s0, run net (op client) w0 s0 = (w', s', Ok a).
Proof.
  unfold ModbusClient.withRetry, ModbusClient.attemptOp.
  rewrite run_tryCatch, run_bind.
  destruct (run net (ModbusClient.getConnection host port) w s)
    as [[w1 s1] [c|m]].
  - destruct (run net (op c) w1 s1) as [[w2 s2] [a'|m]] eqn:E.
    + intros [= <- <- <-]. eauto.
    + rewrite run_bind. cbn [run ModbusClient.dropConnection modify].
      change (0 =? 0) with true. cbn match.
      rewrite run_bind. cbn [run ModbusClient.log modify].
      rewrite run_tryCatch, run_bind.
      match goal with
      | |- context [run net (ModbusClient.getConnection host port) ?w3 ?s3] =>
          destruct (run net (ModbusClient.getConnection host port) w3 s3)
            as [[w4 s4] [c'|m']]
      end.
      * destruct (run net (op c') w4 s4) as [[w5 s5] [a'|m']] eqn:E';
          [intros [= <- <- <-]; eauto|].
        rewrite run_bind. cbn [run ModbusClient.dropConnection modify].
        discriminate.
      * rewrite run_bind. cbn [run ModbusClient.dropConnection modify].
        discriminate.
  - rewrite run_bind. cbn [run ModbusClient.dropConnection modify].
    change (0 =? 0) with true. cbn match.
    rewrite run_bind. cbn [run ModbusClient.log modify].
    rewrite run_tryCatch, run_bind.
    match goal with
    | |- context [run net (ModbusClient.getConnection host port) ?w3 ?s3] =>
        destruct (run net (ModbusClient.getConnection host port) w3 s3)
          as [[w4 s4] [c'|m']]
    end.
    + destruct (run net (op c') w4 s4) as [[w5 s5] [a'|m']] eqn:E';
        [intros [= <- <- <-]; eauto|].
      rewrite run_bind. cbn [run ModbusClient.dropConnection modify].
      discriminate.
    + rewrite run_bind. cbn [run ModbusClient.dropConnection modify].
      discriminate.
Qed.

(** C10 (as the two sources have it): a successful [readCoils(board,
    start, qty)] of [server.js] returns exactly [qty] booleans, whatever
    the number of data bytes in the response PDU: coil [i] is bit
    [i mod 8] of PDU byte [2 + i / 8], and is [false] when the PDU has no
    such byte. A successful [readCoils(host, port, start, count)] of
    [modbus-client.ts] returns the first [count] of the values the
    library decoded from the answer to its last request, and pads
    nothing: [count] booleans when the library delivered as many, all it
    delivered when it delivered fewer. *)
Theorem readCoils_returns_qty_coils :
  (forall conf net key startAddr qty w s w' s' (coils : list bool),
     run net (Server.readCoils conf key startAddr qty) w s
     = (w', s', Ok coils) ->
     exists pdu : list byte,
       run net (Server.modbusRequest conf key x01
                  (Server.readData startAddr qty)) w s
       = (w', s', Ok pdu) /\
       length coils = Z.to_nat qty /\
       forall i : nat, (i < Z.to_nat qty)%nat ->
         coils !! i = Some (coilAt pdu (Z.of_nat i)) /\
         (Z.of_nat (length pdu) <= 2 + Z.of_nat i / 8 ->
          coils !! i = Some false)) /\
  (forall net host port start count w s w' s' (coils : list bool),
     run net (ModbusClient.readCoils host port start count) w s
     = (w', s', Ok coils) ->
     exists client data w0,
       w' = w0 ++ [(ModbusClient.ReadCoils client start count,
                    ModbusClient.Resolved data, s')] /\
       coils = ModbusClient.sliceTo data count /\
       (0 <= count ->
        coils = take (Z.to_nat count) data /\
        length coils = Nat.min (Z.to_nat count) (length data))).
Proof.
  split.
  - intros conf net key startAddr qty w s w' s' coils Hrun.
    exact (readCoils_unpacks_qty_coils conf net key startAddr qty w s w' s'
             coils Hrun).
  - intros net host port start count w s w' s' coils Hrun.
    apply run_withRetry_ok in Hrun as (client & w0 & s0 & Hop).
    rewrite run_bind, run_library_call in Hop.
    destruct (net (length w0)) as [data|m]; [|discriminate Hop].
    cbn [run] in Hop. injection Hop as <- <- <-.
    exists client, data, w0. split; [reflexivity|]. split; [reflexivity|].
    intros Hc. unfold ModbusClient.sliceTo.
    destruct (Z.ltb_spec count 0); [lia|].
    split; [reflexivity|]. apply length_take.
Qed.

End ReadCoilsClaims.

Section ReadCoilsExamples.

Import Buf Codec Async.
Local Open Scope Z_scope.

(** Twelve coils asked, one data byte answered. [server.js] reads the
    last four as off; the client hands on the eight values the library
    decoded. *)
Lemma readCoils_returns_qty_coils_witness :
  let answer := [true; false; true; false; false; false; false; false;
                 false; false; false; false] in
  let decoded := [true; false; true; false; false; false; false; false] in
  (run (fun _ => Server.oneByteReply)
       (Server.readCoils Server.defaultConfig "board1" 0 12) []
       (Server.initState Server.defaultConfig)).2 = Ok answer /\
  length answer = Z.to_nat 12 /\
  (run (fun _ => ModbusClient.Resolved decoded)
       (ModbusClient.readCoils "10.10.10.64" 4196 0 12) []
       ModbusClient.connectedState).2 = Ok decoded /\
  length decoded = Nat.min (Z.to_nat 12) (length decoded).
Proof.
  intros answer decoded.
  destruct readCoils_returns_qty_coils as [Hserver Hclient].
  pose (X := run (fun _ => Server.oneByteReply)
               (Server.readCoils Server.defaultConfig "board1" 0 12) []
               (Server.initState Server.defaultConfig)).
  assert (X = (X.1.1, X.1.2, Ok answer)) as HX by (vm_compute; reflexivity).
  pose (Y := run (fun _ => ModbusClient.Resolved decoded)
               (ModbusClient.readCoils "10.10.10.64" 4196 0 12) []
               ModbusClient.connectedState).
  assert (Y = (Y.1.1, Y.1.2, Ok decoded)) as HY by (vm_compute; reflexivity).
  destruct (Hserver _ _ _ _ _ _ _ _ _ _ HX) as (pdu & _ & Hlen & _).
  destruct (Hclient _ _ _ _ _ _ _ _ _ _ HY) as (c & data & w0 & _ & _ & Hn).
  split; [exact (f_equal snd HX)|]. split; [exact Hlen|].
  split; [exact (f_equal snd HY)|]. reflexivity.
Defined.

(** C10 for the client: of twelve coils asked, the caller gets the eight
    the library decoded from a one-byte answer. *)
Lemma client_readCoils_returns_fewer :
  let decoded := [true; false; true; false; false; false; false; false] in
  let r := run (fun _ => ModbusClient.Resolved decoded)
               (ModbusClient.readCoils "10.10.10.64" 4196 0 12) []
               ModbusClient.connectedState in
  r.2 = Ok decoded /\ length decoded <> Z.to_nat 12 /\
  ModbusClient.requests r.1.1 = [ModbusClient.ReadCoils 0 0 12].
Proof. vm_compute. repeat split; try reflexivity. lia. Qed.

End ReadCoilsExamples.

Section ServerExamples.

Import Buf Codec Async Server Routes.
Local Open Scope Z_scope.

Lemma registered_onlineState : registered defaultConfig onlineState.
Proof. apply registered_default_lookup; vm_compute; eauto. Qed.

Lemma timers_closingState : timers closingState = [(0%nat, CloseRelease 1)].
Proof. vm_compute. reflexivity. Qed.

Lemma timersOk_closingState : timersOk closingState.
Proof.
  split; [exact tracked_closingState|]. rewrite timers_closingState.
  split.
  - cbn. apply NoDup_singleton.
  - intros t Ht. apply list_elem_of_singleton in Ht as ->.
    vm_compute. lia.
Qed.

(** Board 1 online and silent: the heartbeat makes its one request and
    leaves the gate flag down. *)
Lemma heartbeat_reports_edges_witness :
  exists e s' b',
    run silentNet (heartbeatBoard defaultConfig "board1") [] onlineState
    = ([] ++ [e], s', Ok tt) /\
    boardState s' !! "board1" = Some b' /\ commandLock b' = false.
Proof.
  destruct (heartbeat_reports_edges defaultConfig silentNet "board1"
              {| BoardCfg.host := "10.10.10.64"; BoardCfg.port := 4196;
                 BoardCfg.unitId := 1; BoardCfg.channels := 6;
                 BoardCfg.name := "Board 1 (Main)" |}
              {| reachable := true; modeDetected := true; useRTU := false;
                 commandLock := false; coils := replicate 6 false;
                 transactionId := 0 |}
              [] onlineState)
    as (e & s' & b' & H1 & _ & H3 & _ & H5 & _).
  - reflexivity.
  - vm_compute. reflexivity.
  - unfold wfBoard. cbn. lia.
  - reflexivity.
  - reflexivity.
  - exists e, s', b'. auto.
Defined.

(** The release timer of the close of barrier 1 comes due. *)
Lemma close_auto_release_fires_once_witness :
  exists x s',
    run ackNet (fireTimer defaultConfig 0) [] closingState
    = ([] ++ [x], s', Ok tt) /\
    closeTimers s' !! 1 = None.
Proof.
  destruct (close_auto_release_fires_once defaultConfig ackNet 0%nat 1
              {| Barrier.board := "board1"; Barrier.lift := 0;
                 Barrier.close := 1; Barrier.stop := 2;
                 Barrier.name := "Barrier 1" |}
              {| BoardCfg.host := "10.10.10.64"; BoardCfg.port := 4196;
                 BoardCfg.unitId := 1; BoardCfg.channels := 6;
                 BoardCfg.name := "Board 1 (Main)" |}
              [] closingState)
    as (x & s' & H1 & _ & _ & H4 & _).
  - vm_compute. reflexivity.
  - reflexivity.
  - cbn. lia.
  - apply registered_closingState with
      (cfg := {| BoardCfg.host := "10.10.10.64"; BoardCfg.port := 4196;
                 BoardCfg.unitId := 1; BoardCfg.channels := 6;
                 BoardCfg.name := "Board 1 (Main)" |}).
    reflexivity.
  - cbn. lia.
  - vm_compute. reflexivity.
  - exists x, s'. split; [exact H1|]. rewrite H4. apply lookup_delete_eq.
Defined.

(** Both boards online and silent. *)
Lemma getStatus_polls_and_reports_witness :
  exists w1 s' st,
    run silentNet (getStatus defaultConfig) [] onlineState
    = ([] ++ w1, s', Ok (StatusReply st)) /\
    map logical w1 = statusReads (BOARDS defaultConfig) onlineState.
Proof.
  destruct (getStatus_polls_and_reports defaultConfig silentNet []
              onlineState wfConfig_default registered_onlineState)
    as (w1 & s' & st & H1 & H2 & _).
  exists w1, s', st. auto.
Defined.

(** The report of the default registry with both boards online. *)
Lemma getFullStatus_in_key_order_witness :
  exists st,
    getFullStatus defaultConfig onlineState = Ok st /\
    StronglySorted Z.lt (BarrierStatus.id <$> barriers st).
Proof.
  destruct (getFullStatus_in_key_order defaultConfig onlineState
              wfConfig_default registered_onlineState)
    as (st & H1 & H2 & _).
  exists st. split; [exact H1|exact H2].
Defined.


(** [POST /api/barrier/%C2%A01/LIFT]: the no-break space before the id is
    skipped and the action lower-cased; the lift of barrier 1 is run and
    answered with channel 1. *)
Lemma postBarrier_validates_witness :
  (run ackNet (postBarrier defaultConfig (Api.nbsp +:+ "1") "LIFT" None) []
       onlineState).2
  = Ok (ActionReply "Barrier 1" "lift" (Some 1)).
Proof.
  destruct (postBarrier_validates defaultConfig (Api.nbsp +:+ "1") "LIFT" None
              ackNet [] onlineState) as [_ H].
  - reflexivity.
  - intros id Hid. vm_compute in Hid. injection Hid as <-. lia.
  - exact (f_equal snd
             (H : run ackNet (postBarrier defaultConfig (Api.nbsp +:+ "1")
                                "LIFT" None) [] onlineState
                  = (_, _, Ok (ActionReply "Barrier 1" "lift" (Some 1))))).
Defined.

(** A lift of barrier 1 with every write acknowledged: one entry in the
    audit ring, which was empty. *)
Lemma action_audited_iff_returned_witness :
  let X := run ackNet (latchBarrierAction defaultConfig 1 "lift" "api") []
               onlineState in
  X.2 = Ok tt /\ length (auditEntries X.1.2) = 1%nat.
Proof.
  intros X.
  pose proof (action_audited_iff_returned defaultConfig ackNet 1 "lift"
                "api" [] onlineState ltac:(left)) as H.
  cbv zeta in H. fold X in H.
  assert (X.2 = Ok tt) as HX by (vm_compute; reflexivity).
  rewrite HX in H. destruct H as (barrier & _ & Ha & _).
  split; [exact HX|]. rewrite Ha. reflexivity.
Defined.

End ServerExamples.

Section ApiExamples.

Import Async Api ApiRoutes.
Local Open Scope Z_scope.

Lemma allFrom_spec (check : N -> bool) (count : nat) (n : N) :
  allFrom check n count = true ->
  forall i : nat, (i < count)%nat -> check (n + N.of_nat i)%N = true.
Proof.
  revert n. induction count as [|count IH]; intros n H i Hi; [lia|].
  cbn [allFrom] in H. apply andb_true_iff in H as [H0 H].
  destruct i as [|i].
  - rewrite N.add_0_r. exact H0.
  - replace (n + N.of_nat (S i))%N with (N.succ n + N.of_nat i)%N by lia.
    apply IH; [exact H|lia].
Qed.

Lemma everyCodePoint_spec (check : N -> bool) :
  everyCodePoint check = true ->
  forall cp, (cp < 65536)%N -> check cp = true.
Proof.
  intros H cp Hcp. unfold everyCodePoint in H.
  assert (cp / 256 < 256)%N as Hhi
    by (apply N.Div0.div_lt_upper_bound; lia).
  assert (cp mod 256 < 256)%N as Hlo by (apply N.mod_lt; lia).
  pose proof (allFrom_spec _ _ _ H (N.to_nat (cp / 256)) ltac:(lia)) as H1.
  cbv beta in H1.
  pose proof (allFrom_spec _ _ _ H1 (N.to_nat (cp mod 256)) ltac:(lia)) as H2.
  cbv beta in H2. rewrite !N.add_0_l, !N2Nat.id in H2.
  rewrite <- N.div_mod in H2 by lia. exact H2.
Qed.

(** [parseInt] skips every white space character before the number, alone
    or in a row, and no other character of the basic plane: after any
    other, signs and digits apart, it finds no number. *)
Lemma parseInt_skips_white_space :
  Forall (fun cp => parseInt (utf8 cp +:+ "7") = Some 7) whiteSpace /\
  parseInt (String.concat "" (utf8 <$> whiteSpace) +:+ "-42px")
  = Some (-42) /\
  nbsp = utf8 0xA0 /\ findBarrier (nbsp +:+ "1") = findBarrier "1" /\
  forall cp, (cp < 65536)%N -> cp ∉ whiteSpace ->
    cp <> 0x2B%N -> cp <> 0x2D%N -> (cp < 0x30 \/ 0x39 < cp)%N ->
    parseInt (utf8 cp +:+ "7") = None.
Proof.
  split; [|split; [|split; [|split]]].
  - unfold whiteSpace.
    repeat (apply Forall_cons; split; [vm_compute; reflexivity|]).
    constructor.
  - vm_compute. reflexivity.
  - reflexivity.
  - vm_compute. reflexivity.
  - intros cp Hcp Hws Hplus Hminus Hdigit.
    assert (everyCodePoint stopsParseInt = true) as Hall
      by (vm_compute; reflexivity).
    pose proof (everyCodePoint_spec _ Hall cp Hcp) as H.
    unfold stopsParseInt in H.
    assert (existsb (N.eqb cp) whiteSpace = false) as Hn.
    { destruct (existsb (N.eqb cp) whiteSpace) eqn:E; [|reflexivity].
      exfalso. apply Hws. apply existsb_exists in E as (x & Hx & Heq).
      apply N.eqb_eq in Heq. subst x. apply list_elem_of_In, Hx. }
    apply N.eqb_neq in Hplus, Hminus. rewrite Hn, Hplus, Hminus in H.
    assert (((0x30 <=? cp) && (cp <=? 0x39))%N = false) as Hd.
    { apply andb_false_iff. destruct Hdigit as [Hl|Hu];
        [left; apply N.leb_gt; exact Hl|right; apply N.leb_gt; exact Hu]. }
    rewrite Hd in H. cbn [orb] in H.
    destruct (parseInt (utf8 cp +:+ "7")); [discriminate H|reflexivity].
Qed.

(** The combined barrier has its coils out of order: lift 4, stop 5,
    close 3. *)
Lemma relay_status_reads_one_window_witness :
  (run (fun _ => Resolved [true; false; true]) (getRelayStatus "3") []
       initState).2
  = Ok (RelayStatus "krs-combo" (Some false) (Some true) (Some true)).
Proof.
  destruct (relay_status_reads_one_window
              (fun _ => Resolved [true; false; true]) "3"
              {| id := "krs-combo"; numericId := 3;
                 name := "Entry/Exit Barrier";
                 site := "KRS01"; direction := "both";
                 relay_host := "10.10.10.65"; relay_port := 4196;
                 coils_lift := 4; coils_stop := 5; coils_close := 3 |}
              [] initState)
    as (_ & _ & _ & _ & _ & H & _).
  - vm_compute. reflexivity.
  - exact H.
Defined.

Lemma timers_liftedEntry :
  timers liftedEntry
  = [(0%nat, PulseOff entryBarrier lift); (1%nat, BroadcastState)].
Proof. vm_compute. reflexivity. Qed.

(** Locking the entry barrier by its id. *)
Lemma lock_and_unlock_only_set_the_flag_witness :
  (run okNet (postLock "krs-entry") [] initState).2
  = Ok {| status := 200; body := LockBody "krs-entry" true |}.
Proof.
  destruct (lock_and_unlock_only_set_the_flag okNet "krs-entry" entryBarrier
              {| locked := false; lastAction := None |} true [] initState)
    as (_ & H & _).
  - vm_compute. reflexivity.
  - vm_compute. reflexivity.
  - exact H.
Defined.

(** A close of the entry barrier while its lift pulse is pending, the
    clearing write being rejected: the pulse timer 0 is gone. *)
Lemma failed_command_has_dropped_the_pulse_witness :
  (run (failAt 0 "Port Not Open") (postAction close "1") [] liftedEntry).2
  = Ok {| status := 500; body := ErrorBody "Port Not Open" |} /\
  forall task,
    (0%nat, task)
    ∈ timers (run (failAt 0 "Port Not Open") (postAction close "1") []
                  liftedEntry).1.2 ->
    task = BroadcastState.
Proof.
  destruct (failed_command_has_dropped_the_pulse
              (failAt 0 "Port Not Open") "1" entryBarrier
              {| locked := false; lastAction := Some "lift" |} close
              0%nat "Port Not Open" [] liftedEntry)
    as (H1 & _ & _ & _ & H5 & _).
  - vm_compute. reflexivity.
  - vm_compute. reflexivity.
  - left. reflexivity.
  - left. reflexivity.
  - intros i Hi. lia.
  - reflexivity.
  - split; [exact H1|]. intros task. apply (H5 0%nat task).
    vm_compute. reflexivity.
Defined.

(** The lift pulse of the entry barrier comes due and the write is
    rejected. *)
Lemma pulse_timer_releases_once_witness :
  (run (failAt 0 "Timed out") (fireTimer 0) [] liftedEntry).2 = Ok tt /\
  calls (run (failAt 0 "Timed out") (fireTimer 0) [] liftedEntry).1.1
  = [WriteCoil "10.10.10.64" 4196 0 false].
Proof.
  destruct (pulse_timer_releases_once (failAt 0 "Timed out") 0%nat
              entryBarrier lift [] liftedEntry)
    as (H1 & H2 & _).
  - unfold handlesFresh. rewrite timers_liftedEntry.
    repeat constructor; vm_compute; lia.
  - unfold pending. rewrite timers_liftedEntry. cbn.
    apply NoDup_cons. split; [|apply NoDup_singleton].
    intros Hin. apply list_elem_of_singleton in Hin. discriminate Hin.
  - rewrite timers_liftedEntry. left.
  - split; [exact H1|exact H2].
Defined.

End ApiExamples.

Section ClientExamples.

Import Async ModbusClient.
Local Open Scope Z_scope.

(** The write is rejected on the open connection and goes through on a
    new one. *)
Lemma writeCoil_retries_once_witness :
  exists w1,
    (run (rejectAt 0 "Timed out") (writeCoil "10.10.10.64" 4196 0 true) []
         connectedState).1.1 = [] ++ w1 /\
    (length (filter isConnect (requests w1)) <= 2)%nat.
Proof.
  destruct (writeCoil_retries_once (rejectAt 0 "Timed out") "10.10.10.64"
              4196 0 true [] connectedState) as (w1 & H1 & _ & H3 & _).
  - vm_compute. reflexivity.
  - exists w1. split; [exact H1|exact H3].
Defined.

(** Clearing three coils, the second write timing out. *)
Lemma writeMultipleCoils_replays_from_the_start_witness :
  (run (rejectAt 1 "Timed out")
       (writeMultipleCoils "10.10.10.64" 4196
          [(0, false); (1, false); (2, false)]) [] connectedState).2
  = Ok tt.
Proof.
  destruct (writeMultipleCoils_replays_from_the_start
              (rejectAt 1 "Timed out") "10.10.10.64" 4196
              [(0, false); (1, false); (2, false)] 0%nat 1%nat "Timed out"
              [] connectedState) as (H & _).
  - vm_compute. reflexivity.
  - vm_compute. reflexivity.
  - cbn. lia.
  - intros i Hi. exists []. destruct i; [reflexivity|lia].
  - reflexivity.
  - intros i Hi. exists []. unfold rejectAt. cbn [length Nat.add].
    destruct (Nat.eqb_spec (S (S i)) 1); [lia|reflexivity].
  - exact H.
Defined.

End ClientExamples.
